(** * The Louvain neighborhood indices of graphology-indices

  A shallow embedding of [neighborhood/louvain.js]: the undirected and the
  directed Louvain index (construction, [move], [expensiveMove], [zoomOut],
  [modularity], [delta] and its variants, the projections, [collect],
  [assign]), the properties the specification states about them and further
  properties of the code.  The easings of sigma come last.

  Conventions of the embedding.
  - A JavaScript number holding a weight (the [Float64Array]s, [M]) is an
    exact rational ([Qc]) wherever a property is one of arithmetic: sums,
    the modularity and its variations.  Rounding decides whether a state is
    restored bit for bit, so the moves are also given on IEEE 754 doubles
    (module [Binary64], on Rocq's primitive floats).  Infinities and NaN
    are not modelled: a property that divides by [M] holds where [M] is
    not 0.
  - A pointer array is a list of integers together with its element type,
    which [typed.getPointerArray] chooses from the capacity asked for: a
    value written to it is reduced modulo 2^8, 2^16 or 2^32.  A typed array
    keeps the type and the length the constructor gave it, so the type is
    read off the length: [belongings] has [graph.order] elements and
    [neighborhood] has [upperBound] elements.
  - A typed array has a fixed length: a write outside it is dropped
    (stdpp's list insert), a read outside it yields JavaScript's
    [undefined], for which the embedding reads the default element [0]
    (what a pointer array stores for [undefined]).
  - A JavaScript object used as a map from integers is a [gmap]; a
    [for ... in] loop visits its integer keys in ascending order.
  - Node keys are strings; [node < neighbor] is their lexicographic
    comparison, [String.ltb]. *)

From Stdlib Require Import PrimFloat.
From Stdlib Require Uint63.
From Stdlib Require Import QArith Qcanon Lqa.
From stdpp Require Import base numbers list gmap strings sorting.

Local Open Scope nat_scope.

(** ** Numbers and typed arrays *)

#[global] Instance Qc_inhabited : Inhabited Qc := populate (Q2Qc 0).

(** Sum of a list of weights. *)
Definition sumQc (l : list Qc) : Qc := foldr Qcplus (Q2Qc 0) l.

(** [arr[i] += x] and [arr[i] -= x] on a [Float64Array]. *)
Definition arr_add (i : nat) (x : Qc) (arr : list Qc) : list Qc :=
  <[i := (arr !!! i + x)%Qc]> arr.
Definition arr_sub (i : nat) (x : Qc) (arr : list Qc) : list Qc :=
  <[i := (arr !!! i - x)%Qc]> arr.

(** The element types of the typed arrays the index allocates. *)
Inductive ArrayType := Uint8Array | Uint16Array | Uint32Array | Float64Array.

(** Modelled from the spec: [typed.getPointerArray(size)], of the library
    mnemonist, which the sources require and do not hold.  It returns the
    narrowest array type whose elements hold the indices below [size], that
    is up to [maxIndex = size - 1]. *)
Definition getPointerArray (size : nat) : ArrayType :=
  let maxIndex := (Z.of_nat size - 1)%Z in
  if decide (maxIndex ≤ 2 ^ 8 - 1)%Z then Uint8Array
  else if decide (maxIndex ≤ 2 ^ 16 - 1)%Z then Uint16Array
  else if decide (maxIndex ≤ 2 ^ 32 - 1)%Z then Uint32Array
  else Float64Array.

(** The number of values an element of an unsigned integer array takes. *)
Definition modulus (ty : ArrayType) : option Z :=
  match ty with
  | Uint8Array => Some (2 ^ 8)%Z
  | Uint16Array => Some (2 ^ 16)%Z
  | Uint32Array => Some (2 ^ 32)%Z
  | Float64Array => None
  end.

(** [arr[i] = v] on a typed array converts the integer [v] to the element
    type: an unsigned integer array keeps it modulo 2^width. *)
Definition element (ty : ArrayType) (v : Z) : Z :=
  match modulus ty with
  | Some m => (v mod m)%Z
  | None => v
  end.

(** The same for the natural numbers the pointer arrays hold. *)
Definition pointer (ty : ArrayType) (v : nat) : nat :=
  Z.to_nat (element ty (Z.of_nat v)).

(** [arr[i] += x] and [arr[i] -= x] on the member counts, an array of type
    [ty]. *)
Definition cnt_add (ty : ArrayType) (i : nat) (x : Z) (arr : list Z)
    : list Z :=
  <[i := element ty (arr !!! i + x)]> arr.
Definition cnt_sub (ty : ArrayType) (i : nat) (x : Z) (arr : list Z)
    : list Z :=
  <[i := element ty (arr !!! i - x)]> arr.

(** [for (j = a; j < b; j++)]: the indices visited. *)
Definition range (a b : nat) : list nat := seq a (b - a).

(** ** The graph capability *)

Module Graph.

(** Modelled from the spec: an edge of the host graph, which the index only
    reads: its two extremities and its numeric attributes (an attribute that
    is missing, not a number or NaN is absent from [attributes]). *)
Record Edge := mkEdge {
  source : string;
  target : string;
  attributes : gmap string Qc
}.

(** Modelled from the spec: the host graph (graphology's [Graph], of which
    the sources only hold the type declarations): node keys in iteration
    order and the edges. *)
Record t := mk {
  nodes : list string;
  edge_list : list Edge
}.

(** Modelled from the spec: [graph.order] and [graph.size], integer counts. *)
Definition order (g : t) : nat := length (nodes g).
Definition size (g : t) : nat := length (edge_list g).

(** Modelled from the spec: [graph.edges(node)], the edges incident to
    [node]; a self-loop is listed once. *)
Definition edges (g : t) (node : string) : list Edge :=
  filter (λ e, source e = node ∨ target e = node) (edge_list g).

(** Modelled from the spec: [graph.outEdges(node)] and [graph.inEdges(node)]
    of a directed graph. *)
Definition outEdges (g : t) (node : string) : list Edge :=
  filter (λ e, source e = node) (edge_list g).
Definition inEdges (g : t) (node : string) : list Edge :=
  filter (λ e, target e = node) (edge_list g).

(** Modelled from the spec: [graph.opposite(node, edge)], the neighbor key. *)
Definition opposite (node : string) (e : Edge) : string :=
  if decide (node = source e) then target e else source e.

(** Modelled from the spec: [graph.getEdgeAttribute(edge, name)], when it is
    a number. *)
Definition getEdgeAttribute (e : Edge) (name : string) : option Qc :=
  attributes e !! name.

(** A self-loop joins a node to itself. *)
Definition is_loop (e : Edge) : Prop := source e = target e.

#[global] Instance is_loop_dec e : Decision (is_loop e) :=
  decide (source e = target e).

(** The graphs the host library can hold: node keys are distinct and every
    edge joins two nodes of the graph. *)
Definition wf (g : t) : Prop :=
  NoDup (nodes g) ∧
  Forall (λ e, source e ∈ nodes g ∧ target e ∈ nodes g) (edge_list g).

Definition loop_free (g : t) : Prop :=
  Forall (λ e, ¬ is_loop e) (edge_list g).

End Graph.

(** ** Options *)

Module Options.

(** [LouvainIndexOptions]; a field left out by the caller is [false] (the
    constructor tests [=== true]) or [None]. *)
Record t := mk {
  attributes_weight : option string;
  keepCounts : bool;
  keepDendrogram : bool;
  weighted : bool
}.

(** [DEFAULTS]. *)
Definition DEFAULTS : t :=
  {| attributes_weight := Some "weight"%string;
     keepCounts := false; keepDendrogram := false; weighted := false |}.

(** [attributes.weight || DEFAULTS.attributes.weight]: the empty string is
    falsy. *)
Definition weightAttribute (o : t) : string :=
  match attributes_weight o with
  | Some EmptyString | None => "weight"%string
  | Some s => s
  end.

(** [getWeight(edge)]. *)
Definition getWeight (o : t) (e : Graph.Edge) : Qc :=
  if weighted o then
    match Graph.getEdgeAttribute e (weightAttribute o) with
    | Some weight => weight
    | None => Q2Qc 1
    end
  else Q2Qc 1.

End Options.

(** [ids]: node key to index; [ids[neighbor]] stored into a pointer array. *)
Definition make_ids (nodes : list string) : gmap string nat :=
  foldl (λ ids i, <[nodes !!! i := i]> ids) ∅ (seq 0 (length nodes)).

Definition ids_get (ids : gmap string nat) (key : string) : nat :=
  default 0 (ids !! key).

(** ** The undirected index *)

Module Undirected.

Record Index := mkIndex {
  M : Qc;
  C : nat;
  E : nat;
  level : nat;
  graph : Graph.t;
  nodes : list string;
  keepCounts : bool;
  keepDendrogram : bool;
  neighborhood : list nat;
  weights : list Qc;
  loops : list Qc;
  starts : list nat;
  belongings : list nat;
  dendrogram : list (list nat);
  mapping : option (list nat);
  counts : option (list Z);
  internalWeights : list Qc;
  totalWeights : list Qc
}.

(** *** Construction *)

(** The variables the two nested loops of the constructor update. *)
Record Building := mkBuilding {
  b_M : Qc;
  b_n : nat;
  b_neighborhood : list nat;
  b_weights : list Qc;
  b_starts : list nat;
  b_belongings : list nat;
  b_counts : option (list Z);
  b_totalWeights : list Qc
}.

(** Body of the inner loop, for the edge [edge] of node [node] of index [i]. *)
Definition build_edge (g : Graph.t) (o : Options.t) (ids : gmap string nat)
    (node : string) (i : nat) (b : Building) (edge : Graph.Edge) : Building :=
  let NodesPointerArray := getPointerArray (Graph.order g) in
  let neighbor := Graph.opposite node edge in
  let weight := Options.getWeight o edge in
  {| b_M := if String.ltb node neighbor then (b_M b + weight)%Qc else b_M b;
     b_n := S (b_n b);
     b_neighborhood :=
       <[b_n b := pointer NodesPointerArray (ids_get ids neighbor)]>
         (b_neighborhood b);
     b_weights := <[b_n b := weight]> (b_weights b);
     b_starts := b_starts b;
     b_belongings := b_belongings b;
     b_counts := b_counts b;
     b_totalWeights := arr_add i weight (b_totalWeights b) |}.

(** Body of the outer loop, for the node of index [i]. *)
Definition build_node (g : Graph.t) (o : Options.t) (ids : gmap string nat)
    (b : Building) (i : nat) : Building :=
  let upperBound := Graph.size g * 2 in
  let NeighborhoodPointerArray := getPointerArray upperBound in
  let NodesPointerArray := getPointerArray (Graph.order g) in
  let node := Graph.nodes g !!! i in
  let edges := Graph.edges g node in
  let b' :=
    {| b_M := b_M b;
       b_n := b_n b;
       b_neighborhood := b_neighborhood b;
       b_weights := b_weights b;
       b_starts :=
         <[i := pointer NeighborhoodPointerArray (b_n b)]> (b_starts b);
       b_belongings := <[i := pointer NodesPointerArray i]> (b_belongings b);
       b_counts :=
         (λ counts, <[i := element NodesPointerArray 1]> counts)
           <$> b_counts b;
       b_totalWeights := b_totalWeights b |} in
  foldl (build_edge g o ids node i) b' edges.

Definition build_init (g : Graph.t) (o : Options.t) : Building :=
  let upperBound := Graph.size g * 2 in
  {| b_M := Q2Qc 0;
     b_n := 0;
     b_neighborhood := replicate upperBound 0;
     b_weights := replicate upperBound (Q2Qc 0);
     b_starts := replicate (Graph.order g + 1) 0;
     b_belongings := replicate (Graph.order g) 0;
     b_counts :=
       if Options.keepCounts o then Some (replicate (Graph.order g) 0%Z)
       else None;
     b_totalWeights := replicate (Graph.order g) (Q2Qc 0) |}.

Definition build_loop (g : Graph.t) (o : Options.t) : Building :=
  foldl (build_node g o (make_ids (Graph.nodes g))) (build_init g o)
        (seq 0 (Graph.order g)).

(** [new UndirectedLouvainIndex(graph, options)]. *)
Definition UndirectedLouvainIndex (g : Graph.t) (o : Options.t) : Index :=
  let upperBound := Graph.size g * 2 in
  let NeighborhoodPointerArray := getPointerArray upperBound in
  let b := build_loop g o in
  {| M := b_M b;
     C := Graph.order g;
     E := Graph.size g * 2;
     level := 0;
     graph := g;
     nodes := Graph.nodes g;
     keepCounts := Options.keepCounts o;
     keepDendrogram := Options.keepDendrogram o;
     neighborhood := b_neighborhood b;
     weights := b_weights b;
     loops := replicate (Graph.order g) (Q2Qc 0);
     starts :=
       <[Graph.order g := pointer NeighborhoodPointerArray upperBound]>
         (b_starts b);
     belongings := b_belongings b;
     dendrogram :=
       if Options.keepDendrogram o then [b_belongings b] else [];
     mapping :=
       if Options.keepDendrogram o then None else Some (b_belongings b);
     counts := b_counts b;
     internalWeights := replicate (Graph.order g) (Q2Qc 0);
     totalWeights := b_totalWeights b |}.

(** The element types of the pointer arrays of an index:
    [NodesPointerArray], chosen for [graph.order], the length of
    [belongings], is the type of [belongings], [counts], [neighborhood] and
    [mapping]; [NeighborhoodPointerArray], chosen for [upperBound], the
    length of [neighborhood], is the type of [starts]. *)
Definition NodesPointerArray (s : Index) : ArrayType :=
  getPointerArray (length (belongings s)).
Definition NeighborhoodPointerArray (s : Index) : ArrayType :=
  getPointerArray (length (neighborhood s)).

(** *** Moves *)

(** [this.counts], which is only [null] when [keepCounts] is off. *)
Definition counts_arr (s : Index) : list Z := default [] (counts s).

(** [move(i, degree, currentCommunityDegree, targetCommunityDegree,
    targetCommunity)]. *)
Definition move (i : nat) (degree currentCommunityDegree
    targetCommunityDegree : Qc) (targetCommunity : nat) (s : Index) : Index :=
  let currentCommunity := belongings s !!! i in
  let loops_i := loops s !!! i in
  {| M := M s;
     C := C s;
     E := E s;
     level := level s;
     graph := graph s;
     nodes := nodes s;
     keepCounts := keepCounts s;
     keepDendrogram := keepDendrogram s;
     neighborhood := neighborhood s;
     weights := weights s;
     loops := loops s;
     starts := starts s;
     belongings :=
       <[i := pointer (NodesPointerArray s) targetCommunity]> (belongings s);
     dendrogram := dendrogram s;
     mapping := mapping s;
     counts :=
       if keepCounts s then
         (λ counts,
            let count := counts !!! i in
            cnt_add (NodesPointerArray s) targetCommunity count
              (cnt_sub (NodesPointerArray s) currentCommunity count counts))
           <$> counts s
       else counts s;
     internalWeights :=
       arr_add targetCommunity (targetCommunityDegree * 2 + loops_i)
         (arr_sub currentCommunity (currentCommunityDegree * 2 + loops_i)
            (internalWeights s));
     totalWeights :=
       arr_add targetCommunity (degree + loops_i)
         (arr_sub currentCommunity (degree + loops_i) (totalWeights s)) |}.

(** [bounds(i)]. *)
Definition bounds (s : Index) (i : nat) : nat * nat :=
  (starts s !!! i, starts s !!! (i + 1)).

(** The three sums [expensiveMove] accumulates over the block of a node. *)
Record Degrees := mkDegrees {
  degree : Qc;
  currentCommunityDegree : Qc;
  targetCommunityDegree : Qc
}.

Definition scan_edge (s : Index) (c ci : nat) (d : Degrees) (o : nat)
    : Degrees :=
  let n := neighborhood s !!! o in
  let weight := weights s !!! o in
  let cn := belongings s !!! n in
  {| degree := (degree d + weight)%Qc;
     currentCommunityDegree :=
       if decide (c = cn) then (currentCommunityDegree d + weight)%Qc
       else currentCommunityDegree d;
     targetCommunityDegree :=
       if decide (cn = ci) then (targetCommunityDegree d + weight)%Qc
       else targetCommunityDegree d |}.

Definition scan (s : Index) (i ci : nat) : Degrees :=
  foldl (scan_edge s (belongings s !!! i) ci)
        (mkDegrees (Q2Qc 0) (Q2Qc 0) (Q2Qc 0))
        (range (starts s !!! i) (starts s !!! (i + 1))).

(** [expensiveMove(i, ci)]. *)
Definition expensiveMove (i ci : nat) (s : Index) : Index :=
  let d := scan s i ci in
  move i (degree d) (currentCommunityDegree d) (targetCommunityDegree d) ci s.

(** *** Coarsening *)

(** An entry of [inducedGraph]. *)
Record Community := mkCommunity {
  adj : gmap nat Qc;
  c_counts : option Z;
  c_totalWeights : Qc;
  c_internalWeights : Qc
}.

#[global] Instance Community_inhabited : Inhabited Community :=
  populate (mkCommunity ∅ None (Q2Qc 0) (Q2Qc 0)).

(** First loop of [zoomOut]: renumbering.  [inducedGraph] receives the keys
    [0], [1], ... in this order, so it is the list of its entries and the
    counter [C] of the loop is its length. *)
Record Renumbering := mkRenumbering {
  r_newLabels : gmap nat nat;
  r_inducedGraph : list Community;
  r_belongings : list nat
}.

Definition renumber_node (s : Index) (r : Renumbering) (i : nat)
    : Renumbering :=
  let ci := r_belongings r !!! i in
  let C := length (r_inducedGraph r) in
  let '(newLabels, inducedGraph) :=
    match r_newLabels r !! ci with
    | Some _ => (r_newLabels r, r_inducedGraph r)
    | None =>
        (<[ci := C]> (r_newLabels r),
         r_inducedGraph r ++
           [ {| adj := ∅;
                c_counts :=
                  if keepCounts s then Some (counts_arr s !!! ci) else None;
                c_totalWeights := totalWeights s !!! ci;
                c_internalWeights := internalWeights s !!! ci |} ])
    end in
  {| r_newLabels := newLabels;
     r_inducedGraph := inducedGraph;
     r_belongings :=
       <[i := pointer (NodesPointerArray s) (default 0 (newLabels !! ci))]>
         (r_belongings r) |}.

Definition renumber (s : Index) : Renumbering :=
  foldl (renumber_node s) (mkRenumbering ∅ [] (belongings s))
        (seq 0 (C s)).

(** [nextLevel[i] = this.belongings[currentLevel[i]]] for [i < N], on a
    fresh array of length [N] and type [typed.getPointerArray(C)]. *)
Definition next_level (C : nat) (bel currentLevel : list nat) (N : nat)
    : list nat :=
  (λ i, pointer (getPointerArray C) (bel !!! (currentLevel !!! i)))
    <$> seq 0 N.

(** [this.mapping[i] = this.belongings[this.mapping[i]]] for [i < N], on
    the array [mapping] of type [ty]. *)
Definition flatten (ty : ArrayType) (bel mapping : list nat) (N : nat)
    : list nat :=
  foldl (λ mapping i, <[i := pointer ty (bel !!! (mapping !!! i))]> mapping)
        mapping (seq 0 N).

(** [if (!(cj in adj)) adj[cj] = 0; adj[cj] += w]. *)
Definition adj_add (cj : nat) (w : Qc) (c : Community) : Community :=
  {| adj := <[cj := (default (Q2Qc 0) (adj c !! cj) + w)%Qc]> (adj c);
     c_counts := c_counts c;
     c_totalWeights := c_totalWeights c;
     c_internalWeights := c_internalWeights c |}.

(** Second loop: the induced graph.  The weight added is [this.weights[n]],
    read at the neighbor [n], as the source has it. *)
Definition induce_edge (s : Index) (bel : list nat) (ci : nat)
    (acc : list Community * nat) (j : nat) : list Community * nat :=
  let n := neighborhood s !!! j in
  let cj := bel !!! n in
  if decide (ci = cj) then acc
  else (alter (adj_add cj (weights s !!! n)) ci acc.1, S acc.2).

Definition induce_node (s : Index) (bel : list nat)
    (acc : list Community * nat) (i : nat) : list Community * nat :=
  foldl (induce_edge s bel (bel !!! i)) acc
        (range (starts s !!! i) (starts s !!! (i + 1))).

Definition induce (s : Index) (r : Renumbering) : list Community * nat :=
  foldl (induce_node s (r_belongings r)) (r_inducedGraph r, 0)
        (seq 0 (C s)).

(** [for (cj in adj)]: the entries of [adj], keys ascending. *)
Definition key_le (x y : nat * Qc) : Prop := x.1 ≤ y.1.

#[global] Instance key_le_dec : RelDecision key_le :=
  λ x y, decide (x.1 ≤ y.1).

Definition adj_entries (a : gmap nat Qc) : list (nat * Qc) :=
  merge_sort key_le (map_to_list a).

(** Third loop: rewriting the arrays. *)
Record Rewriting := mkRewriting {
  w_n : nat;
  w_neighborhood : list nat;
  w_weights : list Qc;
  w_loops : list Qc;
  w_starts : list nat;
  w_belongings : list nat;
  w_counts : option (list Z);
  w_internalWeights : list Qc;
  w_totalWeights : list Qc
}.

Definition rewrite_edge (s : Index) (w : Rewriting) (e : nat * Qc)
    : Rewriting :=
  {| w_n := S (w_n w);
     w_neighborhood :=
       <[w_n w := pointer (NodesPointerArray s) e.1]> (w_neighborhood w);
     w_weights := <[w_n w := e.2]> (w_weights w);
     w_loops := w_loops w;
     w_starts := w_starts w;
     w_belongings := w_belongings w;
     w_counts := w_counts w;
     w_internalWeights := w_internalWeights w;
     w_totalWeights := w_totalWeights w |}.

Definition rewrite_community (s : Index) (w : Rewriting)
    (entry : nat * Community) : Rewriting :=
  let '(ci, data) := entry in
  let w' :=
    {| w_n := w_n w;
       w_neighborhood := w_neighborhood w;
       w_weights := w_weights w;
       w_loops := <[ci := c_internalWeights data]> (w_loops w);
       w_starts :=
         <[ci := pointer (NeighborhoodPointerArray s) (w_n w)]> (w_starts w);
       w_belongings :=
         <[ci := pointer (NodesPointerArray s) ci]> (w_belongings w);
       w_counts :=
         if keepCounts s then
           (λ counts,
              <[ci := element (NodesPointerArray s)
                        (default 0%Z (c_counts data))]> counts)
             <$> w_counts w
         else w_counts w;
       w_internalWeights :=
         <[ci := c_internalWeights data]> (w_internalWeights w);
       w_totalWeights := <[ci := c_totalWeights data]> (w_totalWeights w) |} in
  foldl (rewrite_edge s) w' (adj_entries (adj data)).

Definition rewrite_init (s : Index) (bel : list nat) : Rewriting :=
  {| w_n := 0;
     w_neighborhood := neighborhood s;
     w_weights := weights s;
     w_loops := loops s;
     w_starts := starts s;
     w_belongings := bel;
     w_counts := counts s;
     w_internalWeights := internalWeights s;
     w_totalWeights := totalWeights s |}.

Definition rewrite (s : Index) (bel : list nat)
    (inducedGraph : list Community) : Rewriting :=
  foldl (rewrite_community s) (rewrite_init s bel) (imap pair inducedGraph).

(** [zoomOut()]. *)
Definition zoomOut (s : Index) : Index :=
  let N := length (nodes s) in
  let r := renumber s in
  let bel := r_belongings r in
  let C' := length (r_inducedGraph r) in
  let '(inducedGraph, E') := induce s r in
  let w := rewrite s bel inducedGraph in
  {| M := M s;
     C := C';
     E := E';
     level := S (level s);
     graph := graph s;
     nodes := nodes s;
     keepCounts := keepCounts s;
     keepDendrogram := keepDendrogram s;
     neighborhood := w_neighborhood w;
     weights := w_weights w;
     loops := w_loops w;
     starts := <[C' := pointer (NeighborhoodPointerArray s) E']> (w_starts w);
     belongings := w_belongings w;
     dendrogram :=
       if keepDendrogram s then
         dendrogram s ++
           [next_level C' bel (default [] (dendrogram s !! level s)) N]
       else dendrogram s;
     mapping :=
       if keepDendrogram s then mapping s
       else (λ mapping, flatten (NodesPointerArray s) bel mapping N)
              <$> mapping s;
     counts := w_counts w;
     internalWeights := w_internalWeights w;
     totalWeights := w_totalWeights w |}.

(** *** Modularity and its variations *)

(** [modularity()]. *)
Definition modularity (s : Index) : Qc :=
  let M2 := (M s * 2)%Qc in
  foldl (λ Q i,
           (Q + (internalWeights s !!! i / M2
                 - (totalWeights s !!! i / M2) ^ 2))%Qc)
        (Q2Qc 0) (seq 0 (C s)).

(** [delta(degree, targetCommunityDegree, targetCommunity)]. *)
Definition delta (s : Index) (degree targetCommunityDegree : Qc)
    (targetCommunity : nat) : Qc :=
  let M := M s in
  let targetCommunityTotalWeight := totalWeights s !!! targetCommunity in
  (targetCommunityDegree / M
   - (targetCommunityTotalWeight * degree) / (2 * M * M))%Qc.

(** [deltaWithOwnCommunity(degree, targetCommunityDegree, targetCommunity)]. *)
Definition deltaWithOwnCommunity (s : Index)
    (degree targetCommunityDegree : Qc) (targetCommunity : nat) : Qc :=
  let M := M s in
  let targetCommunityTotalWeight := totalWeights s !!! targetCommunity in
  (targetCommunityDegree / M
   - ((targetCommunityTotalWeight - degree) * degree) / (2 * M * M))%Qc.

(** [trueDelta(i, degree, currentCommunityDegree, targetCommunityDegree,
    targetCommunity)]. *)
Definition trueDelta (s : Index) (i : nat)
    (degree currentCommunityDegree targetCommunityDegree : Qc)
    (targetCommunity : nat) : Qc :=
  let M := M s in
  let currentCommunity := belongings s !!! i in
  let loops := loops s !!! i in
  let currentCommunityTotalWeight := totalWeights s !!! currentCommunity in
  let targetCommunityTotalWeight := totalWeights s !!! targetCommunity in
  ((targetCommunityDegree - currentCommunityDegree) / M
   + ((loops + degree) * currentCommunityTotalWeight
      - degree ^ 2 - loops ^ 2 - 2 * loops * degree
      - (loops + degree) * targetCommunityTotalWeight)
     / (2 * M ^ 2))%Qc.

(** *** Export *)

(** [collect(level)]; [None] for the argument is the call without argument,
    [None] for the result the [TypeError] raised when [this.dendrogram]
    has no such level. *)
Definition collect (s : Index) (level_arg : option nat)
    : option (gmap string nat) :=
  let level := default (level s) level_arg in
  mapping ← (if keepDendrogram s then dendrogram s !! level else mapping s);
  Some (foldl (λ (o : gmap string nat) i,
                 <[default "undefined"%string (nodes s !! i)
                   := mapping !!! i]> o)
              ∅ (seq 0 (length mapping))).

End Undirected.

(** ** The directed index *)

Module Directed.

Record Index := mkIndex {
  M : Qc;
  C : nat;
  E : nat;
  level : nat;
  graph : Graph.t;
  nodes : list string;
  keepCounts : bool;
  keepDendrogram : bool;
  neighborhood : list nat;
  weights : list Qc;
  loops : list Qc;
  starts : list nat;
  offsets : list nat;
  belongings : list nat;
  dendrogram : list (list nat);
  mapping : option (list nat);
  counts : option (list Z);
  internalWeights : list Qc;
  totalInWeights : list Qc;
  totalOutWeights : list Qc
}.

(** *** Construction *)

Record Building := mkBuilding {
  b_M : Qc;
  b_n : nat;
  b_neighborhood : list nat;
  b_weights : list Qc;
  b_starts : list nat;
  b_offsets : list nat;
  b_belongings : list nat;
  b_counts : option (list Z);
  b_totalInWeights : list Qc;
  b_totalOutWeights : list Qc
}.

(** Body of the loop over the outgoing edges of the node of index [i]. *)
Definition build_out_edge (g : Graph.t) (o : Options.t)
    (ids : gmap string nat) (node : string) (i : nat) (b : Building)
    (edge : Graph.Edge) : Building :=
  let NodesPointerArray := getPointerArray (Graph.order g) in
  let neighbor := Graph.opposite node edge in
  let weight := Options.getWeight o edge in
  {| b_M := (b_M b + weight)%Qc;
     b_n := S (b_n b);
     b_neighborhood :=
       <[b_n b := pointer NodesPointerArray (ids_get ids neighbor)]>
         (b_neighborhood b);
     b_weights := <[b_n b := weight]> (b_weights b);
     b_starts := b_starts b;
     b_offsets := b_offsets b;
     b_belongings := b_belongings b;
     b_counts := b_counts b;
     b_totalInWeights :=
       arr_add (ids_get ids neighbor) weight (b_totalInWeights b);
     b_totalOutWeights := arr_add i weight (b_totalOutWeights b) |}.

(** Body of the loop over its incoming edges. *)
Definition build_in_edge (g : Graph.t) (o : Options.t)
    (ids : gmap string nat) (node : string) (b : Building)
    (edge : Graph.Edge) : Building :=
  let NodesPointerArray := getPointerArray (Graph.order g) in
  let neighbor := Graph.opposite node edge in
  let weight := Options.getWeight o edge in
  {| b_M := b_M b;
     b_n := S (b_n b);
     b_neighborhood :=
       <[b_n b := pointer NodesPointerArray (ids_get ids neighbor)]>
         (b_neighborhood b);
     b_weights := <[b_n b := weight]> (b_weights b);
     b_starts := b_starts b;
     b_offsets := b_offsets b;
     b_belongings := b_belongings b;
     b_counts := b_counts b;
     b_totalInWeights := b_totalInWeights b;
     b_totalOutWeights := b_totalOutWeights b |}.

(** [this.offsets[i] = n]. *)
Definition record_offset (g : Graph.t) (i : nat) (b : Building) : Building :=
  let NeighborhoodPointerArray := getPointerArray (Graph.size g * 2) in
  {| b_M := b_M b;
     b_n := b_n b;
     b_neighborhood := b_neighborhood b;
     b_weights := b_weights b;
     b_starts := b_starts b;
     b_offsets :=
       <[i := pointer NeighborhoodPointerArray (b_n b)]> (b_offsets b);
     b_belongings := b_belongings b;
     b_counts := b_counts b;
     b_totalInWeights := b_totalInWeights b;
     b_totalOutWeights := b_totalOutWeights b |}.

Definition build_node (g : Graph.t) (o : Options.t) (ids : gmap string nat)
    (b : Building) (i : nat) : Building :=
  let upperBound := Graph.size g * 2 in
  let NeighborhoodPointerArray := getPointerArray upperBound in
  let NodesPointerArray := getPointerArray (Graph.order g) in
  let node := Graph.nodes g !!! i in
  let b1 :=
    {| b_M := b_M b;
       b_n := b_n b;
       b_neighborhood := b_neighborhood b;
       b_weights := b_weights b;
       b_starts :=
         <[i := pointer NeighborhoodPointerArray (b_n b)]> (b_starts b);
       b_offsets := b_offsets b;
       b_belongings := <[i := pointer NodesPointerArray i]> (b_belongings b);
       b_counts :=
         (λ counts, <[i := element NodesPointerArray 1]> counts)
           <$> b_counts b;
       b_totalInWeights := b_totalInWeights b;
       b_totalOutWeights := b_totalOutWeights b |} in
  let b2 :=
    foldl (build_out_edge g o ids node i) b1 (Graph.outEdges g node) in
  let b3 := record_offset g i b2 in
  foldl (build_in_edge g o ids node) b3 (Graph.inEdges g node).

Definition build_init (g : Graph.t) (o : Options.t) : Building :=
  let upperBound := Graph.size g * 2 in
  {| b_M := Q2Qc 0;
     b_n := 0;
     b_neighborhood := replicate upperBound 0;
     b_weights := replicate upperBound (Q2Qc 0);
     b_starts := replicate (Graph.order g + 1) 0;
     b_offsets := replicate (Graph.order g) 0;
     b_belongings := replicate (Graph.order g) 0;
     b_counts :=
       if Options.keepCounts o then Some (replicate (Graph.order g) 0%Z)
       else None;
     b_totalInWeights := replicate (Graph.order g) (Q2Qc 0);
     b_totalOutWeights := replicate (Graph.order g) (Q2Qc 0) |}.

Definition build_loop (g : Graph.t) (o : Options.t) : Building :=
  foldl (build_node g o (make_ids (Graph.nodes g))) (build_init g o)
        (seq 0 (Graph.order g)).

(** [new DirectedLouvainIndex(graph, options)]. *)
Definition DirectedLouvainIndex (g : Graph.t) (o : Options.t) : Index :=
  let upperBound := Graph.size g * 2 in
  let NeighborhoodPointerArray := getPointerArray upperBound in
  let b := build_loop g o in
  {| M := b_M b;
     C := Graph.order g;
     E := Graph.size g * 2;
     level := 0;
     graph := g;
     nodes := Graph.nodes g;
     keepCounts := Options.keepCounts o;
     keepDendrogram := Options.keepDendrogram o;
     neighborhood := b_neighborhood b;
     weights := b_weights b;
     loops := replicate (Graph.order g) (Q2Qc 0);
     starts :=
       <[Graph.order g := pointer NeighborhoodPointerArray upperBound]>
         (b_starts b);
     offsets := b_offsets b;
     belongings := b_belongings b;
     dendrogram :=
       if Options.keepDendrogram o then [b_belongings b] else [];
     mapping :=
       if Options.keepDendrogram o then None else Some (b_belongings b);
     counts := b_counts b;
     internalWeights := replicate (Graph.order g) (Q2Qc 0);
     totalInWeights := b_totalInWeights b;
     totalOutWeights := b_totalOutWeights b |}.

(** The element types of the pointer arrays, as for the undirected index;
    [offsets] has the type of [starts]. *)
Definition NodesPointerArray (s : Index) : ArrayType :=
  getPointerArray (length (belongings s)).
Definition NeighborhoodPointerArray (s : Index) : ArrayType :=
  getPointerArray (length (neighborhood s)).

(** [bounds(i)], [inBounds(i)] and [outBounds(i)]. *)
Definition bounds (s : Index) (i : nat) : nat * nat :=
  (starts s !!! i, starts s !!! (i + 1)).
Definition inBounds (s : Index) (i : nat) : nat * nat :=
  (offsets s !!! i, starts s !!! (i + 1)).
Definition outBounds (s : Index) (i : nat) : nat * nat :=
  (starts s !!! i, offsets s !!! i).

(** *** Coarsening *)

Definition counts_arr (s : Index) : list Z := default [] (counts s).

Record Community := mkCommunity {
  inAdj : gmap nat Qc;
  outAdj : gmap nat Qc;
  c_counts : option Z;
  c_totalInWeights : Qc;
  c_totalOutWeights : Qc;
  c_internalWeights : Qc
}.

Record Renumbering := mkRenumbering {
  r_newLabels : gmap nat nat;
  r_inducedGraph : list Community;
  r_belongings : list nat
}.

Definition renumber_node (s : Index) (r : Renumbering) (i : nat)
    : Renumbering :=
  let ci := r_belongings r !!! i in
  let C := length (r_inducedGraph r) in
  let '(newLabels, inducedGraph) :=
    match r_newLabels r !! ci with
    | Some _ => (r_newLabels r, r_inducedGraph r)
    | None =>
        (<[ci := C]> (r_newLabels r),
         r_inducedGraph r ++
           [ {| inAdj := ∅;
                outAdj := ∅;
                c_counts :=
                  if keepCounts s then Some (counts_arr s !!! ci) else None;
                c_totalInWeights := totalInWeights s !!! ci;
                c_totalOutWeights := totalOutWeights s !!! ci;
                c_internalWeights := internalWeights s !!! ci |} ])
    end in
  {| r_newLabels := newLabels;
     r_inducedGraph := inducedGraph;
     r_belongings :=
       <[i := pointer (NodesPointerArray s) (default 0 (newLabels !! ci))]>
         (r_belongings r) |}.

Definition renumber (s : Index) : Renumbering :=
  foldl (renumber_node s) (mkRenumbering ∅ [] (belongings s))
        (seq 0 (C s)).

(** [out === 0], where [out] holds the boolean [j < offset]: strict
    equality of a boolean and a number never holds. *)
Definition strict_eq_zero (out : bool) : bool := false.

Definition adj_add (cj : nat) (w : Qc) (a : gmap nat Qc) : gmap nat Qc :=
  <[cj := (default (Q2Qc 0) (a !! cj) + w)%Qc]> a.

(** [adj[cj] += w] for the map [adj = out === 0 ? inAdj : outAdj]. *)
Definition community_add (out : bool) (cj : nat) (w : Qc) (c : Community)
    : Community :=
  {| inAdj := if strict_eq_zero out then adj_add cj w (inAdj c) else inAdj c;
     outAdj :=
       if strict_eq_zero out then outAdj c else adj_add cj w (outAdj c);
     c_counts := c_counts c;
     c_totalInWeights := c_totalInWeights c;
     c_totalOutWeights := c_totalOutWeights c;
     c_internalWeights := c_internalWeights c |}.

Definition induce_edge (s : Index) (bel : list nat) (ci offset : nat)
    (acc : list Community * nat) (j : nat) : list Community * nat :=
  let n := neighborhood s !!! j in
  let cj := bel !!! n in
  let out := bool_decide (j < offset) in
  if decide (ci = cj) then acc
  else (alter (community_add out cj (weights s !!! n)) ci acc.1, S acc.2).

Definition induce_node (s : Index) (bel : list nat)
    (acc : list Community * nat) (i : nat) : list Community * nat :=
  foldl (induce_edge s bel (bel !!! i) (offsets s !!! i)) acc
        (range (starts s !!! i) (starts s !!! (i + 1))).

Definition induce (s : Index) (r : Renumbering) : list Community * nat :=
  foldl (induce_node s (r_belongings r)) (r_inducedGraph r, 0)
        (seq 0 (C s)).

Record Rewriting := mkRewriting {
  w_n : nat;
  w_neighborhood : list nat;
  w_weights : list Qc;
  w_loops : list Qc;
  w_starts : list nat;
  w_offsets : list nat;
  w_belongings : list nat;
  w_counts : option (list Z);
  w_internalWeights : list Qc;
  w_totalInWeights : list Qc;
  w_totalOutWeights : list Qc
}.

Definition rewrite_edge (s : Index) (w : Rewriting) (e : nat * Qc)
    : Rewriting :=
  {| w_n := S (w_n w);
     w_neighborhood :=
       <[w_n w := pointer (NodesPointerArray s) e.1]> (w_neighborhood w);
     w_weights := <[w_n w := e.2]> (w_weights w);
     w_loops := w_loops w;
     w_starts := w_starts w;
     w_offsets := w_offsets w;
     w_belongings := w_belongings w;
     w_counts := w_counts w;
     w_internalWeights := w_internalWeights w;
     w_totalInWeights := w_totalInWeights w;
     w_totalOutWeights := w_totalOutWeights w |}.

(** [this.offsets[ci] = n]. *)
Definition rewrite_offset (s : Index) (ci : nat) (w : Rewriting)
    : Rewriting :=
  {| w_n := w_n w;
     w_neighborhood := w_neighborhood w;
     w_weights := w_weights w;
     w_loops := w_loops w;
     w_starts := w_starts w;
     w_offsets :=
       <[ci := pointer (NeighborhoodPointerArray s) (w_n w)]> (w_offsets w);
     w_belongings := w_belongings w;
     w_counts := w_counts w;
     w_internalWeights := w_internalWeights w;
     w_totalInWeights := w_totalInWeights w;
     w_totalOutWeights := w_totalOutWeights w |}.

Definition rewrite_community (s : Index) (w : Rewriting)
    (entry : nat * Community) : Rewriting :=
  let '(ci, data) := entry in
  let w1 :=
    {| w_n := w_n w;
       w_neighborhood := w_neighborhood w;
       w_weights := w_weights w;
       w_loops := <[ci := c_internalWeights data]> (w_loops w);
       w_starts :=
         <[ci := pointer (NeighborhoodPointerArray s) (w_n w)]> (w_starts w);
       w_offsets := w_offsets w;
       w_belongings :=
         <[ci := pointer (NodesPointerArray s) ci]> (w_belongings w);
       w_counts :=
         if keepCounts s then
           (λ counts,
              <[ci := element (NodesPointerArray s)
                        (default 0%Z (c_counts data))]> counts)
             <$> w_counts w
         else w_counts w;
       w_internalWeights :=
         <[ci := c_internalWeights data]> (w_internalWeights w);
       w_totalInWeights :=
         <[ci := c_totalInWeights data]> (w_totalInWeights w);
       w_totalOutWeights :=
         <[ci := c_totalOutWeights data]> (w_totalOutWeights w) |} in
  let w2 :=
    foldl (rewrite_edge s) w1 (Undirected.adj_entries (inAdj data)) in
  let w3 := rewrite_offset s ci w2 in
  foldl (rewrite_edge s) w3 (Undirected.adj_entries (outAdj data)).

Definition rewrite_init (s : Index) (bel : list nat) : Rewriting :=
  {| w_n := 0;
     w_neighborhood := neighborhood s;
     w_weights := weights s;
     w_loops := loops s;
     w_starts := starts s;
     w_offsets := offsets s;
     w_belongings := bel;
     w_counts := counts s;
     w_internalWeights := internalWeights s;
     w_totalInWeights := totalInWeights s;
     w_totalOutWeights := totalOutWeights s |}.

Definition rewrite (s : Index) (bel : list nat)
    (inducedGraph : list Community) : Rewriting :=
  foldl (rewrite_community s) (rewrite_init s bel) (imap pair inducedGraph).

(** [zoomOut()]. *)
Definition zoomOut (s : Index) : Index :=
  let N := length (nodes s) in
  let r := renumber s in
  let bel := r_belongings r in
  let C' := length (r_inducedGraph r) in
  let '(inducedGraph, E') := induce s r in
  let w := rewrite s bel inducedGraph in
  {| M := M s;
     C := C';
     E := E';
     level := S (level s);
     graph := graph s;
     nodes := nodes s;
     keepCounts := keepCounts s;
     keepDendrogram := keepDendrogram s;
     neighborhood := w_neighborhood w;
     weights := w_weights w;
     loops := w_loops w;
     starts := <[C' := pointer (NeighborhoodPointerArray s) E']> (w_starts w);
     offsets := w_offsets w;
     belongings := w_belongings w;
     dendrogram :=
       if keepDendrogram s then
         dendrogram s ++
           [Undirected.next_level C' bel
              (default [] (dendrogram s !! level s)) N]
       else dendrogram s;
     mapping :=
       if keepDendrogram s then mapping s
       else (λ mapping,
               Undirected.flatten (NodesPointerArray s) bel mapping N)
              <$> mapping s;
     counts := w_counts w;
     internalWeights := w_internalWeights w;
     totalInWeights := w_totalInWeights w;
     totalOutWeights := w_totalOutWeights w |}.

(** *** Moves *)

(** [move(i, inDegree, outDegree, currentCommunityInDegree,
    currentCommunityOutDegree, targetCommunityInDegree,
    targetCommunityOutDegree, targetCommunity)]. *)
Definition move (i : nat) (inDegree outDegree currentCommunityInDegree
    currentCommunityOutDegree targetCommunityInDegree
    targetCommunityOutDegree : Qc) (targetCommunity : nat) (s : Index)
    : Index :=
  let currentCommunity := belongings s !!! i in
  let loops_i := loops s !!! i in
  {| M := M s;
     C := C s;
     E := E s;
     level := level s;
     graph := graph s;
     nodes := nodes s;
     keepCounts := keepCounts s;
     keepDendrogram := keepDendrogram s;
     neighborhood := neighborhood s;
     weights := weights s;
     loops := loops s;
     starts := starts s;
     offsets := offsets s;
     belongings :=
       <[i := pointer (NodesPointerArray s) targetCommunity]> (belongings s);
     dendrogram := dendrogram s;
     mapping := mapping s;
     counts :=
       if keepCounts s then
         (λ counts,
            let count := counts !!! i in
            cnt_add (NodesPointerArray s) targetCommunity count
              (cnt_sub (NodesPointerArray s) currentCommunity count counts))
           <$> counts s
       else counts s;
     internalWeights :=
       arr_add targetCommunity
         (targetCommunityInDegree + targetCommunityOutDegree + loops_i)
         (arr_sub currentCommunity
            (currentCommunityInDegree + currentCommunityOutDegree + loops_i)
            (internalWeights s));
     totalInWeights :=
       arr_add targetCommunity (inDegree + loops_i)
         (arr_sub currentCommunity (inDegree + loops_i) (totalInWeights s));
     totalOutWeights :=
       arr_add targetCommunity (outDegree + loops_i)
         (arr_sub currentCommunity (outDegree + loops_i)
            (totalOutWeights s)) |}.

(** The six sums [expensiveMove] accumulates over the block of a node. *)
Record Degrees := mkDegrees {
  inDegree : Qc;
  outDegree : Qc;
  currentCommunityInDegree : Qc;
  currentCommunityOutDegree : Qc;
  targetCommunityInDegree : Qc;
  targetCommunityOutDegree : Qc
}.

Definition scan_edge (s : Index) (c ci offset : nat) (d : Degrees) (o : nat)
    : Degrees :=
  let out := bool_decide (o < offset) in
  let n := neighborhood s !!! o in
  let weight := weights s !!! o in
  let cn := belongings s !!! n in
  if out then
    {| inDegree := inDegree d;
       outDegree := (outDegree d + weight)%Qc;
       currentCommunityInDegree := currentCommunityInDegree d;
       currentCommunityOutDegree :=
         if decide (c = cn) then (currentCommunityOutDegree d + weight)%Qc
         else currentCommunityOutDegree d;
       targetCommunityInDegree := targetCommunityInDegree d;
       targetCommunityOutDegree :=
         if decide (cn = ci) then (targetCommunityOutDegree d + weight)%Qc
         else targetCommunityOutDegree d |}
  else
    {| inDegree := (inDegree d + weight)%Qc;
       outDegree := outDegree d;
       currentCommunityInDegree :=
         if decide (c = cn) then (currentCommunityInDegree d + weight)%Qc
         else currentCommunityInDegree d;
       currentCommunityOutDegree := currentCommunityOutDegree d;
       targetCommunityInDegree :=
         if decide (cn = ci) then (targetCommunityInDegree d + weight)%Qc
         else targetCommunityInDegree d;
       targetCommunityOutDegree := targetCommunityOutDegree d |}.

Definition scan (s : Index) (i ci : nat) : Degrees :=
  foldl (scan_edge s (belongings s !!! i) ci (offsets s !!! i))
        (mkDegrees (Q2Qc 0) (Q2Qc 0) (Q2Qc 0) (Q2Qc 0) (Q2Qc 0) (Q2Qc 0))
        (range (starts s !!! i) (starts s !!! (i + 1))).

(** [expensiveMove(i, ci)]. *)
Definition expensiveMove (i ci : nat) (s : Index) : Index :=
  let d := scan s i ci in
  move i (inDegree d) (outDegree d)
       (currentCommunityInDegree d) (currentCommunityOutDegree d)
       (targetCommunityInDegree d) (targetCommunityOutDegree d) ci s.

(** *** Modularity and its variations *)

(** [modularity()]. *)
Definition modularity (s : Index) : Qc :=
  let M := M s in
  foldl (λ Q i,
           (Q + (internalWeights s !!! i / M
                 - totalInWeights s !!! i * totalOutWeights s !!! i
                   / M ^ 2))%Qc)
        (Q2Qc 0) (seq 0 (C s)).

(** [delta(inDegree, outDegree, targetCommunityDegree, targetCommunity)]. *)
Definition delta (s : Index) (inDegree outDegree targetCommunityDegree : Qc)
    (targetCommunity : nat) : Qc :=
  let M := M s in
  let targetCommunityTotalInWeight := totalInWeights s !!! targetCommunity in
  let targetCommunityTotalOutWeight := totalOutWeights s !!! targetCommunity in
  (targetCommunityDegree / M
   - (outDegree * targetCommunityTotalInWeight
      + inDegree * targetCommunityTotalOutWeight) / (M * M))%Qc.

(** [deltaWithOwnCommunity(inDegree, outDegree, targetCommunityDegree,
    targetCommunity)]. *)
Definition deltaWithOwnCommunity (s : Index)
    (inDegree outDegree targetCommunityDegree : Qc) (targetCommunity : nat)
    : Qc :=
  let M := M s in
  let targetCommunityTotalInWeight := totalInWeights s !!! targetCommunity in
  let targetCommunityTotalOutWeight := totalOutWeights s !!! targetCommunity in
  (targetCommunityDegree / M
   - (outDegree * (targetCommunityTotalInWeight - inDegree)
      + inDegree * (targetCommunityTotalOutWeight - outDegree)) / (M * M))%Qc.

End Directed.

(** * The indices on IEEE 754 doubles

  The constructors and the moves of the two indices again, with [M] and the
  [Float64Array]s holding binary64 numbers: the operations are those of
  Rocq's primitive floats, which round to nearest even as JavaScript
  does. *)

Module Binary64.

#[global] Instance float_inhabited : Inhabited float := populate 0%float.

(** The double an integer is converted to. *)
Definition of_Z (z : Z) : float :=
  match z with
  | Z0 => 0%float
  | Zpos p => of_uint63 (Uint63.of_Z (Zpos p))
  | Zneg p => (- of_uint63 (Uint63.of_Z (Zpos p)))%float
  end.

(** The JavaScript number a weight attribute holds: the double nearest to
    the rational of the graph, the quotient of two integers below 2^53. *)
Definition number (q : Qc) : float :=
  (of_Z (Qnum q) / of_Z (Zpos (Qden q)))%float.

(** [arr[i] += x] and [arr[i] -= x] on a [Float64Array]. *)
Definition arr_add (i : nat) (x : float) (arr : list float) : list float :=
  <[i := (arr !!! i + x)%float]> arr.
Definition arr_sub (i : nat) (x : float) (arr : list float) : list float :=
  <[i := (arr !!! i - x)%float]> arr.

(** [getWeight(edge)]. *)
Definition getWeight (o : Options.t) (e : Graph.Edge) : float :=
  if Options.weighted o then
    match Graph.getEdgeAttribute e (Options.weightAttribute o) with
    | Some weight => number weight
    | None => 1%float
    end
  else 1%float.

Record Index := mkIndex {
  M : float;
  C : nat;
  E : nat;
  level : nat;
  graph : Graph.t;
  nodes : list string;
  keepCounts : bool;
  keepDendrogram : bool;
  neighborhood : list nat;
  weights : list float;
  loops : list float;
  starts : list nat;
  belongings : list nat;
  dendrogram : list (list nat);
  mapping : option (list nat);
  counts : option (list Z);
  internalWeights : list float;
  totalWeights : list float
}.

(** *** Construction *)

Record Building := mkBuilding {
  b_M : float;
  b_n : nat;
  b_neighborhood : list nat;
  b_weights : list float;
  b_starts : list nat;
  b_belongings : list nat;
  b_counts : option (list Z);
  b_totalWeights : list float
}.

Definition build_edge (g : Graph.t) (o : Options.t) (ids : gmap string nat)
    (node : string) (i : nat) (b : Building) (edge : Graph.Edge) : Building :=
  let NodesPointerArray := getPointerArray (Graph.order g) in
  let neighbor := Graph.opposite node edge in
  let weight := getWeight o edge in
  {| b_M :=
       if String.ltb node neighbor then (b_M b + weight)%float else b_M b;
     b_n := S (b_n b);
     b_neighborhood :=
       <[b_n b := pointer NodesPointerArray (ids_get ids neighbor)]>
         (b_neighborhood b);
     b_weights := <[b_n b := weight]> (b_weights b);
     b_starts := b_starts b;
     b_belongings := b_belongings b;
     b_counts := b_counts b;
     b_totalWeights := arr_add i weight (b_totalWeights b) |}.

Definition build_node (g : Graph.t) (o : Options.t) (ids : gmap string nat)
    (b : Building) (i : nat) : Building :=
  let upperBound := Graph.size g * 2 in
  let NeighborhoodPointerArray := getPointerArray upperBound in
  let NodesPointerArray := getPointerArray (Graph.order g) in
  let node := Graph.nodes g !!! i in
  let edges := Graph.edges g node in
  let b' :=
    {| b_M := b_M b;
       b_n := b_n b;
       b_neighborhood := b_neighborhood b;
       b_weights := b_weights b;
       b_starts :=
         <[i := pointer NeighborhoodPointerArray (b_n b)]> (b_starts b);
       b_belongings := <[i := pointer NodesPointerArray i]> (b_belongings b);
       b_counts :=
         (λ counts, <[i := element NodesPointerArray 1]> counts)
           <$> b_counts b;
       b_totalWeights := b_totalWeights b |} in
  foldl (build_edge g o ids node i) b' edges.

Definition build_init (g : Graph.t) (o : Options.t) : Building :=
  let upperBound := Graph.size g * 2 in
  {| b_M := 0%float;
     b_n := 0;
     b_neighborhood := replicate upperBound 0;
     b_weights := replicate upperBound 0%float;
     b_starts := replicate (Graph.order g + 1) 0;
     b_belongings := replicate (Graph.order g) 0;
     b_counts :=
       if Options.keepCounts o then Some (replicate (Graph.order g) 0%Z)
       else None;
     b_totalWeights := replicate (Graph.order g) 0%float |}.

Definition build_loop (g : Graph.t) (o : Options.t) : Building :=
  foldl (build_node g o (make_ids (Graph.nodes g))) (build_init g o)
        (seq 0 (Graph.order g)).

(** [new UndirectedLouvainIndex(graph, options)]. *)
Definition UndirectedLouvainIndex (g : Graph.t) (o : Options.t) : Index :=
  let upperBound := Graph.size g * 2 in
  let NeighborhoodPointerArray := getPointerArray upperBound in
  let b := build_loop g o in
  {| M := b_M b;
     C := Graph.order g;
     E := Graph.size g * 2;
     level := 0;
     graph := g;
     nodes := Graph.nodes g;
     keepCounts := Options.keepCounts o;
     keepDendrogram := Options.keepDendrogram o;
     neighborhood := b_neighborhood b;
     weights := b_weights b;
     loops := replicate (Graph.order g) 0%float;
     starts :=
       <[Graph.order g := pointer NeighborhoodPointerArray upperBound]>
         (b_starts b);
     belongings := b_belongings b;
     dendrogram :=
       if Options.keepDendrogram o then [b_belongings b] else [];
     mapping :=
       if Options.keepDendrogram o then None else Some (b_belongings b);
     counts := b_counts b;
     internalWeights := replicate (Graph.order g) 0%float;
     totalWeights := b_totalWeights b |}.

Definition NodesPointerArray (s : Index) : ArrayType :=
  getPointerArray (length (belongings s)).

(** *** Moves *)

Definition counts_arr (s : Index) : list Z := default [] (counts s).

(** [move(i, degree, currentCommunityDegree, targetCommunityDegree,
    targetCommunity)]. *)
Definition move (i : nat) (degree currentCommunityDegree
    targetCommunityDegree : float) (targetCommunity : nat) (s : Index)
    : Index :=
  let currentCommunity := belongings s !!! i in
  let loops_i := loops s !!! i in
  {| M := M s;
     C := C s;
     E := E s;
     level := level s;
     graph := graph s;
     nodes := nodes s;
     keepCounts := keepCounts s;
     keepDendrogram := keepDendrogram s;
     neighborhood := neighborhood s;
     weights := weights s;
     loops := loops s;
     starts := starts s;
     belongings :=
       <[i := pointer (NodesPointerArray s) targetCommunity]> (belongings s);
     dendrogram := dendrogram s;
     mapping := mapping s;
     counts :=
       if keepCounts s then
         (λ counts,
            let count := counts !!! i in
            cnt_add (NodesPointerArray s) targetCommunity count
              (cnt_sub (NodesPointerArray s) currentCommunity count counts))
           <$> counts s
       else counts s;
     internalWeights :=
       arr_add targetCommunity (targetCommunityDegree * 2 + loops_i)
         (arr_sub currentCommunity (currentCommunityDegree * 2 + loops_i)
            (internalWeights s));
     totalWeights :=
       arr_add targetCommunity (degree + loops_i)
         (arr_sub currentCommunity (degree + loops_i) (totalWeights s)) |}.

Record Degrees := mkDegrees {
  degree : float;
  currentCommunityDegree : float;
  targetCommunityDegree : float
}.

Definition scan_edge (s : Index) (c ci : nat) (d : Degrees) (o : nat)
    : Degrees :=
  let n := neighborhood s !!! o in
  let weight := weights s !!! o in
  let cn := belongings s !!! n in
  {| degree := (degree d + weight)%float;
     currentCommunityDegree :=
       if decide (c = cn) then (currentCommunityDegree d + weight)%float
       else currentCommunityDegree d;
     targetCommunityDegree :=
       if decide (cn = ci) then (targetCommunityDegree d + weight)%float
       else targetCommunityDegree d |}.

Definition scan (s : Index) (i ci : nat) : Degrees :=
  foldl (scan_edge s (belongings s !!! i) ci)
        (mkDegrees 0%float 0%float 0%float)
        (range (starts s !!! i) (starts s !!! (i + 1))).

(** [expensiveMove(i, ci)]. *)
Definition expensiveMove (i ci : nat) (s : Index) : Index :=
  let d := scan s i ci in
  move i (degree d) (currentCommunityDegree d) (targetCommunityDegree d) ci s.

(** *** The directed index on doubles *)

Module Directed.

Record Index := mkIndex {
  M : float;
  C : nat;
  E : nat;
  level : nat;
  graph : Graph.t;
  nodes : list string;
  keepCounts : bool;
  keepDendrogram : bool;
  neighborhood : list nat;
  weights : list float;
  loops : list float;
  starts : list nat;
  offsets : list nat;
  belongings : list nat;
  dendrogram : list (list nat);
  mapping : option (list nat);
  counts : option (list Z);
  internalWeights : list float;
  totalInWeights : list float;
  totalOutWeights : list float
}.

(** *** Construction *)

Record Building := mkBuilding {
  b_M : float;
  b_n : nat;
  b_neighborhood : list nat;
  b_weights : list float;
  b_starts : list nat;
  b_offsets : list nat;
  b_belongings : list nat;
  b_counts : option (list Z);
  b_totalInWeights : list float;
  b_totalOutWeights : list float
}.

(** Body of the loop over the outgoing edges of the node of index [i]. *)
Definition build_out_edge (g : Graph.t) (o : Options.t)
    (ids : gmap string nat) (node : string) (i : nat) (b : Building)
    (edge : Graph.Edge) : Building :=
  let NodesPointerArray := getPointerArray (Graph.order g) in
  let neighbor := Graph.opposite node edge in
  let weight := getWeight o edge in
  {| b_M := (b_M b + weight)%float;
     b_n := S (b_n b);
     b_neighborhood :=
       <[b_n b := pointer NodesPointerArray (ids_get ids neighbor)]>
         (b_neighborhood b);
     b_weights := <[b_n b := weight]> (b_weights b);
     b_starts := b_starts b;
     b_offsets := b_offsets b;
     b_belongings := b_belongings b;
     b_counts := b_counts b;
     b_totalInWeights :=
       arr_add (ids_get ids neighbor) weight (b_totalInWeights b);
     b_totalOutWeights := arr_add i weight (b_totalOutWeights b) |}.

(** Body of the loop over its incoming edges. *)
Definition build_in_edge (g : Graph.t) (o : Options.t)
    (ids : gmap string nat) (node : string) (b : Building)
    (edge : Graph.Edge) : Building :=
  let NodesPointerArray := getPointerArray (Graph.order g) in
  let neighbor := Graph.opposite node edge in
  let weight := getWeight o edge in
  {| b_M := b_M b;
     b_n := S (b_n b);
     b_neighborhood :=
       <[b_n b := pointer NodesPointerArray (ids_get ids neighbor)]>
         (b_neighborhood b);
     b_weights := <[b_n b := weight]> (b_weights b);
     b_starts := b_starts b;
     b_offsets := b_offsets b;
     b_belongings := b_belongings b;
     b_counts := b_counts b;
     b_totalInWeights := b_totalInWeights b;
     b_totalOutWeights := b_totalOutWeights b |}.

(** [this.offsets[i] = n]. *)
Definition record_offset (g : Graph.t) (i : nat) (b : Building) : Building :=
  let NeighborhoodPointerArray := getPointerArray (Graph.size g * 2) in
  {| b_M := b_M b;
     b_n := b_n b;
     b_neighborhood := b_neighborhood b;
     b_weights := b_weights b;
     b_starts := b_starts b;
     b_offsets :=
       <[i := pointer NeighborhoodPointerArray (b_n b)]> (b_offsets b);
     b_belongings := b_belongings b;
     b_counts := b_counts b;
     b_totalInWeights := b_totalInWeights b;
     b_totalOutWeights := b_totalOutWeights b |}.

Definition build_node (g : Graph.t) (o : Options.t) (ids : gmap string nat)
    (b : Building) (i : nat) : Building :=
  let upperBound := Graph.size g * 2 in
  let NeighborhoodPointerArray := getPointerArray upperBound in
  let NodesPointerArray := getPointerArray (Graph.order g) in
  let node := Graph.nodes g !!! i in
  let b1 :=
    {| b_M := b_M b;
       b_n := b_n b;
       b_neighborhood := b_neighborhood b;
       b_weights := b_weights b;
       b_starts :=
         <[i := pointer NeighborhoodPointerArray (b_n b)]> (b_starts b);
       b_offsets := b_offsets b;
       b_belongings := <[i := pointer NodesPointerArray i]> (b_belongings b);
       b_counts :=
         (λ counts, <[i := element NodesPointerArray 1]> counts)
           <$> b_counts b;
       b_totalInWeights := b_totalInWeights b;
       b_totalOutWeights := b_totalOutWeights b |} in
  let b2 :=
    foldl (build_out_edge g o ids node i) b1 (Graph.outEdges g node) in
  let b3 := record_offset g i b2 in
  foldl (build_in_edge g o ids node) b3 (Graph.inEdges g node).

Definition build_init (g : Graph.t) (o : Options.t) : Building :=
  let upperBound := Graph.size g * 2 in
  {| b_M := 0%float;
     b_n := 0;
     b_neighborhood := replicate upperBound 0;
     b_weights := replicate upperBound 0%float;
     b_starts := replicate (Graph.order g + 1) 0;
     b_offsets := replicate (Graph.order g) 0;
     b_belongings := replicate (Graph.order g) 0;
     b_counts :=
       if Options.keepCounts o then Some (replicate (Graph.order g) 0%Z)
       else None;
     b_totalInWeights := replicate (Graph.order g) 0%float;
     b_totalOutWeights := replicate (Graph.order g) 0%float |}.

Definition build_loop (g : Graph.t) (o : Options.t) : Building :=
  foldl (build_node g o (make_ids (Graph.nodes g))) (build_init g o)
        (seq 0 (Graph.order g)).

(** [new DirectedLouvainIndex(graph, options)]. *)
Definition DirectedLouvainIndex (g : Graph.t) (o : Options.t) : Index :=
  let upperBound := Graph.size g * 2 in
  let NeighborhoodPointerArray := getPointerArray upperBound in
  let b := build_loop g o in
  {| M := b_M b;
     C := Graph.order g;
     E := Graph.size g * 2;
     level := 0;
     graph := g;
     nodes := Graph.nodes g;
     keepCounts := Options.keepCounts o;
     keepDendrogram := Options.keepDendrogram o;
     neighborhood := b_neighborhood b;
     weights := b_weights b;
     loops := replicate (Graph.order g) 0%float;
     starts :=
       <[Graph.order g := pointer NeighborhoodPointerArray upperBound]>
         (b_starts b);
     offsets := b_offsets b;
     belongings := b_belongings b;
     dendrogram :=
       if Options.keepDendrogram o then [b_belongings b] else [];
     mapping :=
       if Options.keepDendrogram o then None else Some (b_belongings b);
     counts := b_counts b;
     internalWeights := replicate (Graph.order g) 0%float;
     totalInWeights := b_totalInWeights b;
     totalOutWeights := b_totalOutWeights b |}.

Definition NodesPointerArray (s : Index) : ArrayType :=
  getPointerArray (length (belongings s)).

Definition counts_arr (s : Index) : list Z := default [] (counts s).

(** *** Moves *)

(** [move(i, inDegree, outDegree, currentCommunityInDegree,
    currentCommunityOutDegree, targetCommunityInDegree,
    targetCommunityOutDegree, targetCommunity)]. *)
Definition move (i : nat) (inDegree outDegree currentCommunityInDegree
    currentCommunityOutDegree targetCommunityInDegree
    targetCommunityOutDegree : float) (targetCommunity : nat) (s : Index)
    : Index :=
  let currentCommunity := belongings s !!! i in
  let loops_i := loops s !!! i in
  {| M := M s;
     C := C s;
     E := E s;
     level := level s;
     graph := graph s;
     nodes := nodes s;
     keepCounts := keepCounts s;
     keepDendrogram := keepDendrogram s;
     neighborhood := neighborhood s;
     weights := weights s;
     loops := loops s;
     starts := starts s;
     offsets := offsets s;
     belongings :=
       <[i := pointer (NodesPointerArray s) targetCommunity]> (belongings s);
     dendrogram := dendrogram s;
     mapping := mapping s;
     counts :=
       if keepCounts s then
         (λ counts,
            let count := counts !!! i in
            cnt_add (NodesPointerArray s) targetCommunity count
              (cnt_sub (NodesPointerArray s) currentCommunity count counts))
           <$> counts s
       else counts s;
     internalWeights :=
       arr_add targetCommunity
         (targetCommunityInDegree + targetCommunityOutDegree + loops_i)
         (arr_sub currentCommunity
            (currentCommunityInDegree + currentCommunityOutDegree + loops_i)
            (internalWeights s));
     totalInWeights :=
       arr_add targetCommunity (inDegree + loops_i)
         (arr_sub currentCommunity (inDegree + loops_i) (totalInWeights s));
     totalOutWeights :=
       arr_add targetCommunity (outDegree + loops_i)
         (arr_sub currentCommunity (outDegree + loops_i)
            (totalOutWeights s)) |}.

(** The six sums [expensiveMove] accumulates over the block of a node. *)
Record Degrees := mkDegrees {
  inDegree : float;
  outDegree : float;
  currentCommunityInDegree : float;
  currentCommunityOutDegree : float;
  targetCommunityInDegree : float;
  targetCommunityOutDegree : float
}.

Definition scan_edge (s : Index) (c ci offset : nat) (d : Degrees) (o : nat)
    : Degrees :=
  let out := bool_decide (o < offset) in
  let n := neighborhood s !!! o in
  let weight := weights s !!! o in
  let cn := belongings s !!! n in
  if out then
    {| inDegree := inDegree d;
       outDegree := (outDegree d + weight)%float;
       currentCommunityInDegree := currentCommunityInDegree d;
       currentCommunityOutDegree :=
         if decide (c = cn) then (currentCommunityOutDegree d + weight)%float
         else currentCommunityOutDegree d;
       targetCommunityInDegree := targetCommunityInDegree d;
       targetCommunityOutDegree :=
         if decide (cn = ci) then (targetCommunityOutDegree d + weight)%float
         else targetCommunityOutDegree d |}
  else
    {| inDegree := (inDegree d + weight)%float;
       outDegree := outDegree d;
       currentCommunityInDegree :=
         if decide (c = cn) then (currentCommunityInDegree d + weight)%float
         else currentCommunityInDegree d;
       currentCommunityOutDegree := currentCommunityOutDegree d;
       targetCommunityInDegree :=
         if decide (cn = ci) then (targetCommunityInDegree d + weight)%float
         else targetCommunityInDegree d;
       targetCommunityOutDegree := targetCommunityOutDegree d |}.

Definition scan (s : Index) (i ci : nat) : Degrees :=
  foldl (scan_edge s (belongings s !!! i) ci (offsets s !!! i))
        (mkDegrees 0%float 0%float 0%float 0%float 0%float 0%float)
        (range (starts s !!! i) (starts s !!! (i + 1))).

(** [expensiveMove(i, ci)]. *)
Definition expensiveMove (i ci : nat) (s : Index) : Index :=
  let d := scan s i ci in
  move i (inDegree d) (outDegree d)
       (currentCommunityInDegree d) (currentCommunityOutDegree d)
       (targetCommunityInDegree d) (targetCommunityOutDegree d) ci s.

End Directed.

End Binary64.

(** * The easings of sigma

  A shallow embedding of [sigma/easings.js], on exact rationals. *)

Module Easings.

(** The literal [0.5]. *)
Definition half : Qc := Q2Qc (1 # 2).

(** [linear(k)]. *)
Definition linear (k : Qc) : Qc := k.

(** [quadraticIn(k)] and [quadraticOut(k)]. *)
Definition quadraticIn (k : Qc) : Qc := (k * k)%Qc.
Definition quadraticOut (k : Qc) : Qc := (k * (2 - k))%Qc.

(** [quadraticInOut(k)]: the test assigns [k *= 2]; in the second branch
    [--k] is decremented before the product reads [k] again. *)
Definition quadraticInOut (k : Qc) : Qc :=
  let k := (k * 2)%Qc in
  if Qclt_le_dec k 1 then (half * k * k)%Qc
  else let k := (k - 1)%Qc in (- half * (k * (k - 2) - 1))%Qc.

(** [cubicIn(k)] and [cubicOut(k)], the latter on the decremented [k]. *)
Definition cubicIn (k : Qc) : Qc := (k * k * k)%Qc.
Definition cubicOut (k : Qc) : Qc :=
  let k := (k - 1)%Qc in (k * k * k + 1)%Qc.

(** [cubicInOut(k)]: the test assigns [k *= 2], the second branch
    [k -= 2]. *)
Definition cubicInOut (k : Qc) : Qc :=
  let k := (k * 2)%Qc in
  if Qclt_le_dec k 1 then (half * k * k * k)%Qc
  else let k := (k - 2)%Qc in (half * (k * k * k + 2))%Qc.

(** The functions the module exports. *)
Definition exports : list (Qc → Qc) :=
  [linear; quadraticIn; quadraticOut; quadraticInOut;
   cubicIn; cubicOut; cubicInOut].

End Easings.

(** ** Notions used to state the properties *)

Import Undirected.

(** *** Typed arrays *)

(** An array of type [ty] holds the value [v]: a write of [v] reads back
    as [v]. *)
Definition holds (ty : ArrayType) (v : nat) : Prop := pointer ty v = v.

#[global] Instance holds_dec ty v : Decision (holds ty v) :=
  decide (pointer ty v = v).

(** The pointer array of [starts], of type [getPointerArray(upperBound)],
    holds [upperBound] itself: [2 * size] is none of 2^8, 2^16 and 2^32. *)
Definition fits (g : Graph.t) : Prop :=
  holds (getPointerArray (Graph.size g * 2)) (Graph.size g * 2).

#[global] Instance fits_dec g : Decision (fits g) :=
  decide (holds (getPointerArray (Graph.size g * 2)) (Graph.size g * 2)).

(** An element of a pointer array of integers of type [ty]. *)
Definition is_element (ty : ArrayType) (v : Z) : Prop := element ty v = v.

#[global] Instance is_element_dec ty v : Decision (is_element ty v) :=
  decide (element ty v = v).

(** *** Rounding *)

(** The index [s] with other internal and total weights. *)
Definition with_weights (s : Binary64.Index) (iw tw : list float)
    : Binary64.Index :=
  {| Binary64.M := Binary64.M s;
     Binary64.C := Binary64.C s;
     Binary64.E := Binary64.E s;
     Binary64.level := Binary64.level s;
     Binary64.graph := Binary64.graph s;
     Binary64.nodes := Binary64.nodes s;
     Binary64.keepCounts := Binary64.keepCounts s;
     Binary64.keepDendrogram := Binary64.keepDendrogram s;
     Binary64.neighborhood := Binary64.neighborhood s;
     Binary64.weights := Binary64.weights s;
     Binary64.loops := Binary64.loops s;
     Binary64.starts := Binary64.starts s;
     Binary64.belongings := Binary64.belongings s;
     Binary64.dendrogram := Binary64.dendrogram s;
     Binary64.mapping := Binary64.mapping s;
     Binary64.counts := Binary64.counts s;
     Binary64.internalWeights := iw;
     Binary64.totalWeights := tw |}.

(** What subtracting [x] and adding it back leaves of [arr[c]]. *)
Definition sub_add (c : nat) (x : float) (arr : list float) : list float :=
  <[c := (arr !!! c - x + x)%float]> arr.

(** What adding [x] and subtracting it again leaves of [arr[t]]. *)
Definition add_sub (t : nat) (x : float) (arr : list float) : list float :=
  <[t := (arr !!! t + x - x)%float]> arr.

(** The directed index [s] with other internal and total weights. *)
Definition directed_with_weights (s : Binary64.Directed.Index)
    (iw tin tout : list float) : Binary64.Directed.Index :=
  {| Binary64.Directed.M := Binary64.Directed.M s;
     Binary64.Directed.C := Binary64.Directed.C s;
     Binary64.Directed.E := Binary64.Directed.E s;
     Binary64.Directed.level := Binary64.Directed.level s;
     Binary64.Directed.graph := Binary64.Directed.graph s;
     Binary64.Directed.nodes := Binary64.Directed.nodes s;
     Binary64.Directed.keepCounts := Binary64.Directed.keepCounts s;
     Binary64.Directed.keepDendrogram := Binary64.Directed.keepDendrogram s;
     Binary64.Directed.neighborhood := Binary64.Directed.neighborhood s;
     Binary64.Directed.weights := Binary64.Directed.weights s;
     Binary64.Directed.loops := Binary64.Directed.loops s;
     Binary64.Directed.starts := Binary64.Directed.starts s;
     Binary64.Directed.offsets := Binary64.Directed.offsets s;
     Binary64.Directed.belongings := Binary64.Directed.belongings s;
     Binary64.Directed.dendrogram := Binary64.Directed.dendrogram s;
     Binary64.Directed.mapping := Binary64.Directed.mapping s;
     Binary64.Directed.counts := Binary64.Directed.counts s;
     Binary64.Directed.internalWeights := iw;
     Binary64.Directed.totalInWeights := tin;
     Binary64.Directed.totalOutWeights := tout |}.

(** *** What the constructor stores, read off the graph *)

(** The block of a node: the indices and the weights of its incident edges, in
    the order [graph.edges(node)] lists them. *)
Definition block_ids (g : Graph.t) (node : string) : list nat :=
  (λ e, ids_get (make_ids (Graph.nodes g)) (Graph.opposite node e))
    <$> Graph.edges g node.
Definition block_weights (g : Graph.t) (o : Options.t) (node : string)
    : list Qc :=
  Options.getWeight o <$> Graph.edges g node.

(** The weighted degree of a node: the sum of the weights of its incident
    edges. *)
Definition weighted_degree (g : Graph.t) (o : Options.t) (node : string) : Qc :=
  sumQc (block_weights g o node).

(** The part of [M] counted at a node: its edges towards a greater key. *)
Definition counted_weight (o : Options.t) (node : string) (e : Graph.Edge)
    : Qc :=
  if String.ltb node (Graph.opposite node e) then Options.getWeight o e
  else Q2Qc 0.
Definition counted_at (g : Graph.t) (o : Options.t) (node : string) : Qc :=
  sumQc (counted_weight o node <$> Graph.edges g node).

(** The number of entries written for the first [k] nodes. *)
Definition entries_before (g : Graph.t) (k : nat) : nat :=
  length (concat ((λ node, Graph.edges g node) <$> take k (Graph.nodes g))).

(** The total weight of the graph and that of its edges between two distinct
    nodes. *)
Definition total_weight (g : Graph.t) (o : Options.t) : Qc :=
  sumQc (Options.getWeight o <$> Graph.edge_list g).
Definition proper_weight (g : Graph.t) (o : Options.t) : Qc :=
  sumQc (Options.getWeight o
           <$> filter (λ e, ¬ Graph.is_loop e) (Graph.edge_list g)).

(** [arr.slice(a, b)]. *)
Definition slice {A} (a b : nat) (arr : list A) : list A :=
  take (b - a) (drop a arr).

(** The writes [arr[n] = v; n++] for the successive [v] of [vs]. *)
Fixpoint write_at {A} (n : nat) (vs : list A) (arr : list A) : list A :=
  match vs with
  | [] => arr
  | v :: vs => write_at (S n) vs (<[n := v]> arr)
  end.

(** What the constructor has computed once the first [k] nodes are done. *)
Definition built (g : Graph.t) (o : Options.t) (k : nat) : Building :=
  let upperBound := Graph.size g * 2 in
  let seen := take k (Graph.nodes g) in
  let ids := concat (block_ids g <$> seen) in
  let ws := concat (block_weights g o <$> seen) in
  {| b_M := sumQc (counted_at g o <$> seen);
     b_n := entries_before g k;
     b_neighborhood :=
       take upperBound (ids ++ replicate (upperBound - length ids) 0);
     b_weights :=
       take upperBound (ws ++ replicate (upperBound - length ws) (Q2Qc 0));
     b_starts :=
       ((λ i, pointer (getPointerArray upperBound) (entries_before g i))
          <$> seq 0 k)
         ++ replicate (Graph.order g + 1 - k) 0;
     b_belongings := seq 0 k ++ replicate (Graph.order g - k) 0;
     b_counts :=
       if Options.keepCounts o
       then Some (replicate k 1%Z ++ replicate (Graph.order g - k) 0%Z)
       else None;
     b_totalWeights :=
       (weighted_degree g o <$> seen)
         ++ replicate (Graph.order g - k) (Q2Qc 0) |}.

(** *** Invariants and runs *)

(** The sum of [totalWeights] over the current communities [0..C-1]. *)
Definition sum_totalWeights (s : Index) : Qc :=
  sumQc (take (C s) (totalWeights s)).

(** The weights stored in the block of node [i], which [expensiveMove]
    adds up. *)
Definition adjacency_sum (s : Index) (i : nat) : Qc :=
  sumQc ((λ p, weights s !!! p)
           <$> range (starts s !!! i) (starts s !!! (i + 1))).

(** The formula the specification gives for [delta]. *)
Definition delta_spec (M totalWeight_target degree targetDegree : Qc) : Qc :=
  (targetDegree / M - totalWeight_target * degree / (2 * M ^ 2))%Qc.

(** The operations applied to an index after its construction. *)
Inductive Op :=
  | OpMove (i : nat) (degree currentCommunityDegree targetCommunityDegree : Qc)
           (targetCommunity : nat)
  | OpExpensiveMove (i ci : nat)
  | OpZoomOut.

Definition exec (s : Index) (op : Op) : Index :=
  match op with
  | OpMove i d dc dt t => move i d dc dt t s
  | OpExpensiveMove i ci => expensiveMove i ci s
  | OpZoomOut => zoomOut s
  end.

Definition run (s : Index) (ops : list Op) : Index := foldl exec s ops.

(** The term of a community in the modularity. *)
Definition community_term (M2 internalWeight totalWeight : Qc) : Qc :=
  (internalWeight / M2 - (totalWeight / M2) ^ 2)%Qc.

(** *** Renumbering *)

(** The communities of a scan, in the order first encountered. *)
Definition first_seen (l : list nat) : list nat :=
  foldl (λ acc c, if decide (c ∈ acc) then acc else acc ++ [c]) [] l.

(** The position of the first occurrence of [c] in [l]. *)
Fixpoint index_of (c : nat) (l : list nat) : option nat :=
  match l with
  | [] => None
  | x :: l => if decide (x = c) then Some 0 else S <$> index_of c l
  end.

(** The dense renumbering of the communities of a scan: the rank of a
    community among those first encountered. *)
Definition dense_label (l : list nat) (c : nat) : nat :=
  default 0 (index_of c (first_seen l)).

(** The entry of [inducedGraph] created for community [c]. *)
Definition community_of (s : Index) (c : nat) : Community :=
  {| adj := ∅;
     c_counts := if keepCounts s then Some (counts_arr s !!! c) else None;
     c_totalWeights := totalWeights s !!! c;
     c_internalWeights := internalWeights s !!! c |}.

(** The belongings of a level once renumbered, as [zoomOut] composes them
    into the dendrogram or the mapping. *)
Definition renumbered (s : Index) : list nat :=
  let scanned := take (C s) (belongings s) in
  (dense_label scanned <$> scanned) ++ drop (C s) (belongings s).

(** The number of entries of the induced graph. *)
Definition induced_size (inducedGraph : list Community) : nat :=
  sum_list ((λ c, size (adj c)) <$> inducedGraph).

(** The shape every operation keeps: the arrays hold the current
    communities. *)
Definition shape (s : Index) : Prop :=
  C s < length (starts s)
  ∧ C s ≤ length (totalWeights s)
  ∧ C s ≤ length (belongings s).

(** [starts] is non-decreasing over [0..C] and ends at [E]. *)
Definition starts_ok (s : Index) : Prop :=
  (∀ i j, i ≤ j → j ≤ C s → starts s !!! i ≤ starts s !!! j)
  ∧ starts s !! C s = Some (E s).

(** The states of level 0: a fresh index, then moves that are given the
    actual adjacency sum of the node moved, the sum of the weights of its
    incident edges. *)
Inductive level0 (g : Graph.t) (o : Options.t) : Index → Prop :=
  | level0_new : level0 g o (UndirectedLouvainIndex g o)
  | level0_move s i dc dt t :
      level0 g o s → i < C s → t < C s →
      level0 g o
        (move i (weighted_degree g o (Graph.nodes g !!! i)) dc dt t s).

(** The members of community [c] among the nodes of the current level. *)
Definition memberless (s : Index) (c : nat) : Prop :=
  ∀ i, i < C s → belongings s !!! i ≠ c.

(** *** Levels *)

(** The composition of the belongings of successive levels, from the
    mapping [m] of the nodes at level 0. *)
Definition compose (levels : list (list nat)) (m : list nat) : list nat :=
  foldl (λ m B, (λ x, B !!! x) <$> m) m levels.

(** A run, together with the renumbered belongings of the levels it has
    closed. *)
Definition trace_step (acc : Index * list (list nat)) (op : Op)
    : Index * list (list nat) :=
  (exec acc.1 op,
   match op with
   | OpZoomOut => acc.2 ++ [renumbered acc.1]
   | _ => acc.2
   end).

Definition trace (s : Index) (ops : list Op) : Index * list (list nat) :=
  foldl trace_step (s, []) ops.

Definition is_move (op : Op) : Prop :=
  match op with OpZoomOut => False | _ => True end.

(** The object [o] maps the key of each node to its entry in [m], and holds
    nothing else. *)
Definition assigns (nodes : list string) (m : list nat)
    (o : gmap string nat) : Prop :=
  (∀ i node, nodes !! i = Some node → o !! node = Some (m !!! i))
  ∧ (∀ key, key ∉ nodes → o !! key = None).

(** What the dendrogram or the mapping of [s] holds after the levels
    [levels], for the [N] nodes of the graph; every node is mapped to one of
    the current communities. *)
Definition history_ok (N : nat) (levels : list (list nat)) (s : Index)
    : Prop :=
  level s = length levels
  ∧ length (nodes s) = N
  ∧ shape s
  ∧ Forall (λ c, c < C s) (compose levels (seq 0 N))
  ∧ if keepDendrogram s then
      length (dendrogram s) = S (length levels)
      ∧ ∀ l, l ≤ length levels →
             dendrogram s !! l = Some (compose (take l levels) (seq 0 N))
    else mapping s = Some (compose levels (seq 0 N)).

(** The weight of the current-level edges that join a node of community [a]
    to a node of community [b], communities being numbered as [zoomOut]
    renumbers them. *)
Definition joining_weight (s : Index) (a b : nat) : Qc :=
  sumQc ((λ i,
            sumQc ((λ j,
                      if decide (renumbered s !!! i = a
                                 ∧ renumbered s !!! (neighborhood s !!! j) = b)
                      then weights s !!! j else Q2Qc 0)
                     <$> range (starts s !!! i) (starts s !!! (i + 1))))
           <$> seq 0 (C s)).

(** The weight [zoomOut] accumulates from community [a] towards [b]. *)
Definition induced_weight (s : Index) (a b : nat) : option Qc :=
  adj ((induce s (renumber s)).1 !!! a) !! b.

(** *** Sample graphs *)

Definition edge (a b : string) : Graph.Edge := Graph.mkEdge a b ∅.
Definition weighted_edge (a b : string) (w : Z) : Graph.Edge :=
  Graph.mkEdge a b {[ "weight"%string := Qc_of_Z w ]}.

Definition rational_edge (a b : string) (w : Q) : Graph.Edge :=
  Graph.mkEdge a b {[ "weight"%string := Q2Qc w ]}.

(** One node carrying a self-loop. *)
Definition loop_graph : Graph.t :=
  Graph.mk ["a"%string] [edge "a" "a"].

(** Two nodes joined by an edge. *)
Definition pair_graph : Graph.t :=
  Graph.mk ["a"; "b"]%string [edge "a" "b"].

(** The triangle. *)
Definition triangle_graph : Graph.t :=
  Graph.mk ["a"; "b"; "c"]%string [edge "a" "b"; edge "a" "c"; edge "b" "c"].

(** The path a - b - c, with weights 5 and 7. *)
Definition weighted_path : Graph.t :=
  Graph.mk ["a"; "b"; "c"]%string
           [weighted_edge "a" "b" 5; weighted_edge "b" "c" 7].

Definition weighted_options : Options.t :=
  {| Options.attributes_weight := None; Options.keepCounts := false;
     Options.keepDendrogram := false; Options.weighted := true |}.

Definition dendrogram_options : Options.t :=
  {| Options.attributes_weight := None; Options.keepCounts := true;
     Options.keepDendrogram := true; Options.weighted := false |}.

(** The cycle a - b - c - d - a, with weights 0.1, 0.1, 0.1 and 0.2. *)
Definition weighted_cycle : Graph.t :=
  Graph.mk ["a"; "b"; "c"; "d"]%string
           [rational_edge "a" "b" (1 # 10); rational_edge "b" "c" (1 # 10);
            rational_edge "c" "d" (1 # 10); rational_edge "a" "d" (2 # 10)].

(** Two nodes joined by [n] parallel edges. *)
Definition parallel_graph (n : nat) : Graph.t :=
  Graph.mk ["a"; "b"]%string (replicate n (edge "a" "b")).

(** The directed graph a -> b. *)
Definition arrow_graph : Graph.t :=
  Graph.mk ["a"; "b"]%string [edge "a" "b"].

(** The number of entries the third loop of [zoomOut] writes. *)
Definition entries_rewritten (s : Index) : nat :=
  w_n (rewrite s (r_belongings (renumber s)) (induce s (renumber s)).1).

(** *** Loop invariants *)

(** The state of the first loop of [zoomOut] after [k] nodes. *)
Definition renumbered_upto (s : Index) (k : nat) (r : Renumbering) : Prop :=
  let scanned := take k (belongings s) in
  r_inducedGraph r = community_of s <$> first_seen scanned
  ∧ (∀ c, r_newLabels r !! c = index_of c (first_seen scanned))
  ∧ r_belongings r
    = (dense_label scanned <$> scanned) ++ drop k (belongings s).

(** What the second loop of [zoomOut] keeps of the induced graph. *)
Definition induced_from (ig0 : list Community) (acc : list Community * nat)
    : Prop :=
  c_totalWeights <$> acc.1 = c_totalWeights <$> ig0
  ∧ length acc.1 = length ig0
  ∧ induced_size acc.1 ≤ induced_size ig0 + acc.2.

(** What the third loop has done once it has visited [ig]; [starts],
    an array of type [ty], is in order when it holds the entries written. *)
Definition rewritten (ty : ArrayType) (w0 : Rewriting)
    (ig : list Community) (w : Rewriting) : Prop :=
  w_n w = induced_size ig
  ∧ length (w_starts w) = length (w_starts w0)
  ∧ length (w_totalWeights w) = length (w_totalWeights w0)
  ∧ length (w_belongings w) = length (w_belongings w0)
  ∧ length (w_neighborhood w) = length (w_neighborhood w0)
  ∧ take (length ig) (w_totalWeights w) = c_totalWeights <$> ig
  ∧ (holds ty (induced_size ig) →
     (∀ i j, i ≤ j → j < length ig → w_starts w !!! i ≤ w_starts w !!! j)
     ∧ (∀ i, i < length ig → w_starts w !!! i ≤ w_n w)).

(** The weight each community holds at level 0. *)
Definition members_weight (g : Graph.t) (o : Options.t) (s : Index) (c : nat)
    : Qc :=
  sumQc ((λ i, if decide (belongings s !!! i = c)
               then weighted_degree g o (Graph.nodes g !!! i)
               else Q2Qc 0) <$> seq 0 (Graph.order g)).

(** *** Further notions *)

(** The sum of [counts] over the current communities. *)
Definition sum_counts (s : Index) : Z :=
  foldr Z.add 0%Z (take (C s) (counts_arr s)).

(** The communities that have a member, in the order [zoomOut] first
    encounters them. *)
Definition occupied (s : Index) : list nat :=
  first_seen (take (C s) (belongings s)).

(** What the second loop of [zoomOut] keeps of the internal weights. *)
Definition induced_keeps (ig0 : list Community) (acc : list Community * nat)
    : Prop :=
  c_internalWeights <$> acc.1 = c_internalWeights <$> ig0.

(** What the third loop has written for the communities of [ig]. *)
Definition rewritten_fields (w0 : Rewriting) (ig : list Community)
    (w : Rewriting) : Prop :=
  length (w_loops w) = length (w_loops w0)
  ∧ length (w_internalWeights w) = length (w_internalWeights w0)
  ∧ length (w_belongings w) = length (w_belongings w0)
  ∧ (∀ ci data, ig !! ci = Some data →
       w_belongings w !!! ci = ci
       ∧ w_internalWeights w !!! ci = c_internalWeights data
       ∧ w_loops w !!! ci = c_internalWeights data).

(** *** Projections *)

(** [arr.slice(a, b)] for a bound [b] read in an array: where the read is
    out of range, [b] is [undefined] and the slice runs to the end. *)
Definition slice_to {A} (a : nat) (b : option nat) (arr : list A) : list A :=
  match b with
  | Some b => slice a b arr
  | None => drop a arr
  end.

(** The object [project()] and its directed variants build: for the node of
    index [i], the keys [nodes[j]] of the entries [j] of
    [neighborhood.slice(lo, hi)], [lo] and [hi] being the bounds read for
    [i]; [None] stands for the [undefined] that [nodes[j]] is out of
    range. *)
Definition project_with (nodes : list string) (lo : nat → nat)
    (hi : nat → option nat) (neighborhood : list nat)
    : gmap string (list (option string)) :=
  foldl (λ projection entry,
           <[entry.2 := (λ j, nodes !! j)
                          <$> slice_to (lo entry.1) (hi entry.1)
                                       neighborhood]> projection)
        ∅ (imap pair nodes).

(** [project()] of the undirected index. *)
Definition project (s : Index) : gmap string (list (option string)) :=
  project_with (nodes s) (λ i, starts s !!! i) (λ i, starts s !! (i + 1))
               (neighborhood s).

(** *** The weights inside the communities *)

(** The weight the block of node [x] holds towards node [y], and towards
    the nodes of community [c]. *)
Definition weight_between (s : Index) (x y : nat) : Qc :=
  sumQc ((λ p, if decide (neighborhood s !!! p = y) then weights s !!! p
               else Q2Qc 0)
           <$> range (starts s !!! x) (starts s !!! (x + 1))).

Definition weight_towards (s : Index) (x c : nat) : Qc :=
  sumQc ((λ p, if decide (belongings s !!! (neighborhood s !!! p) = c)
               then weights s !!! p else Q2Qc 0)
           <$> range (starts s !!! x) (starts s !!! (x + 1))).

(** The weight the blocks of the nodes of community [c] hold towards nodes
    of [c]: an edge between two of its nodes is met from both ends. *)
Definition inner_weight (s : Index) (c : nat) : Qc :=
  sumQc ((λ x, if decide (belongings s !!! x = c) then weight_towards s x c
               else Q2Qc 0) <$> seq 0 (C s)).

(** The blocks are those of an undirected graph without self-loop over the
    nodes of the level. *)
Definition symmetric_blocks (s : Index) : Prop :=
  (∀ x p, x < C s → p ∈ range (starts s !!! x) (starts s !!! (x + 1)) →
          neighborhood s !!! p < C s)
  ∧ (∀ x y, x < C s → y < C s → weight_between s x y = weight_between s y x)
  ∧ (∀ x, x < C s → weight_between s x x = Q2Qc 0).

(** By how many times a move from community [c0] to community [t] changes
    what community [c] holds: once more for [t], once less for [c0]. *)
Definition shift (c0 t c : nat) : Qc :=
  ((if decide (t = c) then 1 else 0) - (if decide (c0 = c) then 1 else 0))%Qc.

(** The states of level 0 that [expensiveMove] alone reaches. *)
Inductive moved (g : Graph.t) (o : Options.t) : Index → Prop :=
  | moved_new : moved g o (UndirectedLouvainIndex g o)
  | moved_step s i ci :
      moved g o s → i < C s → ci < C s → moved g o (expensiveMove i ci s).

(** The weight of the edges of the graph that have their two ends in
    community [c], for the communities [bel] gives to the node indices. *)
Definition edges_inside (g : Graph.t) (o : Options.t) (bel : list nat)
    (c : nat) : Qc :=
  let ids := make_ids (Graph.nodes g) in
  sumQc ((λ e, if decide (bel !!! ids_get ids (Graph.source e) = c
                          ∧ bel !!! ids_get ids (Graph.target e) = c)
               then Options.getWeight o e else Q2Qc 0)
           <$> Graph.edge_list g).

(** The modularity of the partition an index of level 0 holds, computed
    from the graph: for each community, the weight of the edges inside it
    and the weighted degrees of its nodes. *)
Definition partition_modularity (g : Graph.t) (o : Options.t) (s : Index)
    : Qc :=
  sumQc ((λ c, community_term (total_weight g o * 2)
                              (2 * edges_inside g o (belongings s) c)
                              (members_weight g o s c))
           <$> seq 0 (Graph.order g)).

(** *** The directed index *)

(** The term of a community in the modularity of the directed index. *)
Definition directed_term (M internalWeight totalInWeight totalOutWeight : Qc)
    : Qc :=
  (internalWeight / M - totalInWeight * totalOutWeight / M ^ 2)%Qc.

(** The sums of [totalInWeights] and of [totalOutWeights] over the current
    communities. *)
Definition sum_totalInWeights (s : Directed.Index) : Qc :=
  sumQc (take (Directed.C s) (Directed.totalInWeights s)).
Definition sum_totalOutWeights (s : Directed.Index) : Qc :=
  sumQc (take (Directed.C s) (Directed.totalOutWeights s)).

(** The block of a node in the directed index: the entries of its outgoing
    edges, then those of its incoming edges. *)
Definition out_ids (g : Graph.t) (node : string) : list nat :=
  (λ e, ids_get (make_ids (Graph.nodes g)) (Graph.opposite node e))
    <$> Graph.outEdges g node.
Definition in_ids (g : Graph.t) (node : string) : list nat :=
  (λ e, ids_get (make_ids (Graph.nodes g)) (Graph.opposite node e))
    <$> Graph.inEdges g node.
Definition directed_block_ids (g : Graph.t) (node : string) : list nat :=
  out_ids g node ++ in_ids g node.
Definition directed_block_weights (g : Graph.t) (o : Options.t)
    (node : string) : list Qc :=
  (Options.getWeight o <$> Graph.outEdges g node)
    ++ (Options.getWeight o <$> Graph.inEdges g node).

(** The weight of the outgoing and of the incoming edges of a node. *)
Definition out_weight (g : Graph.t) (o : Options.t) (node : string) : Qc :=
  sumQc (Options.getWeight o <$> Graph.outEdges g node).
Definition in_weight (g : Graph.t) (o : Options.t) (node : string) : Qc :=
  sumQc (Options.getWeight o <$> Graph.inEdges g node).

(** The number of entries written for the first [k] nodes. *)
Definition directed_entries_before (g : Graph.t) (k : nat) : nat :=
  length (concat ((λ node, Graph.outEdges g node ++ Graph.inEdges g node)
                    <$> take k (Graph.nodes g))).

(** The additions [arr[p.1] += p.2] for the successive [p] of [l]. *)
Definition add_all (l : list (nat * Qc)) (arr : list Qc) : list Qc :=
  foldl (λ arr p, arr_add p.1 p.2 arr) arr l.

(** What the outgoing edges of a node add to [totalInWeights]. *)
Definition out_pairs (g : Graph.t) (o : Options.t) (node : string)
    : list (nat * Qc) :=
  (λ e, (ids_get (make_ids (Graph.nodes g)) (Graph.opposite node e),
         Options.getWeight o e)) <$> Graph.outEdges g node.

(** What the constructor of the directed index has computed once the first
    [k] nodes are done. *)
Definition directed_built (g : Graph.t) (o : Options.t) (k : nat)
    : Directed.Building :=
  let upperBound := Graph.size g * 2 in
  let seen := take k (Graph.nodes g) in
  let ids := concat (directed_block_ids g <$> seen) in
  let ws := concat (directed_block_weights g o <$> seen) in
  {| Directed.b_M := sumQc (out_weight g o <$> seen);
     Directed.b_n := directed_entries_before g k;
     Directed.b_neighborhood :=
       take upperBound (ids ++ replicate (upperBound - length ids) 0);
     Directed.b_weights :=
       take upperBound (ws ++ replicate (upperBound - length ws) (Q2Qc 0));
     Directed.b_starts :=
       ((λ i, pointer (getPointerArray upperBound)
                      (directed_entries_before g i)) <$> seq 0 k)
         ++ replicate (Graph.order g + 1 - k) 0;
     Directed.b_offsets :=
       ((λ i, pointer (getPointerArray upperBound)
                (directed_entries_before g i
                 + length (Graph.outEdges g (Graph.nodes g !!! i))))
          <$> seq 0 k)
         ++ replicate (Graph.order g - k) 0;
     Directed.b_belongings := seq 0 k ++ replicate (Graph.order g - k) 0;
     Directed.b_counts :=
       if Options.keepCounts o
       then Some (replicate k 1%Z ++ replicate (Graph.order g - k) 0%Z)
       else None;
     Directed.b_totalInWeights :=
       add_all (concat (out_pairs g o <$> seen))
               (replicate (Graph.order g) (Q2Qc 0));
     Directed.b_totalOutWeights :=
       (out_weight g o <$> seen) ++ replicate (Graph.order g - k) (Q2Qc 0) |}.

(** [projectOut()] and [projectIn()] of the directed index. *)
Definition projectOut (s : Directed.Index)
    : gmap string (list (option string)) :=
  project_with (Directed.nodes s) (λ i, Directed.starts s !!! i)
               (λ i, Directed.offsets s !! i) (Directed.neighborhood s).
Definition projectIn (s : Directed.Index)
    : gmap string (list (option string)) :=
  project_with (Directed.nodes s) (λ i, Directed.offsets s !!! i)
               (λ i, Directed.starts s !! (i + 1)) (Directed.neighborhood s).

(** [project()] of the directed index: the function of the undirected one,
    reading [starts] alone. *)
Definition directed_project (s : Directed.Index)
    : gmap string (list (option string)) :=
  project_with (Directed.nodes s) (λ i, Directed.starts s !!! i)
               (λ i, Directed.starts s !! (i + 1)) (Directed.neighborhood s).

(** *** Assignment *)

(** [assign(prop, level)]: the calls
    [graph.setNodeAttribute(nodes[i], prop, mapping[i])] it makes on the
    host graph, in order; as for [collect], [None] for the level is the call
    without that argument and [None] for the result the [TypeError] raised
    when [this.dendrogram] has no such level.  A node key is [None] when
    [nodes[i]] is [undefined]. *)
Definition assign (s : Index) (prop : string) (level_arg : option nat)
    : option (list (option string * string * nat)) :=
  let level := default (level s) level_arg in
  mapping ← (if keepDendrogram s then dendrogram s !! level else mapping s);
  Some ((λ i, (nodes s !! i, prop, mapping !!! i))
          <$> seq 0 (length mapping)).

(** *** The directed index at level 0 *)

(** The weight of the outgoing edges of a node towards community [c] and of
    its incoming edges from [c], for the communities [bel] gives to the
    node indices. *)
Definition out_towards (g : Graph.t) (o : Options.t) (bel : list nat)
    (node : string) (c : nat) : Qc :=
  sumQc ((λ e, if decide (bel !!! ids_get (make_ids (Graph.nodes g))
                                          (Graph.target e) = c)
               then Options.getWeight o e else Q2Qc 0)
           <$> Graph.outEdges g node).
Definition in_towards (g : Graph.t) (o : Options.t) (bel : list nat)
    (node : string) (c : nat) : Qc :=
  sumQc ((λ e, if decide (bel !!! ids_get (make_ids (Graph.nodes g))
                                          (Graph.source e) = c)
               then Options.getWeight o e else Q2Qc 0)
           <$> Graph.inEdges g node).

(** The weight that enters and the weight that leaves the nodes of
    community [c]. *)
Definition members_in_weight (g : Graph.t) (o : Options.t) (bel : list nat)
    (c : nat) : Qc :=
  sumQc ((λ i, if decide (bel !!! i = c)
               then in_weight g o (Graph.nodes g !!! i) else Q2Qc 0)
           <$> seq 0 (Graph.order g)).
Definition members_out_weight (g : Graph.t) (o : Options.t) (bel : list nat)
    (c : nat) : Qc :=
  sumQc ((λ i, if decide (bel !!! i = c)
               then out_weight g o (Graph.nodes g !!! i) else Q2Qc 0)
           <$> seq 0 (Graph.order g)).

(** The states of level 0 that [expensiveMove] alone reaches on the
    directed index. *)
Inductive directed_moved (g : Graph.t) (o : Options.t)
    : Directed.Index → Prop :=
  | directed_moved_new :
      directed_moved g o (Directed.DirectedLouvainIndex g o)
  | directed_moved_step s i ci :
      directed_moved g o s → i < Directed.C s → ci < Directed.C s →
      directed_moved g o (Directed.expensiveMove i ci s).

(** The modularity of the partition a directed index of level 0 holds,
    computed from the graph. *)
Definition directed_partition_modularity (g : Graph.t) (o : Options.t)
    (s : Directed.Index) : Qc :=
  sumQc ((λ c, directed_term (total_weight g o)
                 (edges_inside g o (Directed.belongings s) c)
                 (members_in_weight g o (Directed.belongings s) c)
                 (members_out_weight g o (Directed.belongings s) c))
           <$> seq 0 (Graph.order g)).

(** *** Coarsening of the directed index *)

(** The entry of [inducedGraph] the directed [zoomOut] creates for
    community [c]. *)
Definition directed_community_of (s : Directed.Index) (c : nat)
    : Directed.Community :=
  {| Directed.inAdj := ∅;
     Directed.outAdj := ∅;
     Directed.c_counts :=
       if Directed.keepCounts s then Some (Directed.counts_arr s !!! c)
       else None;
     Directed.c_totalInWeights := Directed.totalInWeights s !!! c;
     Directed.c_totalOutWeights := Directed.totalOutWeights s !!! c;
     Directed.c_internalWeights := Directed.internalWeights s !!! c |}.

(** The communities that have a member, in the order first encountered. *)
Definition directed_occupied (s : Directed.Index) : list nat :=
  first_seen (take (Directed.C s) (Directed.belongings s)).

Definition directed_memberless (s : Directed.Index) (c : nat) : Prop :=
  ∀ i, i < Directed.C s → Directed.belongings s !!! i ≠ c.

(** The state of the first loop of the directed [zoomOut] after [k]
    nodes. *)
Definition directed_renumbered_upto (s : Directed.Index) (k : nat)
    (r : Directed.Renumbering) : Prop :=
  let scanned := take k (Directed.belongings s) in
  Directed.r_inducedGraph r = directed_community_of s <$> first_seen scanned
  ∧ (∀ c, Directed.r_newLabels r !! c = index_of c (first_seen scanned))
  ∧ Directed.r_belongings r
    = (dense_label scanned <$> scanned) ++ drop k (Directed.belongings s).

(** What its second loop keeps of the induced graph. *)
Definition directed_induced_keeps (ig0 : list Directed.Community)
    (acc : list Directed.Community * nat) : Prop :=
  Directed.c_totalInWeights <$> acc.1 = Directed.c_totalInWeights <$> ig0
  ∧ Directed.c_totalOutWeights <$> acc.1
    = Directed.c_totalOutWeights <$> ig0
  ∧ Directed.c_internalWeights <$> acc.1
    = Directed.c_internalWeights <$> ig0
  ∧ length acc.1 = length ig0.

(** The fields its third loop leaves alone while it writes the edges. *)
Definition directed_same_fields (w w' : Directed.Rewriting) : Prop :=
  Directed.w_loops w' = Directed.w_loops w
  ∧ Directed.w_belongings w' = Directed.w_belongings w
  ∧ Directed.w_internalWeights w' = Directed.w_internalWeights w
  ∧ Directed.w_totalInWeights w' = Directed.w_totalInWeights w
  ∧ Directed.w_totalOutWeights w' = Directed.w_totalOutWeights w.

(** What its third loop has written for the communities of [ig]. *)
Definition directed_rewritten_fields (w0 : Directed.Rewriting)
    (ig : list Directed.Community) (w : Directed.Rewriting) : Prop :=
  length (Directed.w_loops w) = length (Directed.w_loops w0)
  ∧ length (Directed.w_belongings w) = length (Directed.w_belongings w0)
  ∧ length (Directed.w_internalWeights w)
    = length (Directed.w_internalWeights w0)
  ∧ length (Directed.w_totalInWeights w)
    = length (Directed.w_totalInWeights w0)
  ∧ length (Directed.w_totalOutWeights w)
    = length (Directed.w_totalOutWeights w0)
  ∧ (∀ ci data, ig !! ci = Some data →
       Directed.w_belongings w !!! ci = ci
       ∧ Directed.w_loops w !!! ci = Directed.c_internalWeights data
       ∧ Directed.w_internalWeights w !!! ci
         = Directed.c_internalWeights data
       ∧ Directed.w_totalInWeights w !!! ci = Directed.c_totalInWeights data
       ∧ Directed.w_totalOutWeights w !!! ci
         = Directed.c_totalOutWeights data).
(** * Properties *)

(** ** Typed arrays *)

Lemma modulus_getPointerArray (size : nat) (m : Z) :
  modulus (getPointerArray size) = Some m → (0 < m ∧ Z.of_nat size ≤ m)%Z.
Proof.
  unfold getPointerArray. cbn zeta.
  repeat case_decide; cbn; intros [= <-]; lia.
Qed.

Lemma element_range (ty : ArrayType) (v m : Z) :
  modulus ty = Some m → (0 ≤ v < m)%Z → element ty v = v.
Proof. intros Hm Hv. unfold element. rewrite Hm. by apply Z.mod_small. Qed.

Lemma element_lt (size : nat) (v : Z) :
  (0 ≤ v < Z.of_nat size)%Z → element (getPointerArray size) v = v.
Proof.
  intros Hv. unfold element.
  destruct (modulus (getPointerArray size)) as [m|] eqn:Hm; [|done].
  apply modulus_getPointerArray in Hm. apply Z.mod_small. lia.
Qed.

Lemma pointer_lt (size v : nat) :
  v < size → pointer (getPointerArray size) v = v.
Proof. intros Hv. unfold pointer. rewrite element_lt by lia. lia. Qed.

Lemma pointer_0 (ty : ArrayType) : pointer ty 0 = 0.
Proof. by destruct ty. Qed.

Lemma element_1 (ty : ArrayType) : element ty 1 = 1%Z.
Proof. by destruct ty. Qed.

Lemma element_0 (ty : ArrayType) : element ty 0 = 0%Z.
Proof. by destruct ty. Qed.

Lemma modulus_pos (ty : ArrayType) (m : Z) :
  modulus ty = Some m → (0 < m)%Z.
Proof. destruct ty; intros [= <-]; lia. Qed.

Lemma element_element (ty : ArrayType) (v : Z) :
  element ty (element ty v) = element ty v.
Proof.
  unfold element. destruct (modulus ty) as [m|] eqn:Hm; [|done].
  apply modulus_pos in Hm. apply Z.mod_mod. lia.
Qed.

Lemma element_add_l (ty : ArrayType) (a b : Z) :
  element ty (element ty a + b) = element ty (a + b).
Proof.
  unfold element. destruct (modulus ty) as [m|] eqn:Hm; [|done].
  apply modulus_pos in Hm. apply Zplus_mod_idemp_l.
Qed.

Lemma element_add_r (ty : ArrayType) (a b : Z) :
  element ty (a + element ty b) = element ty (a + b).
Proof.
  unfold element. destruct (modulus ty) as [m|] eqn:Hm; [|done].
  apply modulus_pos in Hm. apply Zplus_mod_idemp_r.
Qed.

(** A value no greater than one the array holds is held too. *)
Lemma holds_le (ty : ArrayType) (v w : nat) :
  holds ty w → v ≤ w → holds ty v.
Proof.
  unfold holds, pointer, element.
  destruct (modulus ty) as [m|] eqn:Hm; [|lia].
  pose proof (modulus_pos _ _ Hm) as Hpos. intros Hw Hv.
  assert (Z.of_nat w < m)%Z.
  { destruct (decide (Z.of_nat w < m)%Z) as [|Hge]; [done|].
    pose proof (Z.mod_pos_bound (Z.of_nat w) m Hpos). lia. }
  rewrite Z.mod_small by lia. lia.
Qed.

Lemma holds_lt (size v : nat) : v < size → holds (getPointerArray size) v.
Proof. apply pointer_lt. Qed.

(** What [getPointerArray(size)] stores for [size] itself: 0 at the three
    capacities that fill an element type, [size] otherwise. *)
Lemma pointer_capacity (size : nat) :
  pointer (getPointerArray size) size
  = if decide (Z.of_nat size = 2 ^ 8 ∨ Z.of_nat size = 2 ^ 16
               ∨ Z.of_nat size = 2 ^ 32)%Z
    then 0 else size.
Proof.
  unfold pointer, element, getPointerArray. cbn zeta.
  repeat case_decide; cbn [modulus]; try lia.
  all: try (rewrite Z.mod_small by lia; lia).
  - replace (Z.of_nat size) with (2 ^ 8)%Z by lia. done.
  - replace (Z.of_nat size) with (2 ^ 16)%Z by lia. done.
  - replace (Z.of_nat size) with (2 ^ 32)%Z by lia. done.
Qed.

(** ** Sums and sequential writes *)

Lemma sumQc_app (l k : list Qc) : sumQc (l ++ k) = (sumQc l + sumQc k)%Qc.
Proof.
  induction l as [|x l IH]; simpl.
  - ring.
  - rewrite IH. ring.
Qed.

Lemma sumQc_replicate_0 n : sumQc (replicate n (Q2Qc 0)) = Q2Qc 0.
Proof. induction n as [|n IH]; simpl; [done|]. rewrite IH. ring. Qed.

Lemma write_at_app {A} (vs ws : list A) n arr :
  write_at n (vs ++ ws) arr = write_at (n + length vs) ws (write_at n vs arr).
Proof.
  revert n arr. induction vs as [|v vs IH]; intros n arr; simpl.
  - by rewrite Nat.add_0_r.
  - rewrite IH. f_equal. lia.
Qed.

Lemma length_write_at {A} (vs : list A) n arr :
  length (write_at n vs arr) = length arr.
Proof.
  revert n arr. induction vs as [|v vs IH]; intros n arr; simpl; [done|].
  by rewrite IH, length_insert.
Qed.

(** Writing after a prefix of an array that is blank beyond it. *)
Lemma write_at_blank {A} (d : A) (UB : nat) (vs pre : list A) :
  write_at (length pre) vs (take UB (pre ++ replicate (UB - length pre) d))
  = take UB ((pre ++ vs) ++ replicate (UB - length (pre ++ vs)) d).
Proof.
  revert pre. induction vs as [|v vs IH]; intros pre; simpl.
  - by rewrite app_nil_r.
  - assert (Hstep :
      <[length pre := v]> (take UB (pre ++ replicate (UB - length pre) d))
      = take UB ((pre ++ [v]) ++ replicate (UB - length (pre ++ [v])) d)).
    { rewrite length_app. simpl.
      destruct (decide (length pre < UB)) as [Hlt|Hge].
      - rewrite <- take_insert_lt by done.
        rewrite insert_app_r_alt by lia.
        replace (length pre - length pre) with 0 by lia.
        replace (UB - length pre) with (S (UB - (length pre + 1))) by lia.
        simpl. by rewrite <- app_assoc.
      - rewrite list_insert_ge by (rewrite length_take; lia).
        replace (UB - length pre) with 0 by lia.
        replace (UB - (length pre + 1)) with 0 by lia.
        simpl. rewrite !app_nil_r.
        rewrite take_app_le by lia. done. }
    rewrite Hstep.
    replace (S (length pre)) with (length (pre ++ [v]))
      by (rewrite length_app; simpl; lia).
    rewrite IH. by rewrite <- !app_assoc.
Qed.

Lemma insert_at_blank {A} (pre : list A) (d x : A) (m k : nat) :
  length pre = k →
  <[k := x]> (pre ++ replicate (S m) d) = (pre ++ [x]) ++ replicate m d.
Proof.
  intros <-. rewrite insert_app_r_alt, Nat.sub_diag by lia.
  by rewrite <- app_assoc.
Qed.

(** ** The constructor, loop by loop *)

Lemma build_edges_fold g o ids node i (es : list Graph.Edge)
    (b : Building) :
  foldl (build_edge g o ids node i) b es =
  {| b_M := (b_M b + sumQc (counted_weight o node <$> es))%Qc;
     b_n := b_n b + length es;
     b_neighborhood :=
       write_at (b_n b)
         ((λ e, pointer (getPointerArray (Graph.order g))
                  (ids_get ids (Graph.opposite node e))) <$> es)
         (b_neighborhood b);
     b_weights := write_at (b_n b) (Options.getWeight o <$> es) (b_weights b);
     b_starts := b_starts b;
     b_belongings := b_belongings b;
     b_counts := b_counts b;
     b_totalWeights :=
       foldl (λ tw e, arr_add i (Options.getWeight o e) tw)
             (b_totalWeights b) es |}.
Proof.
  revert b. induction es as [|e es IH]; intros b; simpl.
  - destruct b; simpl. f_equal; [ring | lia].
  - rewrite IH. simpl. f_equal.
    + unfold counted_weight. destruct (String.ltb _ _).
      * symmetry. apply Qcplus_assoc.
      * by rewrite Qcplus_0_l.
    + lia.
Qed.

Lemma arr_add_fold {B} (w : B → Qc) i (es : list B) (tw : list Qc) :
  i < length tw →
  foldl (λ tw e, arr_add i (w e) tw) tw es
  = <[i := (tw !!! i + sumQc (w <$> es))%Qc]> tw.
Proof.
  revert tw. induction es as [|e es IH]; intros tw Hi; simpl.
  - rewrite Qcplus_0_r. symmetry. apply list_insert_id.
    by apply list_lookup_lookup_total_lt.
  - rewrite IH by (unfold arr_add; by rewrite length_insert).
    unfold arr_add. rewrite list_lookup_total_insert_eq by done.
    rewrite list_insert_insert_eq. f_equal. symmetry. apply Qcplus_assoc.
Qed.

(** An index of [ids] is one the pointer arrays of the nodes hold. *)
Lemma ids_get_make_ids_lt (nodes : list string) (key : string) :
  ids_get (make_ids nodes) key < length nodes
  ∨ ids_get (make_ids nodes) key = 0.
Proof.
  unfold ids_get, make_ids.
  assert (Hinv : ∀ k v,
             foldl (λ ids i, <[nodes !!! i := i]> ids)
                   (∅ : gmap string nat) (seq 0 k) !! key = Some v →
             v < k).
  { induction k as [|k IH]; intros v.
    - cbn. by rewrite lookup_empty.
    - rewrite seq_S, foldl_snoc. cbn [Nat.add].
      destruct (decide (nodes !!! k = key)) as [<-|Hne].
      + rewrite lookup_insert_eq. intros [= <-]. lia.
      + rewrite lookup_insert_ne by done. intros Hv%IH. lia. }
  destruct (foldl _ ∅ (seq 0 (length nodes)) !! key) as [v|] eqn:Hv;
    [|by right].
  left. cbn. by apply Hinv.
Qed.

Lemma pointer_ids_get (nodes : list string) (key : string) :
  pointer (getPointerArray (length nodes)) (ids_get (make_ids nodes) key)
  = ids_get (make_ids nodes) key.
Proof.
  destruct (ids_get_make_ids_lt nodes key) as [Hlt| ->].
  - by apply pointer_lt.
  - apply pointer_0.
Qed.

Lemma entries_before_S g k :
  k < Graph.order g →
  entries_before g (S k)
  = entries_before g k + length (Graph.edges g (Graph.nodes g !!! k)).
Proof.
  intros Hk. unfold entries_before.
  rewrite (take_S_r _ _ (Graph.nodes g !!! k))
    by (by apply list_lookup_lookup_total_lt).
  by rewrite fmap_app, concat_app, length_app; simpl; rewrite app_nil_r.
Qed.

Lemma length_block_ids g node :
  length (block_ids g node) = length (Graph.edges g node).
Proof. unfold block_ids. by rewrite length_fmap. Qed.

Lemma length_block_weights g o node :
  length (block_weights g o node) = length (Graph.edges g node).
Proof. unfold block_weights. by rewrite length_fmap. Qed.

Lemma length_concat_blocks {A} (f : string → list A) g (l : list string) :
  (∀ node, length (f node) = length (Graph.edges g node)) →
  length (concat (f <$> l))
  = length (concat ((λ node, Graph.edges g node) <$> l)).
Proof.
  intros Hf. induction l as [|x l IH]; [done|].
  rewrite !fmap_cons. cbn [concat]. by rewrite !length_app, IH, Hf.
Qed.

Lemma build_node_built g o k :
  k < Graph.order g →
  build_node g o (make_ids (Graph.nodes g)) (built g o k) k = built g o (S k).
Proof.
  intros Hk. unfold build_node. cbn zeta. rewrite build_edges_fold. simpl.
  pose proof Hk as Hk'. unfold Graph.order in Hk'.
  assert (Hnode : Graph.nodes g !! k = Some (Graph.nodes g !!! k))
    by (by apply list_lookup_lookup_total_lt).
  set (node := Graph.nodes g !!! k) in *.
  unfold built.
  rewrite (take_S_r _ _ node) by done.
  rewrite !fmap_app, !concat_app, !fmap_cons, !fmap_nil. cbn [concat].
  rewrite !app_nil_r.
  rewrite (pointer_lt (Graph.order g) k) by done. rewrite element_1.
  f_equal.
  - rewrite sumQc_app. simpl. unfold counted_at. ring.
  - by rewrite entries_before_S.
  - unfold entries_before.
    rewrite <- (length_concat_blocks (block_ids g) g)
      by apply length_block_ids.
    rewrite (list_fmap_ext _ (λ e, ids_get (make_ids (Graph.nodes g))
                                      (Graph.opposite node e))
               (Graph.edges g node))
      by (intros; apply pointer_ids_get).
    apply write_at_blank.
  - unfold entries_before.
    rewrite <- (length_concat_blocks (block_weights g o) g)
      by apply length_block_weights.
    apply write_at_blank.
  - replace (Graph.order g + 1 - k) with (S (Graph.order g + 1 - S k)) by lia.
    rewrite insert_at_blank by (by rewrite length_fmap, length_seq).
    by rewrite seq_S, fmap_app.
  - replace (Graph.order g - k) with (S (Graph.order g - S k)) by lia.
    rewrite insert_at_blank by (by rewrite length_seq).
    by rewrite seq_S.
  - destruct (Options.keepCounts o); [|done]. cbn [fmap option_fmap option_map].
    f_equal.
    replace (Graph.order g - k) with (S (Graph.order g - S k)) by lia.
    rewrite insert_at_blank by (by rewrite length_replicate).
    by rewrite replicate_S_end.
  - assert (Hlen : length (weighted_degree g o <$> take k (Graph.nodes g)) = k)
      by (rewrite length_fmap, length_take; lia).
    rewrite arr_add_fold by (rewrite length_app, length_replicate; lia).
    rewrite lookup_total_app_r by lia.
    replace (Graph.order g - k) with (S (Graph.order g - S k)) by lia.
    rewrite insert_at_blank by done.
    rewrite Hlen, Nat.sub_diag. cbn [replicate lookup_total list_lookup_total].
    do 3 f_equal. unfold weighted_degree, block_weights. apply Qcplus_0_l.
Qed.

Lemma build_loop_prefix g o k :
  k ≤ Graph.order g →
  foldl (build_node g o (make_ids (Graph.nodes g))) (build_init g o) (seq 0 k)
  = built g o k.
Proof.
  induction k as [|k IH]; intros Hk.
  - simpl. unfold build_init, built. simpl. unfold entries_before. simpl.
    rewrite !Nat.sub_0_r.
    rewrite !take_ge by (rewrite length_replicate; lia).
    f_equal.
  - rewrite seq_S, foldl_snoc. simpl. rewrite IH by lia.
    apply build_node_built. lia.
Qed.

Lemma build_loop_built g o : build_loop g o = built g o (Graph.order g).
Proof. by apply build_loop_prefix. Qed.

(** ** Sums over the edges and over the nodes *)

Lemma sumQc_perm (l k : list Qc) : l ≡ₚ k → sumQc l = sumQc k.
Proof.
  induction 1 as [|x l k _ IH|x y l|l k m _ IH1 _ IH2]; cbn [sumQc foldr].
  - done.
  - fold (sumQc l). fold (sumQc k). by rewrite IH.
  - fold (sumQc l). ring.
  - congruence.
Qed.

Lemma sumQc_cons x (l : list Qc) : sumQc (x :: l) = (x + sumQc l)%Qc.
Proof. done. Qed.

Lemma sumQc_fmap_plus {A} (a b : A → Qc) (l : list A) :
  sumQc ((λ x, a x + b x)%Qc <$> l)
  = (sumQc (a <$> l) + sumQc (b <$> l))%Qc.
Proof.
  induction l as [|x l IH]; rewrite ?fmap_nil, ?fmap_cons, ?sumQc_cons.
  - cbn. ring.
  - rewrite IH. ring.
Qed.

Lemma sumQc_fmap_ext {A} (a b : A → Qc) (l : list A) :
  (∀ x, x ∈ l → a x = b x) → sumQc (a <$> l) = sumQc (b <$> l).
Proof.
  intros H. f_equal. apply list_fmap_ext. intros i x Hx. apply H.
  by eapply list_elem_of_lookup_2.
Qed.

Lemma sumQc_filter {A} (P : A → Prop) `{!∀ x, Decision (P x)}
    (a : A → Qc) (l : list A) :
  sumQc (a <$> filter P l)
  = sumQc ((λ x, if decide (P x) then a x else Q2Qc 0) <$> l).
Proof.
  induction l as [|x l IH]; [done|].
  rewrite filter_cons, fmap_cons, sumQc_cons, <- IH.
  destruct (decide (P x)).
  - by rewrite fmap_cons, sumQc_cons.
  - by rewrite Qcplus_0_l.
Qed.

Lemma sumQc_fmap_0 {A} (l : list A) :
  sumQc ((λ _, Q2Qc 0) <$> l) = Q2Qc 0.
Proof.
  induction l as [|x l IH]; [done|].
  rewrite fmap_cons, sumQc_cons, IH. ring.
Qed.

(** Summing over the nodes, then over the edges incident to each, is summing
    over the edges, then over the nodes each is incident to. *)
Lemma sumQc_exchange (f : string → Graph.Edge → Qc) (ns : list string)
    (es : list Graph.Edge) :
  sumQc ((λ node,
            sumQc (f node
                     <$> filter (λ e, Graph.source e = node
                                      ∨ Graph.target e = node) es)) <$> ns)
  = sumQc ((λ e,
              sumQc ((λ node, f node e)
                       <$> filter (λ node, Graph.source e = node
                                           ∨ Graph.target e = node) ns))
             <$> es).
Proof.
  induction es as [|e es IH].
  - rewrite fmap_nil. apply sumQc_fmap_0.
  - rewrite fmap_cons, sumQc_cons, <- IH.
    rewrite (sumQc_filter _ (λ node, f node e)).
    rewrite <- sumQc_fmap_plus. apply sumQc_fmap_ext. intros node _.
    rewrite filter_cons. destruct (decide _).
    + by rewrite fmap_cons, sumQc_cons.
    + by rewrite Qcplus_0_l.
Qed.

Lemma incident_nodes_proper (ns : list string) (u v : string) :
  NoDup ns → u ∈ ns → v ∈ ns → u ≠ v →
  filter (λ node, u = node ∨ v = node) ns ≡ₚ [u; v].
Proof.
  intros Hnd Hu Hv Huv. apply NoDup_Permutation.
  - by apply NoDup_filter.
  - apply NoDup_cons. split; [|apply NoDup_singleton].
    by intros ->%list_elem_of_singleton.
  - intros x. rewrite list_elem_of_filter, !elem_of_cons. split.
    + intros [[<-| <-] _]; auto.
    + intros [->|[->|Hx]]; [auto|auto|]. by apply elem_of_nil in Hx.
Qed.

Lemma incident_nodes_loop (ns : list string) (u : string) :
  NoDup ns → u ∈ ns →
  filter (λ node, u = node ∨ u = node) ns ≡ₚ [u].
Proof.
  intros Hnd Hu. apply NoDup_Permutation.
  - by apply NoDup_filter.
  - apply NoDup_singleton.
  - intros x. rewrite list_elem_of_filter, list_elem_of_singleton. split.
    + by intros [[<-| <-] _].
    + intros ->. auto.
Qed.

(** ** Comparison of keys *)

Lemma ltb_irrefl (s : string) : String.ltb s s = false.
Proof.
  unfold String.ltb. pose proof (String.compare_antisym s s) as H.
  by destruct (String.compare s s).
Qed.

Lemma ltb_total (s t : string) :
  s ≠ t → String.ltb s t = negb (String.ltb t s).
Proof.
  intros Hst. unfold String.ltb. rewrite (String.compare_antisym t s).
  destruct (String.compare s t) eqn:Hc; try done.
  by apply String.compare_eq_iff in Hc.
Qed.

(** ** The fields of a fresh index *)

Lemma new_totalWeights g o :
  totalWeights (UndirectedLouvainIndex g o)
  = weighted_degree g o <$> Graph.nodes g.
Proof.
  unfold UndirectedLouvainIndex. cbn [totalWeights].
  rewrite build_loop_built. unfold built. cbn [b_totalWeights].
  unfold Graph.order. rewrite Nat.sub_diag, firstn_all. apply app_nil_r.
Qed.

Lemma new_M g o :
  M (UndirectedLouvainIndex g o) = sumQc (counted_at g o <$> Graph.nodes g).
Proof.
  unfold UndirectedLouvainIndex. cbn [M].
  rewrite build_loop_built. unfold built. cbn [b_M].
  unfold Graph.order. by rewrite firstn_all.
Qed.

Lemma new_starts g o :
  let NeighborhoodPointerArray := getPointerArray (Graph.size g * 2) in
  starts (UndirectedLouvainIndex g o)
  = ((λ i, pointer NeighborhoodPointerArray (entries_before g i))
       <$> seq 0 (Graph.order g))
      ++ [pointer NeighborhoodPointerArray (Graph.size g * 2)].
Proof.
  cbn zeta. unfold UndirectedLouvainIndex. cbn [starts].
  rewrite build_loop_built. unfold built. cbn [b_starts].
  replace (Graph.order g + 1 - Graph.order g) with 1 by lia.
  rewrite insert_at_blank by (by rewrite length_fmap, length_seq).
  cbn [replicate]. by rewrite <- app_assoc.
Qed.

Lemma new_belongings g o :
  belongings (UndirectedLouvainIndex g o) = seq 0 (Graph.order g).
Proof.
  unfold UndirectedLouvainIndex. cbn [belongings].
  rewrite build_loop_built. unfold built. cbn [b_belongings].
  rewrite Nat.sub_diag. apply app_nil_r.
Qed.

Lemma new_weights g o :
  weights (UndirectedLouvainIndex g o)
  = let ws := concat (block_weights g o <$> Graph.nodes g) in
    take (Graph.size g * 2)
         (ws ++ replicate (Graph.size g * 2 - length ws) (Q2Qc 0)).
Proof.
  unfold UndirectedLouvainIndex. cbn [weights].
  rewrite build_loop_built. unfold built. cbn [b_weights].
  unfold Graph.order. by rewrite firstn_all.
Qed.

Lemma new_neighborhood g o :
  neighborhood (UndirectedLouvainIndex g o)
  = let ids := concat (block_ids g <$> Graph.nodes g) in
    take (Graph.size g * 2)
         (ids ++ replicate (Graph.size g * 2 - length ids) 0).
Proof.
  unfold UndirectedLouvainIndex. cbn [neighborhood].
  rewrite build_loop_built. unfold built. cbn [b_neighborhood].
  unfold Graph.order. by rewrite firstn_all.
Qed.

(** ** Counting the entries *)

Lemma length_concat_filter {A B} (P : A → B → Prop)
    `{!∀ x y, Decision (P x y)} (ns : list A) (es : list B) :
  length (concat ((λ node, filter (P node) es) <$> ns))
  = sum_list ((λ e, length (filter (λ node, P node e) ns)) <$> es).
Proof.
  induction es as [|e es IH].
  - induction ns as [|n ns IHn]; [done|].
    rewrite fmap_cons. cbn [concat]. by rewrite length_app, IHn.
  - rewrite fmap_cons. cbn [sum_list sum_list_with]. rewrite <- IH. clear IH.
    induction ns as [|n ns IHn]; [done|].
    rewrite !fmap_cons. cbn [concat]. rewrite !length_app, IHn.
    rewrite !filter_cons. destruct (decide (P n e)); cbn [length]; unfold id; lia.
Qed.

Lemma entries_before_mono g i j :
  i ≤ j → entries_before g i ≤ entries_before g j.
Proof.
  intros Hij. unfold entries_before.
  rewrite <- (take_drop i (take j (Graph.nodes g))), take_take.
  replace (i `min` j) with i by lia.
  rewrite fmap_app, concat_app, length_app. lia.
Qed.

Lemma incident_count_le (ns : list string) (u v : string) :
  NoDup ns → length (filter (λ node, u = node ∨ v = node) ns) ≤ 2.
Proof.
  intros Hnd.
  assert (Hsub : filter (λ node, u = node ∨ v = node) ns ⊆+ [u; v]).
  { apply NoDup_submseteq; [by apply NoDup_filter|].
    intros x [Hx _]%list_elem_of_filter.
    destruct Hx as [<-| <-]; [left | right; left]. }
  apply submseteq_length in Hsub. simpl in Hsub. lia.
Qed.

Lemma entries_before_sum g :
  entries_before g (Graph.order g)
  = sum_list ((λ e, length (filter (λ node, Graph.source e = node
                                            ∨ Graph.target e = node)
                                   (Graph.nodes g)))
                <$> Graph.edge_list g).
Proof.
  unfold entries_before, Graph.order. rewrite firstn_all.
  unfold Graph.edges.
  apply (length_concat_filter
           (λ node e, Graph.source e = node ∨ Graph.target e = node)).
Qed.

Lemma sum_list_le (l : list nat) (b : nat) :
  Forall (λ x, x ≤ b) l → sum_list l ≤ length l * b.
Proof. induction 1 as [|x l Hx _ IH]; simpl; lia. Qed.

Lemma sum_list_eq (l : list nat) (b : nat) :
  Forall (λ x, x = b) l → sum_list l = length l * b.
Proof. induction 1 as [|x l Hx _ IH]; simpl; lia. Qed.

Lemma entries_total_le g :
  NoDup (Graph.nodes g) → entries_before g (Graph.order g) ≤ Graph.size g * 2.
Proof.
  intros Hnd. rewrite entries_before_sum. unfold Graph.size.
  rewrite <- (length_fmap
                (λ e, length (filter (λ node, Graph.source e = node
                                              ∨ Graph.target e = node)
                                     (Graph.nodes g)))).
  apply sum_list_le, Forall_fmap, Forall_forall. intros e _.
  by apply incident_count_le.
Qed.

Lemma entries_total_eq g :
  Graph.wf g → Graph.loop_free g →
  entries_before g (Graph.order g) = Graph.size g * 2.
Proof.
  intros [Hnd Hends] Hlf. rewrite entries_before_sum. unfold Graph.size.
  rewrite <- (length_fmap
                (λ e, length (filter (λ node, Graph.source e = node
                                              ∨ Graph.target e = node)
                                     (Graph.nodes g)))).
  apply sum_list_eq, Forall_fmap, Forall_forall. intros e He.
  rewrite Forall_forall in Hends. destruct (Hends e He) as [Hs Ht].
  unfold Graph.loop_free in Hlf. rewrite Forall_forall in Hlf.
  cbn. by rewrite (Permutation_length
                (incident_nodes_proper _ _ _ Hnd Hs Ht (Hlf e He))).
Qed.

Lemma opposite_source e : Graph.opposite (Graph.source e) e = Graph.target e.
Proof. unfold Graph.opposite. by rewrite decide_True. Qed.

Lemma opposite_target e :
  ¬ Graph.is_loop e → Graph.opposite (Graph.target e) e = Graph.source e.
Proof.
  intros Hl. unfold Graph.opposite. rewrite decide_False; [done|].
  intros Heq. by apply Hl.
Qed.

(** A proper edge is counted into [M] at exactly one of its extremities, a
    self-loop at none. *)
Lemma counted_once o e :
  ¬ Graph.is_loop e →
  (counted_weight o (Graph.source e) e + counted_weight o (Graph.target e) e)%Qc
  = Options.getWeight o e.
Proof.
  intros Hl. unfold counted_weight.
  rewrite opposite_source, opposite_target by done.
  rewrite (ltb_total (Graph.source e) (Graph.target e)) by done.
  destruct (String.ltb (Graph.target e) (Graph.source e)); cbn [negb]; ring.
Qed.

Lemma counted_loop o e :
  Graph.is_loop e → counted_weight o (Graph.source e) e = Q2Qc 0.
Proof.
  intros Hl. unfold counted_weight. rewrite opposite_source.
  unfold Graph.is_loop in Hl. by rewrite <- Hl, ltb_irrefl.
Qed.

Lemma counted_sum g o :
  Graph.wf g →
  sumQc (counted_at g o <$> Graph.nodes g) = proper_weight g o.
Proof.
  intros [Hnd Hends]. unfold counted_at, Graph.edges, proper_weight.
  rewrite (sumQc_exchange (counted_weight o)), sumQc_filter.
  apply sumQc_fmap_ext. intros e He.
  rewrite Forall_forall in Hends. destruct (Hends e He) as [Hs Ht].
  destruct (decide (¬ Graph.is_loop e)) as [Hl|Hl].
  - rewrite (sumQc_perm _ _
               (fmap_Permutation _ _ _
                  (incident_nodes_proper _ _ _ Hnd Hs Ht Hl))).
    rewrite !fmap_cons, fmap_nil, !sumQc_cons. cbn [sumQc foldr].
    rewrite <- (counted_once o e Hl). ring.
  - apply dec_stable in Hl. pose proof Hl as Hl'. unfold Graph.is_loop in Hl'.
    rewrite <- Hl'.
    rewrite (sumQc_perm _ _
               (fmap_Permutation _ _ _
                  (incident_nodes_loop _ _ Hnd Hs))).
    rewrite !fmap_cons, fmap_nil, !sumQc_cons. cbn [sumQc foldr].
    rewrite (counted_loop o e Hl). ring.
Qed.

Lemma degree_sum g o :
  Graph.wf g → Graph.loop_free g →
  sumQc (weighted_degree g o <$> Graph.nodes g) = (2 * total_weight g o)%Qc.
Proof.
  intros [Hnd Hends] Hlf.
  unfold weighted_degree, block_weights, Graph.edges, total_weight.
  rewrite (sumQc_exchange (λ _ e, Options.getWeight o e)).
  rewrite Forall_forall in Hends. unfold Graph.loop_free in Hlf.
  rewrite Forall_forall in Hlf.
  transitivity (sumQc ((λ e, Options.getWeight o e + Options.getWeight o e)%Qc
                         <$> Graph.edge_list g)).
  - apply sumQc_fmap_ext. intros e He. destruct (Hends e He) as [Hs Ht].
    rewrite (sumQc_perm _ _
               (fmap_Permutation _ _ _
                  (incident_nodes_proper _ _ _ Hnd Hs Ht (Hlf e He)))).
    rewrite !fmap_cons, fmap_nil, !sumQc_cons. cbn [sumQc foldr]. ring.
  - rewrite sumQc_fmap_plus. ring.
Qed.

Lemma proper_weight_loop_free g o :
  Graph.loop_free g → proper_weight g o = total_weight g o.
Proof.
  intros Hlf. unfold proper_weight, total_weight. f_equal. f_equal.
  unfold Graph.loop_free in Hlf.
  induction (Graph.edge_list g) as [|e es IH]; [done|].
  apply Forall_cons in Hlf as [Hl Hlf].
  rewrite filter_cons_True by done. by rewrite IH.
Qed.

(** ** Reading the blocks of a fresh index *)

Lemma fmap_lookup_seq {A} `{!Inhabited A} (l : list A) (a n : nat) :
  a + n ≤ length l → (λ o, l !!! o) <$> seq a n = take n (drop a l).
Proof.
  intros Hle. apply list_eq. intros k.
  rewrite list_lookup_fmap.
  destruct (decide (k < n)) as [Hk|Hk].
  - rewrite lookup_seq_lt by done. rewrite lookup_take_lt by done.
    rewrite lookup_drop. cbn.
    symmetry. apply list_lookup_lookup_total_lt. lia.
  - rewrite lookup_seq_ge by lia. rewrite lookup_take_ge by lia. done.
Qed.

Lemma concat_middle {A B} (f : A → list B) (l : list A) (i : nat) (x : A) :
  l !! i = Some x →
  concat (f <$> l)
  = concat (f <$> take i l) ++ f x ++ concat (f <$> drop (S i) l).
Proof.
  intros Hi. rewrite <- (take_drop_middle l i x Hi) at 1.
  by rewrite fmap_app, concat_app, fmap_cons.
Qed.

(** What [starts] holds: the number of entries before each node, and
    [upperBound] last, as the pointer array stores them. *)
Lemma new_starts_stored g o i :
  i < Graph.order g →
  starts (UndirectedLouvainIndex g o) !!! i
  = pointer (getPointerArray (Graph.size g * 2)) (entries_before g i).
Proof.
  intros Hi. rewrite new_starts. apply list_lookup_total_correct.
  rewrite lookup_app_l by (by rewrite length_fmap, length_seq).
  rewrite list_lookup_fmap, lookup_seq_lt by done. done.
Qed.

Lemma new_starts_last_stored g o :
  starts (UndirectedLouvainIndex g o) !!! (Graph.order g)
  = pointer (getPointerArray (Graph.size g * 2)) (Graph.size g * 2).
Proof.
  rewrite new_starts. apply list_lookup_total_correct.
  rewrite lookup_app_r by (by rewrite length_fmap, length_seq).
  by rewrite length_fmap, length_seq, Nat.sub_diag.
Qed.

(** When the array holds [upperBound], it holds every number of entries. *)
Lemma pointer_entries_before g i :
  NoDup (Graph.nodes g) → fits g → i ≤ Graph.order g →
  pointer (getPointerArray (Graph.size g * 2)) (entries_before g i)
  = entries_before g i.
Proof.
  intros Hnd Hfits Hi. apply (holds_le _ _ (Graph.size g * 2)); [done|].
  pose proof (entries_total_le g Hnd).
  pose proof (entries_before_mono g i (Graph.order g) Hi). lia.
Qed.

Lemma new_starts_lookup g o i :
  NoDup (Graph.nodes g) → fits g → i < Graph.order g →
  starts (UndirectedLouvainIndex g o) !!! i = entries_before g i.
Proof.
  intros Hnd Hfits Hi. rewrite new_starts_stored by done.
  apply pointer_entries_before; [done|done|lia].
Qed.

Lemma new_starts_last g o :
  fits g →
  starts (UndirectedLouvainIndex g o) !!! (Graph.order g) = Graph.size g * 2.
Proof. intros Hfits. by rewrite new_starts_last_stored. Qed.

(** The start of a block that is not empty is never reduced: fewer than
    [upperBound] entries come before it. *)
Lemma new_block_start g o i node :
  NoDup (Graph.nodes g) → Graph.nodes g !! i = Some node →
  starts (UndirectedLouvainIndex g o) !!! i = entries_before g i
  ∨ Graph.edges g node = [].
Proof.
  intros Hnd Hi. pose proof (lookup_lt_Some _ _ _ Hi) as Hlt.
  fold (Graph.order g) in Hlt.
  pose proof (entries_total_le g Hnd) as Hle.
  pose proof (entries_before_mono g (S i) (Graph.order g) ltac:(lia)) as Hm.
  pose proof (entries_before_S g i Hlt) as HS.
  rewrite (list_lookup_total_correct _ _ _ Hi) in HS.
  rewrite new_starts_stored by done.
  destruct (decide (entries_before g i < Graph.size g * 2)) as [Hsmall|Hfull].
  - left. by apply pointer_lt.
  - right. apply nil_length_inv. lia.
Qed.

(** The arrays of a fresh index from the start of the block of node [i]: the
    block, the blocks of the later nodes, and what was never written. *)
Lemma new_arrays_from {A} (d : A) (f : string → list A) g i node :
  (∀ node, length (f node) = length (Graph.edges g node)) →
  NoDup (Graph.nodes g) → Graph.nodes g !! i = Some node →
  let all := concat (f <$> Graph.nodes g) in
  drop (entries_before g i)
       (take (Graph.size g * 2)
             (all ++ replicate (Graph.size g * 2 - length all) d))
  = f node ++ concat (f <$> drop (S i) (Graph.nodes g))
      ++ replicate (Graph.size g * 2 - entries_before g (Graph.order g)) d.
Proof.
  intros Hf Hnd Hi all.
  assert (Hall : length all = entries_before g (Graph.order g)).
  { unfold all, entries_before, Graph.order. rewrite firstn_all.
    by apply length_concat_blocks. }
  pose proof (entries_total_le g Hnd) as Hle.
  rewrite take_ge by (rewrite length_app, length_replicate; lia).
  rewrite Hall. unfold all. rewrite (concat_middle f _ i node Hi).
  rewrite <- !app_assoc.
  rewrite drop_app_length'; [done|].
  unfold entries_before. symmetry. by apply length_concat_blocks.
Qed.

Lemma new_block_weights g o i node :
  NoDup (Graph.nodes g) → Graph.nodes g !! i = Some node →
  take (length (Graph.edges g node))
       (drop (starts (UndirectedLouvainIndex g o) !!! i)
             (weights (UndirectedLouvainIndex g o)))
  = block_weights g o node.
Proof.
  intros Hnd Hi.
  destruct (new_block_start g o i node Hnd Hi) as [-> | Hnil].
  2:{ unfold block_weights. by rewrite Hnil. }
  rewrite new_weights. cbn zeta.
  rewrite (new_arrays_from (Q2Qc 0) (block_weights g o) g i node)
    by (done || apply length_block_weights).
  rewrite take_app_length'; [done|]. by rewrite length_block_weights.
Qed.

Lemma new_block_ids g o i node :
  NoDup (Graph.nodes g) → Graph.nodes g !! i = Some node →
  take (length (Graph.edges g node))
       (drop (starts (UndirectedLouvainIndex g o) !!! i)
             (neighborhood (UndirectedLouvainIndex g o)))
  = block_ids g node.
Proof.
  intros Hnd Hi.
  destruct (new_block_start g o i node Hnd Hi) as [-> | Hnil].
  2:{ unfold block_ids. by rewrite Hnil. }
  rewrite new_neighborhood. cbn zeta.
  rewrite (new_arrays_from 0 (block_ids g) g i node)
    by (done || apply length_block_ids).
  rewrite take_app_length'; [done|]. by rewrite length_block_ids.
Qed.

Lemma length_new_weights g o :
  length (weights (UndirectedLouvainIndex g o)) = Graph.size g * 2.
Proof.
  rewrite new_weights. cbn zeta.
  rewrite length_take, length_app, length_replicate. lia.
Qed.

(** The weights between [starts[i]] and [starts[i + 1]] add up to the weighted
    degree of node [i]. *)
Lemma new_block_sum g o i node :
  NoDup (Graph.nodes g) → fits g → Graph.nodes g !! i = Some node →
  let s := UndirectedLouvainIndex g o in
  sumQc ((λ p, weights s !!! p)
           <$> range (starts s !!! i) (starts s !!! (i + 1)))
  = weighted_degree g o node.
Proof.
  intros Hnd Hfits Hi s. pose proof (lookup_lt_Some _ _ _ Hi) as Hlt.
  fold (Graph.order g) in Hlt.
  pose proof (entries_total_le g Hnd) as Hle.
  pose proof (entries_before_mono g (S i) (Graph.order g) ltac:(lia)) as Hm.
  pose proof (entries_before_S g i Hlt) as HS.
  rewrite (list_lookup_total_correct _ _ _ Hi) in HS.
  unfold s, range. rewrite new_starts_lookup by done.
  assert (Hnext : ∃ pad,
    starts (UndirectedLouvainIndex g o) !!! (i + 1)
    = entries_before g i + length (Graph.edges g node) + pad
    ∧ entries_before g i + length (Graph.edges g node) + pad
      ≤ Graph.size g * 2
    ∧ take (length (Graph.edges g node) + pad)
           (drop (entries_before g i)
                 (weights (UndirectedLouvainIndex g o)))
      = block_weights g o node ++ replicate pad (Q2Qc 0)).
  { rewrite new_weights. cbn zeta.
    rewrite (new_arrays_from (Q2Qc 0) (block_weights g o) g i node)
      by (done || apply length_block_weights).
    destruct (decide (i + 1 = Graph.order g)) as [Hlast|Hnot].
    - exists (Graph.size g * 2 - entries_before g (Graph.order g)).
      rewrite Hlast, new_starts_last by done.
      assert (entries_before g (Graph.order g)
              = entries_before g i + length (Graph.edges g node)) as Hord
        by (by replace (Graph.order g) with (S i) by lia).
      split; [lia|]. split; [lia|].
      + rewrite drop_ge by (unfold Graph.order in *; lia).
        rewrite fmap_nil. cbn [concat app].
        rewrite take_ge; [done|].
        rewrite length_app, length_replicate, length_block_weights. lia.
    - exists 0. rewrite new_starts_lookup by (done || lia).
      replace (i + 1) with (S i) by lia.
      split; [lia|]. split; [lia|].
      + rewrite Nat.add_0_r, app_nil_r.
        rewrite take_app_length'; [done|]. by rewrite length_block_weights. }
  destruct Hnext as (pad & -> & Hbound & Htake).
  replace (entries_before g i + length (Graph.edges g node) + pad
           - entries_before g i)
    with (length (Graph.edges g node) + pad) by lia.
  rewrite fmap_lookup_seq by (rewrite length_new_weights; lia).
  rewrite Htake, sumQc_app, sumQc_replicate_0. unfold weighted_degree. ring.
Qed.

(** ** Moves *)

Lemma arr_add_sub_same (c : nat) (x : Qc) (arr : list Qc) :
  arr_add c x (arr_sub c x arr) = arr.
Proof.
  unfold arr_add, arr_sub.
  destruct (decide (c < length arr)) as [Hc|Hc].
  - rewrite list_lookup_total_insert_eq by done.
    rewrite list_insert_insert_eq. apply list_insert_id.
    rewrite (list_lookup_lookup_total_lt arr c Hc). f_equal. ring.
  - rewrite (list_insert_ge arr) by lia. apply list_insert_ge. lia.
Qed.

Lemma cnt_add_sub_same (ty : ArrayType) (c : nat) (x : Z) (arr : list Z) :
  element ty (arr !!! c) = arr !!! c →
  cnt_add ty c x (cnt_sub ty c x arr) = arr.
Proof.
  intros Hel. unfold cnt_add, cnt_sub.
  destruct (decide (c < length arr)) as [Hc|Hc].
  - rewrite list_lookup_total_insert_eq by done.
    rewrite list_insert_insert_eq. apply list_insert_id.
    rewrite (list_lookup_lookup_total_lt arr c Hc). f_equal.
    rewrite element_add_l.
    replace (arr !!! c - x + x)%Z with (arr !!! c) by lia. done.
  - rewrite (list_insert_ge arr) by lia. apply list_insert_ge. lia.
Qed.

(** On doubles, the two updates leave the rounded result in the entry. *)
Lemma binary64_arr_add_sub (c : nat) (x : float) (arr : list float) :
  Binary64.arr_add c x (Binary64.arr_sub c x arr) = sub_add c x arr.
Proof.
  unfold Binary64.arr_add, Binary64.arr_sub, sub_add.
  destruct (decide (c < length arr)) as [Hc|Hc].
  - rewrite list_lookup_total_insert_eq by done.
    by rewrite list_insert_insert_eq.
  - by rewrite !(list_insert_ge _ c) by (rewrite ?length_insert; lia).
Qed.

Lemma binary64_move_own (s : Binary64.Index) (i : nat)
    (degree communityDegree : float) :
  let c := Binary64.belongings s !!! i in
  let l := Binary64.loops s !!! i in
  i < length (Binary64.belongings s) →
  holds (Binary64.NodesPointerArray s) c →
  is_element (Binary64.NodesPointerArray s) (Binary64.counts_arr s !!! c) →
  Binary64.move i degree communityDegree communityDegree c s
  = with_weights s
      (sub_add c (communityDegree * 2 + l)%float (Binary64.internalWeights s))
      (sub_add c (degree + l)%float (Binary64.totalWeights s)).
Proof.
  cbn zeta. intros Hi Hc Hcnt.
  unfold Binary64.move, with_weights, Binary64.counts_arr in *.
  destruct s as [M0 C0 E0 lv gr ns kc kd nb ws lp st bel den mp cnt iw tw].
  cbn in *. rewrite !binary64_arr_add_sub, Hc.
  rewrite (list_insert_id bel) by (by apply list_lookup_lookup_total_lt).
  f_equal. destruct kc; [|done]. destruct cnt as [cnt|]; [|done].
  cbn in *. by rewrite cnt_add_sub_same.
Qed.

(** In exact arithmetic the state is as it was. *)
Lemma move_own (s : Index) (i : nat) (degree communityDegree : Qc) :
  let c := belongings s !!! i in
  i < length (belongings s) →
  holds (NodesPointerArray s) c →
  is_element (NodesPointerArray s) (counts_arr s !!! c) →
  move i degree communityDegree communityDegree c s = s.
Proof.
  cbn zeta. intros Hi Hc Hcnt. unfold move, counts_arr in *.
  destruct s as [M0 C0 E0 lv gr ns kc kd nb ws lp st bel den mp cnt iw tw].
  cbn in *. rewrite !arr_add_sub_same, Hc.
  rewrite (list_insert_id bel) by (by apply list_lookup_lookup_total_lt).
  f_equal. destruct kc; [|done]. destruct cnt as [cnt|]; [|done].
  cbn in *. by rewrite cnt_add_sub_same.
Qed.

Lemma sumQc_insert (l : list Qc) (i : nat) (v : Qc) :
  i < length l → sumQc (<[i := v]> l) = (sumQc l - l !!! i + v)%Qc.
Proof.
  revert i. induction l as [|x l IH]; intros [|i] Hi; cbn in Hi; try lia.
  - change (<[0:=v]> (x :: l)) with (v :: l).
    change ((x :: l) !!! 0) with x. rewrite !sumQc_cons. ring.
  - change (<[S i:=v]> (x :: l)) with (x :: <[i:=v]> l).
    change ((x :: l) !!! S i) with (l !!! i).
    rewrite !sumQc_cons, IH by lia. ring.
Qed.

Lemma sum_take_add_sub (C c t : nat) (x : Qc) (tw : list Qc) :
  c < C → t < C → C ≤ length tw →
  sumQc (take C (arr_add t x (arr_sub c x tw))) = sumQc (take C tw).
Proof.
  intros Hc Ht HC. unfold arr_add, arr_sub.
  rewrite !take_insert_lt by done.
  assert (Hlen : length (take C tw) = C) by (rewrite length_take; lia).
  rewrite sumQc_insert by (by rewrite length_insert, Hlen).
  rewrite sumQc_insert by (by rewrite Hlen).
  destruct (decide (c = t)) as [->|Hne].
  - rewrite (list_lookup_total_insert_eq tw) by lia.
    rewrite (list_lookup_total_insert_eq (take C tw)) by lia.
    rewrite lookup_total_take_lt by done. ring.
  - rewrite (list_lookup_total_insert_ne tw) by done.
    rewrite (list_lookup_total_insert_ne (take C tw)) by done.
    rewrite !lookup_total_take_lt by done. ring.
Qed.

(** A move leaves the sum of [totalWeights] as it is. *)
Lemma move_sum_totalWeights (s : Index) (i : nat) (d dc dt : Qc) (t : nat) :
  belongings s !!! i < C s → t < C s → C s ≤ length (totalWeights s) →
  sum_totalWeights (move i d dc dt t s) = sum_totalWeights s.
Proof.
  intros Hc Ht HC. unfold sum_totalWeights, move. cbn.
  by apply sum_take_add_sub.
Qed.

(** ** Modularity *)

Lemma foldl_sumQc {A} (f : A → Qc) (l : list A) (a : Qc) :
  foldl (λ Q i, (Q + f i)%Qc) a l = (a + sumQc (f <$> l))%Qc.
Proof.
  revert a. induction l as [|x l IH]; intros a.
  - cbn. ring.
  - cbn [foldl]. rewrite IH, fmap_cons, sumQc_cons. ring.
Qed.

Lemma modularity_sum (s : Index) :
  modularity s
  = sumQc ((λ i, community_term (M s * 2) (internalWeights s !!! i)
                                (totalWeights s !!! i)) <$> seq 0 (C s)).
Proof.
  exact (eq_trans
           (foldl_sumQc
              (λ i, community_term (M s * 2) (internalWeights s !!! i)
                                   (totalWeights s !!! i)) _ _)
           (Qcplus_0_l _)).
Qed.

Lemma fmap_seq_lookup {A B} `{!Inhabited A} (f : A → B) (l : list A) :
  (λ i, f (l !!! i)) <$> seq 0 (length l) = f <$> l.
Proof.
  apply list_eq. intros k. rewrite !list_lookup_fmap.
  destruct (decide (k < length l)) as [Hk|Hk].
  - rewrite lookup_seq_lt by done. cbn.
    by rewrite (list_lookup_lookup_total_lt l k Hk).
  - rewrite lookup_seq_ge by lia. by rewrite lookup_ge_None_2 by lia.
Qed.

Lemma sumQc_fmap_opp {A} (f : A → Qc) (l : list A) :
  sumQc ((λ x, - f x)%Qc <$> l) = (- sumQc (f <$> l))%Qc.
Proof.
  induction l as [|x l IH]; [cbn; ring|].
  rewrite !fmap_cons, !sumQc_cons, IH. ring.
Qed.

(** The sum of a function over a list without duplicates, when the function
    changes at one point. *)
Lemma sumQc_point (f f' : nat → Qc) (l : list nat) (c : nat) :
  NoDup l → c ∈ l → (∀ k, k ∈ l → k ≠ c → f' k = f k) →
  sumQc (f' <$> l) = (sumQc (f <$> l) + (f' c - f c))%Qc.
Proof.
  induction 1 as [|x l Hx Hnd IH]; intros Hc Hsame.
  - by apply elem_of_nil in Hc.
  - rewrite !fmap_cons, !sumQc_cons.
    destruct (decide (x = c)) as [->|Hne].
    + rewrite (sumQc_fmap_ext f' f l).
      * ring.
      * intros k Hk. apply Hsame; [by right|]. intros ->. done.
    + rewrite IH.
      * rewrite (Hsame x) by (done || by left). ring.
      * apply elem_of_cons in Hc as [->|Hc]; done.
      * intros k Hk Hkc. apply Hsame; [by right|done].
Qed.

Lemma sumQc_two_points (f f' : nat → Qc) (n c t : nat) :
  c < n → t < n → c ≠ t → (∀ k, k ≠ c → k ≠ t → f' k = f k) →
  sumQc (f' <$> seq 0 n)
  = (sumQc (f <$> seq 0 n) + (f' c - f c) + (f' t - f t))%Qc.
Proof.
  intros Hc Ht Hct Hsame.
  set (f1 := λ k, if decide (k = c) then f' c else f k).
  rewrite (sumQc_point f1 f' (seq 0 n) t).
  - rewrite (sumQc_point f f1 (seq 0 n) c).
    + unfold f1. rewrite decide_True by done. rewrite decide_False by done.
      ring.
    + apply NoDup_seq.
    + apply elem_of_seq. lia.
    + intros k _ Hk. unfold f1. by rewrite decide_False.
  - apply NoDup_seq.
  - apply elem_of_seq. lia.
  - intros k _ Hk. unfold f1. destruct (decide (k = c)) as [->|Hkc]; [done|].
    by apply Hsame.
Qed.

(** [delta] is the gain in modularity of the move of a node that is alone in
    its community. *)
Lemma delta_is_gain (s : Index) (i : nat) (d dt : Qc) (t : nat) :
  let c := belongings s !!! i in
  let l := loops s !!! i in
  M s ≠ Q2Qc 0 →
  c < C s → t < C s → c ≠ t →
  C s ≤ length (totalWeights s) → C s ≤ length (internalWeights s) →
  totalWeights s !!! c = (d + l)%Qc → internalWeights s !!! c = l →
  (modularity (move i d (Q2Qc 0) dt t s) - modularity s)%Qc
  = delta s (d + l) dt t.
Proof.
  intros c l HM Hc Ht Hct Htw Hiw Htwc Hiwc.
  rewrite !modularity_sum.
  cbn [M C internalWeights totalWeights move].
  fold c. fold l.
  rewrite (sumQc_two_points
             (λ k, community_term (M s * 2) (internalWeights s !!! k)
                                  (totalWeights s !!! k)) _ (C s) c t)
    by first [done | intros k Hkc Hkt; unfold arr_add, arr_sub;
              rewrite !list_lookup_total_insert_ne by done; done].
  unfold arr_add, arr_sub.
  rewrite !(list_lookup_total_insert_ne _ t c) by done.
  rewrite !list_lookup_total_insert_eq by (rewrite ?length_insert; lia).
  rewrite !(list_lookup_total_insert_ne _ c t) by done.
  rewrite Htwc, Hiwc. unfold delta, community_term. cbn [Qcpower].
  field. split; [done|]. intros H2. by apply (Q_apart_0_1) .
Qed.

(** ** Coarsening: the renumbering *)

Lemma first_seen_snoc (l : list nat) (c : nat) :
  first_seen (l ++ [c])
  = if decide (c ∈ first_seen l) then first_seen l else first_seen l ++ [c].
Proof. unfold first_seen. by rewrite foldl_snoc. Qed.

Lemma elem_of_first_seen (l : list nat) (x : nat) :
  x ∈ first_seen l ↔ x ∈ l.
Proof.
  induction l as [|c l IH] using rev_ind; [done|].
  rewrite first_seen_snoc, elem_of_app, list_elem_of_singleton.
  destruct (decide (c ∈ first_seen l)) as [Hc|Hc].
  - rewrite IH. split; [by left|]. intros [?| ->]; [done|]. by apply IH.
  - by rewrite elem_of_app, list_elem_of_singleton, IH.
Qed.

Lemma NoDup_first_seen (l : list nat) : NoDup (first_seen l).
Proof.
  induction l as [|c l IH] using rev_ind; [apply NoDup_nil_2|].
  rewrite first_seen_snoc. destruct (decide (c ∈ first_seen l)); [done|].
  apply NoDup_app. split; [done|]. split; [|apply NoDup_singleton].
  intros x Hx ->%list_elem_of_singleton. done.
Qed.

Lemma length_first_seen (l : list nat) : length (first_seen l) ≤ length l.
Proof.
  induction l as [|c l IH] using rev_ind; [done|].
  rewrite first_seen_snoc, length_app. cbn.
  destruct (decide (c ∈ first_seen l)); [lia|]. rewrite length_app. cbn. lia.
Qed.

Lemma index_of_snoc (c x : nat) (l : list nat) :
  index_of c (l ++ [x])
  = match index_of c l with
    | Some k => Some k
    | None => if decide (x = c) then Some (length l) else None
    end.
Proof.
  induction l as [|y l IH]; cbn.
  - by destruct (decide (x = c)).
  - destruct (decide (y = c)); [done|]. rewrite IH.
    destruct (index_of c l); [done|]. by destruct (decide (x = c)).
Qed.

Lemma index_of_None (c : nat) (l : list nat) :
  index_of c l = None ↔ c ∉ l.
Proof.
  induction l as [|y l IH]; cbn.
  - split; [intros _; apply not_elem_of_nil|done].
  - rewrite not_elem_of_cons. destruct (decide (y = c)) as [->|Hne].
    + split; [done|]. by intros [? _].
    + rewrite fmap_None, IH. split; [by intros ?; split|by intros [_ ?]].
Qed.

Lemma index_of_Some (c k : nat) (l : list nat) :
  index_of c l = Some k → l !! k = Some c.
Proof.
  revert k. induction l as [|y l IH]; intros k; cbn; [done|].
  destruct (decide (y = c)) as [->|Hne].
  - by intros [= <-].
  - intros (k' & Hk' & ->)%fmap_Some. cbn. by apply IH.
Qed.

Lemma dense_label_snoc (l : list nat) (c x : nat) :
  x ∈ l → dense_label (l ++ [c]) x = dense_label l x.
Proof.
  intros Hx. unfold dense_label. rewrite first_seen_snoc.
  destruct (decide (c ∈ first_seen l)); [done|].
  rewrite index_of_snoc.
  destruct (index_of x (first_seen l)) eqn:Hidx; [done|].
  apply index_of_None in Hidx. by rewrite elem_of_first_seen in Hidx.
Qed.

Lemma renumber_node_upto (s : Index) (k : nat) (r : Renumbering) :
  k < length (belongings s) →
  renumbered_upto s k r → renumbered_upto s (S k) (renumber_node s r k).
Proof.
  intros Hk (Hig & Hlab & Hbel).
  pose proof (list_lookup_lookup_total_lt _ _ Hk) as Hbk.
  set (ci := belongings s !!! k) in *.
  assert (Hlen : length (dense_label (take k (belongings s))
                           <$> take k (belongings s)) = k)
    by (rewrite length_fmap, length_take; lia).
  assert (Hci : r_belongings r !!! k = ci).
  { rewrite Hbel. apply list_lookup_total_correct.
    rewrite lookup_app_r by lia. rewrite Hlen, Nat.sub_diag.
    rewrite lookup_drop, Nat.add_0_r. done. }
  assert (Hstable :
    dense_label (take k (belongings s) ++ [ci]) <$> take k (belongings s)
    = dense_label (take k (belongings s)) <$> take k (belongings s)).
  { apply list_fmap_ext. intros i x Hx. apply dense_label_snoc.
    by eapply list_elem_of_lookup_2. }
  assert (Hwrite : ∀ v,
    <[k := v]> ((dense_label (take k (belongings s))
                   <$> take k (belongings s)) ++ drop k (belongings s))
    = ((dense_label (take k (belongings s)) <$> take k (belongings s))
         ++ [v]) ++ drop (S k) (belongings s)).
  { intros v. rewrite insert_app_r_alt by lia. rewrite Hlen, Nat.sub_diag.
    rewrite (drop_S _ ci k) by done. cbn. by rewrite <- app_assoc. }
  pose proof (length_first_seen (take k (belongings s))) as Hfs.
  rewrite length_take in Hfs.
  unfold renumbered_upto, renumber_node. cbn zeta.
  rewrite (take_S_r _ _ ci) by done. rewrite Hci, Hlab.
  rewrite first_seen_snoc.
  destruct (index_of ci (first_seen (take k (belongings s)))) as [v|] eqn:Hidx.
  - assert (Hin : ci ∈ first_seen (take k (belongings s))).
    { destruct (decide (ci ∈ first_seen (take k (belongings s)))); [done|].
      apply index_of_None in n. congruence. }
    rewrite decide_True by done. cbn.
    split; [done|]. split; [done|].
    rewrite Hlab, Hidx. cbn [default].
    pose proof (lookup_lt_Some _ _ _ (index_of_Some _ _ _ Hidx)) as Hv.
    unfold NodesPointerArray, id. rewrite pointer_lt by lia.
    rewrite Hbel, Hwrite. cbn.
    rewrite fmap_app, Hstable. do 2 f_equal. cbn. f_equal.
    unfold dense_label. rewrite first_seen_snoc, decide_True by done.
    by rewrite Hidx.
  - assert (Hnin : ci ∉ first_seen (take k (belongings s)))
      by (by apply index_of_None).
    rewrite decide_False by done. cbn.
    split; [|split].
    + rewrite Hig, fmap_app. done.
    + intros c. rewrite index_of_snoc.
      destruct (decide (ci = c)) as [->|Hne].
      * rewrite lookup_insert_eq, Hidx, Hig, length_fmap. done.
      * rewrite lookup_insert_ne by done. rewrite Hlab.
        by destruct (index_of c (first_seen (take k (belongings s)))).
    + rewrite lookup_insert_eq. cbn [default].
      unfold NodesPointerArray, id.
      rewrite pointer_lt by (rewrite Hig, length_fmap; lia).
      rewrite Hbel, Hwrite. cbn.
      rewrite fmap_app, Hstable. do 2 f_equal. cbn. f_equal.
      unfold dense_label. rewrite first_seen_snoc, decide_False by done.
      rewrite index_of_snoc, Hidx, decide_True by done. cbn.
      by rewrite Hig, length_fmap.
Qed.

Lemma renumber_prefix (s : Index) (k : nat) :
  k ≤ length (belongings s) →
  renumbered_upto s k
    (foldl (renumber_node s) (mkRenumbering ∅ [] (belongings s)) (seq 0 k)).
Proof.
  induction k as [|k IH]; intros Hk.
  - cbn. unfold renumbered_upto. cbn. rewrite drop_0. done.
  - rewrite seq_S, foldl_snoc. cbn. apply renumber_node_upto; [lia|].
    apply IH. lia.
Qed.

Lemma renumber_spec (s : Index) :
  C s ≤ length (belongings s) →
  r_inducedGraph (renumber s)
  = community_of s <$> first_seen (take (C s) (belongings s))
  ∧ r_belongings (renumber s) = renumbered s.
Proof.
  intros HC. destruct (renumber_prefix s (C s) HC) as (Hig & _ & Hbel).
  done.
Qed.

(** ** Coarsening: the induced graph *)

Lemma foldl_invariant {A B} (P : A → Prop) (f : A → B → A) (l : list B)
    (a : A) :
  P a → (∀ a x, P a → P (f a x)) → P (foldl f a l).
Proof.
  intros Ha Hf. revert a Ha. induction l as [|x l IH]; intros a Ha; [done|].
  cbn. apply IH. by apply Hf.
Qed.

Lemma alter_adj_add_fields {B} (proj : Community → B) cj w ci
    (l : list Community) :
  (∀ c, proj (adj_add cj w c) = proj c) →
  proj <$> alter (adj_add cj w) ci l = proj <$> l.
Proof.
  intros Hproj. revert ci. induction l as [|c l IH]; intros [|ci]; cbn;
    [done|done| |].
  - by rewrite Hproj.
  - f_equal. apply IH.
Qed.

Lemma induced_size_alter cj w ci (l : list Community) :
  induced_size (alter (adj_add cj w) ci l) ≤ S (induced_size l).
Proof.
  unfold induced_size. revert ci.
  induction l as [|c l IH]; intros [|ci]; cbn; [lia|lia| |].
  - rewrite map_size_insert. destruct (adj c !! cj); unfold id; cbn; lia.
  - specialize (IH ci). unfold id in *. cbn in *. lia.
Qed.

Lemma induce_edge_from s bel ci ig0 acc j :
  induced_from ig0 acc → induced_from ig0 (induce_edge s bel ci acc j).
Proof.
  intros (Htw & Hlen & Hsize). unfold induce_edge. cbn zeta.
  destruct (decide _); [done|]. unfold induced_from. cbn [fst snd].
  split; [|split].
  - by rewrite alter_adj_add_fields.
  - by rewrite length_alter.
  - pose proof (induced_size_alter (bel !!! (neighborhood s !!! j))
                  (weights s !!! (neighborhood s !!! j)) ci acc.1). lia.
Qed.

Lemma induce_from s r :
  induced_from (r_inducedGraph r) (induce s r).
Proof.
  unfold induce. apply foldl_invariant.
  - unfold induced_from. cbn [fst snd]. split; [done|]. split; [done|lia].
  - intros acc i Hacc. unfold induce_node. apply foldl_invariant; [done|].
    intros acc' j Hacc'. by apply induce_edge_from.
Qed.

Lemma induced_size_fresh s (l : list nat) :
  induced_size (community_of s <$> l) = 0.
Proof.
  unfold induced_size. induction l as [|c l IH]; [done|].
  rewrite !fmap_cons. cbn. unfold id. by rewrite map_size_empty.
Qed.

(** ** Coarsening: rewriting the arrays *)

Lemma length_adj_entries (a : gmap nat Qc) :
  length (adj_entries a) = size a.
Proof.
  unfold adj_entries.
  by rewrite (Permutation_length (merge_sort_Permutation _ _)),
     length_map_to_list.
Qed.

Lemma rewrite_edges_fold (s : Index) (es : list (nat * Qc))
    (w : Rewriting) :
  foldl (rewrite_edge s) w es =
  {| w_n := w_n w + length es;
     w_neighborhood :=
       write_at (w_n w) (pointer (NodesPointerArray s) <$> es.*1)
                (w_neighborhood w);
     w_weights := write_at (w_n w) es.*2 (w_weights w);
     w_loops := w_loops w;
     w_starts := w_starts w;
     w_belongings := w_belongings w;
     w_counts := w_counts w;
     w_internalWeights := w_internalWeights w;
     w_totalWeights := w_totalWeights w |}.
Proof.
  revert w. induction es as [|e es IH]; intros w.
  - destruct w. cbn. f_equal. lia.
  - cbn [foldl]. rewrite IH. cbn. f_equal. lia.
Qed.

Lemma induced_size_snoc ig c :
  induced_size (ig ++ [c]) = induced_size ig + size (adj c).
Proof.
  unfold induced_size. rewrite fmap_app, sum_list_with_app. cbn. unfold id. lia.
Qed.

Lemma rewrite_prefix (s : Index) (w0 : Rewriting) (ig : list Community) :
  w_n w0 = 0 →
  length ig ≤ length (w_totalWeights w0) →
  length ig ≤ length (w_starts w0) →
  rewritten (NeighborhoodPointerArray s) w0 ig
            (foldl (rewrite_community s) w0 (imap pair ig)).
Proof.
  intros Hn0. induction ig as [|c ig IH] using rev_ind; intros Htw Hst.
  - cbn. unfold rewritten. cbn. rewrite take_0.
    repeat split; try done; intros; lia.
  - rewrite length_app in Htw, Hst. cbn in Htw, Hst.
    rewrite imap_app, foldl_app. cbn [imap foldl].
    rewrite Nat.add_0_r.
    destruct IH as (Hn & Hls & Hlt & Hlb & Hln & Htake & Hord); [lia|lia|].
    set (w := foldl (rewrite_community s) w0 (imap pair ig)) in *.
    unfold rewrite_community. rewrite rewrite_edges_fold.
    unfold rewritten. cbn.
    rewrite length_adj_entries, !length_insert, length_app,
      length_write_at. cbn.
    split; [by rewrite induced_size_snoc, Hn|].
    split; [done|]. split; [done|]. split; [done|]. split; [done|].
    split.
    + replace (length ig + 1) with (S (length ig)) by lia.
      rewrite (take_S_r _ _ (c_totalWeights c)).
      * rewrite take_insert_ge by lia. by rewrite Htake, fmap_app.
      * apply list_lookup_insert_eq. lia.
    + intros Hholds. rewrite induced_size_snoc in Hholds.
      assert (Hh : holds (NeighborhoodPointerArray s) (induced_size ig))
        by (apply (holds_le _ _ _ Hholds); lia).
      destruct (Hord Hh) as [Hmono Hbound].
      rewrite Hn, Hh. split.
      * intros i j Hij Hj.
        destruct (decide (j = length ig)) as [->|Hne].
        -- rewrite (list_lookup_total_insert_eq _ (length ig)) by lia.
           destruct (decide (i = length ig)) as [->|Hne'].
           ++ by rewrite list_lookup_total_insert_eq by lia.
           ++ rewrite list_lookup_total_insert_ne by done.
              rewrite <- Hn. apply Hbound. lia.
        -- rewrite !list_lookup_total_insert_ne by lia. apply Hmono; lia.
      * intros i Hi.
        destruct (decide (i = length ig)) as [->|Hne].
        -- rewrite list_lookup_total_insert_eq by lia. lia.
        -- rewrite list_lookup_total_insert_ne by done.
           specialize (Hbound i). lia.
Qed.

(** ** Coarsening: the new index *)

Lemma renumber_lengths (s : Index) :
  length (r_inducedGraph (renumber s)) ≤ C s
  ∧ length (r_belongings (renumber s)) = length (belongings s)
  ∧ induced_size (r_inducedGraph (renumber s)) = 0.
Proof.
  unfold renumber.
  assert (H : ∀ k,
    let r := foldl (renumber_node s) (mkRenumbering ∅ [] (belongings s))
                   (seq 0 k) in
    length (r_inducedGraph r) ≤ k
    ∧ length (r_belongings r) = length (belongings s)
    ∧ induced_size (r_inducedGraph r) = 0).
  { induction k as [|k IH]; [done|].
    rewrite seq_S, foldl_snoc. cbn zeta in *. cbn [Nat.add].
    destruct IH as (Hl & Hb & Hs).
    set (r := foldl _ _ _) in *. unfold renumber_node. cbn zeta.
    destruct (r_newLabels r !! (r_belongings r !!! k));
      cbn [r_inducedGraph r_belongings].
    - rewrite length_insert. split; [lia|done].
    - rewrite length_insert, length_app. cbn [length].
      split; [lia|]. split; [done|].
      rewrite induced_size_snoc. cbn [adj]. rewrite map_size_empty. lia. }
  apply H.
Qed.

Lemma zoomOut_rewritten (s : Index) :
  shape s →
  ∃ ig E' w,
    induce s (renumber s) = (ig, E')
    ∧ induced_from (r_inducedGraph (renumber s)) (ig, E')
    ∧ rewritten (NeighborhoodPointerArray s)
                (rewrite_init s (r_belongings (renumber s))) ig w
    ∧ w = rewrite s (r_belongings (renumber s)) ig
    ∧ C (zoomOut s) = length ig
    ∧ E (zoomOut s) = E'
    ∧ starts (zoomOut s)
      = <[length ig := pointer (NeighborhoodPointerArray s) E']> (w_starts w)
    ∧ totalWeights (zoomOut s) = w_totalWeights w
    ∧ belongings (zoomOut s) = w_belongings w
    ∧ neighborhood (zoomOut s) = w_neighborhood w.
Proof.
  intros (Hst & Htw & Hbel).
  destruct (renumber_lengths s) as (Hlen & Hlb & Hsz).
  pose proof (induce_from s (renumber s)) as Hfrom.
  destruct (induce s (renumber s)) as [ig E'] eqn:Hind.
  pose proof Hfrom as (_ & Hlig & _). cbn [fst] in Hlig.
  exists ig, E', (rewrite s (r_belongings (renumber s)) ig).
  split; [done|]. split; [done|]. split.
  { apply rewrite_prefix; cbn; [done|lia|lia]. }
  split; [done|].
  unfold zoomOut. cbn zeta. rewrite Hind. cbn. by rewrite Hlig.
Qed.

Lemma zoomOut_shape (s : Index) : shape s → shape (zoomOut s).
Proof.
  intros Hs. pose proof Hs as (Hst & Htw & Hbel).
  destruct (zoomOut_rewritten s Hs)
    as (ig & E' & w & Hind & Hfrom & Hrw & _ & HC & HE & Hstarts & Htws
        & Hbels & _).
  destruct Hfrom as (_ & Hlig & _). cbn [fst] in Hlig.
  destruct Hrw as (_ & Hls & Hlt & Hlb & _).
  destruct (renumber_lengths s) as (Hlen & Hlbr & _).
  cbn in Hls, Hlt, Hlb.
  unfold shape. rewrite HC, Hstarts, Htws, Hbels, length_insert.
  lia.
Qed.

(** [zoomOut] keeps the length of [neighborhood], hence the element type of
    [starts]. *)
Lemma zoomOut_NeighborhoodPointerArray (s : Index) :
  shape s →
  NeighborhoodPointerArray (zoomOut s) = NeighborhoodPointerArray s.
Proof.
  intros Hs.
  destruct (zoomOut_rewritten s Hs)
    as (ig & E' & w & _ & _ & Hrw & _ & _ & _ & _ & _ & _ & Hnb).
  destruct Hrw as (_ & _ & _ & _ & Hln & _). cbn in Hln.
  unfold NeighborhoodPointerArray. by rewrite Hnb, Hln.
Qed.

(** After [zoomOut], [starts] is non-decreasing over [0..C] and ends at [E],
    when its elements hold [E]. *)
Lemma zoomOut_starts_ok (s : Index) :
  shape s → holds (NeighborhoodPointerArray s) (E (zoomOut s)) →
  starts_ok (zoomOut s).
Proof.
  intros Hs Hholds. pose proof Hs as (Hst & Htw & Hbel).
  destruct (zoomOut_rewritten s Hs)
    as (ig & E' & w & Hind & Hfrom & Hrw & _ & HC & HE & Hstarts & _).
  destruct Hfrom as (_ & Hlig & Hsize). cbn [fst snd] in Hlig, Hsize.
  destruct Hrw as (Hn & Hls & _ & _ & _ & _ & Hord).
  destruct (renumber_lengths s) as (Hlen & _ & Hsz).
  cbn in Hls. rewrite HE in Hholds.
  destruct Hord as [Hmono Hbound].
  { apply (holds_le _ _ _ Hholds). lia. }
  unfold holds in Hholds.
  unfold starts_ok. rewrite HC, HE, Hstarts, Hholds. split.
  - intros i j Hij Hj.
    destruct (decide (j = length ig)) as [->|Hne].
    + rewrite (list_lookup_total_insert_eq _ (length ig)) by lia.
      destruct (decide (i = length ig)) as [->|Hne'].
      * by rewrite list_lookup_total_insert_eq by lia.
      * rewrite list_lookup_total_insert_ne by done.
        specialize (Hbound i). lia.
    + rewrite !list_lookup_total_insert_ne by lia. apply Hmono; lia.
  - apply list_lookup_insert_eq. lia.
Qed.

(** [zoomOut] counts at most the entries it scans. *)
Lemma induce_node_count (s : Index) (bel : list nat)
    (acc : list Community * nat) (i : nat) :
  (induce_node s bel acc i).2
  ≤ acc.2 + (starts s !!! (i + 1) - starts s !!! i).
Proof.
  unfold induce_node, range.
  generalize (starts s !!! i) (starts s !!! (i + 1) - starts s !!! i).
  intros a n. revert a acc. induction n as [|n IH]; intros a acc.
  - cbn. lia.
  - cbn [seq foldl]. etrans; [apply IH|].
    unfold induce_edge. cbn zeta. destruct (decide _); cbn [snd]; lia.
Qed.

Lemma zoomOut_E_le (s : Index) :
  starts_ok s → E (zoomOut s) ≤ E s.
Proof.
  intros [Hmono Hlast].
  assert (HE : E (zoomOut s) = (induce s (renumber s)).2).
  { unfold zoomOut. cbn zeta. by destruct (induce s (renumber s)). }
  rewrite HE. unfold induce.
  assert (H : ∀ k, k ≤ C s →
    (foldl (induce_node s (r_belongings (renumber s)))
           (r_inducedGraph (renumber s), 0) (seq 0 k)).2
    ≤ starts s !!! k - starts s !!! 0).
  { induction k as [|k IH]; intros Hk; [cbn; lia|].
    rewrite seq_S, foldl_snoc. cbn [Nat.add].
    etrans; [apply induce_node_count|].
    specialize (IH ltac:(lia)).
    pose proof (Hmono 0 k ltac:(lia) ltac:(lia)).
    pose proof (Hmono k (k + 1) ltac:(lia) ltac:(lia)).
    replace (S k) with (k + 1) by lia. lia. }
  specialize (H (C s) ltac:(lia)).
  apply list_lookup_total_correct in Hlast. lia.
Qed.

(** After [zoomOut], the total weights of the communities are those of the
    communities that had members, in the order first encountered. *)
Lemma zoomOut_totalWeights (s : Index) :
  shape s →
  take (C (zoomOut s)) (totalWeights (zoomOut s))
  = (λ c, totalWeights s !!! c) <$> first_seen (take (C s) (belongings s)).
Proof.
  intros Hs. pose proof Hs as (Hst & Htw & Hbel).
  destruct (zoomOut_rewritten s Hs)
    as (ig & E' & w & Hind & Hfrom & Hrw & _ & HC & _ & _ & Htws & _).
  destruct Hfrom as (Hfields & _). cbn [fst] in Hfields.
  destruct Hrw as (_ & _ & _ & _ & _ & Htake & _).
  destruct (renumber_spec s Hbel) as (Hig & _).
  rewrite HC, Htws, Htake, Hfields, Hig, <- list_fmap_compose. done.
Qed.

Lemma seq_split_first_seen (F : list nat) (n : nat) :
  NoDup F → (∀ x, x ∈ F → x < n) →
  seq 0 n ≡ₚ F ++ filter (λ x, x ∉ F) (seq 0 n).
Proof.
  intros Hnd Hlt. apply NoDup_Permutation.
  - apply NoDup_seq.
  - apply NoDup_app. split; [done|]. split.
    + intros x Hx [Hx' _]%list_elem_of_filter. done.
    + apply NoDup_filter, NoDup_seq.
  - intros x. rewrite elem_of_app, list_elem_of_filter, elem_of_seq.
    split.
    + intros Hx. destruct (decide (x ∈ F)); [by left|right]. done.
    + intros [Hx|[_ Hx]]; [|done]. specialize (Hlt x Hx). lia.
Qed.

(** [zoomOut] keeps the sum of [totalWeights] when the communities it drops,
    those without a member, weigh nothing. *)
Lemma zoomOut_sum_totalWeights (s : Index) :
  shape s →
  (∀ i, i < C s → belongings s !!! i < C s) →
  (∀ c, c < C s → memberless s c → totalWeights s !!! c = Q2Qc 0) →
  sum_totalWeights (zoomOut s) = sum_totalWeights s.
Proof.
  intros Hs Hrange Hempty. pose proof Hs as (Hst & Htw & Hbel).
  unfold sum_totalWeights. rewrite zoomOut_totalWeights by done.
  set (F := first_seen (take (C s) (belongings s))).
  assert (HF : ∀ x, x ∈ F → ∃ i, i < C s ∧ belongings s !!! i = x).
  { intros x Hx. unfold F in Hx.
    apply (proj1 (elem_of_first_seen _ _)) in Hx.
    apply list_elem_of_lookup in Hx as [i Hi].
    apply lookup_take_Some in Hi as [Hi Hlt].
    exists i. split; [done|]. by apply list_lookup_total_correct. }
  assert (Hperm : seq 0 (C s) ≡ₚ F ++ filter (λ x, x ∉ F) (seq 0 (C s))).
  { apply seq_split_first_seen; [apply NoDup_first_seen|].
    intros x (i & Hi & <-)%HF. by apply Hrange. }
  replace (take (C s) (totalWeights s))
    with ((λ c, totalWeights s !!! c) <$> seq 0 (C s)).
  2:{ rewrite fmap_lookup_seq by (cbn; lia). by rewrite drop_0. }
  rewrite (sumQc_perm _ _ (fmap_Permutation _ _ _ Hperm)).
  rewrite fmap_app, sumQc_app.
  rewrite (sumQc_fmap_ext _ (λ _, Q2Qc 0) (filter _ _)).
  - rewrite sumQc_fmap_0. ring.
  - intros c [Hc Hseq]%list_elem_of_filter. apply elem_of_seq in Hseq.
    apply Hempty; [lia|]. intros i Hi Heq. apply Hc.
    apply elem_of_first_seen. rewrite <- Heq.
    apply list_elem_of_lookup. exists i.
    rewrite lookup_take_lt by done. by apply list_lookup_lookup_total_lt; lia.
Qed.

(** ** Level 0 *)

Lemma lookup_add_sub (tw : list Qc) (c t k : nat) (d : Qc) :
  c < length tw → t < length tw →
  arr_add t d (arr_sub c d tw) !!! k
  = (tw !!! k - (if decide (k = c) then d else Q2Qc 0)
     + (if decide (k = t) then d else Q2Qc 0))%Qc.
Proof.
  intros Hc Ht. unfold arr_add, arr_sub.
  destruct (decide (k = t)) as [->|Hkt].
  - rewrite (list_lookup_total_insert_eq (<[c:=_]> tw))
      by (by rewrite length_insert).
    destruct (decide (t = c)) as [->|Htc].
    + rewrite list_lookup_total_insert_eq by done. ring.
    + rewrite list_lookup_total_insert_ne by done. ring.
  - rewrite (list_lookup_total_insert_ne (<[c:=_]> tw)) by done.
    destruct (decide (k = c)) as [->|Hkc].
    + rewrite list_lookup_total_insert_eq by done. ring.
    + rewrite list_lookup_total_insert_ne by done. ring.
Qed.

Lemma sumQc_indicator (f : nat → Qc) (n c : nat) :
  c < n →
  sumQc ((λ i, if decide (i = c) then f i else Q2Qc 0) <$> seq 0 n) = f c.
Proof.
  intros Hc.
  rewrite (sumQc_point (λ _, Q2Qc 0) _ (seq 0 n) c).
  - rewrite sumQc_fmap_0, decide_True by done. ring.
  - apply NoDup_seq.
  - apply elem_of_seq. lia.
  - intros k _ Hk. by rewrite decide_False.
Qed.

Lemma new_shape g o : shape (UndirectedLouvainIndex g o).
Proof.
  unfold shape. rewrite new_starts, new_totalWeights, new_belongings.
  rewrite length_app, !length_fmap, !length_seq. cbn. unfold Graph.order. lia.
Qed.

Lemma move_shape s i d dc dt t : shape s → shape (move i d dc dt t s).
Proof.
  unfold shape, move, arr_add, arr_sub. cbn. by rewrite !length_insert.
Qed.

(** A move to a community in range stores its number as it is. *)
Lemma move_belongings s i d dc dt t :
  t < length (belongings s) →
  belongings (move i d dc dt t s) = <[i := t]> (belongings s).
Proof.
  intros Ht. cbn [belongings move]. unfold NodesPointerArray.
  by rewrite pointer_lt.
Qed.

Lemma level0_invariant g o s :
  NoDup (Graph.nodes g) → level0 g o s →
  let s0 := UndirectedLouvainIndex g o in
  C s = Graph.order g ∧ M s = M s0
  ∧ starts s = starts s0 ∧ weights s = weights s0 ∧ loops s = loops s0
  ∧ shape s
  ∧ length (totalWeights s) = Graph.order g
  ∧ (∀ i, i < Graph.order g → belongings s !!! i < Graph.order g)
  ∧ (∀ c, c < Graph.order g → totalWeights s !!! c = members_weight g o s c)
  ∧ sum_totalWeights s = sum_totalWeights s0.
Proof.
  intros Hnd Hs s0. induction Hs as [|s i dc dt t Hs IH Hi Ht].
  - split; [done|]. split; [done|]. split; [done|]. split; [done|].
    split; [done|]. split; [apply new_shape|].
    split; [by rewrite new_totalWeights, length_fmap|].
    split; [|split; [|done]].
    + intros i Hi. rewrite new_belongings. by rewrite lookup_total_seq_lt.
    + intros c Hc. unfold members_weight.
      rewrite (sumQc_fmap_ext _
                 (λ i, if decide (i = c)
                       then weighted_degree g o (Graph.nodes g !!! i)
                       else Q2Qc 0)).
      * rewrite sumQc_indicator by done. rewrite new_totalWeights.
        apply list_lookup_total_correct. rewrite list_lookup_fmap.
        by rewrite (list_lookup_lookup_total_lt (Graph.nodes g) c).
      * intros i Hin%elem_of_seq. rewrite new_belongings.
        by rewrite lookup_total_seq_lt by lia.
  - destruct IH as (HC & HM & Hst & Hws & Hlp & Hsh & Hlen & Hrange & Htw & Hsum).
    rewrite HC in Hi, Ht.
    assert (Hloop : loops s !!! i = Q2Qc 0).
    { rewrite Hlp. cbn. apply list_lookup_total_correct.
      by apply lookup_replicate_2. }
    split; [done|]. split; [done|]. split; [done|]. split; [done|].
    split; [done|]. split; [by apply move_shape|].
    split; [cbn; unfold arr_add, arr_sub; by rewrite !length_insert|].
    destruct Hsh as (_ & _ & Hbl). rewrite HC in Hbl.
    split; [|split].
    + intros k Hk. rewrite move_belongings by lia.
      destruct (decide (k = i)) as [->|Hne].
      * by rewrite list_lookup_total_insert_eq by lia.
      * rewrite list_lookup_total_insert_ne by done. by apply Hrange.
    + intros c Hc. cbn [totalWeights move].
      rewrite lookup_add_sub by (rewrite Hlen; auto).
      rewrite Htw by done. unfold members_weight.
      rewrite move_belongings by lia.
      rewrite (sumQc_point
                 (λ k, if decide (belongings s !!! k = c)
                       then weighted_degree g o (Graph.nodes g !!! k)
                       else Q2Qc 0)
                 (λ k, if decide (<[i:=t]> (belongings s) !!! k = c)
                       then weighted_degree g o (Graph.nodes g !!! k)
                       else Q2Qc 0)
                 (seq 0 (Graph.order g)) i).
      * rewrite list_lookup_total_insert_eq by lia.
        rewrite Hloop.
        repeat case_decide; try congruence; ring.
      * apply NoDup_seq.
      * apply elem_of_seq. lia.
      * intros k _ Hk. by rewrite list_lookup_total_insert_ne.
    + rewrite <- Hsum. apply move_sum_totalWeights.
      * rewrite HC. by apply Hrange.
      * by rewrite HC.
      * rewrite HC, Hlen. done.
Qed.

Lemma new_sum_totalWeights g o :
  Graph.wf g → Graph.loop_free g →
  sum_totalWeights (UndirectedLouvainIndex g o)
  = (2 * M (UndirectedLouvainIndex g o))%Qc.
Proof.
  intros Hwf Hlf. unfold sum_totalWeights. rewrite new_totalWeights, new_M.
  cbn [C UndirectedLouvainIndex].
  rewrite take_ge by (by rewrite length_fmap).
  rewrite degree_sum, counted_sum by done.
  by rewrite proper_weight_loop_free.
Qed.

Lemma level0_memberless g o s c :
  NoDup (Graph.nodes g) → level0 g o s →
  c < C s → memberless s c → totalWeights s !!! c = Q2Qc 0.
Proof.
  intros Hnd Hs Hc Hempty.
  destruct (level0_invariant g o s Hnd Hs)
    as (HC & _ & _ & _ & _ & _ & _ & _ & Htw & _).
  rewrite HC in Hc. rewrite Htw by done. unfold members_weight.
  rewrite (sumQc_fmap_ext _ (λ _, Q2Qc 0)); [apply sumQc_fmap_0|].
  intros i Hi%elem_of_seq. rewrite decide_False; [done|].
  apply Hempty. rewrite HC. lia.
Qed.

(** [expensiveMove] gives the move the actual adjacency sum of the node. *)
Lemma scan_degree (s : Index) (i ci : nat) :
  degree (scan s i ci) = adjacency_sum s i.
Proof.
  unfold scan, adjacency_sum.
  assert (H : ∀ l d,
    degree (foldl (scan_edge s (belongings s !!! i) ci) d l)
    = (degree d + sumQc ((λ p, weights s !!! p) <$> l))%Qc).
  { induction l as [|p l IH]; intros d.
    - cbn. ring.
    - cbn [foldl]. rewrite IH, fmap_cons, sumQc_cons. cbn [degree scan_edge].
      ring. }
  rewrite H. cbn [degree]. ring.
Qed.

(** On a fresh index whose [starts] holds [upperBound], and after moves,
    the sum is the weighted degree of the node. *)
Lemma level0_adjacency_sum g o s i :
  NoDup (Graph.nodes g) → fits g → level0 g o s → i < C s →
  adjacency_sum s i = weighted_degree g o (Graph.nodes g !!! i).
Proof.
  intros Hnd Hfits Hs Hi.
  destruct (level0_invariant g o s Hnd Hs)
    as (HC & _ & Hst & Hws & _).
  unfold adjacency_sum. rewrite Hst, Hws.
  apply (new_block_sum g o i); [done|done|].
  apply list_lookup_lookup_total_lt. unfold Graph.order in HC. lia.
Qed.

Lemma expensiveMove_level0 g o s i ci :
  NoDup (Graph.nodes g) → fits g →
  level0 g o s → i < C s → ci < C s → level0 g o (expensiveMove i ci s).
Proof.
  intros Hnd Hfits Hs Hi Hci. unfold expensiveMove.
  rewrite scan_degree, (level0_adjacency_sum g o) by done.
  by apply level0_move.
Qed.

(** ** Levels: the dendrogram and the flattened mapping *)

Lemma compose_snoc levels B m :
  compose (levels ++ [B]) m = (λ x, B !!! x) <$> compose levels m.
Proof. unfold compose. by rewrite foldl_snoc. Qed.

Lemma length_compose levels m : length (compose levels m) = length m.
Proof.
  induction levels as [|B levels IH] using rev_ind; [done|].
  by rewrite compose_snoc, length_fmap.
Qed.

Lemma flatten_prefix (ty : ArrayType) (bel m : list nat) (k : nat) :
  k ≤ length m →
  foldl (λ mapping i, <[i := pointer ty (bel !!! (mapping !!! i))]> mapping)
        m (seq 0 k)
  = ((λ x, pointer ty (bel !!! x)) <$> take k m) ++ drop k m.
Proof.
  induction k as [|k IH]; intros Hk.
  - cbn. by rewrite drop_0.
  - rewrite seq_S, foldl_snoc, IH by lia. cbn [Nat.add].
    assert (Hlen : length ((λ x, pointer ty (bel !!! x)) <$> take k m) = k)
      by (rewrite length_fmap, length_take; lia).
    destruct (lookup_lt_is_Some_2 m k ltac:(lia)) as [x Hx].
    rewrite (drop_S _ x k) by done.
    rewrite lookup_total_app_r by lia. rewrite Hlen, Nat.sub_diag.
    rewrite insert_app_r_alt by lia. rewrite Hlen, Nat.sub_diag.
    rewrite (take_S_r _ _ x) by done. rewrite fmap_app, <- app_assoc. done.
Qed.

Lemma flatten_fmap (ty : ArrayType) (bel m : list nat) :
  Forall (λ x, holds ty (bel !!! x)) m →
  flatten ty bel m (length m) = (λ x, bel !!! x) <$> m.
Proof.
  intros Hm. unfold flatten. rewrite flatten_prefix by done.
  rewrite firstn_all, drop_all, app_nil_r.
  apply list_fmap_ext. intros i x Hx.
  apply (proj1 (Forall_forall _ _) Hm). by eapply list_elem_of_lookup_2.
Qed.

Lemma next_level_fmap (C : nat) (bel cur : list nat) :
  Forall (λ x, bel !!! x < C) cur →
  next_level C bel cur (length cur) = (λ x, bel !!! x) <$> cur.
Proof.
  intros Hcur. unfold next_level.
  rewrite (fmap_seq_lookup (λ x, pointer (getPointerArray C) (bel !!! x))).
  apply list_fmap_ext. intros i x Hx. apply pointer_lt.
  apply (proj1 (Forall_forall _ _) Hcur). by eapply list_elem_of_lookup_2.
Qed.

(** The number a community is renumbered to is below the number of
    communities met. *)
Lemma dense_label_lt (l : list nat) (c : nat) :
  c ∈ l → dense_label l c < length (first_seen l).
Proof.
  intros Hc. unfold dense_label.
  destruct (index_of c (first_seen l)) as [k|] eqn:Hk.
  - cbn. apply index_of_Some in Hk. by eapply lookup_lt_Some.
  - apply index_of_None in Hk. by rewrite elem_of_first_seen in Hk.
Qed.

Lemma renumbered_lt (s : Index) (x : nat) :
  C s ≤ length (belongings s) → x < C s →
  renumbered s !!! x < length (first_seen (take (C s) (belongings s))).
Proof.
  intros HC Hx. unfold renumbered.
  assert (Hlen : length (take (C s) (belongings s)) = C s)
    by (rewrite length_take; lia).
  destruct (lookup_lt_is_Some_2 (take (C s) (belongings s)) x ltac:(lia))
    as [c Hc].
  rewrite (list_lookup_total_correct _ x
             (dense_label (take (C s) (belongings s)) c)).
  - apply dense_label_lt. by eapply list_elem_of_lookup_2.
  - rewrite lookup_app_l by (rewrite length_fmap; lia).
    by rewrite list_lookup_fmap, Hc.
Qed.

Lemma zoomOut_fields (s : Index) :
  level (zoomOut s) = S (level s)
  ∧ nodes (zoomOut s) = nodes s
  ∧ keepDendrogram (zoomOut s) = keepDendrogram s
  ∧ M (zoomOut s) = M s
  ∧ dendrogram (zoomOut s)
    = (if keepDendrogram s then
         dendrogram s
           ++ [next_level (length (r_inducedGraph (renumber s)))
                 (r_belongings (renumber s))
                 (default [] (dendrogram s !! level s)) (length (nodes s))]
       else dendrogram s)
  ∧ mapping (zoomOut s)
    = (if keepDendrogram s then mapping s
       else (λ mapping, flatten (NodesPointerArray s)
                                (r_belongings (renumber s)) mapping
                                (length (nodes s))) <$> mapping s)
  ∧ C (zoomOut s) = length (r_inducedGraph (renumber s)).
Proof. unfold zoomOut. cbn zeta. by destruct (induce s (renumber s)). Qed.

Lemma trace_snoc s ops op :
  trace s (ops ++ [op]) = trace_step (trace s ops) op.
Proof. unfold trace. by rewrite foldl_snoc. Qed.

Lemma trace_run s ops : (trace s ops).1 = run s ops.
Proof.
  induction ops as [|op ops IH] using rev_ind; [done|].
  rewrite trace_snoc. unfold run. rewrite foldl_snoc. cbn.
  by rewrite IH.
Qed.

Lemma trace_moves s ops :
  Forall is_move ops → trace s ops = (run s ops, []).
Proof.
  induction ops as [|op ops IH] using rev_ind; [done|].
  intros [Hops Hop]%Forall_app. rewrite Forall_singleton in Hop.
  rewrite trace_snoc, IH by done. unfold run. rewrite foldl_snoc.
  unfold trace_step. cbn [fst snd]. destruct op; cbn in Hop; done.
Qed.

Lemma new_history g o :
  history_ok (Graph.order g) [] (UndirectedLouvainIndex g o).
Proof.
  unfold history_ok. split; [done|]. split; [done|].
  split; [apply new_shape|].
  split.
  { apply Forall_forall. intros c Hc%elem_of_seq. cbn. lia. }
  cbn [keepDendrogram dendrogram mapping UndirectedLouvainIndex].
  rewrite build_loop_built. unfold built. cbn [b_belongings].
  rewrite Nat.sub_diag, app_nil_r.
  destruct (Options.keepDendrogram o); [|done].
  split; [done|]. intros l Hl. cbn in Hl. by replace l with 0 by lia.
Qed.

Lemma move_history N levels s i d dc dt t :
  history_ok N levels s → history_ok N levels (move i d dc dt t s).
Proof.
  intros (Hl & Hn & Hs & Hb & Hd). unfold history_ok.
  split; [done|]. split; [done|]. split; [by apply move_shape|]. done.
Qed.

Lemma zoomOut_history N levels s :
  history_ok N levels s →
  history_ok N (levels ++ [renumbered s]) (zoomOut s).
Proof.
  intros (Hl & Hn & Hs & Hb & Hd). unfold history_ok.
  destruct (zoomOut_fields s) as (Hlv & Hns & Hkd & _ & Hden & Hmap & HC).
  pose proof Hs as (_ & _ & Hbel).
  destruct (renumber_spec s Hbel) as (Hig & Hren).
  destruct (renumber_lengths s) as (HleC & _).
  assert (Hnew : Forall (λ x, renumbered s !!! x
                             < length (r_inducedGraph (renumber s)))
                        (compose levels (seq 0 N))).
  { eapply Forall_impl; [exact Hb|]. intros x Hx. cbn beta.
    rewrite Hig, length_fmap. by apply renumbered_lt. }
  rewrite Hlv, Hns, Hkd, Hden, Hmap, HC, Hren, length_app. cbn [length].
  split; [lia|]. split; [done|]. split; [by apply zoomOut_shape|].
  split.
  { rewrite compose_snoc. by apply Forall_fmap. }
  destruct (keepDendrogram s).
  - destruct Hd as (Hlen & Hlook).
    rewrite length_app. cbn [length]. split; [lia|].
    rewrite Hl, (Hlook (length levels)) by done. cbn [default].
    rewrite firstn_all.
    replace (length (nodes s)) with (length (compose levels (seq 0 N)))
      by (by rewrite length_compose, length_seq).
    rewrite next_level_fmap by done. intros l Hle.
    destruct (decide (l ≤ length levels)) as [Hl'|Hl'].
    + rewrite lookup_app_l by lia. rewrite take_app_le by done.
      by apply Hlook.
    + replace l with (length levels + 1) by lia.
      rewrite lookup_app_r by lia. rewrite Hlen.
      replace (length levels + 1 - S (length levels)) with 0 by lia.
      rewrite take_ge by (rewrite length_app; cbn; lia).
      by rewrite compose_snoc.
  - rewrite Hd. cbn [fmap option_fmap option_map].
    replace (length (nodes s)) with (length (compose levels (seq 0 N)))
      by (by rewrite length_compose, length_seq).
    rewrite flatten_fmap, compose_snoc; [done|].
    eapply Forall_impl; [exact Hnew|]. intros x Hx. cbn beta in Hx.
    apply holds_lt. lia.
Qed.

Lemma trace_history g o ops :
  history_ok (Graph.order g) (trace (UndirectedLouvainIndex g o) ops).2
             (trace (UndirectedLouvainIndex g o) ops).1
  ∧ nodes (trace (UndirectedLouvainIndex g o) ops).1 = Graph.nodes g
  ∧ keepDendrogram (trace (UndirectedLouvainIndex g o) ops).1
    = Options.keepDendrogram o.
Proof.
  induction ops as [|op ops IH] using rev_ind.
  - split; [apply new_history|done].
  - rewrite trace_snoc. destruct IH as (Hh & Hn & Hk).
    destruct (trace (UndirectedLouvainIndex g o) ops) as [s levels].
    unfold trace_step. cbn [fst snd] in *.
    destruct op as [i d dc dt t|i ci|]; cbn [exec].
    + split; [by apply move_history|done].
    + split; [by apply move_history|done].
    + split; [by apply zoomOut_history|].
      destruct (zoomOut_fields s) as (_ & -> & -> & _). done.
Qed.

(** ** Export *)

Lemma collect_fold (nodes : list string) (m : list nat) :
  NoDup nodes → length m = length nodes →
  assigns nodes m
    (foldl (λ (o : gmap string nat) i,
              <[default "undefined"%string (nodes !! i) := m !!! i]> o)
           ∅ (seq 0 (length m))).
Proof.
  intros Hnd Hlen.
  assert (H : ∀ k, k ≤ length nodes →
    let o := foldl (λ (o : gmap string nat) i,
                      <[default "undefined"%string (nodes !! i) := m !!! i]> o)
                   ∅ (seq 0 k) in
    (∀ i node, i < k → nodes !! i = Some node → o !! node = Some (m !!! i))
    ∧ (∀ key, key ∉ take k nodes → o !! key = None)).
  { induction k as [|k IH]; intros Hk.
    - cbn. split; [intros; lia|done].
    - rewrite seq_S, foldl_snoc. cbn zeta in *. cbn [Nat.add].
      destruct (IH ltac:(lia)) as (Hin & Hout).
      destruct (lookup_lt_is_Some_2 nodes k ltac:(lia)) as [nk Hnk].
      rewrite Hnk. change (default "undefined"%string (Some nk)) with nk.
      split.
      + intros i node Hi Hnode.
        destruct (decide (i = k)) as [->|Hne].
        * rewrite Hnk in Hnode. injection Hnode as ->.
          apply lookup_insert_eq.
        * rewrite lookup_insert_ne; [apply Hin; [lia|done]|].
          intros ->. apply Hne.
          by apply (NoDup_lookup nodes i k node).
      + intros key Hkey. rewrite (take_S_r _ _ nk) in Hkey by done.
        rewrite not_elem_of_app, not_elem_of_cons in Hkey.
        destruct Hkey as (Hkey & Hne & _).
        rewrite lookup_insert_ne by done. by apply Hout. }
  rewrite Hlen. destruct (H (length nodes) ltac:(done)) as (Hin & Hout).
  split.
  - intros i node Hi. apply Hin; [|done]. by eapply lookup_lt_Some.
  - intros key Hkey. apply Hout. by rewrite firstn_all.
Qed.

(** ** Runs *)

Lemma exec_shape s op : shape s → shape (exec s op).
Proof.
  destruct op; cbn [exec].
  - apply move_shape.
  - apply move_shape.
  - apply zoomOut_shape.
Qed.

Lemma exec_starts_ok s op :
  shape s → starts_ok s → holds (NeighborhoodPointerArray s) (E s) →
  starts_ok (exec s op)
  ∧ holds (NeighborhoodPointerArray (exec s op)) (E (exec s op)).
Proof.
  intros Hsh Hok Hholds. destruct op; cbn [exec]; [done|done|].
  assert (Hh : holds (NeighborhoodPointerArray s) (E (zoomOut s))).
  { apply (holds_le _ _ _ Hholds). by apply zoomOut_E_le. }
  split; [by apply zoomOut_starts_ok|].
  by rewrite zoomOut_NeighborhoodPointerArray.
Qed.

Lemma run_starts_ok s ops :
  shape s → starts_ok s → holds (NeighborhoodPointerArray s) (E s) →
  shape (run s ops) ∧ starts_ok (run s ops).
Proof.
  revert s. induction ops as [|op ops IH]; intros s Hsh Hok Hholds; [done|].
  cbn. destruct (exec_starts_ok s op Hsh Hok Hholds) as [Hok' Hholds'].
  apply IH; [by apply exec_shape|done|done].
Qed.

Lemma length_new_neighborhood g o :
  length (neighborhood (UndirectedLouvainIndex g o)) = Graph.size g * 2.
Proof.
  rewrite new_neighborhood. cbn zeta.
  rewrite length_take, length_app, length_replicate. lia.
Qed.

Lemma new_NeighborhoodPointerArray g o :
  NeighborhoodPointerArray (UndirectedLouvainIndex g o)
  = getPointerArray (Graph.size g * 2).
Proof. unfold NeighborhoodPointerArray. by rewrite length_new_neighborhood. Qed.

Lemma new_starts_ok g o :
  NoDup (Graph.nodes g) → fits g → starts_ok (UndirectedLouvainIndex g o).
Proof.
  intros Hnd Hfits. pose proof (entries_total_le g Hnd) as Hle. split.
  - intros i j Hij Hj. cbn [C UndirectedLouvainIndex] in Hj.
    destruct (decide (j = Graph.order g)) as [->|Hne].
    + rewrite new_starts_last by done.
      destruct (decide (i = Graph.order g)) as [->|Hne'].
      * by rewrite new_starts_last.
      * rewrite new_starts_lookup by (done || lia).
        pose proof (entries_before_mono g i (Graph.order g) ltac:(lia)). lia.
    + rewrite !new_starts_lookup by (done || lia).
      by apply entries_before_mono.
  - change (C (UndirectedLouvainIndex g o)) with (Graph.order g).
    change (E (UndirectedLouvainIndex g o)) with (Graph.size g * 2).
    rewrite <- (new_starts_last g o Hfits).
    apply list_lookup_lookup_total_lt. rewrite new_starts.
    rewrite length_app, length_fmap, length_seq. cbn. lia.
Qed.

Lemma new_entries g o :
  b_n (build_loop g o) = entries_before g (Graph.order g).
Proof. by rewrite build_loop_built. Qed.

Lemma dense_label_inj (l : list nat) (c c' : nat) :
  c ∈ l → c' ∈ l → dense_label l c = dense_label l c' → c = c'.
Proof.
  intros Hc Hc'. unfold dense_label.
  destruct (index_of c (first_seen l)) as [k|] eqn:Hk.
  2:{ apply index_of_None in Hk. by rewrite elem_of_first_seen in Hk. }
  destruct (index_of c' (first_seen l)) as [k'|] eqn:Hk'.
  2:{ apply index_of_None in Hk'. by rewrite elem_of_first_seen in Hk'. }
  cbn. intros ->. apply index_of_Some in Hk, Hk'. congruence.
Qed.

(** ** The directed index: coarsening *)

Lemma adj_entries_empty : adj_entries ∅ = [].
Proof. unfold adj_entries. by rewrite map_to_list_empty. Qed.

Lemma directed_renumber_lengths (s : Directed.Index) :
  length (Directed.r_inducedGraph (Directed.renumber s)) ≤ Directed.C s
  ∧ Forall (λ c, Directed.inAdj c = ∅)
           (Directed.r_inducedGraph (Directed.renumber s)).
Proof.
  unfold Directed.renumber.
  assert (H : ∀ k,
    let r := foldl (Directed.renumber_node s)
                   (Directed.mkRenumbering ∅ [] (Directed.belongings s))
                   (seq 0 k) in
    length (Directed.r_inducedGraph r) ≤ k
    ∧ Forall (λ c, Directed.inAdj c = ∅) (Directed.r_inducedGraph r)).
  { induction k as [|k IH]; [by split|].
    rewrite seq_S, foldl_snoc. cbn zeta in *. cbn [Nat.add].
    destruct IH as (Hl & Hin).
    set (r := foldl _ _ _) in *. unfold Directed.renumber_node. cbn zeta.
    destruct (Directed.r_newLabels r !! (Directed.r_belongings r !!! k));
      cbn [Directed.r_inducedGraph].
    - split; [lia|done].
    - rewrite length_app. cbn [length]. split; [lia|].
      apply Forall_app. split; [done|]. by apply Forall_singleton. }
  apply H.
Qed.

Lemma directed_induce_no_incoming (s : Directed.Index)
    (r : Directed.Renumbering) :
  Forall (λ c, Directed.inAdj c = ∅) (Directed.r_inducedGraph r) →
  Forall (λ c, Directed.inAdj c = ∅) (Directed.induce s r).1
  ∧ length (Directed.induce s r).1 = length (Directed.r_inducedGraph r).
Proof.
  intros Hin. unfold Directed.induce.
  apply (foldl_invariant
           (λ acc : list Directed.Community * nat,
              Forall (λ c, Directed.inAdj c = ∅) acc.1
              ∧ length acc.1 = length (Directed.r_inducedGraph r))).
  - by split.
  - intros acc i Hacc. unfold Directed.induce_node.
    apply foldl_invariant; [done|].
    intros acc' j [Hno Hlen]. unfold Directed.induce_edge. cbn zeta.
    destruct (decide _); [by split|]. cbn [fst]. split.
    + apply Forall_alter; [done|]. intros c _ Hc. done.
    + by rewrite length_alter.
Qed.

Lemma directed_rewrite_edges (s : Directed.Index) (es : list (nat * Qc))
    (w : Directed.Rewriting) :
  Directed.w_offsets (foldl (Directed.rewrite_edge s) w es)
  = Directed.w_offsets w
  ∧ Directed.w_starts (foldl (Directed.rewrite_edge s) w es)
    = Directed.w_starts w
  ∧ Directed.w_n (foldl (Directed.rewrite_edge s) w es)
    = Directed.w_n w + length es.
Proof.
  revert w. induction es as [|e es IH]; intros w; [by cbn; auto with lia|].
  cbn [foldl]. destruct (IH (Directed.rewrite_edge s w e)) as (-> & -> & ->).
  cbn. auto with lia.
Qed.

(** Once the third loop has visited [ig], whose incoming maps are empty, the
    outgoing range of every community visited is empty. *)
Lemma directed_rewrite_offsets (s : Directed.Index)
    (w0 : Directed.Rewriting) (ig : list Directed.Community) :
  Forall (λ c, Directed.inAdj c = ∅) ig →
  length ig ≤ length (Directed.w_offsets w0) →
  length ig ≤ length (Directed.w_starts w0) →
  let w := foldl (Directed.rewrite_community s) w0 (imap pair ig) in
  length (Directed.w_offsets w) = length (Directed.w_offsets w0)
  ∧ length (Directed.w_starts w) = length (Directed.w_starts w0)
  ∧ ∀ ci, ci < length ig →
          Directed.w_offsets w !!! ci = Directed.w_starts w !!! ci.
Proof.
  induction ig as [|c ig IH] using rev_ind; intros Hin Hlo Hls.
  - cbn. split; [done|]. split; [done|]. intros; lia.
  - apply Forall_app in Hin as [Hin Hc]. rewrite Forall_singleton in Hc.
    rewrite length_app in Hlo, Hls. cbn in Hlo, Hls.
    rewrite imap_app, foldl_app. cbn [imap foldl]. rewrite Nat.add_0_r.
    destruct (IH Hin ltac:(lia) ltac:(lia)) as (Hlo' & Hls' & Heq).
    cbn zeta in *.
    set (w := foldl (Directed.rewrite_community s) w0 (imap pair ig)) in *.
    unfold Directed.rewrite_community. rewrite Hc, adj_entries_empty.
    cbn [foldl].
    match goal with
    | |- context [foldl (Directed.rewrite_edge s) ?w3 ?es] =>
        destruct (directed_rewrite_edges s es w3) as (H1 & H2 & _);
        rewrite H1, H2; clear H1 H2
    end.
    cbn [Directed.w_offsets Directed.w_starts Directed.w_n
         Directed.rewrite_offset].
    rewrite !length_insert, length_app. cbn [length].
    split; [done|]. split; [done|]. intros ci Hci.
    destruct (decide (ci = length ig)) as [->|Hne].
    + by rewrite !list_lookup_total_insert_eq by lia.
    + rewrite !list_lookup_total_insert_ne by done. apply Heq. lia.
Qed.

(** After a [zoomOut] of the directed index, the outgoing range of every
    node is empty: all its entries lie in its incoming range. *)
Lemma directed_zoomOut_outgoing_ranges_empty (s : Directed.Index) (ci : nat) :
  Directed.C s ≤ length (Directed.offsets s) →
  Directed.C s < length (Directed.starts s) →
  ci < Directed.C (Directed.zoomOut s) →
  (Directed.outBounds (Directed.zoomOut s) ci).2
  = (Directed.outBounds (Directed.zoomOut s) ci).1
  ∧ Directed.inBounds (Directed.zoomOut s) ci
    = Directed.bounds (Directed.zoomOut s) ci.
Proof.
  intros Hlo Hls.
  destruct (directed_renumber_lengths s) as (Hlen & Hno).
  destruct (directed_induce_no_incoming s (Directed.renumber s) Hno)
    as (Hno' & Hlen').
  unfold Directed.zoomOut, Directed.outBounds, Directed.inBounds,
    Directed.bounds. cbn zeta.
  destruct (Directed.induce s (Directed.renumber s)) as [ig E'] eqn:Hind.
  cbn [fst] in Hno', Hlen'.
  cbn [Directed.C Directed.offsets Directed.starts fst snd]. intros Hci.
  destruct (directed_rewrite_offsets s
              (Directed.rewrite_init s
                 (Directed.r_belongings (Directed.renumber s)))
              ig Hno') as (_ & _ & Heq).
  { cbn. lia. }
  { cbn. lia. }
  cbn zeta in Heq. unfold Directed.rewrite.
  rewrite (list_lookup_total_insert_ne _ _ ci) by lia.
  rewrite Heq by lia. done.
Qed.

(** * The claims *)

(** ** Construction *)

(** C10. For every undirected graph, self-loops included, a fresh index has
    [loops[i] = 0] and [internalWeights[i] = 0] for every node [i]; a
    self-loop is one of the incident edges of its node, all of which are
    stored in the blocks of [neighborhood] and [weights] and added to
    [totalWeights]. *)
Theorem C10_self_loops_not_recorded_at_build (g : Graph.t) (o : Options.t) :
  let s := UndirectedLouvainIndex g o in
  let upperBound := Graph.size g * 2 in
  let ids := concat (block_ids g <$> Graph.nodes g) in
  let ws := concat (block_weights g o <$> Graph.nodes g) in
  (∀ i, i < Graph.order g →
        loops s !!! i = Q2Qc 0 ∧ internalWeights s !!! i = Q2Qc 0)
  ∧ (∀ e, e ∈ Graph.edge_list g → Graph.is_loop e →
          e ∈ Graph.edges g (Graph.source e))
  ∧ totalWeights s = weighted_degree g o <$> Graph.nodes g
  ∧ neighborhood s
    = take upperBound (ids ++ replicate (upperBound - length ids) 0)
  ∧ weights s
    = take upperBound (ws ++ replicate (upperBound - length ws) (Q2Qc 0)).
Proof.
  cbn zeta. split; [|split; [|split; [|split]]].
  - intros i Hi. cbn [loops internalWeights UndirectedLouvainIndex].
    split; apply list_lookup_total_correct; by apply lookup_replicate_2.
  - intros e He Hl. unfold Graph.edges. apply list_elem_of_filter.
    split; [by left|done].
  - apply new_totalWeights.
  - apply new_neighborhood.
  - apply new_weights.
Qed.

(** C5, amended.  For every well-formed undirected graph, construction
    counts into [M] the weight of each edge between two distinct nodes
    exactly once, at one of its extremities, and that of a self-loop never,
    while storing every edge in the block of each of its extremities; so [M]
    is the total weight of the edges between distinct nodes (the total edge
    weight when the graph has no self-loop) and [E] is [2 * size]. *)
Theorem C5_M_counts_each_proper_edge_once (g : Graph.t) (o : Options.t) :
  Graph.wf g →
  let s := UndirectedLouvainIndex g o in
  M s = proper_weight g o
  ∧ E s = 2 * Graph.size g
  ∧ (∀ e, e ∈ Graph.edge_list g → ¬ Graph.is_loop e →
          (counted_weight o (Graph.source e) e
           + counted_weight o (Graph.target e) e)%Qc = Options.getWeight o e
          ∧ e ∈ Graph.edges g (Graph.source e)
          ∧ e ∈ Graph.edges g (Graph.target e))
  ∧ (∀ e, e ∈ Graph.edge_list g → Graph.is_loop e →
          counted_weight o (Graph.source e) e = Q2Qc 0)
  ∧ (∀ i node, Graph.nodes g !! i = Some node →
       let a := starts s !!! i in
       let b := a + length (Graph.edges g node) in
       slice a b (neighborhood s) = block_ids g node
       ∧ slice a b (weights s) = block_weights g o node)
  ∧ (Graph.loop_free g → M s = total_weight g o).
Proof.
  intros Hwf. pose proof Hwf as [Hnd Hends]. cbn zeta.
  repeat split.
  - rewrite new_M. by apply counted_sum.
  - cbn. lia.
  - by apply counted_once.
  - unfold Graph.edges. apply list_elem_of_filter. split; [by left|done].
  - unfold Graph.edges. apply list_elem_of_filter. split; [by right|done].
  - intros e He Hl. by apply counted_loop.
  - unfold slice. rewrite Nat.add_sub'. by apply new_block_ids.
  - unfold slice. rewrite Nat.add_sub'. by apply new_block_weights.
  - intros Hlf. rewrite new_M, counted_sum by done.
    by apply proper_weight_loop_free.
Qed.

(** C8. For every well-formed undirected graph with no self-loop, the
    modularity of a fresh index is minus the sum over the nodes of
    [(deg_i / (2 M))^2], [deg_i] being the weighted degree of node [i] and
    [M] the total edge weight. *)
Theorem C8_modularity_of_singletons (g : Graph.t) (o : Options.t) :
  Graph.wf g → Graph.loop_free g →
  modularity (UndirectedLouvainIndex g o)
  = (- sumQc ((λ node, (weighted_degree g o node / (2 * total_weight g o)) ^ 2)
                <$> Graph.nodes g))%Qc.
Proof.
  intros Hwf Hlf. rewrite modularity_sum, <- sumQc_fmap_opp.
  rewrite new_M, counted_sum, proper_weight_loop_free by done.
  cbn [C UndirectedLouvainIndex]. unfold Graph.order.
  rewrite <- (fmap_seq_lookup
                (λ node, (- (weighted_degree g o node
                             / (2 * total_weight g o)) ^ 2)%Qc)).
  apply sumQc_fmap_ext. intros i Hi%elem_of_seq.
  rewrite new_totalWeights.
  cbn [internalWeights UndirectedLouvainIndex].
  rewrite (list_lookup_total_correct _ i (Q2Qc 0))
    by (apply lookup_replicate_2; unfold Graph.order; lia).
  rewrite (list_lookup_total_correct _ i
             (weighted_degree g o (Graph.nodes g !!! i))).
  - unfold community_term.
    rewrite (Qcmult_comm (total_weight g o) 2).
    unfold Qcdiv. cbn [Qcpower]. ring.
  - rewrite list_lookup_fmap.
    by rewrite (list_lookup_lookup_total_lt (Graph.nodes g) i) by lia.
Qed.

(** C1, amended.  For every well-formed undirected graph without self-loop,
    the sum of [totalWeights] over the communities [0..C-1] is [2 * M] right
    after construction; every move between communities in range leaves the
    sum and [M] as they are; [zoomOut] leaves them as they are whenever the
    communities it drops, those left without a member, have a total weight
    of 0; and at level 0, where the moves are given the actual adjacency sum
    of the node, the sum is [2 * M] after every move and after [zoomOut]. *)
Theorem C1_sum_of_totalWeights (g : Graph.t) (o : Options.t) :
  Graph.wf g → Graph.loop_free g →
  let s0 := UndirectedLouvainIndex g o in
  sum_totalWeights s0 = (2 * M s0)%Qc
  ∧ (∀ s i d dc dt t,
       shape s → belongings s !!! i < C s → t < C s →
       sum_totalWeights (move i d dc dt t s) = sum_totalWeights s
       ∧ M (move i d dc dt t s) = M s)
  ∧ (∀ s,
       shape s → (∀ i, i < C s → belongings s !!! i < C s) →
       (∀ c, c < C s → memberless s c → totalWeights s !!! c = Q2Qc 0) →
       sum_totalWeights (zoomOut s) = sum_totalWeights s
       ∧ M (zoomOut s) = M s)
  ∧ (∀ s, level0 g o s →
       M s = M s0
       ∧ sum_totalWeights s = (2 * M s)%Qc
       ∧ sum_totalWeights (zoomOut s) = (2 * M (zoomOut s))%Qc).
Proof.
  intros Hwf Hlf s0. pose proof Hwf as [Hnd _].
  split; [by apply new_sum_totalWeights|]. split; [|split].
  - intros s i d dc dt t (_ & Htw & _) Hc Ht. split; [|done].
    by apply move_sum_totalWeights.
  - intros s Hsh Hrange Hempty. split.
    + by apply zoomOut_sum_totalWeights.
    + by destruct (zoomOut_fields s) as (_ & _ & _ & ? & _).
  - intros s Hs.
    destruct (level0_invariant g o s Hnd Hs)
      as (HC & HM & _ & _ & _ & Hsh & _ & Hrange & _ & Hsum).
    fold s0 in HM, Hsum.
    assert (Hs2 : sum_totalWeights s = (2 * M s)%Qc).
    { rewrite Hsum, HM. by apply new_sum_totalWeights. }
    split; [done|]. split; [done|].
    destruct (zoomOut_fields s) as (_ & _ & _ & -> & _).
    rewrite <- Hs2. apply zoomOut_sum_totalWeights; [done| |].
    + intros i Hi. rewrite HC in *. by apply Hrange.
    + intros c Hc. by apply (level0_memberless g o).
Qed.

(** C9, amended.  For every well-formed graph whose array [starts] holds
    [upperBound], that is when [2 * size] is none of 2^8, 2^16 and 2^32,
    after the build and after any sequence of moves and [zoomOut]s, [starts]
    is non-decreasing over the indices [0..C] and [starts[C]] is [E]; after
    the build of a graph without self-loop, [E] is the number of entries the
    constructor has stored in [neighborhood]. *)
Theorem C9_starts_is_non_decreasing (g : Graph.t) (o : Options.t)
    (ops : list Op) :
  Graph.wf g → fits g →
  let s := run (UndirectedLouvainIndex g o) ops in
  (∀ i j, i ≤ j → j ≤ C s → starts s !!! i ≤ starts s !!! j)
  ∧ starts s !! C s = Some (E s)
  ∧ (Graph.loop_free g →
     E (UndirectedLouvainIndex g o) = b_n (build_loop g o)).
Proof.
  intros Hwf Hfits s. pose proof Hwf as [Hnd _].
  destruct (run_starts_ok (UndirectedLouvainIndex g o) ops
              (new_shape g o) (new_starts_ok g o Hnd Hfits))
    as [_ [Hmono Hlast]].
  { by rewrite new_NeighborhoodPointerArray. }
  split; [done|]. split; [done|].
  intros Hlf. rewrite new_entries, entries_total_eq by done. done.
Qed.

(** ** Moves *)

(** C6, amended.  Moving a node to the community it is in, with a target
    degree equal to the current one, leaves every field of the index bit for
    bit as it was, but for the entries of [totalWeights] and
    [internalWeights] of that community: each is left with what subtracting
    an amount and adding it back gives in binary64, which is the entry it
    held in exact arithmetic. *)
Theorem C6_move_to_own_community_up_to_rounding (s : Binary64.Index)
    (i : nat) (degree communityDegree : float) :
  let c := Binary64.belongings s !!! i in
  let l := Binary64.loops s !!! i in
  i < length (Binary64.belongings s) →
  holds (Binary64.NodesPointerArray s) c →
  is_element (Binary64.NodesPointerArray s) (Binary64.counts_arr s !!! c) →
  Binary64.move i degree communityDegree communityDegree c s
  = with_weights s
      (sub_add c (communityDegree * 2 + l)%float (Binary64.internalWeights s))
      (sub_add c (degree + l)%float (Binary64.totalWeights s))
  ∧ ∀ (q : Index) (j : nat) (d dc : Qc),
      j < length (belongings q) →
      holds (NodesPointerArray q) (belongings q !!! j) →
      is_element (NodesPointerArray q)
                 (counts_arr q !!! (belongings q !!! j)) →
      move j d dc dc (belongings q !!! j) q = q.
Proof.
  cbn zeta. intros Hi Hc Hcnt. split.
  - by apply binary64_move_own.
  - intros q j d dc Hj Hq Hqc. by apply move_own.
Qed.

(** C7. For a community [t] in range, [delta(d, dt, t)] is
    [dt / M - totalWeights[t] * d / (2 M^2)], and this is the gain in
    modularity of the move into [t] of a node of degree [d] that is alone in
    its community and carries no loop weight. *)
Theorem C7_delta_formula (s : Index) (d dt : Qc) (t : nat) :
  t < C s → C s ≤ length (totalWeights s) →
  delta s d dt t = delta_spec (M s) (totalWeights s !!! t) d dt
  ∧ (∀ i,
       let c := belongings s !!! i in
       M s ≠ Q2Qc 0 → c < C s → c ≠ t →
       C s ≤ length (internalWeights s) →
       loops s !!! i = Q2Qc 0 →
       totalWeights s !!! c = d → internalWeights s !!! c = Q2Qc 0 →
       (modularity (move i d (Q2Qc 0) dt t s) - modularity s)%Qc
       = delta s d dt t).
Proof.
  intros Ht Htw. split.
  - unfold delta, delta_spec. cbn zeta.
    replace (M s ^ 2)%Qc with (M s * M s)%Qc by (cbn [Qcpower]; ring).
    by rewrite Qcmult_assoc.
  - intros i c HM Hc Hct Hiw Hl Htwc Hiwc.
    pose proof (delta_is_gain s i d dt t) as Hgain. cbn zeta in Hgain.
    fold c in Hgain. rewrite Hl, Qcplus_0_r in Hgain. by apply Hgain.
Qed.

(** ** Export *)

Lemma collect_dendrogram (s : Index) (arg : option nat) (m : list nat) :
  keepDendrogram s = true →
  dendrogram s !! default (level s) arg = Some m →
  NoDup (nodes s) → length m = length (nodes s) →
  ∃ out, collect s arg = Some out ∧ assigns (nodes s) m out.
Proof.
  intros Hkd Hm Hnd Hlen. unfold collect. cbn zeta. rewrite Hkd, Hm.
  eexists. split; [done|]. by apply collect_fold.
Qed.

Lemma collect_mapping (s : Index) (arg : option nat) (m : list nat) :
  keepDendrogram s = false → mapping s = Some m →
  NoDup (nodes s) → length m = length (nodes s) →
  ∃ out, collect s arg = Some out ∧ assigns (nodes s) m out.
Proof.
  intros Hkd Hm Hnd Hlen. unfold collect. cbn zeta. rewrite Hkd, Hm.
  eexists. split; [done|]. by apply collect_fold.
Qed.

Lemma run_moves_level0 (s : Index) (ops : list Op) :
  Forall is_move ops →
  C (run s ops) = C s ∧ length (belongings (run s ops)) = length (belongings s).
Proof.
  revert s. induction ops as [|op ops IH]; intros s Hops; [done|].
  apply Forall_cons in Hops as [Hop Hops]. cbn [run foldl].
  destruct (IH (exec s op) Hops) as [HC Hlen]. unfold run in *.
  rewrite HC, Hlen.
  destruct op; cbn in Hop; [| |done]; cbn; by rewrite length_insert.
Qed.

Lemma compose_one (B : list nat) :
  compose [B] (seq 0 (length B)) = B.
Proof.
  unfold compose. cbn.
  rewrite (fmap_seq_lookup (λ x : nat, x) B). apply list_fmap_id.
Qed.

(** C3, amended.  When the dendrogram is kept, [collect(l)] returns, for
    every level [l] from 0 to the current one, the mapping from the node keys
    to the composition of the renumbered belongings of the levels below [l],
    and [collect()] is [collect(level)]; when it is not kept, [collect]
    returns for any argument the flattened mapping, which is the composition
    of the renumbered belongings of all the levels closed so far.  After a
    [zoomOut] from level 0, [collect()] maps the key of each node to the
    number its pre-coarsening community is renumbered to, two nodes getting
    the same number exactly when they belonged to the same community. *)
Theorem C3_collect_composes_the_levels (g : Graph.t) (o : Options.t)
    (ops : list Op) :
  Graph.wf g →
  let N := Graph.order g in
  let s := run (UndirectedLouvainIndex g o) ops in
  let levels := (trace (UndirectedLouvainIndex g o) ops).2 in
  level s = length levels
  ∧ (Options.keepDendrogram o = true →
     (∀ l, l ≤ level s →
        ∃ out, collect s (Some l) = Some out
               ∧ assigns (Graph.nodes g)
                         (compose (take l levels) (seq 0 N)) out)
     ∧ collect s None = collect s (Some (level s)))
  ∧ (Options.keepDendrogram o = false →
     ∀ arg, ∃ out, collect s arg = Some out
                   ∧ assigns (Graph.nodes g) (compose levels (seq 0 N)) out)
  ∧ (Forall is_move ops →
     (∃ out, collect (zoomOut s) None = Some out
             ∧ assigns (Graph.nodes g)
                       (dense_label (belongings s) <$> belongings s) out)
     ∧ ∀ i j, i < N → j < N →
         (dense_label (belongings s) (belongings s !!! i)
          = dense_label (belongings s) (belongings s !!! j)
          ↔ belongings s !!! i = belongings s !!! j)).
Proof.
  intros [Hnd _] N s levels.
  destruct (trace_history g o ops) as (Hh & Hn & Hk).
  rewrite trace_run in Hh, Hn, Hk. fold s levels N in Hh, Hn, Hk.
  destruct Hh as (Hlv & HN & Hsh & _ & Hd).
  split; [done|]. split; [|split].
  - intros Hkd. rewrite Hk, Hkd in Hd. destruct Hd as (Hlen & Hlook).
    split; [|done].
    intros l Hl. rewrite <- Hn.
    apply collect_dendrogram.
    + by rewrite Hk.
    + cbn [default]. apply Hlook. lia.
    + by rewrite Hn.
    + by rewrite length_compose, length_seq.
  - intros Hkd arg. rewrite Hk, Hkd in Hd. rewrite <- Hn.
    apply collect_mapping.
    + by rewrite Hk.
    + done.
    + by rewrite Hn.
    + by rewrite length_compose, length_seq.
  - intros Hmoves.
    destruct (run_moves_level0 (UndirectedLouvainIndex g o) ops Hmoves)
      as [HC Hbl].
    fold s in HC, Hbl. rewrite new_belongings, length_seq in Hbl.
    cbn [C UndirectedLouvainIndex] in HC. fold N in HC, Hbl.
    assert (Hren : renumbered s = dense_label (belongings s) <$> belongings s).
    { unfold renumbered. rewrite HC, <- Hbl, firstn_all, drop_all.
      apply app_nil_r. }
    split.
    + destruct (trace_history g o (ops ++ [OpZoomOut])) as (Hh' & Hn' & Hk').
      rewrite trace_snoc in Hh', Hn', Hk'. unfold trace_step in Hh', Hn', Hk'.
      cbn [fst snd exec] in Hh', Hn', Hk'.
      rewrite trace_run in Hh', Hn', Hk'. fold s in Hh', Hn', Hk'.
      rewrite (trace_moves _ _ Hmoves) in Hh'. cbn [snd app] in Hh'.
      rewrite Hren in Hh'.
      destruct Hh' as (Hlv' & HN' & _ & _ & Hd').
      assert (Hone :
        compose [dense_label (belongings s) <$> belongings s]
                (seq 0 (Graph.order g))
        = dense_label (belongings s) <$> belongings s).
      { rewrite <- (compose_one (dense_label (belongings s) <$> belongings s))
          at 2. by rewrite length_fmap, Hbl. }
      rewrite <- Hn'.
      destruct (keepDendrogram (zoomOut s)) eqn:Hkd.
      * destruct Hd' as (_ & Hlook). apply collect_dendrogram; [done| | |].
        -- cbn [default]. rewrite Hlv'. cbn [length].
           rewrite (Hlook 1) by (cbn; lia).
           rewrite take_ge by (cbn; lia). by rewrite Hone.
        -- by rewrite Hn'.
        -- by rewrite length_fmap, HN', Hbl.
      * apply collect_mapping; [done| | |].
        -- by rewrite Hd', Hone.
        -- by rewrite Hn'.
        -- by rewrite length_fmap, HN', Hbl.
    + intros i j Hi Hj. split; [|by intros ->].
      apply dense_label_inj; apply list_elem_of_lookup.
      * exists i. apply list_lookup_lookup_total_lt. lia.
      * exists j. apply list_lookup_lookup_total_lt. lia.
Qed.

(** ** Sample runs *)

Lemma pair_graph_wf : Graph.wf pair_graph.
Proof. unfold Graph.wf. split; compute_done. Defined.

Lemma pair_graph_loop_free : Graph.loop_free pair_graph.
Proof. unfold Graph.loop_free. compute_done. Defined.

Lemma pair_graph_fits : fits pair_graph.
Proof. unfold fits, holds. vm_compute. reflexivity. Defined.

(** C1, as stated, fails on a graph with a self-loop: the loop is added to
    [totalWeights] and not to [M]. *)
Lemma C1_counterexample_self_loop :
  let s := UndirectedLouvainIndex loop_graph Options.DEFAULTS in
  sum_totalWeights s ≠ (2 * M s)%Qc.
Proof. cbn zeta. intros H. apply (f_equal this) in H. by vm_compute in H. Qed.

Lemma C1_witness :
  Graph.wf pair_graph ∧ Graph.loop_free pair_graph
  ∧ let s0 := UndirectedLouvainIndex pair_graph Options.DEFAULTS in
    let s := expensiveMove 1 0 s0 in
    sum_totalWeights s0 = (2 * M s0)%Qc
    ∧ sum_totalWeights (zoomOut s) = (2 * M (zoomOut s))%Qc.
Proof.
  split; [exact pair_graph_wf|]. split; [exact pair_graph_loop_free|].
  cbn zeta.
  destruct (C1_sum_of_totalWeights pair_graph Options.DEFAULTS
              pair_graph_wf pair_graph_loop_free) as (H0 & _ & _ & Hl0).
  split; [exact H0|].
  refine (proj2 (proj2 (Hl0 _ (expensiveMove_level0 _ _ _ 1 0
                                 (proj1 pair_graph_wf) pair_graph_fits
                                 (level0_new _ _) _ _)))).
  - vm_compute. lia.
  - vm_compute. lia.
Defined.

(** C2. The code does not do what the claim says: the weight [zoomOut] adds
    for an entry is read at the index of the neighbor, not at the position
    of the entry.  On the path a - b - c with weights 5 and 7, the one edge
    from c to b weighs 7 and the induced weight from the community of c to
    that of b is 5. *)
Theorem C2_zoomOut_adds_the_weight_read_at_the_neighbor :
  let s := UndirectedLouvainIndex weighted_path weighted_options in
  weights s = Qc_of_Z <$> [5; 5; 7; 7]%Z
  ∧ renumbered s = [0; 1; 2]
  ∧ joining_weight s 2 1 = Qc_of_Z 7
  ∧ induced_weight s 2 1 = Some (Qc_of_Z 5)
  ∧ bounds (zoomOut s) 2 = (3, 4)
  ∧ neighborhood (zoomOut s) !! 3 = Some 1
  ∧ weights (zoomOut s) !! 3 = Some (Qc_of_Z 5).
Proof. cbn zeta. repeat split; compute_done. Qed.

(** C3, as stated, fails when the dendrogram is not kept: [collect(0)] after
    a [zoomOut] returns the mapping of the current level, not the one of
    level 0. *)
Lemma C3_counterexample_flattened :
  let ops := [OpExpensiveMove 1 0; OpZoomOut] in
  let s := run (UndirectedLouvainIndex pair_graph Options.DEFAULTS) ops in
  let levels :=
    (trace (UndirectedLouvainIndex pair_graph Options.DEFAULTS) ops).2 in
  0 ≤ level s
  ∧ ¬ ∃ out, collect s (Some 0) = Some out
             ∧ assigns (Graph.nodes pair_graph)
                       (compose (take 0 levels) (seq 0 2)) out.
Proof.
  cbn zeta. split; [lia|]. intros (out & Hout & Hmap & _).
  specialize (Hmap 1 "b"%string eq_refl).
  assert (Hb : collect (run (UndirectedLouvainIndex pair_graph Options.DEFAULTS)
                            [OpExpensiveMove 1 0; OpZoomOut]) (Some 0)
               ≫= (λ out, out !! "b"%string) = Some 0) by compute_done.
  rewrite Hout in Hb. cbn in Hb. rewrite Hmap in Hb.
  by vm_compute in Hb.
Qed.

Lemma C3_witness :
  Graph.wf pair_graph
  ∧ let ops := [OpExpensiveMove 1 0; OpZoomOut] in
    let s := run (UndirectedLouvainIndex pair_graph dendrogram_options) ops in
    ∃ out, collect s (Some 0) = Some out
           ∧ assigns (Graph.nodes pair_graph) [0; 1] out.
Proof.
  split; [exact pair_graph_wf|]. cbn zeta.
  destruct (C3_collect_composes_the_levels pair_graph dendrogram_options
              [OpExpensiveMove 1 0; OpZoomOut] pair_graph_wf)
    as (_ & Hkeep & _).
  destruct (Hkeep eq_refl) as [Hlevels _].
  apply (Hlevels 0). vm_compute. lia.
Defined.

(** C4. The code does not do what the claim says: [zoomOut] tests
    [out === 0] on a boolean, so every entry goes to the map written after
    [offsets[ci]], and the outgoing range of each node is left empty.  On
    the graph a -> b, node 0 has one outgoing edge and no incoming one; its
    block is split accordingly after the build, and after [zoomOut] its
    outgoing range is empty and its incoming range holds node 1. *)
Theorem C4_directed_zoomOut_loses_the_split :
  let s0 := Directed.DirectedLouvainIndex arrow_graph Options.DEFAULTS in
  let s := Directed.zoomOut s0 in
  Graph.target <$> Graph.outEdges arrow_graph "a" = ["b"%string]
  ∧ Graph.inEdges arrow_graph "a" = []
  ∧ Directed.outBounds s0 0 = (0, 1)
  ∧ Directed.inBounds s0 0 = (1, 1)
  ∧ Directed.neighborhood s0 !! 0 = Some 1
  ∧ Directed.outBounds s 0 = (0, 0)
  ∧ Directed.inBounds s 0 = (0, 1)
  ∧ Directed.neighborhood s !! 0 = Some 1.
Proof. cbn zeta. repeat split; compute_done. Qed.

(** C5, as stated, fails on a graph with a self-loop: its weight is not
    counted into [M]. *)
Lemma C5_counterexample_self_loop :
  M (UndirectedLouvainIndex loop_graph Options.DEFAULTS)
  ≠ total_weight loop_graph Options.DEFAULTS.
Proof. intros H. apply (f_equal this) in H. by vm_compute in H. Qed.

Lemma C5_witness :
  Graph.wf pair_graph
  ∧ M (UndirectedLouvainIndex pair_graph Options.DEFAULTS)
    = proper_weight pair_graph Options.DEFAULTS.
Proof.
  split; [exact pair_graph_wf|].
  exact (proj1 (C5_M_counts_each_proper_edge_once pair_graph Options.DEFAULTS
                  pair_graph_wf)).
Defined.

(** C6, as stated, fails on doubles.  On the cycle a - b - c - d - a with
    weights 0.1, 0.1, 0.1 and 0.2, once b and a have joined the community of
    c, [totalWeights[2]] is 0.7000000000000001; moving b to that community
    again, with the degrees [expensiveMove] computes for it, subtracts 0.2
    and adds it back, which leaves 0.7. *)
Lemma C6_counterexample_rounding :
  let s := Binary64.expensiveMove 0 2
             (Binary64.expensiveMove 1 2
                (Binary64.UndirectedLouvainIndex weighted_cycle
                                                 weighted_options)) in
  let d := Binary64.scan s 1 2 in
  Binary64.belongings s !!! 1 = 2
  ∧ Binary64.targetCommunityDegree d = Binary64.currentCommunityDegree d
  ∧ Binary64.totalWeights s !!! 2 = 0x1.6666666666667p-1%float
  ∧ Binary64.totalWeights
      (Binary64.move 1 (Binary64.degree d)
         (Binary64.currentCommunityDegree d)
         (Binary64.currentCommunityDegree d) 2 s) !!! 2
    = 0x1.6666666666666p-1%float
  ∧ Binary64.move 1 (Binary64.degree d) (Binary64.currentCommunityDegree d)
      (Binary64.currentCommunityDegree d) (Binary64.belongings s !!! 1) s
    ≠ s.
Proof.
  cbn zeta. split; [by vm_compute|]. split; [by vm_compute|].
  split; [by vm_compute|]. split; [by vm_compute|].
  intros H.
  apply (f_equal (λ s, PrimFloat.eqb (Binary64.totalWeights s !!! 2)
                                     0x1.6666666666667p-1)) in H.
  vm_compute in H. discriminate H.
Qed.

Lemma C6_witness :
  let s := Binary64.expensiveMove 1 0
             (Binary64.UndirectedLouvainIndex pair_graph
                                              dendrogram_options) in
  let c := Binary64.belongings s !!! 1 in
  let l := Binary64.loops s !!! 1 in
  1 < length (Binary64.belongings s)
  ∧ holds (Binary64.NodesPointerArray s) c
  ∧ is_element (Binary64.NodesPointerArray s) (Binary64.counts_arr s !!! c)
  ∧ Binary64.move 1 1 1 1 c s
    = with_weights s
        (sub_add c (1 * 2 + l)%float (Binary64.internalWeights s))
        (sub_add c (1 + l)%float (Binary64.totalWeights s)).
Proof.
  cbn zeta.
  set (s := Binary64.expensiveMove 1 0
              (Binary64.UndirectedLouvainIndex pair_graph
                                               dendrogram_options)).
  assert (H : 1 < length (Binary64.belongings s)) by (vm_compute; lia).
  assert (Hc : holds (Binary64.NodesPointerArray s)
                     (Binary64.belongings s !!! 1))
    by (vm_compute; reflexivity).
  assert (Hcnt : is_element (Binary64.NodesPointerArray s)
                   (Binary64.counts_arr s
                      !!! (Binary64.belongings s !!! 1)))
    by (vm_compute; reflexivity).
  split; [exact H|]. split; [exact Hc|]. split; [exact Hcnt|].
  exact (proj1 (C6_move_to_own_community_up_to_rounding s 1 1 1 H Hc Hcnt)).
Defined.

Lemma C7_witness :
  let s := UndirectedLouvainIndex pair_graph Options.DEFAULTS in
  1 < C s ∧ C s ≤ length (totalWeights s)
  ∧ delta s (Q2Qc 1) (Q2Qc 1) 1
    = delta_spec (M s) (totalWeights s !!! 1) (Q2Qc 1) (Q2Qc 1)
  ∧ (modularity (move 0 (Q2Qc 1) (Q2Qc 0) (Q2Qc 1) 1 s) - modularity s)%Qc
    = delta s (Q2Qc 1) (Q2Qc 1) 1.
Proof.
  cbn zeta.
  assert (H1 : 1 < C (UndirectedLouvainIndex pair_graph Options.DEFAULTS))
    by (vm_compute; lia).
  assert (H2 : C (UndirectedLouvainIndex pair_graph Options.DEFAULTS)
               ≤ length (totalWeights
                           (UndirectedLouvainIndex pair_graph
                                                   Options.DEFAULTS)))
    by (vm_compute; lia).
  split; [exact H1|]. split; [exact H2|].
  destruct (C7_delta_formula _ (Q2Qc 1) (Q2Qc 1) 1 H1 H2) as [Hspec Hgain].
  split; [exact Hspec|].
  apply (Hgain 0).
  - intros H. apply (f_equal this) in H. vm_compute in H. discriminate H.
  - vm_compute. lia.
  - vm_compute. lia.
  - vm_compute. lia.
  - vm_compute. reflexivity.
  - vm_compute. reflexivity.
  - vm_compute. reflexivity.
Defined.

Lemma C8_witness :
  Graph.wf pair_graph ∧ Graph.loop_free pair_graph
  ∧ modularity (UndirectedLouvainIndex pair_graph Options.DEFAULTS)
    = (- sumQc ((λ node,
                   (weighted_degree pair_graph Options.DEFAULTS node
                    / (2 * total_weight pair_graph Options.DEFAULTS)) ^ 2)
                  <$> Graph.nodes pair_graph))%Qc.
Proof.
  split; [exact pair_graph_wf|]. split; [exact pair_graph_loop_free|].
  exact (C8_modularity_of_singletons pair_graph Options.DEFAULTS
           pair_graph_wf pair_graph_loop_free).
Defined.

(** C9, as stated, fails on a graph with a self-loop: the constructor stores
    one entry for the loop and sets [E] and [starts[C]] to [2 * size]. *)
Lemma C9_counterexample_self_loop :
  let s := UndirectedLouvainIndex loop_graph Options.DEFAULTS in
  ¬ (starts_ok s ∧ E s = b_n (build_loop loop_graph Options.DEFAULTS)).
Proof. cbn zeta. intros [_ H]. by vm_compute in H. Qed.

Lemma C9_witness :
  Graph.wf pair_graph ∧ fits pair_graph
  ∧ let s := run (UndirectedLouvainIndex pair_graph Options.DEFAULTS)
                 [OpExpensiveMove 1 0; OpZoomOut] in
    starts s !! C s = Some (E s).
Proof.
  split; [exact pair_graph_wf|]. split; [exact pair_graph_fits|]. cbn zeta.
  exact (proj1 (proj2 (C9_starts_is_non_decreasing pair_graph Options.DEFAULTS
                         [OpExpensiveMove 1 0; OpZoomOut] pair_graph_wf
                         pair_graph_fits))).
Defined.

(** When [2 * size] is 2^8, 2^16 or 2^32, the array [starts] does not hold
    [upperBound]: [starts[C]] is 0 and not [E].  With 128 edges between two
    nodes [starts] is 0, 128, 0. *)
Lemma starts_overflows_at_128_edges :
  let s := UndirectedLouvainIndex (parallel_graph 128) Options.DEFAULTS in
  Graph.wf (parallel_graph 128) ∧ Graph.loop_free (parallel_graph 128)
  ∧ E s = 256 ∧ starts s = [0; 128; 0].
Proof.
  cbn zeta. split; [|split; [|split]].
  - unfold Graph.wf. split; [compute_done|].
    apply Forall_replicate. compute_done.
  - apply Forall_replicate. intros H. vm_compute in H. discriminate.
  - reflexivity.
  - vm_compute. reflexivity.
Qed.

(** After [zoomOut], [E] counts every contribution to the induced graph, not
    its entries: on the triangle with b moved next to a, four contributions
    make two entries, and [starts[C]] is 4. *)
Lemma zoomOut_E_counts_contributions :
  let s := expensiveMove 1 0
             (UndirectedLouvainIndex triangle_graph Options.DEFAULTS) in
  E (zoomOut s) = 4 ∧ entries_rewritten s = 2
  ∧ starts (zoomOut s) !! C (zoomOut s) = Some 4.
Proof. cbn zeta. repeat split; compute_done. Qed.

(** Beyond level 0 the weights of the induced graph are those [zoomOut] read
    at the neighbors, and the sum of [totalWeights] leaves [2 * M]: on the
    weighted path, after a [zoomOut], the move of node 2 next to node 1 and a
    second [zoomOut]. *)
Lemma second_zoomOut_loses_the_sum :
  let s := run (UndirectedLouvainIndex weighted_path weighted_options)
               [OpZoomOut; OpExpensiveMove 2 1; OpZoomOut] in
  sum_totalWeights s = Qc_of_Z 22 ∧ (2 * M s)%Qc = Qc_of_Z 24.
Proof. cbn zeta. split; compute_done. Qed.

(** * Further properties *)

(** ** Moves of the undirected index *)

Lemma arr_sub_add_same (c : nat) (x : Qc) (arr : list Qc) :
  arr_sub c x (arr_add c x arr) = arr.
Proof.
  unfold arr_add, arr_sub.
  destruct (decide (c < length arr)) as [Hc|Hc].
  - rewrite list_lookup_total_insert_eq by done.
    rewrite list_insert_insert_eq.
    replace (arr !!! c + x - x)%Qc with (arr !!! c) by ring.
    apply list_insert_id. by apply list_lookup_lookup_total_lt.
  - by rewrite !list_insert_ge by (rewrite ?length_insert; lia).
Qed.

(** Scanning the block of a node for the community it is in gives the same
    sum for the current and for the target community. *)
Lemma scan_own_community (s : Index) (i : nat) :
  currentCommunityDegree (scan s i (belongings s !!! i))
  = targetCommunityDegree (scan s i (belongings s !!! i)).
Proof.
  unfold scan.
  apply (foldl_invariant
           (λ d, currentCommunityDegree d = targetCommunityDegree d));
    [done|].
  intros d o Hd. unfold scan_edge. cbn.
  destruct (decide (belongings s !!! i
                    = belongings s !!! (neighborhood s !!! o))) as [He|He];
    destruct (decide (belongings s !!! (neighborhood s !!! o)
                      = belongings s !!! i)) as [He'|He'];
    congruence.
Qed.

(** The same on doubles: the two sums receive the same additions in the same
    order, so they are the same double. *)
Lemma binary64_scan_own_community (s : Binary64.Index) (i : nat) :
  Binary64.targetCommunityDegree
    (Binary64.scan s i (Binary64.belongings s !!! i))
  = Binary64.currentCommunityDegree
      (Binary64.scan s i (Binary64.belongings s !!! i)).
Proof.
  unfold Binary64.scan.
  apply (foldl_invariant
           (λ d, Binary64.targetCommunityDegree d
                 = Binary64.currentCommunityDegree d));
    [done|].
  intros d o Hd. unfold Binary64.scan_edge. cbn.
  destruct (decide (Binary64.belongings s !!! i
                    = Binary64.belongings s
                        !!! (Binary64.neighborhood s !!! o))) as [He|He];
    destruct (decide (Binary64.belongings s
                        !!! (Binary64.neighborhood s !!! o)
                      = Binary64.belongings s !!! i)) as [He'|He'];
    congruence.
Qed.

(** X1. On doubles, [expensiveMove(i, belongings[i])] gives [move] the same
    double for the current and the target community degree, and leaves
    every field of the index bit for bit as it was but for the entries of
    [totalWeights] and [internalWeights] of that community, which are left
    with what subtracting the degree and adding it back gives; in exact
    arithmetic it leaves every field as it was.  The community is a value
    the array [belongings] holds, and its count an element of [counts]. *)
Theorem expensiveMove_to_own_community (s : Binary64.Index) (i : nat) :
  let c := Binary64.belongings s !!! i in
  let l := Binary64.loops s !!! i in
  let d := Binary64.scan s i c in
  i < length (Binary64.belongings s) →
  holds (Binary64.NodesPointerArray s) c →
  is_element (Binary64.NodesPointerArray s) (Binary64.counts_arr s !!! c) →
  Binary64.targetCommunityDegree d = Binary64.currentCommunityDegree d
  ∧ Binary64.expensiveMove i c s
    = with_weights s
        (sub_add c (Binary64.currentCommunityDegree d * 2 + l)%float
                 (Binary64.internalWeights s))
        (sub_add c (Binary64.degree d + l)%float (Binary64.totalWeights s))
  ∧ ∀ (q : Index) (j : nat),
      j < length (belongings q) →
      holds (NodesPointerArray q) (belongings q !!! j) →
      is_element (NodesPointerArray q)
                 (counts_arr q !!! (belongings q !!! j)) →
      expensiveMove j (belongings q !!! j) q = q.
Proof.
  cbn zeta. intros Hi Hc Hcnt.
  split; [apply binary64_scan_own_community|]. split.
  - unfold Binary64.expensiveMove. cbn zeta.
    rewrite binary64_scan_own_community.
    by apply binary64_move_own.
  - clear. intros q j Hj Hc Hcnt. unfold expensiveMove. cbn zeta.
    rewrite scan_own_community. by apply move_own.
Qed.

Lemma expensiveMove_to_own_community_witness :
  let s := Binary64.expensiveMove 1 0
             (Binary64.UndirectedLouvainIndex weighted_cycle
                                              weighted_options) in
  let c := Binary64.belongings s !!! 0 in
  let l := Binary64.loops s !!! 0 in
  let d := Binary64.scan s 0 c in
  0 < length (Binary64.belongings s)
  ∧ holds (Binary64.NodesPointerArray s) c
  ∧ is_element (Binary64.NodesPointerArray s) (Binary64.counts_arr s !!! c)
  ∧ Binary64.expensiveMove 0 c s
    = with_weights s
        (sub_add c (Binary64.currentCommunityDegree d * 2 + l)%float
                 (Binary64.internalWeights s))
        (sub_add c (Binary64.degree d + l)%float (Binary64.totalWeights s)).
Proof.
  cbn zeta.
  set (s := Binary64.expensiveMove 1 0
              (Binary64.UndirectedLouvainIndex weighted_cycle
                                               weighted_options)).
  assert (H : 0 < length (Binary64.belongings s)) by (vm_compute; lia).
  assert (Hc : holds (Binary64.NodesPointerArray s)
                     (Binary64.belongings s !!! 0))
    by (vm_compute; reflexivity).
  assert (Hcnt : is_element (Binary64.NodesPointerArray s)
                   (Binary64.counts_arr s
                      !!! (Binary64.belongings s !!! 0)))
    by (vm_compute; reflexivity).
  split; [exact H|]. split; [exact Hc|]. split; [exact Hcnt|].
  exact (proj1 (proj2 (expensiveMove_to_own_community s 0 H Hc Hcnt))).
Defined.

Lemma Qc_two_neq_0 : (2 : Qc) ≠ Q2Qc 0.
Proof. intros H. apply (f_equal this) in H. vm_compute in H. discriminate H. Qed.

(** The change of two terms of the modularity under a move between two
    distinct communities. *)
Lemma modularity_move (s : Index) (i : nat) (d dc dt : Qc) (t : nat) :
  let c := belongings s !!! i in
  let l := loops s !!! i in
  c < C s → t < C s → c ≠ t →
  C s ≤ length (totalWeights s) → C s ≤ length (internalWeights s) →
  modularity (move i d dc dt t s)
  = (modularity s
     + (community_term (M s * 2) (internalWeights s !!! c - (dc * 2 + l))
                       (totalWeights s !!! c - (d + l))
        - community_term (M s * 2) (internalWeights s !!! c)
                         (totalWeights s !!! c))
     + (community_term (M s * 2) (internalWeights s !!! t + (dt * 2 + l))
                       (totalWeights s !!! t + (d + l))
        - community_term (M s * 2) (internalWeights s !!! t)
                         (totalWeights s !!! t)))%Qc.
Proof.
  intros c l Hc Ht Hct Htw Hiw.
  rewrite !modularity_sum.
  cbn [M C internalWeights totalWeights move].
  fold c. fold l.
  rewrite (sumQc_two_points
             (λ k, community_term (M s * 2) (internalWeights s !!! k)
                                  (totalWeights s !!! k)) _ (C s) c t)
    by first [done | intros k Hkc Hkt; unfold arr_add, arr_sub;
              rewrite !list_lookup_total_insert_ne by done; done].
  unfold arr_add, arr_sub.
  rewrite !(list_lookup_total_insert_ne _ t c) by done.
  rewrite !list_lookup_total_insert_eq by (rewrite ?length_insert; lia).
  rewrite !(list_lookup_total_insert_ne _ c t) by done.
  done.
Qed.

(** X2. Between two distinct communities in range, [trueDelta] is exactly
    the change of [modularity()] under the move with the same arguments.
    For the community the node is in, it is not: the move changes nothing
    while [trueDelta] is [- (degree + loops)^2 / (2 M^2)]. *)
Theorem trueDelta_is_the_gain_of_move (s : Index) (i : nat) (d dc dt : Qc)
    (t : nat) :
  let c := belongings s !!! i in
  let l := loops s !!! i in
  M s ≠ Q2Qc 0 →
  c < C s → t < C s →
  C s ≤ length (totalWeights s) → C s ≤ length (internalWeights s) →
  (c ≠ t →
   (modularity (move i d dc dt t s) - modularity s)%Qc
   = trueDelta s i d dc dt t)
  ∧ (modularity (move i d dc dc c s) - modularity s = Q2Qc 0
     ∧ trueDelta s i d dc dc c = - (d + l) ^ 2 / (2 * M s ^ 2))%Qc.
Proof.
  intros c l HM Hc Ht Htw Hiw. split; [|split].
  - intros Hct.
    rewrite modularity_move by done. fold c. fold l.
    unfold trueDelta, community_term. cbn zeta. fold c. fold l.
    cbn [Qcpower].
    field. split; [done|]. apply Qc_two_neq_0.
  - assert (Hsame : modularity (move i d dc dc c s) = modularity s).
    { unfold modularity. cbn [M C internalWeights totalWeights move].
      fold c. by rewrite !arr_add_sub_same. }
    rewrite Hsame. ring.
  - unfold trueDelta. cbn zeta. fold c. fold l. cbn [Qcpower].
    field. split; [done|]. apply Qc_two_neq_0.
Qed.

Lemma trueDelta_is_the_gain_of_move_witness :
  let s := UndirectedLouvainIndex pair_graph Options.DEFAULTS in
  M s ≠ Q2Qc 0 ∧ belongings s !!! 0 < C s ∧ 1 < C s
  ∧ C s ≤ length (totalWeights s) ∧ C s ≤ length (internalWeights s)
  ∧ belongings s !!! 0 ≠ 1
  ∧ (modularity (move 0 (Q2Qc 1) (Q2Qc 0) (Q2Qc 1) 1 s) - modularity s)%Qc
    = trueDelta s 0 (Q2Qc 1) (Q2Qc 0) (Q2Qc 1) 1.
Proof.
  cbn zeta.
  set (s := UndirectedLouvainIndex pair_graph Options.DEFAULTS).
  assert (HM : M s ≠ Q2Qc 0).
  { intros H. apply (f_equal this) in H. vm_compute in H. discriminate H. }
  assert (Hc : belongings s !!! 0 < C s) by (vm_compute; lia).
  assert (Ht : 1 < C s) by (vm_compute; lia).
  assert (Htw : C s ≤ length (totalWeights s)) by (vm_compute; lia).
  assert (Hiw : C s ≤ length (internalWeights s)) by (vm_compute; lia).
  assert (Hct : belongings s !!! 0 ≠ 1) by (vm_compute; lia).
  repeat (split; [assumption|]).
  exact (proj1 (trueDelta_is_the_gain_of_move s 0 (Q2Qc 1) (Q2Qc 0) (Q2Qc 1)
                  1 HM Hc Ht Htw Hiw) Hct).
Defined.

(** X3. [deltaWithOwnCommunity] is what the modularity loses when a node
    without loop weight leaves its community for an empty one: the gain of
    having the node in its own community rather than alone. *)
Theorem deltaWithOwnCommunity_is_the_loss_of_leaving (s : Index) (i : nat)
    (d dc : Qc) (e : nat) :
  let c := belongings s !!! i in
  M s ≠ Q2Qc 0 →
  c < C s → e < C s → c ≠ e →
  C s ≤ length (totalWeights s) → C s ≤ length (internalWeights s) →
  loops s !!! i = Q2Qc 0 →
  totalWeights s !!! e = Q2Qc 0 → internalWeights s !!! e = Q2Qc 0 →
  (modularity s - modularity (move i d dc (Q2Qc 0) e s))%Qc
  = deltaWithOwnCommunity s d dc c.
Proof.
  intros c HM Hc He Hce Htw Hiw Hl Htwe Hiwe.
  rewrite modularity_move by done. fold c.
  rewrite Hl, Htwe, Hiwe.
  unfold deltaWithOwnCommunity, community_term. cbn zeta. cbn [Qcpower].
  field. split; [done|]. apply Qc_two_neq_0.
Qed.

(** X4. Where [M] is not 0, [trueDelta] is the difference of the two other
    variations, taken at the degree of the node with its loop weight:
    [delta] for the target community minus [deltaWithOwnCommunity] for the
    current one. *)
Theorem trueDelta_is_delta_minus_own (s : Index) (i : nat) (d dc dt : Qc)
    (t : nat) :
  let l := loops s !!! i in
  M s ≠ Q2Qc 0 →
  trueDelta s i d dc dt t
  = (delta s (d + l) dt t
     - deltaWithOwnCommunity s (d + l) dc (belongings s !!! i))%Qc.
Proof.
  cbn zeta. intros HM.
  unfold trueDelta, delta, deltaWithOwnCommunity. cbn zeta.
  cbn [Qcpower]. field. split; [done|]. apply Qc_two_neq_0.
Qed.

Lemma trueDelta_is_delta_minus_own_witness :
  let s := UndirectedLouvainIndex pair_graph Options.DEFAULTS in
  let l := loops s !!! 0 in
  let c := belongings s !!! 0 in
  M s ≠ Q2Qc 0
  ∧ trueDelta s 0 (Q2Qc 1) (Q2Qc 0) (Q2Qc 1) 1
    = (delta s (Q2Qc 1 + l) (Q2Qc 1) 1
       - deltaWithOwnCommunity s (Q2Qc 1 + l) (Q2Qc 0) c)%Qc.
Proof.
  cbn zeta.
  set (s := UndirectedLouvainIndex pair_graph Options.DEFAULTS).
  assert (HM : M s ≠ Q2Qc 0).
  { intros H. apply (f_equal this) in H. vm_compute in H. discriminate H. }
  split; [exact HM|].
  exact (trueDelta_is_delta_minus_own s 0 (Q2Qc 1) (Q2Qc 0) (Q2Qc 1) 1 HM).
Defined.

Lemma deltaWithOwnCommunity_is_the_loss_of_leaving_witness :
  let s := expensiveMove 1 0
             (UndirectedLouvainIndex pair_graph Options.DEFAULTS) in
  M s ≠ Q2Qc 0 ∧ belongings s !!! 1 < C s ∧ 1 < C s
  ∧ belongings s !!! 1 ≠ 1
  ∧ C s ≤ length (totalWeights s) ∧ C s ≤ length (internalWeights s)
  ∧ loops s !!! 1 = Q2Qc 0
  ∧ totalWeights s !!! 1 = Q2Qc 0 ∧ internalWeights s !!! 1 = Q2Qc 0
  ∧ (modularity s - modularity (move 1 (Q2Qc 1) (Q2Qc 1) (Q2Qc 0) 1 s))%Qc
    = deltaWithOwnCommunity s (Q2Qc 1) (Q2Qc 1) (belongings s !!! 1).
Proof.
  cbn zeta.
  set (s := expensiveMove 1 0
              (UndirectedLouvainIndex pair_graph Options.DEFAULTS)).
  assert (HM : M s ≠ Q2Qc 0).
  { intros H. apply (f_equal this) in H. vm_compute in H. discriminate H. }
  assert (Hc : belongings s !!! 1 < C s) by (vm_compute; lia).
  assert (He : 1 < C s) by (vm_compute; lia).
  assert (Hce : belongings s !!! 1 ≠ 1) by (vm_compute; lia).
  assert (Htw : C s ≤ length (totalWeights s)) by (vm_compute; lia).
  assert (Hiw : C s ≤ length (internalWeights s)) by (vm_compute; lia).
  assert (Hl : loops s !!! 1 = Q2Qc 0) by (vm_compute; reflexivity).
  assert (Htwe : totalWeights s !!! 1 = Q2Qc 0) by (vm_compute; reflexivity).
  assert (Hiwe : internalWeights s !!! 1 = Q2Qc 0)
    by (vm_compute; reflexivity).
  repeat (split; [assumption|]).
  exact (deltaWithOwnCommunity_is_the_loss_of_leaving s 1 (Q2Qc 1) (Q2Qc 1) 1
           HM Hc He Hce Htw Hiw Hl Htwe Hiwe).
Defined.

(** On doubles, adding and then subtracting leaves the rounded result. *)
Lemma binary64_arr_sub_add (t : nat) (x : float) (arr : list float) :
  Binary64.arr_sub t x (Binary64.arr_add t x arr) = add_sub t x arr.
Proof.
  unfold Binary64.arr_add, Binary64.arr_sub, add_sub.
  destruct (decide (t < length arr)) as [Ht|Ht].
  - rewrite list_lookup_total_insert_eq by done.
    by rewrite list_insert_insert_eq.
  - by rewrite !(list_insert_ge _ t) by (rewrite ?length_insert; lia).
Qed.

(** The updates of two distinct entries do not meet. *)
Lemma binary64_there_and_back (c t : nat) (a b : float) (arr : list float) :
  t ≠ c →
  Binary64.arr_add c a
    (Binary64.arr_sub t b (Binary64.arr_add t b (Binary64.arr_sub c a arr)))
  = sub_add c a (add_sub t b arr).
Proof.
  intros Hne. rewrite binary64_arr_sub_add.
  unfold Binary64.arr_add, Binary64.arr_sub, sub_add, add_sub.
  rewrite !(list_lookup_total_insert_ne _ t c),
          !(list_lookup_total_insert_ne _ c t) by done.
  rewrite (list_insert_insert_ne _ t c) by done.
  rewrite list_insert_insert_eq.
  destruct (decide (c < length arr)) as [Hc|Hc].
  - by rewrite list_lookup_total_insert_eq by done.
  - by rewrite !(list_insert_ge _ c) by (rewrite ?length_insert; lia).
Qed.

Lemma there_and_back (c t : nat) (a b : Qc) (arr : list Qc) :
  arr_add c a (arr_sub t b (arr_add t b (arr_sub c a arr))) = arr.
Proof. by rewrite arr_sub_add_same, arr_add_sub_same. Qed.

(** X5. When the counts are not kept, moving a node to another community
    and back, with the two degrees exchanged, restores every field of the
    index in exact arithmetic.  On doubles it restores every field bit for
    bit but the entries of [internalWeights] and [totalWeights] of the two
    communities: that of the community visited is left with what adding the
    degree and subtracting it again gives, that of the community of the node
    with what subtracting it and adding it back gives.  The two communities
    are values the array [belongings] holds. *)
Theorem move_and_back (s : Binary64.Index) (i : nat) (d dc dt : float)
    (t : nat) :
  let c := Binary64.belongings s !!! i in
  let l := Binary64.loops s !!! i in
  Binary64.keepCounts s = false →
  i < length (Binary64.belongings s) →
  holds (Binary64.NodesPointerArray s) c →
  holds (Binary64.NodesPointerArray s) t →
  t ≠ c →
  Binary64.move i d dt dc c (Binary64.move i d dc dt t s)
  = with_weights s
      (sub_add c (dc * 2 + l)%float
         (add_sub t (dt * 2 + l)%float (Binary64.internalWeights s)))
      (sub_add c (d + l)%float
         (add_sub t (d + l)%float (Binary64.totalWeights s)))
  ∧ ∀ (q : Index) (j : nat) (e ec et : Qc) (u : nat),
      keepCounts q = false →
      j < length (belongings q) →
      holds (NodesPointerArray q) (belongings q !!! j) →
      holds (NodesPointerArray q) u →
      move j e et ec (belongings q !!! j) (move j e ec et u q) = q.
Proof.
  cbn zeta. intros Hkc Hi Hc Ht Hne. split.
  - unfold Binary64.move, with_weights.
    destruct s as [M0 C0 E0 lv gr ns kc kd nb ws lp st bel den mp cnt iw tw].
    unfold Binary64.NodesPointerArray in *. cbn in *. subst kc.
    rewrite !length_insert. unfold holds in Hc, Ht. rewrite Hc, Ht.
    rewrite list_lookup_total_insert_eq by done.
    rewrite list_insert_insert_eq.
    rewrite (list_insert_id bel) by (by apply list_lookup_lookup_total_lt).
    by rewrite !binary64_there_and_back.
  - clear. intros q j e ec et u Hkc Hj Hc Hu. unfold move.
    destruct q as [M0 C0 E0 lv gr ns kc kd nb ws lp st bel den mp cnt iw tw].
    unfold NodesPointerArray in *. cbn in *. subst kc.
    rewrite !length_insert. unfold holds in Hc, Hu. rewrite Hc, Hu.
    rewrite list_lookup_total_insert_eq by done.
    rewrite list_insert_insert_eq.
    rewrite (list_insert_id bel) by (by apply list_lookup_lookup_total_lt).
    by rewrite !there_and_back.
Qed.

Lemma move_and_back_witness :
  let s := Binary64.UndirectedLouvainIndex weighted_cycle weighted_options in
  let c := Binary64.belongings s !!! 1 in
  let l := Binary64.loops s !!! 1 in
  let d := Binary64.scan s 1 2 in
  Binary64.keepCounts s = false
  ∧ 1 < length (Binary64.belongings s)
  ∧ holds (Binary64.NodesPointerArray s) c
  ∧ holds (Binary64.NodesPointerArray s) 2
  ∧ 2 ≠ c
  ∧ Binary64.move 1 (Binary64.degree d) (Binary64.targetCommunityDegree d)
      (Binary64.currentCommunityDegree d) c (Binary64.expensiveMove 1 2 s)
    = with_weights s
        (sub_add c (Binary64.currentCommunityDegree d * 2 + l)%float
           (add_sub 2 (Binary64.targetCommunityDegree d * 2 + l)%float
              (Binary64.internalWeights s)))
        (sub_add c (Binary64.degree d + l)%float
           (add_sub 2 (Binary64.degree d + l)%float
              (Binary64.totalWeights s))).
Proof.
  cbn zeta.
  set (s := Binary64.UndirectedLouvainIndex weighted_cycle weighted_options).
  assert (Hkc : Binary64.keepCounts s = false) by reflexivity.
  assert (Hi : 1 < length (Binary64.belongings s)) by (vm_compute; lia).
  assert (Hc : holds (Binary64.NodesPointerArray s)
                     (Binary64.belongings s !!! 1))
    by (vm_compute; reflexivity).
  assert (Ht : holds (Binary64.NodesPointerArray s) 2)
    by (vm_compute; reflexivity).
  assert (Hne : 2 ≠ Binary64.belongings s !!! 1) by (vm_compute; lia).
  repeat (split; [assumption|]).
  exact (proj1 (move_and_back s 1 _ _ _ 2 Hkc Hi Hc Ht Hne)).
Defined.

(** X6. When the counts are kept and the node stands in the community that
    bears its own index, as every node does in a fresh index and after a
    [zoomOut], moving it to another community and back does not restore the
    counts: the move back reads [counts[i]] after the first move has emptied
    it, so the members counted for [i] stay with the other community, whose
    count is their sum as an element of the array holds it. *)
Theorem move_and_back_loses_the_count (s : Index) (i : nat)
    (d dc dt d' dc' dt' : Qc) (t : nat) (cnt : list Z) :
  keepCounts s = true → counts s = Some cnt →
  i < length (belongings s) → belongings s !!! i = i →
  t < length (belongings s) →
  i < length cnt → t < length cnt → t ≠ i →
  let s' := move i d' dc' dt' i (move i d dc dt t s) in
  belongings s' = belongings s
  ∧ counts_arr s' !!! i = 0%Z
  ∧ counts_arr s' !!! t
    = element (NodesPointerArray s) (cnt !!! t + cnt !!! i).
Proof.
  intros Hkc Hcnt Hi Hbel Ht Hic Htc Hti. cbn zeta.
  unfold move, counts_arr, NodesPointerArray.
  destruct s as [M0 C0 E0 lv gr ns kc kd nb ws lp st bel den mp cn iw tw].
  cbn in *. subst kc cn. cbn.
  rewrite !length_insert.
  rewrite !pointer_lt by done.
  rewrite list_lookup_total_insert_eq by done.
  rewrite list_insert_insert_eq. rewrite !Hbel.
  unfold cnt_add, cnt_sub.
  repeat first
    [ rewrite list_lookup_total_insert_eq by (rewrite ?length_insert; lia)
    | rewrite list_lookup_total_insert_ne by lia ].
  rewrite Z.sub_diag, element_0, Z.sub_0_r, Z.add_0_r, element_0.
  split; [|split].
  - apply list_insert_id.
    rewrite (list_lookup_lookup_total_lt bel i Hi). by rewrite Hbel.
  - done.
  - apply element_element.
Qed.

Lemma move_and_back_loses_the_count_witness :
  let s := UndirectedLouvainIndex pair_graph dendrogram_options in
  let s' := move 0 (Q2Qc 1) (Q2Qc 1) (Q2Qc 0) 0
                 (move 0 (Q2Qc 1) (Q2Qc 0) (Q2Qc 1) 1 s) in
  keepCounts s = true ∧ counts s = Some [1; 1]%Z
  ∧ 0 < length (belongings s) ∧ belongings s !!! 0 = 0
  ∧ 1 < length (belongings s)
  ∧ belongings s' = belongings s
  ∧ counts_arr s' !!! 0 = 0%Z
  ∧ counts_arr s' !!! 1 = 2%Z.
Proof.
  cbn zeta.
  set (s := UndirectedLouvainIndex pair_graph dendrogram_options).
  assert (Hkc : keepCounts s = true) by reflexivity.
  assert (Hcnt : counts s = Some [1; 1]%Z) by (vm_compute; reflexivity).
  assert (Hi : 0 < length (belongings s)) by (vm_compute; lia).
  assert (Hbel : belongings s !!! 0 = 0) by (vm_compute; reflexivity).
  assert (Ht : 1 < length (belongings s)) by (vm_compute; lia).
  repeat (split; [assumption|]).
  refine (move_and_back_loses_the_count s 0 (Q2Qc 1) (Q2Qc 0) (Q2Qc 1)
            (Q2Qc 1) (Q2Qc 1) (Q2Qc 0) 1 [1; 1]%Z Hkc Hcnt Hi Hbel Ht _ _ _).
  - simpl. lia.
  - simpl. lia.
  - lia.
Defined.

Lemma sumZ_insert (l : list Z) (i : nat) (v : Z) :
  i < length l →
  foldr Z.add 0%Z (<[i := v]> l) = (foldr Z.add 0 l - l !!! i + v)%Z.
Proof.
  revert i. induction l as [|x l IH]; intros [|i] Hi; cbn in Hi; try lia.
  - change (<[0:=v]> (x :: l)) with (v :: l).
    change ((x :: l) !!! 0) with x. cbn [foldr]. lia.
  - change (<[S i:=v]> (x :: l)) with (x :: <[i:=v]> l).
    change ((x :: l) !!! S i) with (l !!! i).
    cbn [foldr]. rewrite IH by lia. lia.
Qed.

Lemma element_sum3 (ty : ArrayType) (p a b : Z) :
  element ty (p + element ty a + element ty b) = element ty (p + a + b).
Proof.
  rewrite element_add_r.
  replace (p + element ty a + b)%Z with (element ty a + (p + b))%Z by lia.
  rewrite element_add_l. f_equal. lia.
Qed.

(** X7. A move of a node of the index between two communities in range
    leaves the sum of [counts] over the communities as it is modulo the
    number of values of an element, 2^8, 2^16 or 2^32: a count the move
    takes below 0 or beyond the greatest element goes round. *)
Theorem move_keeps_the_sum_of_counts (s : Index) (i : nat) (d dc dt : Qc)
    (t : nat) :
  i < length (belongings s) → i < length (counts_arr s) →
  belongings s !!! i < C s → t < C s → C s ≤ length (counts_arr s) →
  element (NodesPointerArray s) (sum_counts (move i d dc dt t s))
  = element (NodesPointerArray s) (sum_counts s).
Proof.
  intros _ _ Hc Ht HC. unfold sum_counts, counts_arr, move in *. cbn in *.
  destruct (keepCounts s); [|done].
  destruct (counts s) as [cnt|]; [|done]. cbn in *.
  set (ty := NodesPointerArray s).
  set (c := belongings s !!! i) in *. set (x := cnt !!! i).
  unfold cnt_add, cnt_sub.
  rewrite !take_insert_lt by done.
  assert (Hlen : length (take (C s) cnt) = C s) by (rewrite length_take; lia).
  rewrite sumZ_insert by (by rewrite length_insert, Hlen).
  rewrite sumZ_insert by (by rewrite Hlen).
  set (S0 := foldr Z.add 0%Z (take (C s) cnt)).
  destruct (decide (c = t)) as [->|Hne].
  - rewrite (list_lookup_total_insert_eq cnt) by lia.
    rewrite (list_lookup_total_insert_eq (take (C s) cnt)) by lia.
    rewrite lookup_total_take_lt by done.
    replace (S0 - cnt !!! t + element ty (cnt !!! t - x)
             - element ty (cnt !!! t - x)
             + element ty (element ty (cnt !!! t - x) + x))%Z
      with ((S0 - cnt !!! t)
            + element ty (element ty (cnt !!! t - x) + x))%Z by lia.
    rewrite element_add_r.
    replace (S0 - cnt !!! t + (element ty (cnt !!! t - x) + x))%Z
      with (element ty (cnt !!! t - x) + (S0 - cnt !!! t + x))%Z by lia.
    rewrite element_add_l. f_equal. lia.
  - rewrite (list_lookup_total_insert_ne cnt) by done.
    rewrite (list_lookup_total_insert_ne (take (C s) cnt)) by done.
    rewrite !lookup_total_take_lt by done.
    replace (S0 - cnt !!! c + element ty (cnt !!! c - x) - cnt !!! t
             + element ty (cnt !!! t + x))%Z
      with ((S0 - cnt !!! c - cnt !!! t) + element ty (cnt !!! c - x)
            + element ty (cnt !!! t + x))%Z by lia.
    rewrite element_sum3. f_equal. lia.
Qed.

Lemma move_keeps_the_sum_of_counts_witness :
  let s := expensiveMove 1 0
             (expensiveMove 0 1
                (UndirectedLouvainIndex pair_graph dendrogram_options)) in
  0 < length (belongings s) ∧ 0 < length (counts_arr s)
  ∧ belongings s !!! 0 < C s ∧ 0 < C s ∧ C s ≤ length (counts_arr s)
  ∧ sum_counts s = 2%Z
  ∧ sum_counts (expensiveMove 0 0 s) = 258%Z
  ∧ element (NodesPointerArray s) (sum_counts (expensiveMove 0 0 s))
    = element (NodesPointerArray s) (sum_counts s).
Proof.
  cbn zeta.
  set (s := expensiveMove 1 0
              (expensiveMove 0 1
                 (UndirectedLouvainIndex pair_graph dendrogram_options))).
  assert (Hib : 0 < length (belongings s)) by (vm_compute; lia).
  assert (Hic : 0 < length (counts_arr s)) by (vm_compute; lia).
  assert (Hc : belongings s !!! 0 < C s) by (vm_compute; lia).
  assert (Ht : 0 < C s) by (vm_compute; lia).
  assert (HC : C s ≤ length (counts_arr s)) by (vm_compute; lia).
  repeat (split; [assumption|]).
  split; [vm_compute; reflexivity|]. split; [vm_compute; reflexivity|].
  exact (move_keeps_the_sum_of_counts s 0 _ _ _ 0 Hib Hic Hc Ht HC).
Defined.

(** ** Coarsening of the undirected index *)

Lemma induce_keeps s r :
  induced_keeps (r_inducedGraph r) (induce s r).
Proof.
  unfold induce. apply foldl_invariant; [done|].
  intros acc i Hacc. unfold induce_node. apply foldl_invariant; [done|].
  intros acc' j Hacc'. unfold induce_edge. cbn zeta.
  destruct (decide _); [done|]. unfold induced_keeps in *. cbn [fst].
  by rewrite alter_adj_add_fields.
Qed.

Lemma rewrite_fields (s : Index) (w0 : Rewriting) (ig : list Community) :
  length ig ≤ length (w_loops w0) →
  length ig ≤ length (w_internalWeights w0) →
  length ig ≤ length (w_belongings w0) →
  length ig ≤ length (belongings s) →
  rewritten_fields w0 ig (foldl (rewrite_community s) w0 (imap pair ig)).
Proof.
  induction ig as [|c ig IH] using rev_ind; intros Hlp Hiw Hbel Hty.
  - cbn. unfold rewritten_fields. repeat split; try done.
  - rewrite length_app in Hlp, Hiw, Hbel, Hty. cbn in Hlp, Hiw, Hbel, Hty.
    rewrite imap_app, foldl_app. cbn [imap foldl].
    rewrite Nat.add_0_r.
    destruct IH as (Hllp & Hliw & Hlbel & Hat); [lia|lia|lia|lia|].
    set (w := foldl (rewrite_community s) w0 (imap pair ig)) in *.
    unfold rewrite_community. rewrite rewrite_edges_fold.
    unfold rewritten_fields. cbn.
    rewrite !length_insert.
    unfold NodesPointerArray at 1. rewrite pointer_lt by lia.
    split; [done|]. split; [done|]. split; [done|].
    intros ci data Hci.
    destruct (decide (ci = length ig)) as [->|Hne].
    + rewrite lookup_app_r, Nat.sub_diag in Hci by lia.
      injection Hci as <-.
      by rewrite !list_lookup_total_insert_eq by lia.
    + assert (Hlt : ci < length ig).
      { apply lookup_lt_Some in Hci. rewrite length_app in Hci.
        cbn in Hci. lia. }
      rewrite lookup_app_l in Hci by done.
      rewrite !list_lookup_total_insert_ne by done. by apply Hat.
Qed.

(** What [zoomOut] leaves in the arrays for each new community. *)
Lemma zoomOut_communities (s : Index) :
  shape s →
  C s ≤ length (internalWeights s) → C s ≤ length (loops s) →
  C (zoomOut s) = length (occupied s)
  ∧ length (internalWeights (zoomOut s)) = length (internalWeights s)
  ∧ length (loops (zoomOut s)) = length (loops s)
  ∧ ∀ ci c, occupied s !! ci = Some c →
      belongings (zoomOut s) !!! ci = ci
      ∧ internalWeights (zoomOut s) !!! ci = internalWeights s !!! c
      ∧ loops (zoomOut s) !!! ci = internalWeights s !!! c
      ∧ totalWeights (zoomOut s) !!! ci = totalWeights s !!! c.
Proof.
  intros Hs Hiw Hlp. pose proof Hs as (Hst & Htw & Hbel).
  destruct (renumber_lengths s) as (Hlen & Hlb & _).
  destruct (renumber_spec s Hbel) as (Hig & _). fold (occupied s) in Hig.
  pose proof (induce_keeps s (renumber s)) as Hkeeps.
  pose proof (induce_from s (renumber s)) as Hfrom.
  pose proof (zoomOut_totalWeights s Hs) as Htws. fold (occupied s) in Htws.
  unfold zoomOut in *. cbn zeta in *.
  destruct (induce s (renumber s)) as [ig E'] eqn:Hind.
  destruct Hfrom as (_ & Hlig & _). cbn [fst] in Hlig.
  unfold induced_keeps in Hkeeps. cbn [fst] in Hkeeps.
  cbn [C belongings internalWeights loops totalWeights] in *.
  destruct (rewrite_fields s
              (rewrite_init s (r_belongings (renumber s))) ig)
    as (Hllp & Hliw & Hlbel & Hat); cbn; [lia|lia|lia|lia|].
  cbn in Hllp, Hliw, Hlbel. fold (rewrite s (r_belongings (renumber s)) ig)
    in Hllp, Hliw, Hlbel, Hat.
  assert (HC : length (r_inducedGraph (renumber s)) = length (occupied s))
    by (by rewrite Hig, length_fmap).
  split; [done|]. split; [done|]. split; [done|].
  intros ci c Hci.
  assert (Hlt : ci < length ig).
  { apply lookup_lt_Some in Hci. lia. }
  destruct (lookup_lt_is_Some_2 ig ci Hlt) as [data Hdata].
  destruct (Hat ci data Hdata) as (Hb & Hi & Hl).
  assert (Hdi : c_internalWeights data = internalWeights s !!! c).
  { assert (H : (c_internalWeights <$> ig) !! ci
                = (c_internalWeights <$> r_inducedGraph (renumber s)) !! ci)
      by (by rewrite Hkeeps).
    rewrite Hig, <- list_fmap_compose, !list_lookup_fmap, Hdata, Hci in H.
    cbn in H. by injection H. }
  rewrite Hb, Hi, Hl, Hdi. repeat split; try done.
  assert (H : take (length (r_inducedGraph (renumber s)))
                (w_totalWeights (rewrite s (r_belongings (renumber s)) ig))
              !! ci = Some (totalWeights s !!! c)).
  { rewrite Htws, list_lookup_fmap, Hci. done. }
  rewrite lookup_take_lt in H by lia.
  by apply list_lookup_total_correct.
Qed.

Lemma occupied_members (s : Index) (c : nat) :
  C s ≤ length (belongings s) →
  c ∈ occupied s ↔ ∃ i, i < C s ∧ belongings s !!! i = c.
Proof.
  intros Hbel. unfold occupied. rewrite elem_of_first_seen. split.
  - intros [i Hi]%list_elem_of_lookup.
    apply lookup_take_Some in Hi as [Hi Hlt].
    exists i. split; [done|]. by apply list_lookup_total_correct.
  - intros (i & Hi & <-). apply list_elem_of_lookup. exists i.
    rewrite lookup_take_lt by done. apply list_lookup_lookup_total_lt. lia.
Qed.

(** X8. [zoomOut] leaves as many communities as had a member: [C] becomes
    the number of distinct values of [belongings] over the nodes of the
    level, which is at most the former [C] and at least 1 when there is a
    node. *)
Theorem zoomOut_counts_the_occupied_communities (s : Index) :
  shape s →
  C (zoomOut s) = length (occupied s)
  ∧ NoDup (occupied s)
  ∧ (∀ c, c ∈ occupied s ↔ ∃ i, i < C s ∧ belongings s !!! i = c)
  ∧ C (zoomOut s) ≤ C s
  ∧ (0 < C s → 0 < C (zoomOut s)).
Proof.
  intros Hs. pose proof Hs as (Hst & Htw & Hbel).
  destruct (zoomOut_rewritten s Hs)
    as (ig & E' & w & Hind & Hfrom & _ & _ & HC & _).
  destruct Hfrom as (_ & Hlig & _). cbn [fst] in Hlig.
  destruct (renumber_spec s Hbel) as (Hig & _). fold (occupied s) in Hig.
  destruct (renumber_lengths s) as (Hlen & _).
  assert (HC' : C (zoomOut s) = length (occupied s)).
  { rewrite HC, Hlig, Hig. by rewrite length_fmap. }
  split; [done|]. split; [apply NoDup_first_seen|].
  split; [intros c; by apply occupied_members|].
  split; [lia|].
  intros Hpos. rewrite HC'.
  assert (Hin : belongings s !!! 0 ∈ occupied s).
  { apply occupied_members; [done|]. by exists 0. }
  destruct (occupied s); [by apply elem_of_nil in Hin|cbn; lia].
Qed.

Lemma zoomOut_counts_the_occupied_communities_witness :
  let s := expensiveMove 1 0
             (UndirectedLouvainIndex pair_graph Options.DEFAULTS) in
  shape s ∧ C (zoomOut s) = length (occupied s).
Proof.
  cbn zeta.
  set (s := expensiveMove 1 0
              (UndirectedLouvainIndex pair_graph Options.DEFAULTS)).
  assert (Hs : shape s) by (unfold shape; vm_compute; lia).
  split; [exact Hs|].
  exact (proj1 (zoomOut_counts_the_occupied_communities s Hs)).
Defined.

(** X9. After [zoomOut] every community of the new level holds the one node
    that bears its index; its internal weight and its total weight are those
    of the community it stands for, and the loop weight of the node is that
    internal weight. *)
Theorem zoomOut_leaves_singletons (s : Index) (ci : nat) :
  shape s →
  C s ≤ length (internalWeights s) → C s ≤ length (loops s) →
  ci < C (zoomOut s) →
  ∃ c, occupied s !! ci = Some c
       ∧ belongings (zoomOut s) !!! ci = ci
       ∧ internalWeights (zoomOut s) !!! ci = internalWeights s !!! c
       ∧ loops (zoomOut s) !!! ci = internalWeights s !!! c
       ∧ totalWeights (zoomOut s) !!! ci = totalWeights s !!! c.
Proof.
  intros Hs Hiw Hlp Hci.
  destruct (zoomOut_communities s Hs Hiw Hlp) as (HC & _ & _ & Hat).
  rewrite HC in Hci.
  destruct (lookup_lt_is_Some_2 _ _ Hci) as [c Hc].
  exists c. split; [done|]. by apply Hat.
Qed.

Lemma zoomOut_leaves_singletons_witness :
  let s := expensiveMove 1 0
             (UndirectedLouvainIndex pair_graph Options.DEFAULTS) in
  shape s ∧ C s ≤ length (internalWeights s) ∧ C s ≤ length (loops s)
  ∧ 0 < C (zoomOut s)
  ∧ ∃ c, occupied s !! 0 = Some c
         ∧ belongings (zoomOut s) !!! 0 = 0
         ∧ internalWeights (zoomOut s) !!! 0 = internalWeights s !!! c
         ∧ loops (zoomOut s) !!! 0 = internalWeights s !!! c
         ∧ totalWeights (zoomOut s) !!! 0 = totalWeights s !!! c.
Proof.
  cbn zeta.
  set (s := expensiveMove 1 0
              (UndirectedLouvainIndex pair_graph Options.DEFAULTS)).
  assert (Hs : shape s) by (unfold shape; vm_compute; lia).
  assert (Hiw : C s ≤ length (internalWeights s)) by (vm_compute; lia).
  assert (Hlp : C s ≤ length (loops s)) by (vm_compute; lia).
  assert (Hci : 0 < C (zoomOut s)) by (vm_compute; lia).
  repeat (split; [assumption|]).
  exact (zoomOut_leaves_singletons s 0 Hs Hiw Hlp Hci).
Defined.

Lemma community_term_0 (M2 : Qc) :
  community_term M2 (Q2Qc 0) (Q2Qc 0) = Q2Qc 0.
Proof. unfold community_term, Qcdiv. cbn [Qcpower]. ring. Qed.

Lemma zoomOut_modularity (s : Index) :
  shape s →
  C s ≤ length (internalWeights s) → C s ≤ length (loops s) →
  (∀ i, i < C s → belongings s !!! i < C s) →
  (∀ c, c < C s → memberless s c →
        totalWeights s !!! c = Q2Qc 0 ∧ internalWeights s !!! c = Q2Qc 0) →
  modularity (zoomOut s) = modularity s.
Proof.
  intros Hs Hiw Hlp Hrange Hempty. pose proof Hs as (Hst & Htw & Hbel).
  destruct (zoomOut_communities s Hs Hiw Hlp) as (HC & _ & _ & Hat).
  rewrite !modularity_sum.
  replace (M (zoomOut s)) with (M s)
    by (symmetry; apply (zoomOut_fields s)).
  set (term := λ c, community_term (M s * 2) (internalWeights s !!! c)
                                   (totalWeights s !!! c)).
  assert (Hnew :
    (λ i, community_term (M s * 2) (internalWeights (zoomOut s) !!! i)
                         (totalWeights (zoomOut s) !!! i))
      <$> seq 0 (C (zoomOut s))
    = term <$> occupied s).
  { rewrite HC. apply list_eq. intros k.
    rewrite !list_lookup_fmap.
    destruct (occupied s !! k) as [c|] eqn:Hk.
    - rewrite lookup_seq_lt by (by apply lookup_lt_Some in Hk). cbn.
      destruct (Hat k c Hk) as (_ & -> & _ & ->). done.
    - rewrite lookup_seq_ge by (by apply lookup_ge_None in Hk). done. }
  rewrite Hnew.
  assert (Hperm : seq 0 (C s)
                  ≡ₚ occupied s ++ filter (λ x, x ∉ occupied s) (seq 0 (C s))).
  { apply seq_split_first_seen; [apply NoDup_first_seen|].
    intros x (i & Hi & <-)%occupied_members; [|done]. by apply Hrange. }
  change ((λ i, community_term (M s * 2) (internalWeights s !!! i)
                               (totalWeights s !!! i)) <$> seq 0 (C s))
    with (term <$> seq 0 (C s)).
  rewrite (sumQc_perm _ _ (fmap_Permutation term _ _ Hperm)).
  rewrite fmap_app, sumQc_app.
  rewrite (sumQc_fmap_ext term (λ _, Q2Qc 0) (filter _ _)).
  - rewrite sumQc_fmap_0. ring.
  - intros c [Hc Hseq]%list_elem_of_filter. apply elem_of_seq in Hseq.
    destruct (Hempty c) as [HT HI]; [lia| |].
    + intros i Hi Heq. apply Hc. apply occupied_members; [done|].
      by exists i.
    + unfold term. rewrite HT, HI. apply community_term_0.
Qed.

(** X10. [zoomOut] leaves [modularity()] and [M] as they are, provided
    every community it drops, one left without a member, has total and
    internal weight 0. *)
Theorem zoomOut_keeps_the_modularity (s : Index) :
  shape s →
  C s ≤ length (internalWeights s) → C s ≤ length (loops s) →
  (∀ i, i < C s → belongings s !!! i < C s) →
  (∀ c, c < C s → memberless s c →
        totalWeights s !!! c = Q2Qc 0 ∧ internalWeights s !!! c = Q2Qc 0) →
  modularity (zoomOut s) = modularity s ∧ M (zoomOut s) = M s.
Proof.
  intros Hs Hiw Hlp Hrange Hempty.
  split; [by apply zoomOut_modularity|apply (zoomOut_fields s)].
Qed.

Lemma zoomOut_keeps_the_modularity_witness :
  let s := expensiveMove 1 0
             (UndirectedLouvainIndex pair_graph Options.DEFAULTS) in
  shape s ∧ C s ≤ length (internalWeights s) ∧ C s ≤ length (loops s)
  ∧ (∀ i, i < C s → belongings s !!! i < C s)
  ∧ (∀ c, c < C s → memberless s c →
          totalWeights s !!! c = Q2Qc 0 ∧ internalWeights s !!! c = Q2Qc 0)
  ∧ modularity (zoomOut s) = modularity s.
Proof.
  cbn zeta.
  set (s := expensiveMove 1 0
              (UndirectedLouvainIndex pair_graph Options.DEFAULTS)).
  assert (Hs : shape s) by (unfold shape; vm_compute; lia).
  assert (Hiw : C s ≤ length (internalWeights s)) by (vm_compute; lia).
  assert (Hlp : C s ≤ length (loops s)) by (vm_compute; lia).
  assert (Hrange : ∀ i, i < C s → belongings s !!! i < C s).
  { intros [|[|i]] Hi; vm_compute; vm_compute in Hi; lia. }
  assert (Hempty : ∀ c, c < C s → memberless s c →
            totalWeights s !!! c = Q2Qc 0 ∧ internalWeights s !!! c = Q2Qc 0).
  { intros [|[|c]] Hc Hm.
    - exfalso. apply (Hm 0); vm_compute; [lia|reflexivity].
    - split; vm_compute; reflexivity.
    - vm_compute in Hc. lia. }
  repeat (split; [assumption|]).
  exact (proj1 (zoomOut_keeps_the_modularity s Hs Hiw Hlp Hrange Hempty)).
Defined.

Lemma first_seen_NoDup (l : list nat) : NoDup l → first_seen l = l.
Proof.
  induction l as [|x l IH] using rev_ind; [done|].
  intros [Hl [Hx _]]%NoDup_app. rewrite first_seen_snoc, IH by done.
  destruct (decide (x ∈ l)) as [Hin|Hin]; [|done].
  exfalso. apply (Hx x Hin). apply list_elem_of_singleton. done.
Qed.

(** X11. A second [zoomOut] right after a first one merges nothing: it
    leaves [C], the belongings of the communities, their weights and the
    modularity as the first one left them. *)
Theorem zoomOut_twice (s : Index) :
  shape s →
  C s ≤ length (internalWeights s) → C s ≤ length (loops s) →
  let s1 := zoomOut s in
  let s2 := zoomOut s1 in
  C s2 = C s1
  ∧ (∀ ci, ci < C s1 →
       belongings s2 !!! ci = belongings s1 !!! ci
       ∧ internalWeights s2 !!! ci = internalWeights s1 !!! ci
       ∧ totalWeights s2 !!! ci = totalWeights s1 !!! ci)
  ∧ modularity s2 = modularity s1.
Proof.
  intros Hs Hiw Hlp. cbn zeta.
  pose proof (zoomOut_shape s Hs) as Hs1.
  destruct (zoomOut_communities s Hs Hiw Hlp) as (HC & Hliw & Hllp & Hat).
  assert (HCle : C (zoomOut s) ≤ C s).
  { destruct (zoomOut_rewritten s Hs)
      as (ig & E' & w & _ & Hfrom & _ & _ & HCig & _).
    destruct Hfrom as (_ & Hlig & _). cbn [fst] in Hlig.
    destruct (renumber_lengths s) as (Hlen & _). lia. }
  assert (Hiw1 : C (zoomOut s) ≤ length (internalWeights (zoomOut s))) by lia.
  assert (Hlp1 : C (zoomOut s) ≤ length (loops (zoomOut s))) by lia.
  assert (Hbel1 : take (C (zoomOut s)) (belongings (zoomOut s))
                  = seq 0 (C (zoomOut s))).
  { destruct Hs1 as (_ & _ & Hb1).
    apply list_eq. intros k.
    destruct (decide (k < C (zoomOut s))) as [Hk|Hk].
    - rewrite lookup_take_lt, lookup_seq_lt by done. cbn.
      destruct (lookup_lt_is_Some_2 (occupied s) k) as [c Hc]; [lia|].
      destruct (Hat k c Hc) as (Hb & _).
      rewrite <- Hb at 2. apply list_lookup_lookup_total_lt. lia.
    - rewrite lookup_take_ge, lookup_seq_ge by lia. done. }
  assert (Hocc : occupied (zoomOut s) = seq 0 (C (zoomOut s))).
  { unfold occupied. rewrite Hbel1. apply first_seen_NoDup, NoDup_seq. }
  destruct (zoomOut_communities (zoomOut s) Hs1 Hiw1 Hlp1)
    as (HC2 & _ & _ & Hat2).
  rewrite Hocc, length_seq in HC2.
  assert (Hfields : ∀ ci, ci < C (zoomOut s) →
            belongings (zoomOut (zoomOut s)) !!! ci
            = belongings (zoomOut s) !!! ci
            ∧ internalWeights (zoomOut (zoomOut s)) !!! ci
              = internalWeights (zoomOut s) !!! ci
            ∧ totalWeights (zoomOut (zoomOut s)) !!! ci
              = totalWeights (zoomOut s) !!! ci).
  { intros ci Hci.
    destruct (Hat2 ci ci) as (Hb & Hi & _ & Ht).
    { rewrite Hocc. by apply lookup_seq_lt. }
    destruct (lookup_lt_is_Some_2 (occupied s) ci) as [c Hc]; [lia|].
    destruct (Hat ci c Hc) as (Hb1 & _).
    by rewrite Hb, Hb1, Hi, Ht. }
  split; [done|]. split; [done|].
  rewrite !modularity_sum, HC2.
  replace (M (zoomOut (zoomOut s))) with (M (zoomOut s))
    by (symmetry; apply (zoomOut_fields (zoomOut s))).
  f_equal. apply list_fmap_ext. intros k ci Hk.
  apply lookup_seq in Hk as [Heq Hk]. cbn in Heq. subst ci.
  destruct (Hfields k Hk) as (_ & -> & ->). done.
Qed.

Lemma zoomOut_twice_witness :
  let s := expensiveMove 1 0
             (UndirectedLouvainIndex triangle_graph Options.DEFAULTS) in
  shape s ∧ C s ≤ length (internalWeights s) ∧ C s ≤ length (loops s)
  ∧ C (zoomOut (zoomOut s)) = C (zoomOut s)
  ∧ modularity (zoomOut (zoomOut s)) = modularity (zoomOut s).
Proof.
  cbn zeta.
  set (s := expensiveMove 1 0
              (UndirectedLouvainIndex triangle_graph Options.DEFAULTS)).
  assert (Hs : shape s) by (unfold shape; vm_compute; lia).
  assert (Hiw : C s ≤ length (internalWeights s)) by (vm_compute; lia).
  assert (Hlp : C s ≤ length (loops s)) by (vm_compute; lia).
  repeat (split; [assumption|]).
  destruct (zoomOut_twice s Hs Hiw Hlp) as (HC & _ & HQ).
  split; [exact HC|exact HQ].
Defined.

(** ** Projections *)

Lemma make_ids_prefix (nodes : list string) (k i : nat) (node : string) :
  NoDup nodes → k ≤ length nodes → nodes !! i = Some node →
  foldl (λ ids i, <[nodes !!! i := i]> ids) (∅ : gmap string nat) (seq 0 k)
    !! node
  = if decide (i < k) then Some i else None.
Proof.
  intros Hnd Hk Hi. induction k as [|k IH].
  - cbn. by rewrite lookup_empty.
  - rewrite seq_S, foldl_snoc. cbn [Nat.add].
    destruct (decide (i = k)) as [->|Hne].
    + rewrite (list_lookup_total_correct _ _ _ Hi), lookup_insert_eq.
      by rewrite decide_True by lia.
    + rewrite lookup_insert_ne.
      * rewrite IH by lia.
        destruct (decide (i < k)), (decide (i < S k)); try done; lia.
      * intros Heq.
        assert (Hk' : nodes !! k = Some node).
        { rewrite <- Heq. apply list_lookup_lookup_total_lt. lia. }
        apply Hne. by apply (NoDup_lookup nodes i k node).
Qed.

(** [ids] gives back the index of each node. *)
Lemma ids_get_make_ids (nodes : list string) (i : nat) (node : string) :
  NoDup nodes → nodes !! i = Some node →
  ids_get (make_ids nodes) node = i.
Proof.
  intros Hnd Hi. unfold ids_get, make_ids.
  rewrite (make_ids_prefix nodes (length nodes) i node) by done.
  rewrite decide_True by (by apply lookup_lt_Some in Hi). done.
Qed.

Lemma project_fold {B} (f : nat → B) (l : list string) :
  NoDup l →
  (∀ i node, l !! i = Some node →
     foldl (λ (p : gmap string B) entry, <[entry.2 := f entry.1]> p)
           ∅ (imap pair l) !! node = Some (f i))
  ∧ (∀ key, key ∉ l →
       foldl (λ (p : gmap string B) entry, <[entry.2 := f entry.1]> p)
             ∅ (imap pair l) !! key = None).
Proof.
  induction l as [|x l IH] using rev_ind; intros Hnd.
  - split; [done|]. intros key _. cbn. by rewrite lookup_empty.
  - apply NoDup_app in Hnd as (Hnd & Hx & _).
    destruct (IH Hnd) as [IH1 IH2].
    rewrite imap_app, foldl_app. cbn [imap foldl snd fst].
    rewrite Nat.add_0_r. split.
    + intros i node Hi.
      destruct (decide (i = length l)) as [->|Hne].
      * rewrite lookup_app_r, Nat.sub_diag in Hi by lia.
        injection Hi as <-. by rewrite lookup_insert_eq.
      * assert (Hlt : i < length l).
        { apply lookup_lt_Some in Hi. rewrite length_app in Hi.
          cbn in Hi. lia. }
        rewrite lookup_app_l in Hi by done.
        rewrite lookup_insert_ne; [by apply IH1|].
        intros <-. apply (Hx x); [|apply list_elem_of_singleton; done].
        by apply list_elem_of_lookup_2 in Hi.
    + intros key Hkey. rewrite not_elem_of_app in Hkey.
      destruct Hkey as [Hkl Hkx].
      rewrite lookup_insert_ne; [by apply IH2|].
      intros <-. apply Hkx. by apply list_elem_of_singleton.
Qed.

(** The block of each node in a fresh index of a graph without self-loop,
    when [starts] holds [upperBound]. *)
Lemma new_block_bounds g o i node :
  Graph.wf g → Graph.loop_free g → fits g →
  Graph.nodes g !! i = Some node →
  let s := UndirectedLouvainIndex g o in
  starts s !!! (i + 1) = starts s !!! i + length (Graph.edges g node).
Proof.
  intros Hwf Hlf Hfits Hi. cbn zeta. pose proof Hwf as [Hnd _].
  assert (Hlt : i < Graph.order g) by (by apply lookup_lt_Some in Hi).
  rewrite (new_starts_lookup g o i) by done.
  assert (Hnext : starts (UndirectedLouvainIndex g o) !!! (i + 1)
                  = entries_before g (i + 1)).
  { destruct (decide (i + 1 = Graph.order g)) as [Heq|Hne].
    - rewrite Heq, new_starts_last by done. symmetry.
      by apply entries_total_eq.
    - apply new_starts_lookup; [done|done|lia]. }
  rewrite Hnext. replace (i + 1) with (S i) by lia.
  rewrite entries_before_S by done.
  by rewrite (list_lookup_total_correct _ _ _ Hi).
Qed.

Lemma run_moves_keep_the_blocks (s : Index) (ops : list Op) :
  Forall is_move ops →
  nodes (run s ops) = nodes s
  ∧ starts (run s ops) = starts s
  ∧ neighborhood (run s ops) = neighborhood s.
Proof.
  induction ops as [|op ops IH] using rev_ind; intros Hops; [done|].
  apply Forall_app in Hops as [Hops Hop].
  rewrite Forall_singleton in Hop.
  unfold run. rewrite foldl_snoc. fold (run s ops).
  destruct (IH Hops) as (Hn & Hst & Hnb).
  destruct op; cbn in Hop; [| |done]; cbn; done.
Qed.

(** X12. On a fresh index of a graph without self-loop whose array
    [starts] holds [upperBound] ([2 * size] is none of 2^8, 2^16 and 2^32),
    [project()] maps each node to the keys of its neighbors, one for each
    incident edge in the order [graph.edges(node)] lists them, and holds no
    other key; moves do not change it. *)
Theorem project_lists_the_neighbors (g : Graph.t) (o : Options.t)
    (ops : list Op) :
  Graph.wf g → Graph.loop_free g → fits g → Forall is_move ops →
  let p := project (run (UndirectedLouvainIndex g o) ops) in
  (∀ node, node ∈ Graph.nodes g →
     p !! node
     = Some ((λ e, Some (Graph.opposite node e)) <$> Graph.edges g node))
  ∧ (∀ key, key ∉ Graph.nodes g → p !! key = None).
Proof.
  intros Hwf Hlf Hfits Hops. cbn zeta. pose proof Hwf as [Hnd Hedges].
  unfold project.
  destruct (run_moves_keep_the_blocks (UndirectedLouvainIndex g o) ops Hops)
    as (-> & -> & ->).
  set (s := UndirectedLouvainIndex g o).
  unfold project_with.
  destruct (project_fold
              (λ i, (λ j, nodes s !! j)
                      <$> slice_to (starts s !!! i) (starts s !! (i + 1))
                                   (neighborhood s))
              (nodes s) Hnd) as [Hin Hout].
  split; [|exact Hout].
  intros node [i Hi]%list_elem_of_lookup.
  cbn [fst snd]. rewrite (Hin i node Hi). f_equal.
  assert (Hnext : starts s !! (i + 1) = Some (starts s !!! (i + 1))).
  { apply list_lookup_lookup_total_lt. unfold s. rewrite new_starts.
    rewrite length_app, length_fmap, length_seq. cbn.
    apply lookup_lt_Some in Hi. unfold Graph.order. lia. }
  rewrite Hnext. unfold slice_to.
  unfold slice, s. rewrite (new_block_bounds g o i node) by done.
  replace (starts (UndirectedLouvainIndex g o) !!! i
           + length (Graph.edges g node)
           - starts (UndirectedLouvainIndex g o) !!! i)
    with (length (Graph.edges g node)) by lia.
  rewrite new_block_ids by done.
  unfold block_ids. rewrite <- list_fmap_compose.
  apply list_fmap_ext. intros k e He. cbn.
  apply list_elem_of_lookup_2 in He.
  apply list_elem_of_filter in He as [Hinc He].
  rewrite Forall_forall in Hedges. destruct (Hedges e He) as [Hsrc Htgt].
  assert (Hopp : Graph.opposite node e ∈ Graph.nodes g).
  { unfold Graph.opposite. by destruct (decide _). }
  apply list_elem_of_lookup in Hopp as [j Hj].
  by rewrite (ids_get_make_ids _ j _ Hnd Hj).
Qed.

Lemma project_lists_the_neighbors_witness :
  Graph.wf pair_graph ∧ Graph.loop_free pair_graph ∧ fits pair_graph
  ∧ Forall is_move [OpExpensiveMove 1 0]
  ∧ project (run (UndirectedLouvainIndex pair_graph Options.DEFAULTS)
                 [OpExpensiveMove 1 0]) !! "a"%string
    = Some ((λ e, Some (Graph.opposite "a" e))
              <$> Graph.edges pair_graph "a").
Proof.
  assert (Hops : Forall is_move [OpExpensiveMove 1 0])
    by (repeat constructor).
  split; [exact pair_graph_wf|]. split; [exact pair_graph_loop_free|].
  split; [exact pair_graph_fits|]. split; [exact Hops|].
  refine (proj1 (project_lists_the_neighbors pair_graph Options.DEFAULTS
                   [OpExpensiveMove 1 0] pair_graph_wf pair_graph_loop_free
                   pair_graph_fits Hops) "a"%string _).
  vm_compute. apply list_elem_of_here.
Defined.

(** X13. [assign] and [collect] agree: whenever the mapping read has one
    entry for each node, [assign(prop, level)] calls
    [graph.setNodeAttribute] once for each node, in the order of the nodes,
    with the community [collect(level)] maps that node to. *)
Theorem assign_sets_what_collect_returns (s : Index) (prop : string)
    (arg : option nat) (m : list nat) :
  (if keepDendrogram s then dendrogram s !! default (level s) arg
   else mapping s) = Some m →
  NoDup (nodes s) → length m = length (nodes s) →
  ∃ out, collect s arg = Some out
         ∧ assign s prop arg
           = Some ((λ node, (Some node, prop, default 0 (out !! node)))
                     <$> nodes s).
Proof.
  intros Hm Hnd Hlen.
  pose proof (collect_fold (nodes s) m Hnd Hlen) as [Hin _].
  set (out := foldl (λ (o : gmap string nat) i,
                       <[default "undefined"%string (nodes s !! i)
                         := m !!! i]> o)
                    ∅ (seq 0 (length m))) in *.
  exists out.
  unfold collect, assign. cbn zeta. rewrite Hm. cbn [mbind option_bind].
  split; [done|]. f_equal.
  rewrite Hlen. apply list_eq. intros k. rewrite !list_lookup_fmap.
  destruct (nodes s !! k) as [node|] eqn:Hk.
  - rewrite lookup_seq_lt by (by apply lookup_lt_Some in Hk). cbn.
    by rewrite Hk, (Hin k node Hk).
  - rewrite lookup_seq_ge by (by apply lookup_ge_None in Hk). done.
Qed.

Lemma assign_sets_what_collect_returns_witness :
  let s := zoomOut (expensiveMove 1 0
             (UndirectedLouvainIndex pair_graph Options.DEFAULTS)) in
  (if keepDendrogram s then dendrogram s !! default (level s) None
   else mapping s) = Some [0; 0]
  ∧ NoDup (nodes s) ∧ length [0; 0] = length (nodes s)
  ∧ ∃ out, collect s None = Some out
           ∧ assign s "community" None
             = Some ((λ node, (Some node, "community"%string,
                               default 0 (out !! node))) <$> nodes s).
Proof.
  cbn zeta.
  set (s := zoomOut (expensiveMove 1 0
              (UndirectedLouvainIndex pair_graph Options.DEFAULTS))).
  assert (Hm : (if keepDendrogram s then dendrogram s !! default (level s) None
                else mapping s) = Some [0; 0]) by (vm_compute; reflexivity).
  assert (Hnd : NoDup (nodes s)) by exact (proj1 pair_graph_wf).
  assert (Hlen : length [0; 0] = length (nodes s)) by reflexivity.
  repeat (split; [assumption|]).
  exact (assign_sets_what_collect_returns s "community" None [0; 0]
           Hm Hnd Hlen).
Defined.

(** ** The weights inside the communities *)

Lemma sumQc_swap {A B} (f : A → B → Qc) (la : list A) (lb : list B) :
  sumQc ((λ a, sumQc (f a <$> lb)) <$> la)
  = sumQc ((λ b, sumQc ((λ a, f a b) <$> la)) <$> lb).
Proof.
  induction la as [|a la IH].
  - cbn. symmetry. apply sumQc_fmap_0.
  - rewrite fmap_cons, sumQc_cons, IH.
    rewrite <- sumQc_fmap_plus. apply sumQc_fmap_ext.
    intros b _. by rewrite fmap_cons, sumQc_cons.
Qed.

Lemma sumQc_fmap_scale {A} (k : Qc) (f : A → Qc) (l : list A) :
  sumQc ((λ x, k * f x)%Qc <$> l) = (k * sumQc (f <$> l))%Qc.
Proof.
  induction l as [|x l IH].
  - cbn. ring.
  - rewrite !fmap_cons, !sumQc_cons, IH. ring.
Qed.

Lemma sumQc_fmap_if {A} (P : Prop) `{!Decision P} (f : A → Qc) (l : list A) :
  (if decide P then sumQc (f <$> l) else Q2Qc 0)
  = sumQc ((λ x, if decide P then f x else Q2Qc 0) <$> l).
Proof. destruct (decide P); [done|]. symmetry. apply sumQc_fmap_0. Qed.

(** The weight towards a community is the weight towards its nodes. *)
Lemma weight_towards_split (s : Index) (x c : nat) :
  (∀ p, p ∈ range (starts s !!! x) (starts s !!! (x + 1)) →
        neighborhood s !!! p < C s) →
  weight_towards s x c
  = sumQc ((λ y, if decide (belongings s !!! y = c)
                 then weight_between s x y else Q2Qc 0) <$> seq 0 (C s)).
Proof.
  intros Hrange. unfold weight_towards, weight_between.
  set (l := range (starts s !!! x) (starts s !!! (x + 1))) in *.
  rewrite (sumQc_fmap_ext
             (λ y, if decide (belongings s !!! y = c)
                   then sumQc ((λ p, if decide (neighborhood s !!! p = y)
                                     then weights s !!! p else Q2Qc 0) <$> l)
                   else Q2Qc 0)
             (λ y, sumQc ((λ p, if decide (belongings s !!! y = c)
                                then (if decide (neighborhood s !!! p = y)
                                      then weights s !!! p else Q2Qc 0)
                                else Q2Qc 0) <$> l)))
    by (intros y _; apply sumQc_fmap_if).
  rewrite (sumQc_swap
             (λ y p, if decide (belongings s !!! y = c)
                     then (if decide (neighborhood s !!! p = y)
                           then weights s !!! p else Q2Qc 0)
                     else Q2Qc 0)).
  apply sumQc_fmap_ext. intros p Hp.
  rewrite (sumQc_fmap_ext _
             (λ y, if decide (y = neighborhood s !!! p)
                   then (if decide (belongings s !!! y = c)
                         then weights s !!! p else Q2Qc 0)
                   else Q2Qc 0)).
  - by rewrite sumQc_indicator by (by apply Hrange).
  - intros y _. repeat case_decide; congruence.
Qed.

(** What a move changes in the weight of a block towards a community. *)
Lemma weight_towards_move (s : Index) (i : nat) (d dc dt : Qc) (t x c : nat) :
  i < length (belongings s) → t < length (belongings s) →
  weight_towards (move i d dc dt t s) x c
  = (weight_towards s x c
     + shift (belongings s !!! i) t c * weight_between s x i)%Qc.
Proof.
  intros Hi Ht. unfold weight_towards, weight_between.
  rewrite move_belongings by done.
  cbn [starts neighborhood weights move].
  rewrite <- sumQc_fmap_scale, <- sumQc_fmap_plus.
  apply sumQc_fmap_ext. intros p _. unfold shift.
  destruct (decide (neighborhood s !!! p = i)) as [->|Hne].
  - rewrite list_lookup_total_insert_eq by done.
    repeat case_decide; try congruence; ring.
  - rewrite list_lookup_total_insert_ne by done.
    repeat case_decide; try congruence; ring.
Qed.

(** What a move changes in the weight inside a community. *)
Lemma inner_weight_move (s : Index) (i : nat) (d dc dt : Qc) (t c : nat) :
  symmetric_blocks s →
  i < C s → t < C s → C s ≤ length (belongings s) →
  inner_weight (move i d dc dt t s) c
  = (inner_weight s c
     + 2 * shift (belongings s !!! i) t c * weight_towards s i c)%Qc.
Proof.
  intros (Hrange & Hsym & Hloop) Hi Ht Hbel.
  set (k := shift (belongings s !!! i) t c).
  unfold inner_weight. cbn [C move].
  rewrite (sumQc_fmap_ext _
             (λ x, (if decide (belongings s !!! x = c)
                    then weight_towards s x c else Q2Qc 0)
                   + ((if decide (x = i) then k * weight_towards s i c
                       else Q2Qc 0)
                      + k * (if decide (belongings s !!! x = c)
                             then weight_between s i x else Q2Qc 0)))%Qc).
  - rewrite sumQc_fmap_plus, sumQc_fmap_plus, sumQc_fmap_scale.
    rewrite (sumQc_indicator (λ _, (k * weight_towards s i c)%Qc)) by done.
    rewrite <- weight_towards_split by (intros p Hp; by apply (Hrange i)).
    ring.
  - intros x Hx%elem_of_seq.
    rewrite weight_towards_move by lia. fold k.
    rewrite move_belongings by lia.
    destruct (decide (x = i)) as [->|Hne].
    + rewrite list_lookup_total_insert_eq by lia.
      rewrite (Hloop i Hi). unfold k, shift.
      repeat case_decide; try congruence; ring.
    + rewrite list_lookup_total_insert_ne by done.
      rewrite (Hsym x i) by lia.
      repeat case_decide; try congruence; ring.
Qed.

(** The two degrees [expensiveMove] accumulates for the communities. *)
Lemma scan_community_degrees (s : Index) (i ci : nat) :
  currentCommunityDegree (scan s i ci)
  = weight_towards s i (belongings s !!! i)
  ∧ targetCommunityDegree (scan s i ci) = weight_towards s i ci.
Proof.
  unfold scan, weight_towards.
  set (c := belongings s !!! i).
  assert (H : ∀ l d,
    currentCommunityDegree (foldl (scan_edge s c ci) d l)
    = (currentCommunityDegree d
       + sumQc ((λ p, if decide (belongings s !!! (neighborhood s !!! p) = c)
                      then weights s !!! p else Q2Qc 0) <$> l))%Qc
    ∧ targetCommunityDegree (foldl (scan_edge s c ci) d l)
      = (targetCommunityDegree d
         + sumQc ((λ p,
                     if decide (belongings s !!! (neighborhood s !!! p) = ci)
                     then weights s !!! p else Q2Qc 0) <$> l))%Qc).
  { induction l as [|p l IH]; intros d.
    - cbn. split; ring.
    - cbn [foldl]. destruct (IH (scan_edge s c ci d p)) as [-> ->].
      rewrite !fmap_cons, !sumQc_cons.
      cbn [currentCommunityDegree targetCommunityDegree scan_edge].
      split; repeat case_decide; try congruence; ring. }
  destruct (H (range (starts s !!! i) (starts s !!! (i + 1)))
              (mkDegrees (Q2Qc 0) (Q2Qc 0) (Q2Qc 0))) as [-> ->].
  cbn [currentCommunityDegree targetCommunityDegree]. split; ring.
Qed.

Lemma lookup_add_sub_two (tw : list Qc) (c t k : nat) (a b : Qc) :
  c < length tw → t < length tw →
  arr_add t a (arr_sub c b tw) !!! k
  = (tw !!! k - (if decide (k = c) then b else Q2Qc 0)
     + (if decide (k = t) then a else Q2Qc 0))%Qc.
Proof.
  intros Hc Ht. unfold arr_add, arr_sub.
  destruct (decide (k = t)) as [->|Hkt].
  - rewrite (list_lookup_total_insert_eq (<[c:=_]> tw))
      by (by rewrite length_insert).
    destruct (decide (t = c)) as [->|Htc].
    + rewrite list_lookup_total_insert_eq by done. ring.
    + rewrite list_lookup_total_insert_ne by done. ring.
  - rewrite (list_lookup_total_insert_ne (<[c:=_]> tw)) by done.
    destruct (decide (k = c)) as [->|Hkc].
    + rewrite list_lookup_total_insert_eq by done. ring.
    + rewrite list_lookup_total_insert_ne by done. ring.
Qed.

(** What [expensiveMove] changes in [internalWeights]. *)
Lemma internalWeights_expensiveMove (s : Index) (i t c : nat) :
  belongings s !!! i < length (internalWeights s) →
  t < length (internalWeights s) →
  loops s !!! i = Q2Qc 0 →
  internalWeights (expensiveMove i t s) !!! c
  = (internalWeights s !!! c
     + 2 * shift (belongings s !!! i) t c * weight_towards s i c)%Qc.
Proof.
  intros Hc Ht Hl. unfold expensiveMove. cbn zeta.
  destruct (scan_community_degrees s i t) as [-> ->].
  cbn [internalWeights move]. rewrite Hl.
  rewrite lookup_add_sub_two by done. unfold shift.
  repeat case_decide; subst; try congruence; ring.
Qed.

(** [expensiveMove] keeps [internalWeights] equal to the weight inside the
    communities. *)
Lemma expensiveMove_inner_weight (s : Index) (i t : nat) :
  symmetric_blocks s →
  i < C s → t < C s → belongings s !!! i < C s →
  C s ≤ length (belongings s) → C s ≤ length (internalWeights s) →
  loops s !!! i = Q2Qc 0 →
  (∀ c, internalWeights s !!! c = inner_weight s c) →
  ∀ c, internalWeights (expensiveMove i t s) !!! c
       = inner_weight (expensiveMove i t s) c.
Proof.
  intros Hsym Hi Ht Hc Hbel Hiw Hl Hinv c.
  rewrite internalWeights_expensiveMove by (done || lia).
  unfold expensiveMove. cbn zeta.
  rewrite inner_weight_move by done. by rewrite Hinv.
Qed.

(** The entries of the block of a node in a fresh index. *)
Lemma new_block_entries g o x nx :
  Graph.wf g → Graph.loop_free g → fits g →
  Graph.nodes g !! x = Some nx →
  let s := UndirectedLouvainIndex g o in
  (λ p, (neighborhood s !!! p, weights s !!! p))
    <$> range (starts s !!! x) (starts s !!! (x + 1))
  = (λ e, (ids_get (make_ids (Graph.nodes g)) (Graph.opposite nx e),
           Options.getWeight o e)) <$> Graph.edges g nx.
Proof.
  intros Hwf Hlf Hfits Hx. cbn zeta. pose proof Hwf as [Hnd _].
  unfold range. rewrite (new_block_bounds g o x nx) by done.
  set (s := UndirectedLouvainIndex g o).
  replace (starts s !!! x + length (Graph.edges g nx) - starts s !!! x)
    with (length (Graph.edges g nx)) by lia.
  pose proof (new_block_ids g o x nx Hnd Hx) as Hids.
  pose proof (new_block_weights g o x nx Hnd Hx) as Hws.
  fold s in Hids, Hws.
  apply list_eq. intros k. rewrite !list_lookup_fmap.
  destruct (Graph.edges g nx !! k) as [e|] eqn:He.
  - pose proof (lookup_lt_Some _ _ _ He) as Hk.
    rewrite lookup_seq_lt by done. cbn. f_equal. f_equal.
    + apply list_lookup_total_correct.
      assert (H : take (length (Graph.edges g nx))
                       (drop (starts s !!! x) (neighborhood s)) !! k
                  = block_ids g nx !! k) by (by rewrite Hids).
      rewrite lookup_take_lt, lookup_drop in H by done.
      etrans; [exact H|]. unfold block_ids. by rewrite list_lookup_fmap, He.
    + apply list_lookup_total_correct.
      assert (H : take (length (Graph.edges g nx))
                       (drop (starts s !!! x) (weights s)) !! k
                  = block_weights g o nx !! k) by (by rewrite Hws).
      rewrite lookup_take_lt, lookup_drop in H by done.
      etrans; [exact H|].
      unfold block_weights. by rewrite list_lookup_fmap, He.
  - rewrite lookup_seq_ge by (by apply lookup_ge_None in He). done.
Qed.

(** A sum over the block of a node, read off the graph. *)
Lemma new_block_view g o x nx (F : nat → Qc → Qc) :
  Graph.wf g → Graph.loop_free g → fits g →
  Graph.nodes g !! x = Some nx →
  let s := UndirectedLouvainIndex g o in
  sumQc ((λ p, F (neighborhood s !!! p) (weights s !!! p))
           <$> range (starts s !!! x) (starts s !!! (x + 1)))
  = sumQc ((λ e, F (ids_get (make_ids (Graph.nodes g)) (Graph.opposite nx e))
                   (Options.getWeight o e)) <$> Graph.edges g nx).
Proof.
  intros Hwf Hlf Hfits Hx. cbn zeta.
  change (λ p, F (neighborhood (UndirectedLouvainIndex g o) !!! p)
               (weights (UndirectedLouvainIndex g o) !!! p))
    with ((λ q : nat * Qc, F q.1 q.2)
          ∘ (λ p, (neighborhood (UndirectedLouvainIndex g o) !!! p,
                   weights (UndirectedLouvainIndex g o) !!! p))).
  rewrite list_fmap_compose, (new_block_entries g o x nx) by done.
  by rewrite <- list_fmap_compose.
Qed.

Lemma opposite_in_nodes g node e :
  Graph.wf g → e ∈ Graph.edge_list g → Graph.opposite node e ∈ Graph.nodes g.
Proof.
  intros [_ Hedges] He. rewrite Forall_forall in Hedges.
  destruct (Hedges e He). unfold Graph.opposite. by destruct (decide _).
Qed.

Lemma ids_get_lt g node :
  NoDup (Graph.nodes g) → node ∈ Graph.nodes g →
  ids_get (make_ids (Graph.nodes g)) node < Graph.order g.
Proof.
  intros Hnd [j Hj]%list_elem_of_lookup.
  rewrite (ids_get_make_ids _ j _ Hnd Hj). by apply lookup_lt_Some in Hj.
Qed.

Lemma ids_get_eq g node y ny :
  NoDup (Graph.nodes g) → node ∈ Graph.nodes g →
  Graph.nodes g !! y = Some ny →
  ids_get (make_ids (Graph.nodes g)) node = y ↔ node = ny.
Proof.
  intros Hnd [j Hj]%list_elem_of_lookup Hy.
  rewrite (ids_get_make_ids _ j _ Hnd Hj). split.
  - intros ->. congruence.
  - intros ->. by apply (NoDup_lookup (Graph.nodes g) j y ny).
Qed.

(** The weight between two nodes in a fresh index: that of the edges that
    join them. *)
Lemma new_weight_between g o x y nx ny :
  Graph.wf g → Graph.loop_free g → fits g →
  Graph.nodes g !! x = Some nx → Graph.nodes g !! y = Some ny →
  weight_between (UndirectedLouvainIndex g o) x y
  = sumQc ((λ e, if decide ((Graph.source e = nx ∧ Graph.target e = ny)
                            ∨ (Graph.source e = ny ∧ Graph.target e = nx))
                 then Options.getWeight o e else Q2Qc 0)
             <$> Graph.edge_list g).
Proof.
  intros Hwf Hlf Hfits Hx Hy. pose proof Hwf as [Hnd _].
  unfold weight_between.
  etrans;
    [exact (new_block_view g o x nx
              (λ n w, if decide (n = y) then w else Q2Qc 0) Hwf Hlf Hfits
              Hx)|].
  unfold Graph.edges.
  rewrite (sumQc_filter (λ e, Graph.source e = nx ∨ Graph.target e = nx)).
  apply sumQc_fmap_ext. intros e He.
  pose proof (opposite_in_nodes g nx e Hwf He) as Hopp.
  pose proof (ids_get_eq g _ y ny Hnd Hopp Hy) as Hiff.
  unfold Graph.loop_free in Hlf. rewrite Forall_forall in Hlf.
  pose proof (Hlf e He) as Hnl. unfold Graph.is_loop in Hnl.
  unfold Graph.opposite in *.
  repeat case_decide; try done; exfalso; naive_solver.
Qed.

Lemma new_symmetric_blocks g o :
  Graph.wf g → Graph.loop_free g → fits g →
  symmetric_blocks (UndirectedLouvainIndex g o).
Proof.
  intros Hwf Hlf Hfits. pose proof Hwf as [Hnd _].
  unfold symmetric_blocks.
  change (C (UndirectedLouvainIndex g o)) with (Graph.order g).
  split; [|split].
  - intros x p Hx Hp.
    destruct (lookup_lt_is_Some_2 (Graph.nodes g) x Hx) as [nx Hnx].
    pose proof (new_block_entries g o x nx Hwf Hlf Hfits Hnx) as Hent.
    cbn zeta in Hent.
    assert (Hin : (neighborhood (UndirectedLouvainIndex g o) !!! p,
                   weights (UndirectedLouvainIndex g o) !!! p)
                  ∈ (λ e, (ids_get (make_ids (Graph.nodes g))
                                   (Graph.opposite nx e),
                           Options.getWeight o e)) <$> Graph.edges g nx).
    { rewrite <- Hent. apply list_elem_of_fmap. by exists p. }
    apply list_elem_of_fmap in Hin as (e & Heq & He).
    assert (Hn : neighborhood (UndirectedLouvainIndex g o) !!! p
                 = ids_get (make_ids (Graph.nodes g)) (Graph.opposite nx e))
      by (by injection Heq).
    rewrite Hn. apply ids_get_lt; [done|].
    apply list_elem_of_filter in He as [_ He].
    by apply opposite_in_nodes.
  - intros x y Hx Hy.
    destruct (lookup_lt_is_Some_2 (Graph.nodes g) x Hx) as [nx Hnx].
    destruct (lookup_lt_is_Some_2 (Graph.nodes g) y Hy) as [ny Hny].
    rewrite (new_weight_between g o x y nx ny),
            (new_weight_between g o y x ny nx) by done.
    apply sumQc_fmap_ext. intros e _.
    repeat case_decide; try done; exfalso; naive_solver.
  - intros x Hx.
    destruct (lookup_lt_is_Some_2 (Graph.nodes g) x Hx) as [nx Hnx].
    rewrite (new_weight_between g o x x nx nx) by done.
    rewrite (sumQc_fmap_ext _ (λ _, Q2Qc 0)); [apply sumQc_fmap_0|].
    intros e He.
    unfold Graph.loop_free in Hlf. rewrite Forall_forall in Hlf.
    pose proof (Hlf e He) as Hnl. unfold Graph.is_loop in Hnl.
    case_decide; [|done]. exfalso. naive_solver.
Qed.

Lemma new_inner_weight g o c :
  Graph.wf g → Graph.loop_free g → fits g →
  inner_weight (UndirectedLouvainIndex g o) c = Q2Qc 0.
Proof.
  intros Hwf Hlf Hfits.
  destruct (new_symmetric_blocks g o Hwf Hlf Hfits) as (Hrange & _ & Hloop).
  unfold inner_weight.
  change (C (UndirectedLouvainIndex g o)) with (Graph.order g) in *.
  rewrite (sumQc_fmap_ext _ (λ _, Q2Qc 0)); [apply sumQc_fmap_0|].
  intros x Hx%elem_of_seq. case_decide as Hbx; [|done].
  rewrite new_belongings, lookup_total_seq_lt in Hbx by lia.
  cbn in Hbx. subst c.
  rewrite weight_towards_split by (intros p Hp; apply (Hrange x); [lia|done]).
  change (C (UndirectedLouvainIndex g o)) with (Graph.order g).
  rewrite (sumQc_fmap_ext _
             (λ y, if decide (y = x)
                   then weight_between (UndirectedLouvainIndex g o) x y
                   else Q2Qc 0)).
  - rewrite sumQc_indicator by lia. apply Hloop. lia.
  - intros y Hy%elem_of_seq.
    rewrite new_belongings, lookup_total_seq_lt by lia. done.
Qed.

Lemma moved_level0 g o s :
  NoDup (Graph.nodes g) → fits g → moved g o s → level0 g o s.
Proof.
  intros Hnd Hfits.
  induction 1 as [|s i ci Hs IH Hi Hci]; [apply level0_new|].
  by apply expensiveMove_level0.
Qed.

(** What the states reached by [expensiveMove] keep. *)
Lemma moved_invariant g o s :
  Graph.wf g → Graph.loop_free g → fits g → moved g o s →
  let s0 := UndirectedLouvainIndex g o in
  neighborhood s = neighborhood s0
  ∧ length (belongings s) = Graph.order g
  ∧ length (internalWeights s) = Graph.order g
  ∧ symmetric_blocks s
  ∧ ∀ c, internalWeights s !!! c = inner_weight s c.
Proof.
  intros Hwf Hlf Hfits Hs. cbn zeta. pose proof Hwf as [Hnd _].
  induction Hs as [|s i ci Hs IH Hi Hci].
  - split; [done|].
    split; [by rewrite new_belongings, length_seq|].
    split; [cbn; by rewrite length_replicate|].
    split; [by apply new_symmetric_blocks|].
    intros c. rewrite new_inner_weight by done. cbn.
    destruct (decide (c < Graph.order g)) as [Hc|Hc].
    + apply list_lookup_total_correct. by apply lookup_replicate_2.
    + rewrite list_lookup_total_alt, lookup_ge_None_2; [done|].
      rewrite length_replicate. lia.
  - destruct IH as (Hnb & Hlb & Hli & Hsym & Hinv).
    destruct (level0_invariant g o s Hnd (moved_level0 g o s Hnd Hfits Hs))
      as (HC & _ & _ & _ & Hlp & _ & _ & Hrange & _).
    rewrite HC in Hi, Hci.
    assert (Hloop : loops s !!! i = Q2Qc 0).
    { rewrite Hlp. cbn. apply list_lookup_total_correct.
      by apply lookup_replicate_2. }
    split; [done|].
    split; [cbn; by rewrite length_insert|].
    split; [cbn; unfold arr_add, arr_sub; by rewrite !length_insert|].
    split; [exact Hsym|].
    apply expensiveMove_inner_weight; rewrite ?HC; try done; try lia.
    by apply Hrange.
Qed.

(** The weight the blocks hold inside a community is twice that of the
    edges of the graph inside it. *)
Lemma inner_weight_edges_inside g o s c :
  Graph.wf g → Graph.loop_free g → fits g → moved g o s →
  inner_weight s c = (2 * edges_inside g o (belongings s) c)%Qc.
Proof.
  intros Hwf Hlf Hfits Hs. pose proof Hwf as [Hnd Hends].
  destruct (moved_invariant g o s Hwf Hlf Hfits Hs) as (Hnb & _).
  destruct (level0_invariant g o s Hnd (moved_level0 g o s Hnd Hfits Hs))
    as (HC & _ & Hst & Hws & _).
  set (ids := make_ids (Graph.nodes g)).
  set (B := λ n, belongings s !!! ids_get ids n).
  set (f := λ (node : string) (e : Graph.Edge),
              if decide (B node = c ∧ B (Graph.opposite node e) = c)
              then Options.getWeight o e else Q2Qc 0).
  transitivity (sumQc ((λ node, sumQc (f node <$> Graph.edges g node))
                         <$> Graph.nodes g)).
  - unfold inner_weight. rewrite HC. unfold Graph.order.
    rewrite <- (fmap_seq_lookup
                  (λ node, sumQc (f node <$> Graph.edges g node))).
    apply sumQc_fmap_ext. intros x Hx%elem_of_seq.
    assert (Hnx : Graph.nodes g !! x = Some (Graph.nodes g !!! x))
      by (apply list_lookup_lookup_total_lt; lia).
    set (nx := Graph.nodes g !!! x) in *.
    assert (Hwt : weight_towards s x c
                  = sumQc ((λ e, if decide (B (Graph.opposite nx e) = c)
                                 then Options.getWeight o e else Q2Qc 0)
                             <$> Graph.edges g nx)).
    { unfold weight_towards. rewrite Hnb, Hst, Hws.
      exact (new_block_view g o x nx
               (λ n w, if decide (belongings s !!! n = c) then w else Q2Qc 0)
               Hwf Hlf Hfits Hnx). }
    rewrite Hwt. unfold f, B, ids.
    rewrite (ids_get_make_ids _ x nx Hnd Hnx).
    destruct (decide (belongings s !!! x = c)) as [Hbx|Hbx].
    + apply sumQc_fmap_ext. intros e _.
      repeat case_decide; try done; exfalso; naive_solver.
    + rewrite (sumQc_fmap_ext _ (λ _, Q2Qc 0)); [by rewrite sumQc_fmap_0|].
      intros e _. case_decide; [|done]. exfalso. naive_solver.
  - unfold Graph.edges. rewrite (sumQc_exchange f).
    unfold edges_inside. cbn zeta. fold ids.
    rewrite <- sumQc_fmap_scale.
    rewrite Forall_forall in Hends. unfold Graph.loop_free in Hlf.
    rewrite Forall_forall in Hlf.
    apply sumQc_fmap_ext. intros e He. destruct (Hends e He) as [Hsrc Htgt].
    rewrite (sumQc_perm _ _
               (fmap_Permutation _ _ _
                  (incident_nodes_proper _ _ _ Hnd Hsrc Htgt (Hlf e He)))).
    rewrite !fmap_cons, fmap_nil, !sumQc_cons. cbn [sumQc foldr].
    unfold f. rewrite opposite_source, opposite_target by (by apply Hlf).
    unfold B.
    destruct (decide (belongings s !!! ids_get ids (Graph.source e) = c
                      ∧ belongings s !!! ids_get ids (Graph.target e) = c))
      as [[H1 H2]|Hn].
    + rewrite decide_True by done. ring.
    + rewrite decide_False by (intros [? ?]; by apply Hn). ring.
Qed.

(** X14. On a graph without self-loop whose array [starts] holds
    [upperBound] ([2 * size] is none of 2^8, 2^16 and 2^32), after any
    sequence of [expensiveMove]s on a fresh index, [internalWeights[c]] is
    twice the weight of the edges of the graph that have their two ends in
    community [c]. *)
Theorem internalWeights_count_the_edges_inside (g : Graph.t) (o : Options.t)
    (s : Index) (c : nat) :
  Graph.wf g → Graph.loop_free g → fits g → moved g o s →
  internalWeights s !!! c = (2 * edges_inside g o (belongings s) c)%Qc.
Proof.
  intros Hwf Hlf Hfits Hs.
  destruct (moved_invariant g o s Hwf Hlf Hfits Hs) as (_ & _ & _ & _ & Hinv).
  rewrite Hinv. by apply inner_weight_edges_inside.
Qed.

Lemma internalWeights_count_the_edges_inside_witness :
  let s := expensiveMove 1 0
             (UndirectedLouvainIndex pair_graph Options.DEFAULTS) in
  Graph.wf pair_graph ∧ Graph.loop_free pair_graph ∧ fits pair_graph
  ∧ moved pair_graph Options.DEFAULTS s
  ∧ internalWeights s !!! 0
    = (2 * edges_inside pair_graph Options.DEFAULTS (belongings s) 0)%Qc.
Proof.
  cbn zeta.
  assert (Hs : moved pair_graph Options.DEFAULTS
                 (expensiveMove 1 0
                    (UndirectedLouvainIndex pair_graph Options.DEFAULTS))).
  { apply moved_step; [apply moved_new|vm_compute; lia|vm_compute; lia]. }
  split; [exact pair_graph_wf|]. split; [exact pair_graph_loop_free|].
  split; [exact pair_graph_fits|]. split; [exact Hs|].
  exact (internalWeights_count_the_edges_inside pair_graph Options.DEFAULTS
           _ 0 pair_graph_wf pair_graph_loop_free pair_graph_fits Hs).
Defined.

Lemma moved_modularity (g : Graph.t) (o : Options.t) (s : Index) :
  Graph.wf g → Graph.loop_free g → fits g → moved g o s →
  modularity s = partition_modularity g o s.
Proof.
  intros Hwf Hlf Hfits Hs. pose proof Hwf as [Hnd _].
  destruct (moved_invariant g o s Hwf Hlf Hfits Hs) as (_ & _ & _ & _ & Hinv).
  destruct (level0_invariant g o s Hnd (moved_level0 g o s Hnd Hfits Hs))
    as (HC & HM & _ & _ & _ & _ & _ & _ & Htw & _).
  rewrite modularity_sum. unfold partition_modularity.
  rewrite HC, HM, new_M, counted_sum, proper_weight_loop_free by done.
  apply sumQc_fmap_ext. intros c Hc%elem_of_seq.
  rewrite Hinv, (inner_weight_edges_inside g o s c) by done.
  by rewrite Htw by lia.
Qed.

(** X15. On a graph without self-loop whose array [starts] holds
    [upperBound], after any sequence of [expensiveMove]s on a fresh index,
    [modularity()] is the modularity of the partition [belongings] holds, as
    computed from the graph: the sum over the communities of the weight
    inside over the total weight, minus the square of the degrees over twice
    the total weight.  The [zoomOut] that follows keeps that value. *)
Theorem modularity_is_that_of_the_partition (g : Graph.t) (o : Options.t)
    (s : Index) :
  Graph.wf g → Graph.loop_free g → fits g → moved g o s →
  modularity s = partition_modularity g o s
  ∧ modularity (zoomOut s) = partition_modularity g o s.
Proof.
  intros Hwf Hlf Hfits Hs. pose proof Hwf as [Hnd _].
  split; [by apply moved_modularity|].
  destruct (moved_invariant g o s Hwf Hlf Hfits Hs)
    as (_ & Hlb & Hli & _ & Hinv).
  pose proof (moved_level0 g o s Hnd Hfits Hs) as Hl0.
  destruct (level0_invariant g o s Hnd Hl0)
    as (HC & _ & _ & _ & Hlp & Hsh & _ & Hrange & _).
  rewrite <- (moved_modularity g o s) by done.
  apply zoomOut_modularity.
  - done.
  - lia.
  - rewrite Hlp. cbn. rewrite length_replicate. lia.
  - intros i Hi. rewrite HC in *. by apply Hrange.
  - intros c Hc Hempty. split; [by apply (level0_memberless g o)|].
    rewrite Hinv. unfold inner_weight.
    rewrite (sumQc_fmap_ext _ (λ _, Q2Qc 0)); [apply sumQc_fmap_0|].
    intros x Hx%elem_of_seq. rewrite decide_False; [done|].
    apply Hempty. lia.
Qed.

Lemma modularity_is_that_of_the_partition_witness :
  let s := expensiveMove 1 0
             (UndirectedLouvainIndex pair_graph Options.DEFAULTS) in
  Graph.wf pair_graph ∧ Graph.loop_free pair_graph ∧ fits pair_graph
  ∧ moved pair_graph Options.DEFAULTS s
  ∧ modularity s = partition_modularity pair_graph Options.DEFAULTS s
  ∧ modularity (zoomOut s)
    = partition_modularity pair_graph Options.DEFAULTS s.
Proof.
  cbn zeta.
  assert (Hs : moved pair_graph Options.DEFAULTS
                 (expensiveMove 1 0
                    (UndirectedLouvainIndex pair_graph Options.DEFAULTS))).
  { apply moved_step; [apply moved_new|vm_compute; lia|vm_compute; lia]. }
  split; [exact pair_graph_wf|]. split; [exact pair_graph_loop_free|].
  split; [exact pair_graph_fits|]. split; [exact Hs|].
  exact (modularity_is_that_of_the_partition pair_graph Options.DEFAULTS
           _ pair_graph_wf pair_graph_loop_free pair_graph_fits Hs).
Defined.

(** ** Moves of the directed index *)

Lemma directed_scan_own_community (s : Directed.Index) (i : nat) :
  let d := Directed.scan s i (Directed.belongings s !!! i) in
  Directed.currentCommunityInDegree d = Directed.targetCommunityInDegree d
  ∧ Directed.currentCommunityOutDegree d
    = Directed.targetCommunityOutDegree d.
Proof.
  cbn zeta. unfold Directed.scan.
  apply (foldl_invariant
           (λ d, Directed.currentCommunityInDegree d
                 = Directed.targetCommunityInDegree d
                 ∧ Directed.currentCommunityOutDegree d
                   = Directed.targetCommunityOutDegree d));
    [done|].
  intros d o [Hin Hout]. unfold Directed.scan_edge. cbn zeta.
  destruct (bool_decide _); cbn;
    destruct (decide (Directed.belongings s !!! i
                      = Directed.belongings s
                          !!! (Directed.neighborhood s !!! o))) as [He|He];
    destruct (decide (Directed.belongings s
                        !!! (Directed.neighborhood s !!! o)
                      = Directed.belongings s !!! i)) as [He'|He'];
    split; congruence.
Qed.

(** The same on doubles. *)
Lemma directed_binary64_scan_own_community (s : Binary64.Directed.Index)
    (i : nat) :
  let d := Binary64.Directed.scan s i (Binary64.Directed.belongings s !!! i) in
  Binary64.Directed.targetCommunityInDegree d
  = Binary64.Directed.currentCommunityInDegree d
  ∧ Binary64.Directed.targetCommunityOutDegree d
    = Binary64.Directed.currentCommunityOutDegree d.
Proof.
  cbn zeta. unfold Binary64.Directed.scan.
  apply (foldl_invariant
           (λ d, Binary64.Directed.targetCommunityInDegree d
                 = Binary64.Directed.currentCommunityInDegree d
                 ∧ Binary64.Directed.targetCommunityOutDegree d
                   = Binary64.Directed.currentCommunityOutDegree d));
    [done|].
  intros d o [Hin Hout]. unfold Binary64.Directed.scan_edge. cbn zeta.
  destruct (bool_decide _); cbn;
    destruct (decide (Binary64.Directed.belongings s !!! i
                      = Binary64.Directed.belongings s
                          !!! (Binary64.Directed.neighborhood s !!! o)))
      as [He|He];
    destruct (decide (Binary64.Directed.belongings s
                        !!! (Binary64.Directed.neighborhood s !!! o)
                      = Binary64.Directed.belongings s !!! i)) as [He'|He'];
    split; congruence.
Qed.

(** In exact arithmetic the state is as it was. *)
Lemma directed_move_own (s : Directed.Index) (i : nat)
    (din dout cin cout : Qc) :
  let c := Directed.belongings s !!! i in
  i < length (Directed.belongings s) →
  holds (Directed.NodesPointerArray s) c →
  is_element (Directed.NodesPointerArray s) (Directed.counts_arr s !!! c) →
  Directed.move i din dout cin cout cin cout c s = s.
Proof.
  cbn zeta. intros Hi Hc Hcnt.
  unfold Directed.move, Directed.counts_arr in *.
  destruct s as [M0 C0 E0 lv gr ns kc kd nb ws lp st off bel den mp cnt iw
    tin tout].
  cbn in *. rewrite !arr_add_sub_same, Hc.
  rewrite (list_insert_id bel) by (by apply list_lookup_lookup_total_lt).
  f_equal. destruct kc; [|done]. destruct cnt as [cnt|]; [|done].
  cbn in *. by rewrite cnt_add_sub_same.
Qed.

Lemma directed_binary64_move_own (s : Binary64.Directed.Index) (i : nat)
    (din dout cin cout : float) :
  let c := Binary64.Directed.belongings s !!! i in
  let l := Binary64.Directed.loops s !!! i in
  i < length (Binary64.Directed.belongings s) →
  holds (Binary64.Directed.NodesPointerArray s) c →
  is_element (Binary64.Directed.NodesPointerArray s)
             (Binary64.Directed.counts_arr s !!! c) →
  Binary64.Directed.move i din dout cin cout cin cout c s
  = directed_with_weights s
      (sub_add c (cin + cout + l)%float (Binary64.Directed.internalWeights s))
      (sub_add c (din + l)%float (Binary64.Directed.totalInWeights s))
      (sub_add c (dout + l)%float (Binary64.Directed.totalOutWeights s)).
Proof.
  cbn zeta. intros Hi Hc Hcnt.
  unfold Binary64.Directed.move, directed_with_weights,
    Binary64.Directed.counts_arr in *.
  destruct s as [M0 C0 E0 lv gr ns kc kd nb ws lp st off bel den mp cnt iw
    tin tout].
  cbn in *. rewrite !binary64_arr_add_sub, Hc.
  rewrite (list_insert_id bel) by (by apply list_lookup_lookup_total_lt).
  f_equal. destruct kc; [|done]. destruct cnt as [cnt|]; [|done].
  cbn in *. by rewrite cnt_add_sub_same.
Qed.

(** X16. On the directed index too, a move of a node of the index to the
    community it is in, with target degrees equal to the current ones,
    leaves every field as it was in exact arithmetic, and so does
    [expensiveMove(i, belongings[i])].  On doubles it leaves every field
    bit for bit as it was but the entries of [internalWeights],
    [totalInWeights] and [totalOutWeights] of that community, which are left
    with what subtracting the degree and adding it back gives; and
    [expensiveMove(i, belongings[i])] is such a move.  The community is a
    value the array [belongings] holds, and its count an element of
    [counts]. *)
Theorem directed_move_to_own_community (s : Binary64.Directed.Index)
    (i : nat) (din dout cin cout : float) :
  let c := Binary64.Directed.belongings s !!! i in
  let l := Binary64.Directed.loops s !!! i in
  let d := Binary64.Directed.scan s i c in
  i < length (Binary64.Directed.belongings s) →
  holds (Binary64.Directed.NodesPointerArray s) c →
  is_element (Binary64.Directed.NodesPointerArray s)
             (Binary64.Directed.counts_arr s !!! c) →
  Binary64.Directed.move i din dout cin cout cin cout c s
  = directed_with_weights s
      (sub_add c (cin + cout + l)%float (Binary64.Directed.internalWeights s))
      (sub_add c (din + l)%float (Binary64.Directed.totalInWeights s))
      (sub_add c (dout + l)%float (Binary64.Directed.totalOutWeights s))
  ∧ Binary64.Directed.expensiveMove i c s
    = Binary64.Directed.move i
        (Binary64.Directed.inDegree d) (Binary64.Directed.outDegree d)
        (Binary64.Directed.currentCommunityInDegree d)
        (Binary64.Directed.currentCommunityOutDegree d)
        (Binary64.Directed.currentCommunityInDegree d)
        (Binary64.Directed.currentCommunityOutDegree d) c s
  ∧ ∀ (q : Directed.Index) (j : nat) (ein eout ecin ecout : Qc),
      j < length (Directed.belongings q) →
      holds (Directed.NodesPointerArray q) (Directed.belongings q !!! j) →
      is_element (Directed.NodesPointerArray q)
        (Directed.counts_arr q !!! (Directed.belongings q !!! j)) →
      Directed.move j ein eout ecin ecout ecin ecout
                    (Directed.belongings q !!! j) q
      = q
      ∧ Directed.expensiveMove j (Directed.belongings q !!! j) q = q.
Proof.
  cbn zeta. intros Hi Hc Hcnt. split; [by apply directed_binary64_move_own|].
  split.
  - unfold Binary64.Directed.expensiveMove. cbn zeta.
    by destruct (directed_binary64_scan_own_community s i) as [-> ->].
  - clear. intros q j ein eout ecin ecout Hj Hc Hcnt.
    split; [by apply directed_move_own|].
    unfold Directed.expensiveMove. cbn zeta.
    destruct (directed_scan_own_community q j) as [-> ->].
    by apply directed_move_own.
Qed.

Lemma directed_move_to_own_community_witness :
  let s := Binary64.Directed.DirectedLouvainIndex arrow_graph
                                                  dendrogram_options in
  let c := Binary64.Directed.belongings s !!! 0 in
  let l := Binary64.Directed.loops s !!! 0 in
  0 < length (Binary64.Directed.belongings s)
  ∧ holds (Binary64.Directed.NodesPointerArray s) c
  ∧ is_element (Binary64.Directed.NodesPointerArray s)
               (Binary64.Directed.counts_arr s !!! c)
  ∧ Binary64.Directed.move 0 0 1 0 0 0 0 c s
    = directed_with_weights s
        (sub_add c (0 + 0 + l)%float (Binary64.Directed.internalWeights s))
        (sub_add c (0 + l)%float (Binary64.Directed.totalInWeights s))
        (sub_add c (1 + l)%float (Binary64.Directed.totalOutWeights s)).
Proof.
  cbn zeta.
  set (s := Binary64.Directed.DirectedLouvainIndex arrow_graph
                                                   dendrogram_options).
  assert (H : 0 < length (Binary64.Directed.belongings s))
    by (vm_compute; lia).
  assert (Hc : holds (Binary64.Directed.NodesPointerArray s)
                     (Binary64.Directed.belongings s !!! 0))
    by (vm_compute; reflexivity).
  assert (Hcnt : is_element (Binary64.Directed.NodesPointerArray s)
                   (Binary64.Directed.counts_arr s
                      !!! (Binary64.Directed.belongings s !!! 0)))
    by (vm_compute; reflexivity).
  split; [exact H|]. split; [exact Hc|]. split; [exact Hcnt|].
  exact (proj1 (directed_move_to_own_community s 0 0 1 0 0 H Hc Hcnt)).
Defined.

(** X17. A move of the directed index between two communities in range
    leaves the sum of [totalInWeights], the sum of [totalOutWeights] and [M]
    as they are. *)
Theorem directed_move_keeps_the_sums (s : Directed.Index) (i : nat)
    (din dout cin cout tin tout : Qc) (t : nat) :
  Directed.belongings s !!! i < Directed.C s → t < Directed.C s →
  Directed.C s ≤ length (Directed.totalInWeights s) →
  Directed.C s ≤ length (Directed.totalOutWeights s) →
  let s' := Directed.move i din dout cin cout tin tout t s in
  sum_totalInWeights s' = sum_totalInWeights s
  ∧ sum_totalOutWeights s' = sum_totalOutWeights s
  ∧ Directed.M s' = Directed.M s.
Proof.
  intros Hc Ht Hin Hout. cbn zeta.
  unfold sum_totalInWeights, sum_totalOutWeights, Directed.move. cbn.
  split; [by apply sum_take_add_sub|]. split; [by apply sum_take_add_sub|].
  done.
Qed.

Lemma directed_move_keeps_the_sums_witness :
  let s := Directed.DirectedLouvainIndex arrow_graph Options.DEFAULTS in
  let s' := Directed.expensiveMove 0 1 s in
  Directed.belongings s !!! 0 < Directed.C s ∧ 1 < Directed.C s
  ∧ Directed.C s ≤ length (Directed.totalInWeights s)
  ∧ Directed.C s ≤ length (Directed.totalOutWeights s)
  ∧ sum_totalInWeights s' = sum_totalInWeights s
  ∧ sum_totalOutWeights s' = sum_totalOutWeights s
  ∧ Directed.M s' = Directed.M s.
Proof.
  cbn zeta.
  set (s := Directed.DirectedLouvainIndex arrow_graph Options.DEFAULTS).
  assert (Hc : Directed.belongings s !!! 0 < Directed.C s)
    by (vm_compute; lia).
  assert (Ht : 1 < Directed.C s) by (vm_compute; lia).
  assert (Hin : Directed.C s ≤ length (Directed.totalInWeights s))
    by (vm_compute; lia).
  assert (Hout : Directed.C s ≤ length (Directed.totalOutWeights s))
    by (vm_compute; lia).
  repeat (split; [assumption|]).
  exact (directed_move_keeps_the_sums s 0 _ _ _ _ _ _ 1 Hc Ht Hin Hout).
Defined.

Lemma directed_modularity_sum (s : Directed.Index) :
  Directed.modularity s
  = sumQc ((λ i, directed_term (Directed.M s)
                   (Directed.internalWeights s !!! i)
                   (Directed.totalInWeights s !!! i)
                   (Directed.totalOutWeights s !!! i))
             <$> seq 0 (Directed.C s)).
Proof.
  unfold Directed.modularity. cbn zeta.
  rewrite (foldl_sumQc
             (λ i, (Directed.internalWeights s !!! i / Directed.M s
                    - Directed.totalInWeights s !!! i
                      * Directed.totalOutWeights s !!! i
                      / Directed.M s ^ 2)%Qc)).
  unfold directed_term. ring.
Qed.

(** The change of two terms of the modularity under a move between two
    distinct communities. *)
Lemma directed_modularity_move (s : Directed.Index) (i : nat)
    (din dout cin cout tin tout : Qc) (t : nat) :
  let c := Directed.belongings s !!! i in
  let l := Directed.loops s !!! i in
  c < Directed.C s → t < Directed.C s → c ≠ t →
  Directed.C s ≤ length (Directed.totalInWeights s) →
  Directed.C s ≤ length (Directed.totalOutWeights s) →
  Directed.C s ≤ length (Directed.internalWeights s) →
  Directed.modularity (Directed.move i din dout cin cout tin tout t s)
  = (Directed.modularity s
     + (directed_term (Directed.M s)
          (Directed.internalWeights s !!! c - (cin + cout + l))
          (Directed.totalInWeights s !!! c - (din + l))
          (Directed.totalOutWeights s !!! c - (dout + l))
        - directed_term (Directed.M s)
            (Directed.internalWeights s !!! c)
            (Directed.totalInWeights s !!! c)
            (Directed.totalOutWeights s !!! c))
     + (directed_term (Directed.M s)
          (Directed.internalWeights s !!! t + (tin + tout + l))
          (Directed.totalInWeights s !!! t + (din + l))
          (Directed.totalOutWeights s !!! t + (dout + l))
        - directed_term (Directed.M s)
            (Directed.internalWeights s !!! t)
            (Directed.totalInWeights s !!! t)
            (Directed.totalOutWeights s !!! t)))%Qc.
Proof.
  intros c l Hc Ht Hct Hin Hout Hiw.
  rewrite !directed_modularity_sum.
  cbn [Directed.M Directed.C Directed.internalWeights
       Directed.totalInWeights Directed.totalOutWeights Directed.move].
  fold c. fold l.
  rewrite (sumQc_two_points
             (λ k, directed_term (Directed.M s)
                     (Directed.internalWeights s !!! k)
                     (Directed.totalInWeights s !!! k)
                     (Directed.totalOutWeights s !!! k)) _ (Directed.C s) c t)
    by first [done | intros k Hkc Hkt; unfold arr_add, arr_sub;
              rewrite !list_lookup_total_insert_ne by done; done].
  unfold arr_add, arr_sub.
  rewrite !(list_lookup_total_insert_ne _ t c) by done.
  rewrite !list_lookup_total_insert_eq by (rewrite ?length_insert; lia).
  rewrite !(list_lookup_total_insert_ne _ c t) by done.
  done.
Qed.

(** X18. On the directed index, [delta] is the gain in modularity of the
    move into community [t] of a node that is alone in its community: its
    arguments are the in and the out degree of the node with its loop
    weight, and the weight of its edges from and to [t]. *)
Theorem directed_delta_is_the_gain (s : Directed.Index) (i : nat)
    (din dout tin tout : Qc) (t : nat) :
  let c := Directed.belongings s !!! i in
  let l := Directed.loops s !!! i in
  Directed.M s ≠ Q2Qc 0 →
  c < Directed.C s → t < Directed.C s → c ≠ t →
  Directed.C s ≤ length (Directed.totalInWeights s) →
  Directed.C s ≤ length (Directed.totalOutWeights s) →
  Directed.C s ≤ length (Directed.internalWeights s) →
  Directed.totalInWeights s !!! c = (din + l)%Qc →
  Directed.totalOutWeights s !!! c = (dout + l)%Qc →
  Directed.internalWeights s !!! c = l →
  (Directed.modularity
     (Directed.move i din dout (Q2Qc 0) (Q2Qc 0) tin tout t s)
   - Directed.modularity s)%Qc
  = Directed.delta s (din + l) (dout + l) (tin + tout) t.
Proof.
  intros c l HM Hc Ht Hct Hin Hout Hiw Htin Htout Hint.
  rewrite directed_modularity_move by done. fold c. fold l.
  rewrite Htin, Htout, Hint.
  unfold Directed.delta, directed_term. cbn zeta. cbn [Qcpower].
  field. done.
Qed.

Lemma directed_delta_is_the_gain_witness :
  let s := Directed.DirectedLouvainIndex arrow_graph Options.DEFAULTS in
  Directed.M s ≠ Q2Qc 0
  ∧ Directed.belongings s !!! 0 < Directed.C s ∧ 1 < Directed.C s
  ∧ Directed.belongings s !!! 0 ≠ 1
  ∧ (Directed.modularity
       (Directed.move 0 (Q2Qc 0) (Q2Qc 1) (Q2Qc 0) (Q2Qc 0) (Q2Qc 0) (Q2Qc 1)
                      1 s)
     - Directed.modularity s)%Qc
    = Directed.delta s (Q2Qc 0 + Directed.loops s !!! 0)
                     (Q2Qc 1 + Directed.loops s !!! 0) (Q2Qc 0 + Q2Qc 1) 1.
Proof.
  cbn zeta.
  set (s := Directed.DirectedLouvainIndex arrow_graph Options.DEFAULTS).
  assert (HM : Directed.M s ≠ Q2Qc 0).
  { intros H. apply (f_equal this) in H. vm_compute in H. discriminate H. }
  assert (Hc : Directed.belongings s !!! 0 < Directed.C s)
    by (vm_compute; lia).
  assert (Ht : 1 < Directed.C s) by (vm_compute; lia).
  assert (Hct : Directed.belongings s !!! 0 ≠ 1) by (vm_compute; lia).
  repeat (split; [assumption|]).
  apply (directed_delta_is_the_gain s 0 (Q2Qc 0) (Q2Qc 1) (Q2Qc 0) (Q2Qc 1) 1
           HM Hc Ht Hct).
  - vm_compute. lia.
  - vm_compute. lia.
  - vm_compute. lia.
  - vm_compute. reflexivity.
  - vm_compute. reflexivity.
  - vm_compute. reflexivity.
Defined.

(** X19. On the directed index, [deltaWithOwnCommunity] is what the
    modularity loses when a node without loop weight leaves its community
    for an empty one. *)
Theorem directed_deltaWithOwnCommunity_is_the_loss (s : Directed.Index)
    (i : nat) (din dout cin cout : Qc) (e : nat) :
  let c := Directed.belongings s !!! i in
  Directed.M s ≠ Q2Qc 0 →
  c < Directed.C s → e < Directed.C s → c ≠ e →
  Directed.C s ≤ length (Directed.totalInWeights s) →
  Directed.C s ≤ length (Directed.totalOutWeights s) →
  Directed.C s ≤ length (Directed.internalWeights s) →
  Directed.loops s !!! i = Q2Qc 0 →
  Directed.totalInWeights s !!! e = Q2Qc 0 →
  Directed.totalOutWeights s !!! e = Q2Qc 0 →
  Directed.internalWeights s !!! e = Q2Qc 0 →
  (Directed.modularity s
   - Directed.modularity
       (Directed.move i din dout cin cout (Q2Qc 0) (Q2Qc 0) e s))%Qc
  = Directed.deltaWithOwnCommunity s din dout (cin + cout) c.
Proof.
  intros c HM Hc He Hce Hin Hout Hiw Hl Htin Htout Hint.
  rewrite directed_modularity_move by done. fold c.
  rewrite Hl, Htin, Htout, Hint.
  unfold Directed.deltaWithOwnCommunity, directed_term. cbn zeta.
  cbn [Qcpower].
  field. done.
Qed.

Lemma directed_deltaWithOwnCommunity_is_the_loss_witness :
  let s := Directed.expensiveMove 0 1
             (Directed.DirectedLouvainIndex arrow_graph Options.DEFAULTS) in
  Directed.M s ≠ Q2Qc 0
  ∧ Directed.belongings s !!! 0 < Directed.C s ∧ 0 < Directed.C s
  ∧ Directed.belongings s !!! 0 ≠ 0
  ∧ (Directed.modularity s
     - Directed.modularity
         (Directed.move 0 (Q2Qc 0) (Q2Qc 1) (Q2Qc 0) (Q2Qc 1) (Q2Qc 0)
                        (Q2Qc 0) 0 s))%Qc
    = Directed.deltaWithOwnCommunity s (Q2Qc 0) (Q2Qc 1) (Q2Qc 0 + Q2Qc 1)
        (Directed.belongings s !!! 0).
Proof.
  cbn zeta.
  set (s := Directed.expensiveMove 0 1
              (Directed.DirectedLouvainIndex arrow_graph Options.DEFAULTS)).
  assert (HM : Directed.M s ≠ Q2Qc 0).
  { intros H. apply (f_equal this) in H. vm_compute in H. discriminate H. }
  assert (Hc : Directed.belongings s !!! 0 < Directed.C s)
    by (vm_compute; lia).
  assert (He : 0 < Directed.C s) by (vm_compute; lia).
  assert (Hce : Directed.belongings s !!! 0 ≠ 0) by (vm_compute; lia).
  repeat (split; [assumption|]).
  apply (directed_deltaWithOwnCommunity_is_the_loss s 0 (Q2Qc 0) (Q2Qc 1)
           (Q2Qc 0) (Q2Qc 1) 0 HM Hc He Hce).
  - vm_compute. lia.
  - vm_compute. lia.
  - vm_compute. lia.
  - vm_compute. reflexivity.
  - vm_compute. reflexivity.
  - vm_compute. reflexivity.
  - vm_compute. reflexivity.
Defined.

(** ** Construction of the directed index *)

Lemma directed_out_edges_fold g o ids node i (es : list Graph.Edge)
    (b : Directed.Building) :
  foldl (Directed.build_out_edge g o ids node i) b es =
  {| Directed.b_M := (Directed.b_M b + sumQc (Options.getWeight o <$> es))%Qc;
     Directed.b_n := Directed.b_n b + length es;
     Directed.b_neighborhood :=
       write_at (Directed.b_n b)
         ((λ e, pointer (getPointerArray (Graph.order g))
                  (ids_get ids (Graph.opposite node e))) <$> es)
         (Directed.b_neighborhood b);
     Directed.b_weights :=
       write_at (Directed.b_n b) (Options.getWeight o <$> es)
                (Directed.b_weights b);
     Directed.b_starts := Directed.b_starts b;
     Directed.b_offsets := Directed.b_offsets b;
     Directed.b_belongings := Directed.b_belongings b;
     Directed.b_counts := Directed.b_counts b;
     Directed.b_totalInWeights :=
       add_all ((λ e, (ids_get ids (Graph.opposite node e),
                       Options.getWeight o e)) <$> es)
               (Directed.b_totalInWeights b);
     Directed.b_totalOutWeights :=
       foldl (λ tw e, arr_add i (Options.getWeight o e) tw)
             (Directed.b_totalOutWeights b) es |}.
Proof.
  revert b. induction es as [|e es IH]; intros b.
  - destruct b. cbn. f_equal; [ring | lia].
  - cbn [foldl]. rewrite IH. cbn. f_equal.
    + symmetry. apply Qcplus_assoc.
    + lia.
Qed.

Lemma directed_in_edges_fold g o ids node (es : list Graph.Edge)
    (b : Directed.Building) :
  foldl (Directed.build_in_edge g o ids node) b es =
  {| Directed.b_M := Directed.b_M b;
     Directed.b_n := Directed.b_n b + length es;
     Directed.b_neighborhood :=
       write_at (Directed.b_n b)
         ((λ e, pointer (getPointerArray (Graph.order g))
                  (ids_get ids (Graph.opposite node e))) <$> es)
         (Directed.b_neighborhood b);
     Directed.b_weights :=
       write_at (Directed.b_n b) (Options.getWeight o <$> es)
                (Directed.b_weights b);
     Directed.b_starts := Directed.b_starts b;
     Directed.b_offsets := Directed.b_offsets b;
     Directed.b_belongings := Directed.b_belongings b;
     Directed.b_counts := Directed.b_counts b;
     Directed.b_totalInWeights := Directed.b_totalInWeights b;
     Directed.b_totalOutWeights := Directed.b_totalOutWeights b |}.
Proof.
  revert b. induction es as [|e es IH]; intros b.
  - destruct b. cbn. f_equal. lia.
  - cbn [foldl]. rewrite IH. cbn. f_equal. lia.
Qed.

Lemma directed_entries_before_S g k :
  k < Graph.order g →
  directed_entries_before g (S k)
  = directed_entries_before g k
    + length (Graph.outEdges g (Graph.nodes g !!! k))
    + length (Graph.inEdges g (Graph.nodes g !!! k)).
Proof.
  intros Hk. unfold directed_entries_before.
  rewrite (take_S_r _ _ (Graph.nodes g !!! k))
    by (by apply list_lookup_lookup_total_lt).
  rewrite fmap_app, concat_app, length_app. cbn.
  rewrite app_nil_r, length_app. lia.
Qed.

Lemma length_directed_block_ids g node :
  length (directed_block_ids g node)
  = length (Graph.outEdges g node ++ Graph.inEdges g node).
Proof.
  unfold directed_block_ids, out_ids, in_ids.
  by rewrite !length_app, !length_fmap.
Qed.

Lemma length_directed_block_weights g o node :
  length (directed_block_weights g o node)
  = length (Graph.outEdges g node ++ Graph.inEdges g node).
Proof.
  unfold directed_block_weights. by rewrite !length_app, !length_fmap.
Qed.

Lemma length_concat_directed {A} (f : string → list A) g (l : list string) :
  (∀ node, length (f node)
           = length (Graph.outEdges g node ++ Graph.inEdges g node)) →
  length (concat (f <$> l))
  = length (concat ((λ node, Graph.outEdges g node ++ Graph.inEdges g node)
                      <$> l)).
Proof.
  intros Hf. induction l as [|x l IH]; [done|].
  rewrite !fmap_cons. cbn [concat].
  by rewrite (length_app (f x)), (length_app (_ ++ _)), IH, Hf.
Qed.

Lemma add_all_app (l k : list (nat * Qc)) (arr : list Qc) :
  add_all (l ++ k) arr = add_all k (add_all l arr).
Proof. unfold add_all. by rewrite foldl_app. Qed.

Lemma write_at_fmap_app {A B} (f : A → B) (es es' : list A) n arr :
  write_at (n + length es) (f <$> es') (write_at n (f <$> es) arr)
  = write_at n (f <$> es ++ es') arr.
Proof. by rewrite fmap_app, write_at_app, length_fmap. Qed.

Lemma directed_build_node_built g o k :
  k < Graph.order g →
  Directed.build_node g o (make_ids (Graph.nodes g)) (directed_built g o k) k
  = directed_built g o (S k).
Proof.
  intros Hk. unfold Directed.build_node. cbn zeta.
  rewrite directed_in_edges_fold. unfold Directed.record_offset.
  rewrite directed_out_edges_fold. cbn.
  pose proof Hk as Hk'. unfold Graph.order in Hk'.
  assert (Hnode : Graph.nodes g !! k = Some (Graph.nodes g !!! k))
    by (by apply list_lookup_lookup_total_lt).
  set (node := Graph.nodes g !!! k) in *.
  rewrite !write_at_fmap_app.
  rewrite (list_fmap_ext _ (λ e, ids_get (make_ids (Graph.nodes g))
                                    (Graph.opposite node e))
             (Graph.outEdges g node ++ Graph.inEdges g node))
    by (intros; apply pointer_ids_get).
  unfold directed_built.
  rewrite (take_S_r _ _ node) by done.
  rewrite !fmap_app, !concat_app, !fmap_cons, !fmap_nil. cbn [concat].
  rewrite !app_nil_r.
  rewrite (pointer_lt (Graph.order g) k) by done. rewrite element_1.
  f_equal.
  - rewrite sumQc_app. cbn. unfold out_weight. ring.
  - rewrite directed_entries_before_S by done. fold node. lia.
  - unfold directed_entries_before.
    rewrite <- (length_concat_directed (directed_block_ids g) g)
      by apply length_directed_block_ids.
    unfold directed_block_ids, out_ids, in_ids. rewrite <- fmap_app.
    apply write_at_blank.
  - unfold directed_entries_before.
    rewrite <- (length_concat_directed (directed_block_weights g o) g)
      by apply length_directed_block_weights.
    unfold directed_block_weights. rewrite <- fmap_app.
    apply write_at_blank.
  - replace (Graph.order g + 1 - k) with (S (Graph.order g + 1 - S k)) by lia.
    rewrite insert_at_blank by (by rewrite length_fmap, length_seq).
    by rewrite seq_S, fmap_app.
  - replace (Graph.order g - k) with (S (Graph.order g - S k)) by lia.
    rewrite insert_at_blank by (by rewrite length_fmap, length_seq).
    by rewrite seq_S, fmap_app.
  - replace (Graph.order g - k) with (S (Graph.order g - S k)) by lia.
    rewrite insert_at_blank by (by rewrite length_seq).
    by rewrite seq_S.
  - destruct (Options.keepCounts o); [|done]. cbn [fmap option_fmap option_map].
    f_equal.
    replace (Graph.order g - k) with (S (Graph.order g - S k)) by lia.
    rewrite insert_at_blank by (by rewrite length_replicate).
    by rewrite replicate_S_end.
  - by rewrite add_all_app.
  - assert (Hlen : length (out_weight g o <$> take k (Graph.nodes g)) = k)
      by (rewrite length_fmap, length_take; lia).
    rewrite arr_add_fold by (rewrite length_app, length_replicate; lia).
    rewrite lookup_total_app_r by lia.
    replace (Graph.order g - k) with (S (Graph.order g - S k)) by lia.
    rewrite insert_at_blank by done.
    rewrite Hlen, Nat.sub_diag. cbn [replicate lookup_total list_lookup_total].
    do 3 f_equal. unfold out_weight. apply Qcplus_0_l.
Qed.

Lemma directed_build_loop_built g o :
  Directed.build_loop g o = directed_built g o (Graph.order g).
Proof.
  unfold Directed.build_loop.
  assert (H : ∀ k, k ≤ Graph.order g →
    foldl (Directed.build_node g o (make_ids (Graph.nodes g)))
          (Directed.build_init g o) (seq 0 k)
    = directed_built g o k).
  { induction k as [|k IH]; intros Hk.
    - simpl. unfold Directed.build_init, directed_built. simpl.
      unfold directed_entries_before. simpl.
      rewrite !Nat.sub_0_r.
      rewrite !take_ge by (rewrite length_replicate; lia).
      f_equal.
    - rewrite seq_S, foldl_snoc. cbn [Nat.add]. rewrite IH by lia.
      apply directed_build_node_built. lia. }
  by apply H.
Qed.

Lemma sumQc_indicator_elem {A} `{EqDecision A} (f : A → Qc) (l : list A)
    (x : A) :
  NoDup l → x ∈ l →
  sumQc ((λ y, if decide (x = y) then f y else Q2Qc 0) <$> l) = f x.
Proof.
  induction l as [|y l IH]; intros Hnd Hx; [by apply elem_of_nil in Hx|].
  apply NoDup_cons in Hnd as [Hy Hnd].
  rewrite fmap_cons, sumQc_cons.
  destruct (decide (x = y)) as [<-|Hne].
  - rewrite (sumQc_fmap_ext _ (λ _, Q2Qc 0)).
    + rewrite sumQc_fmap_0. ring.
    + intros z Hz. rewrite decide_False; [done|]. by intros <-.
  - rewrite IH; [ring|done|].
    apply elem_of_cons in Hx as [Hx|Hx]; [done|done].
Qed.

Lemma sumQc_concat {A} (f : A → Qc) (ls : list (list A)) :
  sumQc (f <$> concat ls) = sumQc ((λ l, sumQc (f <$> l)) <$> ls).
Proof.
  induction ls as [|l ls IH]; [done|].
  cbn [concat]. by rewrite fmap_app, sumQc_app, fmap_cons, sumQc_cons, IH.
Qed.

(** Summing over the nodes, then over the edges that leave each of them, is
    summing over the edges; and so for the edges that enter them. *)
Lemma sumQc_by_source (f : string → Graph.Edge → Qc) g :
  Graph.wf g →
  sumQc ((λ node, sumQc (f node <$> Graph.outEdges g node))
           <$> Graph.nodes g)
  = sumQc ((λ e, f (Graph.source e) e) <$> Graph.edge_list g).
Proof.
  intros [Hnd Hends]. unfold Graph.outEdges.
  rewrite (sumQc_fmap_ext _
             (λ node, sumQc ((λ e, if decide (Graph.source e = node)
                                   then f node e else Q2Qc 0)
                               <$> Graph.edge_list g)))
    by (intros node _; apply (sumQc_filter (λ e, Graph.source e = node))).
  rewrite (sumQc_swap (λ node e, if decide (Graph.source e = node)
                                 then f node e else Q2Qc 0)).
  apply sumQc_fmap_ext. intros e He.
  rewrite Forall_forall in Hends. destruct (Hends e He) as [Hs _].
  by rewrite (sumQc_indicator_elem (λ node, f node e)).
Qed.

Lemma sumQc_by_target (f : string → Graph.Edge → Qc) g :
  Graph.wf g →
  sumQc ((λ node, sumQc (f node <$> Graph.inEdges g node))
           <$> Graph.nodes g)
  = sumQc ((λ e, f (Graph.target e) e) <$> Graph.edge_list g).
Proof.
  intros [Hnd Hends]. unfold Graph.inEdges.
  rewrite (sumQc_fmap_ext _
             (λ node, sumQc ((λ e, if decide (Graph.target e = node)
                                   then f node e else Q2Qc 0)
                               <$> Graph.edge_list g)))
    by (intros node _; apply (sumQc_filter (λ e, Graph.target e = node))).
  rewrite (sumQc_swap (λ node e, if decide (Graph.target e = node)
                                 then f node e else Q2Qc 0)).
  apply sumQc_fmap_ext. intros e He.
  rewrite Forall_forall in Hends. destruct (Hends e He) as [_ Ht].
  by rewrite (sumQc_indicator_elem (λ node, f node e)).
Qed.

Lemma length_add_all (l : list (nat * Qc)) (arr : list Qc) :
  length (add_all l arr) = length arr.
Proof.
  revert arr. induction l as [|p l IH]; intros arr; [done|].
  unfold add_all in *. cbn [foldl]. rewrite IH. unfold arr_add.
  by rewrite length_insert.
Qed.

Lemma add_all_lookup (l : list (nat * Qc)) (arr : list Qc) (j : nat) :
  j < length arr →
  add_all l arr !!! j
  = (arr !!! j
     + sumQc ((λ p, if decide (p.1 = j) then p.2 else Q2Qc 0) <$> l))%Qc.
Proof.
  revert arr. induction l as [|p l IH]; intros arr Hj.
  - cbn. ring.
  - unfold add_all in *. cbn [foldl].
    rewrite IH by (unfold arr_add; by rewrite length_insert).
    rewrite fmap_cons, sumQc_cons. unfold arr_add.
    destruct (decide (p.1 = j)) as [->|Hne].
    + rewrite list_lookup_total_insert_eq by done. ring.
    + rewrite list_lookup_total_insert_ne by done. ring.
Qed.

Lemma opposite_out node e :
  Graph.source e = node → Graph.opposite node e = Graph.target e.
Proof. intros <-. apply opposite_source. Qed.

Lemma opposite_in node e :
  Graph.target e = node → Graph.opposite node e = Graph.source e.
Proof.
  intros <-. unfold Graph.opposite. destruct (decide _) as [He|He]; done.
Qed.

(** What the constructor of the directed index leaves in [M] and in the
    total weights. *)
Lemma directed_new_weights g o :
  Graph.wf g →
  let s := Directed.DirectedLouvainIndex g o in
  Directed.M s = total_weight g o
  ∧ Directed.totalOutWeights s = out_weight g o <$> Graph.nodes g
  ∧ Directed.totalInWeights s = in_weight g o <$> Graph.nodes g.
Proof.
  intros Hwf. pose proof Hwf as [Hnd Hends]. cbn zeta.
  unfold Directed.DirectedLouvainIndex.
  cbn [Directed.M Directed.totalOutWeights Directed.totalInWeights].
  rewrite directed_build_loop_built. unfold directed_built.
  cbn [Directed.b_M Directed.b_totalOutWeights Directed.b_totalInWeights].
  unfold Graph.order. rewrite firstn_all, Nat.sub_diag. cbn [replicate].
  rewrite app_nil_r.
  split; [|split; [done|]].
  - unfold out_weight, total_weight.
    by rewrite (sumQc_by_source (λ _ e, Options.getWeight o e)).
  - apply list_eq. intros j. rewrite list_lookup_fmap.
    destruct (Graph.nodes g !! j) as [nj|] eqn:Hj.
    + pose proof (lookup_lt_Some _ _ _ Hj) as Hlt.
      cbn. transitivity (Some (add_all (concat (out_pairs g o <$> Graph.nodes g))
                                 (replicate (length (Graph.nodes g)) (Q2Qc 0))
                               !!! j)).
      { apply list_lookup_lookup_total_lt.
        by rewrite length_add_all, length_replicate. }
      f_equal. rewrite add_all_lookup by (by rewrite length_replicate).
      rewrite (list_lookup_total_correct _ _ _
                 (lookup_replicate_2 _ (Q2Qc 0) _ Hlt)).
      rewrite sumQc_concat, <- list_fmap_compose.
      rewrite (sumQc_fmap_ext _
                 (λ node,
                    sumQc ((λ e,
                              if decide (Graph.target e = nj)
                              then Options.getWeight o e else Q2Qc 0)
                             <$> Graph.outEdges g node))).
      * rewrite (sumQc_by_source
                   (λ _ e, if decide (Graph.target e = nj)
                           then Options.getWeight o e else Q2Qc 0)) by done.
        unfold in_weight, Graph.inEdges.
        rewrite (sumQc_filter (λ e, Graph.target e = nj)).
        rewrite Qcplus_0_l. done.
      * intros node Hnode. cbn. unfold out_pairs.
        rewrite <- list_fmap_compose.
        apply sumQc_fmap_ext. intros e He. cbn.
        apply list_elem_of_filter in He as [Hsrc He].
        rewrite (opposite_out node e Hsrc).
        rewrite Forall_forall in Hends. destruct (Hends e He) as [_ Htgt].
        pose proof (ids_get_eq g _ j nj Hnd Htgt Hj) as Hiff.
        repeat case_decide; try done; exfalso; naive_solver.
    + apply lookup_ge_None_2.
      rewrite length_add_all, length_replicate.
      by apply lookup_ge_None in Hj.
Qed.

(** X20. The constructor of the directed index counts every edge once,
    self-loops included: on a well-formed graph [M] is the total weight of
    the edges, [totalOutWeights[i]] the weight of the edges that leave node
    [i], [totalInWeights[i]] that of the edges that enter it, and the two
    arrays each add up to [M]. *)
Theorem directed_construction_counts_every_edge (g : Graph.t)
    (o : Options.t) :
  Graph.wf g →
  let s := Directed.DirectedLouvainIndex g o in
  Directed.M s = total_weight g o
  ∧ Directed.totalOutWeights s = out_weight g o <$> Graph.nodes g
  ∧ Directed.totalInWeights s = in_weight g o <$> Graph.nodes g
  ∧ sum_totalOutWeights s = Directed.M s
  ∧ sum_totalInWeights s = Directed.M s.
Proof.
  intros Hwf. cbn zeta.
  destruct (directed_new_weights g o Hwf) as (HM & Hout & Hin).
  split; [done|]. split; [done|]. split; [done|].
  unfold sum_totalOutWeights, sum_totalInWeights.
  rewrite HM, Hout, Hin.
  change (Directed.C (Directed.DirectedLouvainIndex g o))
    with (Graph.order g).
  rewrite !take_ge by (rewrite length_fmap; done).
  unfold out_weight, in_weight, total_weight. split.
  - by rewrite (sumQc_by_source (λ _ e, Options.getWeight o e)).
  - by rewrite (sumQc_by_target (λ _ e, Options.getWeight o e)).
Qed.

Lemma directed_construction_counts_every_edge_witness :
  let s := Directed.DirectedLouvainIndex loop_graph Options.DEFAULTS in
  Graph.wf loop_graph
  ∧ Directed.M s = total_weight loop_graph Options.DEFAULTS
  ∧ sum_totalOutWeights s = Directed.M s
  ∧ sum_totalInWeights s = Directed.M s.
Proof.
  cbn zeta.
  assert (Hwf : Graph.wf loop_graph)
    by (unfold Graph.wf; split; compute_done).
  split; [exact Hwf|].
  destruct (directed_construction_counts_every_edge loop_graph
              Options.DEFAULTS Hwf) as (HM & _ & _ & Hout & Hin).
  split; [exact HM|]. split; [exact Hout|exact Hin].
Defined.

Lemma length_concat_app_blocks {A B} (f h : A → list B) (l : list A) :
  length (concat ((λ x, f x ++ h x) <$> l))
  = length (concat (f <$> l)) + length (concat (h <$> l)).
Proof.
  induction l as [|x l IH]; [done|].
  rewrite !fmap_cons. cbn [concat]. rewrite !length_app, IH. lia.
Qed.

Lemma length_filter_eq (l : list string) (x : string) :
  NoDup l → x ∈ l → length (filter (λ y, x = y) l) = 1.
Proof.
  intros Hnd Hx.
  rewrite (list_filter_iff (λ y, x = y) (λ y, x = y ∨ x = y))
    by (intros y; tauto).
  by rewrite (Permutation_length (incident_nodes_loop l x Hnd Hx)).
Qed.

(** On a well-formed graph the entries fill the arrays: every edge gives
    one entry to its source and one to its target. *)
Lemma directed_entries_total g :
  Graph.wf g →
  directed_entries_before g (Graph.order g) = Graph.size g * 2.
Proof.
  intros [Hnd Hends]. unfold directed_entries_before, Graph.order.
  rewrite firstn_all, length_concat_app_blocks.
  unfold Graph.outEdges, Graph.inEdges.
  rewrite (length_concat_filter (λ node e, Graph.source e = node)).
  rewrite (length_concat_filter (λ node e, Graph.target e = node)).
  rewrite Forall_forall in Hends.
  rewrite !(sum_list_eq _ 1).
  - rewrite !length_fmap. unfold Graph.size. lia.
  - apply Forall_forall. intros n [e [-> He]]%list_elem_of_fmap.
    apply length_filter_eq; [done|]. by apply Hends.
  - apply Forall_forall. intros n [e [-> He]]%list_elem_of_fmap.
    apply length_filter_eq; [done|]. by apply Hends.
Qed.

Lemma directed_entries_before_mono g i j :
  i ≤ j → directed_entries_before g i ≤ directed_entries_before g j.
Proof.
  intros Hij. unfold directed_entries_before.
  rewrite <- (take_drop i (take j (Graph.nodes g))).
  rewrite take_take, Nat.min_l by done.
  rewrite fmap_app, concat_app, length_app. lia.
Qed.

(** What the pointer arrays of the directed index hold of the counts of
    entries. *)
Lemma pointer_directed_entries g n :
  Graph.wf g → fits g → n ≤ directed_entries_before g (Graph.order g) →
  pointer (getPointerArray (Graph.size g * 2)) n = n.
Proof.
  intros Hwf Hfits Hn. apply (holds_le _ _ (Graph.size g * 2)); [done|].
  by rewrite <- (directed_entries_total g Hwf).
Qed.

(** The arrays of a fresh directed index. *)
Lemma directed_new_arrays g o :
  Graph.wf g → fits g →
  let s := Directed.DirectedLouvainIndex g o in
  Directed.neighborhood s = concat (directed_block_ids g <$> Graph.nodes g)
  ∧ Directed.weights s
    = concat (directed_block_weights g o <$> Graph.nodes g)
  ∧ (∀ i, i ≤ Graph.order g →
       Directed.starts s !!! i = directed_entries_before g i)
  ∧ (∀ i, i < Graph.order g →
       Directed.offsets s !!! i
       = directed_entries_before g i
         + length (Graph.outEdges g (Graph.nodes g !!! i)))
  ∧ length (Directed.starts s) = Graph.order g + 1
  ∧ length (Directed.offsets s) = Graph.order g.
Proof.
  intros Hwf Hfits. cbn zeta.
  pose proof (directed_entries_total g Hwf) as Htot.
  pose proof (pointer_directed_entries g) as Hptr.
  unfold Directed.DirectedLouvainIndex. cbn zeta.
  cbn [Directed.neighborhood Directed.weights Directed.starts
       Directed.offsets].
  rewrite directed_build_loop_built. unfold directed_built.
  cbn [Directed.b_neighborhood Directed.b_weights Directed.b_starts
       Directed.b_offsets].
  unfold Graph.order in *. rewrite firstn_all.
  assert (Hids : length (concat (directed_block_ids g <$> Graph.nodes g))
                 = Graph.size g * 2).
  { rewrite (length_concat_directed (directed_block_ids g) g)
      by apply length_directed_block_ids.
    unfold directed_entries_before in Htot. by rewrite firstn_all in Htot. }
  assert (Hws : length (concat (directed_block_weights g o <$> Graph.nodes g))
                = Graph.size g * 2).
  { rewrite (length_concat_directed (directed_block_weights g o) g)
      by apply length_directed_block_weights.
    unfold directed_entries_before in Htot. by rewrite firstn_all in Htot. }
  rewrite Hids, Hws, Nat.sub_diag. cbn [replicate]. rewrite !app_nil_r.
  rewrite !take_ge by lia.
  split; [done|]. split; [done|]. split; [|split; [|split]].
  - intros i Hi.
    replace (length (Graph.nodes g) + 1 - length (Graph.nodes g)) with 1
      by lia.
    cbn [replicate].
    rewrite insert_app_r_alt by (rewrite length_fmap, length_seq; lia).
    rewrite length_fmap, length_seq, Nat.sub_diag. cbn [insert list_insert].
    destruct (decide (i = length (Graph.nodes g))) as [->|Hne].
    + rewrite lookup_total_app_r by (rewrite length_fmap, length_seq; lia).
      rewrite length_fmap, length_seq, Nat.sub_diag. cbn.
      rewrite Htot. exact Hfits.
    + rewrite lookup_total_app_l by (rewrite length_fmap, length_seq; lia).
      apply list_lookup_total_correct.
      rewrite list_lookup_fmap, lookup_seq_lt by lia. cbn. f_equal.
      apply Hptr; [done|done|].
      apply directed_entries_before_mono. unfold Graph.order. lia.
  - intros i Hi. rewrite Nat.sub_diag. cbn [replicate]. rewrite app_nil_r.
    apply list_lookup_total_correct.
    rewrite list_lookup_fmap, lookup_seq_lt by lia. cbn. f_equal.
    apply Hptr; [done|done|].
    pose proof (directed_entries_before_S g i Hi) as HS.
    pose proof (directed_entries_before_mono g (S i) (Graph.order g)) as Hm.
    unfold Graph.order in *. lia.
  - rewrite length_insert, length_app, length_fmap, length_seq,
      length_replicate. lia.
  - rewrite length_app, length_fmap, length_seq, length_replicate. lia.
Qed.

Lemma concat_block {A B} (f : A → list B) (l : list A) (i : nat) (x : A) :
  l !! i = Some x →
  drop (length (concat (f <$> take i l))) (concat (f <$> l))
  = f x ++ concat (f <$> drop (S i) l).
Proof.
  intros Hx. rewrite (concat_middle f l i x Hx) at 1.
  by rewrite drop_app_length.
Qed.

(** The block of a node in a fresh directed index: the entries of its
    outgoing edges, then those of its incoming edges. *)
Lemma directed_new_blocks g o i node :
  Graph.wf g → fits g → Graph.nodes g !! i = Some node →
  let s := Directed.DirectedLouvainIndex g o in
  let a := Directed.starts s !!! i in
  let m := Directed.offsets s !!! i in
  let b := Directed.starts s !!! (i + 1) in
  m = a + length (Graph.outEdges g node)
  ∧ b = m + length (Graph.inEdges g node)
  ∧ slice a m (Directed.neighborhood s) = out_ids g node
  ∧ slice m b (Directed.neighborhood s) = in_ids g node
  ∧ slice a m (Directed.weights s)
    = Options.getWeight o <$> Graph.outEdges g node
  ∧ slice m b (Directed.weights s)
    = Options.getWeight o <$> Graph.inEdges g node.
Proof.
  intros Hwf Hfits Hi. cbn zeta.
  pose proof (lookup_lt_Some _ _ _ Hi) as Hlt. fold (Graph.order g) in Hlt.
  destruct (directed_new_arrays g o Hwf Hfits)
    as (Hnb & Hws & Hst & Hoff & _).
  rewrite Hnb, Hws, (Hst i), (Hst (i + 1)), (Hoff i) by lia.
  rewrite (list_lookup_total_correct _ _ _ Hi).
  replace (i + 1) with (S i) by lia.
  rewrite directed_entries_before_S by done.
  rewrite (list_lookup_total_correct _ _ _ Hi).
  set (a := directed_entries_before g i).
  set (no := length (Graph.outEdges g node)).
  set (ni := length (Graph.inEdges g node)).
  split; [done|]. split; [lia|].
  assert (Ha_ids : a = length (concat (directed_block_ids g
                                         <$> take i (Graph.nodes g)))).
  { unfold a, directed_entries_before. symmetry.
    apply length_concat_directed, length_directed_block_ids. }
  assert (Ha_ws : a = length (concat (directed_block_weights g o
                                        <$> take i (Graph.nodes g)))).
  { unfold a, directed_entries_before. symmetry.
    apply length_concat_directed, length_directed_block_weights. }
  assert (Hno : length (out_ids g node) = no)
    by (unfold out_ids; by rewrite length_fmap).
  assert (Hni : length (in_ids g node) = ni)
    by (unfold in_ids; by rewrite length_fmap).
  unfold slice.
  replace (a + no - a) with no by lia.
  replace (a + no + ni - (a + no)) with ni by lia.
  rewrite <- !drop_drop.
  rewrite Ha_ids at 1 2. rewrite !(concat_block _ _ i node Hi).
  rewrite Ha_ws. rewrite !(concat_block _ _ i node Hi).
  unfold directed_block_ids, directed_block_weights.
  rewrite <- !app_assoc.
  split; [|split; [|split]].
  - rewrite take_app_length'; done.
  - rewrite drop_app_length' by done. rewrite take_app_length'; done.
  - rewrite take_app_length'; [done|]. by rewrite length_fmap.
  - rewrite drop_app_length' by (by rewrite length_fmap).
    rewrite take_app_length'; [done|]. by rewrite length_fmap.
Qed.

Lemma out_ids_targets g node :
  out_ids g node
  = (λ e, ids_get (make_ids (Graph.nodes g)) (Graph.target e))
      <$> Graph.outEdges g node.
Proof.
  unfold out_ids. apply list_fmap_ext. intros k e He.
  apply list_elem_of_lookup_2, list_elem_of_filter in He as [Hsrc _].
  by rewrite (opposite_out node e Hsrc).
Qed.

Lemma in_ids_sources g node :
  in_ids g node
  = (λ e, ids_get (make_ids (Graph.nodes g)) (Graph.source e))
      <$> Graph.inEdges g node.
Proof.
  unfold in_ids. apply list_fmap_ext. intros k e He.
  apply list_elem_of_lookup_2, list_elem_of_filter in He as [Htgt _].
  by rewrite (opposite_in node e Htgt).
Qed.

(** X21. In a fresh directed index of a well-formed graph, self-loops
    included, whose arrays [starts] and [offsets] hold [upperBound]
    ([2 * size] is none of 2^8, 2^16 and 2^32), the block of each node is
    split at [offsets[i]]: the range of [outBounds(i)] holds the targets and
    the weights of its outgoing edges, that of [inBounds(i)] the sources and
    the weights of its incoming edges, in the order the graph lists them,
    and the two ranges follow each other inside [bounds(i)]. *)
Theorem directed_construction_splits_the_blocks (g : Graph.t) (o : Options.t)
    (i : nat) (node : string) :
  Graph.wf g → fits g → Graph.nodes g !! i = Some node →
  let s := Directed.DirectedLouvainIndex g o in
  let ids := make_ids (Graph.nodes g) in
  let outgoing := Directed.outBounds s i in
  let incoming := Directed.inBounds s i in
  outgoing.1 = (Directed.bounds s i).1
  ∧ outgoing.2 = incoming.1
  ∧ incoming.2 = (Directed.bounds s i).2
  ∧ outgoing.2 = outgoing.1 + length (Graph.outEdges g node)
  ∧ incoming.2 = incoming.1 + length (Graph.inEdges g node)
  ∧ slice outgoing.1 outgoing.2 (Directed.neighborhood s)
    = (λ e, ids_get ids (Graph.target e)) <$> Graph.outEdges g node
  ∧ slice incoming.1 incoming.2 (Directed.neighborhood s)
    = (λ e, ids_get ids (Graph.source e)) <$> Graph.inEdges g node
  ∧ slice outgoing.1 outgoing.2 (Directed.weights s)
    = Options.getWeight o <$> Graph.outEdges g node
  ∧ slice incoming.1 incoming.2 (Directed.weights s)
    = Options.getWeight o <$> Graph.inEdges g node.
Proof.
  intros Hwf Hfits Hi. cbn zeta.
  destruct (directed_new_blocks g o i node Hwf Hfits Hi)
    as (Hm & Hb & Hout & Hin & Hwout & Hwin).
  unfold Directed.outBounds, Directed.inBounds, Directed.bounds.
  cbn [fst snd].
  rewrite <- out_ids_targets, <- in_ids_sources.
  repeat split; done.
Qed.

Lemma arrow_graph_fits : fits arrow_graph.
Proof. unfold fits, holds. vm_compute. reflexivity. Defined.

Lemma loop_graph_fits : fits loop_graph.
Proof. unfold fits, holds. vm_compute. reflexivity. Defined.

Lemma directed_construction_splits_the_blocks_witness :
  let s := Directed.DirectedLouvainIndex arrow_graph Options.DEFAULTS in
  Graph.wf arrow_graph ∧ fits arrow_graph
  ∧ Graph.nodes arrow_graph !! 1 = Some "b"%string
  ∧ slice (Directed.inBounds s 1).1 (Directed.inBounds s 1).2
          (Directed.neighborhood s)
    = (λ e, ids_get (make_ids (Graph.nodes arrow_graph)) (Graph.source e))
        <$> Graph.inEdges arrow_graph "b".
Proof.
  cbn zeta.
  assert (Hwf : Graph.wf arrow_graph)
    by (unfold Graph.wf; split; compute_done).
  assert (Hi : Graph.nodes arrow_graph !! 1 = Some "b"%string)
    by reflexivity.
  split; [exact Hwf|]. split; [exact arrow_graph_fits|]. split; [exact Hi|].
  exact (proj1 (proj2 (proj2 (proj2 (proj2 (proj2 (proj2
           (directed_construction_splits_the_blocks arrow_graph
              Options.DEFAULTS 1 "b" Hwf arrow_graph_fits Hi)))))))).
Defined.

(** X22. On a fresh directed index of a well-formed graph whose arrays
    [starts] and [offsets] hold [upperBound], [projectOut()] maps each node
    to the keys of the targets of its outgoing edges, [projectIn()] to the
    keys of the sources of its incoming edges, and [project()] to the former
    followed by the latter; none holds another key. *)
Theorem directed_projections (g : Graph.t) (o : Options.t) :
  Graph.wf g → fits g →
  let s := Directed.DirectedLouvainIndex g o in
  (∀ node, node ∈ Graph.nodes g →
     let targets := (λ e, Some (Graph.target e)) <$> Graph.outEdges g node in
     let sources := (λ e, Some (Graph.source e)) <$> Graph.inEdges g node in
     projectOut s !! node = Some targets
     ∧ projectIn s !! node = Some sources
     ∧ directed_project s !! node = Some (targets ++ sources))
  ∧ (∀ key, key ∉ Graph.nodes g →
       projectOut s !! key = None ∧ projectIn s !! key = None
       ∧ directed_project s !! key = None).
Proof.
  intros Hwf Hfits. cbn zeta. pose proof Hwf as [Hnd Hends].
  rewrite Forall_forall in Hends.
  set (s := Directed.DirectedLouvainIndex g o).
  unfold projectOut, projectIn, directed_project, project_with.
  change (Directed.nodes s) with (Graph.nodes g).
  destruct (project_fold
              (λ i, (λ j, Graph.nodes g !! j)
                      <$> slice_to (Directed.starts s !!! i)
                                   (Directed.offsets s !! i)
                                   (Directed.neighborhood s))
              (Graph.nodes g) Hnd) as [Hout1 Hout2].
  destruct (project_fold
              (λ i, (λ j, Graph.nodes g !! j)
                      <$> slice_to (Directed.offsets s !!! i)
                                   (Directed.starts s !! (i + 1))
                                   (Directed.neighborhood s))
              (Graph.nodes g) Hnd) as [Hin1 Hin2].
  destruct (project_fold
              (λ i, (λ j, Graph.nodes g !! j)
                      <$> slice_to (Directed.starts s !!! i)
                                   (Directed.starts s !! (i + 1))
                                   (Directed.neighborhood s))
              (Graph.nodes g) Hnd) as [Hall1 Hall2].
  split; [|intros key Hkey; by rewrite Hout2, Hin2, Hall2].
  intros node [i Hi]%list_elem_of_lookup.
  rewrite (Hout1 i node Hi), (Hin1 i node Hi), (Hall1 i node Hi).
  destruct (directed_new_blocks g o i node Hwf Hfits Hi)
    as (Hm & Hb & Hout & Hin & _).
  destruct (directed_new_arrays g o Hwf Hfits)
    as (_ & _ & _ & _ & Hlst & Hloff).
  fold s in Hm, Hb, Hout, Hin, Hlst, Hloff.
  pose proof (lookup_lt_Some _ _ _ Hi) as Hlt. fold (Graph.order g) in Hlt.
  rewrite (list_lookup_lookup_total_lt (Directed.offsets s) i) by lia.
  rewrite (list_lookup_lookup_total_lt (Directed.starts s) (i + 1)) by lia.
  unfold slice_to.
  assert (Hkeys_out :
    (λ j, Graph.nodes g !! j) <$> out_ids g node
    = (λ e, Some (Graph.target e)) <$> Graph.outEdges g node).
  { rewrite out_ids_targets, <- list_fmap_compose.
    apply list_fmap_ext. intros k e He. cbn.
    apply list_elem_of_lookup_2, list_elem_of_filter in He as [_ He].
    destruct (Hends e He) as [_ [j Hj]%list_elem_of_lookup].
    by rewrite (ids_get_make_ids _ j _ Hnd Hj). }
  assert (Hkeys_in :
    (λ j, Graph.nodes g !! j) <$> in_ids g node
    = (λ e, Some (Graph.source e)) <$> Graph.inEdges g node).
  { rewrite in_ids_sources, <- list_fmap_compose.
    apply list_fmap_ext. intros k e He. cbn.
    apply list_elem_of_lookup_2, list_elem_of_filter in He as [_ He].
    destruct (Hends e He) as [[j Hj]%list_elem_of_lookup _].
    by rewrite (ids_get_make_ids _ j _ Hnd Hj). }
  rewrite Hout, Hin, Hkeys_out, Hkeys_in.
  split; [done|]. split; [done|].
  f_equal. rewrite <- Hkeys_out, <- Hkeys_in, <- fmap_app. f_equal.
  rewrite <- Hout, <- Hin. unfold slice.
  rewrite Hb, Hm.
  set (a := Directed.starts s !!! i).
  replace (a + length (Graph.outEdges g node) + length (Graph.inEdges g node)
           - a)
    with (length (Graph.outEdges g node) + length (Graph.inEdges g node))
    by lia.
  replace (a + length (Graph.outEdges g node) - a)
    with (length (Graph.outEdges g node)) by lia.
  replace (a + length (Graph.outEdges g node) + length (Graph.inEdges g node)
           - (a + length (Graph.outEdges g node)))
    with (length (Graph.inEdges g node)) by lia.
  rewrite <- drop_drop. by rewrite take_take_drop.
Qed.

Lemma directed_projections_witness :
  let s := Directed.DirectedLouvainIndex arrow_graph Options.DEFAULTS in
  Graph.wf arrow_graph ∧ fits arrow_graph
  ∧ projectOut s !! "a"%string
    = Some ((λ e, Some (Graph.target e)) <$> Graph.outEdges arrow_graph "a").
Proof.
  cbn zeta.
  assert (Hwf : Graph.wf arrow_graph)
    by (unfold Graph.wf; split; compute_done).
  split; [exact Hwf|]. split; [exact arrow_graph_fits|].
  refine (proj1 (proj1 (directed_projections arrow_graph Options.DEFAULTS
                          Hwf arrow_graph_fits) "a"%string _)).
  vm_compute. apply list_elem_of_here.
Defined.

(** X23. On a fresh directed index of a well-formed graph, where every node
    is alone in its community, [modularity()] is minus the sum over the
    nodes of the product of the weight that enters the node by the weight
    that leaves it, over the square of the total weight. *)
Theorem directed_modularity_of_singletons (g : Graph.t) (o : Options.t) :
  Graph.wf g →
  Directed.modularity (Directed.DirectedLouvainIndex g o)
  = (- sumQc ((λ node, in_weight g o node * out_weight g o node
                       / total_weight g o ^ 2) <$> Graph.nodes g))%Qc.
Proof.
  intros Hwf.
  destruct (directed_new_weights g o Hwf) as (HM & Hout & Hin).
  rewrite directed_modularity_sum, HM, Hout, Hin.
  change (Directed.C (Directed.DirectedLouvainIndex g o))
    with (length (Graph.nodes g)).
  change (Directed.internalWeights (Directed.DirectedLouvainIndex g o))
    with (replicate (Graph.order g) (Q2Qc 0)).
  rewrite <- sumQc_fmap_opp.
  rewrite <- (fmap_seq_lookup
                (λ node, (- (in_weight g o node * out_weight g o node
                             / total_weight g o ^ 2))%Qc)).
  apply sumQc_fmap_ext. intros i Hi%elem_of_seq.
  assert (Hnode : Graph.nodes g !! i = Some (Graph.nodes g !!! i))
    by (apply list_lookup_lookup_total_lt; lia).
  rewrite (list_lookup_total_correct _ _ _
             (lookup_replicate_2 _ (Q2Qc 0) _ (proj2 Hi))).
  rewrite !(list_lookup_total_correct (_ <$> Graph.nodes g) i
              (_ (Graph.nodes g !!! i)))
    by (by rewrite list_lookup_fmap, Hnode).
  unfold directed_term, Qcdiv. ring.
Qed.

Lemma directed_modularity_of_singletons_witness :
  Graph.wf arrow_graph
  ∧ Directed.modularity (Directed.DirectedLouvainIndex arrow_graph
                           Options.DEFAULTS)
    = (- sumQc ((λ node, in_weight arrow_graph Options.DEFAULTS node
                         * out_weight arrow_graph Options.DEFAULTS node
                         / total_weight arrow_graph Options.DEFAULTS ^ 2)
                  <$> Graph.nodes arrow_graph))%Qc.
Proof.
  assert (Hwf : Graph.wf arrow_graph)
    by (unfold Graph.wf; split; compute_done).
  split; [exact Hwf|].
  exact (directed_modularity_of_singletons arrow_graph Options.DEFAULTS Hwf).
Defined.

(** X24. On a well-formed graph, self-loops included, whose arrays
    [starts] and [offsets] hold [upperBound], the constructor of the
    directed index fills the arrays exactly: it writes [E] entries,
    [starts] is non-decreasing over [0..C] and ends at [E], and
    [offsets[i]] lies between [starts[i]] and [starts[i + 1]]. *)
Theorem directed_construction_fills_the_arrays (g : Graph.t)
    (o : Options.t) :
  Graph.wf g → fits g →
  let s := Directed.DirectedLouvainIndex g o in
  Directed.b_n (Directed.build_loop g o) = Directed.E s
  ∧ length (Directed.neighborhood s) = Directed.E s
  ∧ Directed.starts s !! Directed.C s = Some (Directed.E s)
  ∧ (∀ i j, i ≤ j → j ≤ Directed.C s →
       Directed.starts s !!! i ≤ Directed.starts s !!! j)
  ∧ (∀ i, i < Directed.C s →
       Directed.starts s !!! i ≤ Directed.offsets s !!! i
       ∧ Directed.offsets s !!! i ≤ Directed.starts s !!! (i + 1)).
Proof.
  intros Hwf Hfits. cbn zeta.
  destruct (directed_new_arrays g o Hwf Hfits)
    as (Hnb & _ & Hst & Hoff & Hlen & _).
  pose proof (directed_entries_total g Hwf) as Htot.
  change (Directed.C (Directed.DirectedLouvainIndex g o))
    with (Graph.order g).
  change (Directed.E (Directed.DirectedLouvainIndex g o))
    with (Graph.size g * 2).
  split; [|split; [|split; [|split]]].
  - rewrite directed_build_loop_built. done.
  - rewrite Hnb.
    rewrite (length_concat_directed (directed_block_ids g) g)
      by apply length_directed_block_ids.
    unfold directed_entries_before, Graph.order in Htot.
    by rewrite firstn_all in Htot.
  - rewrite <- Htot, <- (Hst (Graph.order g)) by done.
    apply list_lookup_lookup_total_lt. rewrite Hlen. lia.
  - intros i j Hij Hj. rewrite !Hst by lia.
    by apply directed_entries_before_mono.
  - intros i Hi. rewrite Hst, Hoff, (Hst (i + 1)) by lia.
    replace (i + 1) with (S i) by lia.
    rewrite directed_entries_before_S by done. lia.
Qed.

Lemma directed_construction_fills_the_arrays_witness :
  let s := Directed.DirectedLouvainIndex loop_graph Options.DEFAULTS in
  Graph.wf loop_graph ∧ fits loop_graph
  ∧ Directed.b_n (Directed.build_loop loop_graph Options.DEFAULTS)
    = Directed.E s
  ∧ Directed.starts s !! Directed.C s = Some (Directed.E s).
Proof.
  cbn zeta.
  assert (Hwf : Graph.wf loop_graph)
    by (unfold Graph.wf; split; compute_done).
  split; [exact Hwf|]. split; [exact loop_graph_fits|].
  destruct (directed_construction_fills_the_arrays loop_graph
              Options.DEFAULTS Hwf loop_graph_fits) as (Hn & _ & Hlast & _).
  split; [exact Hn|exact Hlast].
Defined.

(** ** The directed index at level 0 *)

Lemma range_split (a m b : nat) :
  a ≤ m → m ≤ b → range a b = range a m ++ range m b.
Proof.
  intros Ham Hmb. unfold range.
  replace (b - a) with ((m - a) + (b - m)) by lia.
  rewrite seq_app. by replace (a + (m - a)) with m by lia.
Qed.

(** The scan of [expensiveMove] over entries that are all outgoing. *)
Lemma directed_scan_out (s : Directed.Index) (c ci m : nat) (l : list nat)
    (d : Directed.Degrees) :
  (∀ p, p ∈ l → p < m) →
  let d' := foldl (Directed.scan_edge s c ci m) d l in
  let cn p := Directed.belongings s !!! (Directed.neighborhood s !!! p) in
  let w p := Directed.weights s !!! p in
  Directed.inDegree d' = Directed.inDegree d
  ∧ Directed.currentCommunityInDegree d' = Directed.currentCommunityInDegree d
  ∧ Directed.targetCommunityInDegree d' = Directed.targetCommunityInDegree d
  ∧ Directed.outDegree d' = (Directed.outDegree d + sumQc (w <$> l))%Qc
  ∧ Directed.currentCommunityOutDegree d'
    = (Directed.currentCommunityOutDegree d
       + sumQc ((λ p, if decide (cn p = c) then w p else Q2Qc 0) <$> l))%Qc
  ∧ Directed.targetCommunityOutDegree d'
    = (Directed.targetCommunityOutDegree d
       + sumQc ((λ p, if decide (cn p = ci) then w p else Q2Qc 0) <$> l))%Qc.
Proof.
  cbn zeta. revert d. induction l as [|p l IH]; intros d Hl.
  - cbn. repeat split; ring.
  - cbn [foldl].
    destruct (IH (Directed.scan_edge s c ci m d p)) as (-> & -> & -> & -> & -> & ->).
    { intros q Hq. apply Hl. by apply list_elem_of_further. }
    rewrite !fmap_cons, !sumQc_cons.
    unfold Directed.scan_edge. cbn zeta.
    rewrite bool_decide_eq_true_2 by (apply Hl; apply list_elem_of_here).
    cbn [Directed.inDegree Directed.outDegree
         Directed.currentCommunityInDegree Directed.currentCommunityOutDegree
         Directed.targetCommunityInDegree Directed.targetCommunityOutDegree].
    repeat split; repeat case_decide; try congruence; ring.
Qed.

(** The same over entries that are all incoming. *)
Lemma directed_scan_in (s : Directed.Index) (c ci m : nat) (l : list nat)
    (d : Directed.Degrees) :
  (∀ p, p ∈ l → m ≤ p) →
  let d' := foldl (Directed.scan_edge s c ci m) d l in
  let cn p := Directed.belongings s !!! (Directed.neighborhood s !!! p) in
  let w p := Directed.weights s !!! p in
  Directed.outDegree d' = Directed.outDegree d
  ∧ Directed.currentCommunityOutDegree d'
    = Directed.currentCommunityOutDegree d
  ∧ Directed.targetCommunityOutDegree d' = Directed.targetCommunityOutDegree d
  ∧ Directed.inDegree d' = (Directed.inDegree d + sumQc (w <$> l))%Qc
  ∧ Directed.currentCommunityInDegree d'
    = (Directed.currentCommunityInDegree d
       + sumQc ((λ p, if decide (cn p = c) then w p else Q2Qc 0) <$> l))%Qc
  ∧ Directed.targetCommunityInDegree d'
    = (Directed.targetCommunityInDegree d
       + sumQc ((λ p, if decide (cn p = ci) then w p else Q2Qc 0) <$> l))%Qc.
Proof.
  cbn zeta. revert d. induction l as [|p l IH]; intros d Hl.
  - cbn. repeat split; ring.
  - cbn [foldl].
    destruct (IH (Directed.scan_edge s c ci m d p)) as (-> & -> & -> & -> & -> & ->).
    { intros q Hq. apply Hl. by apply list_elem_of_further. }
    rewrite !fmap_cons, !sumQc_cons.
    unfold Directed.scan_edge. cbn zeta.
    rewrite bool_decide_eq_false_2
      by (pose proof (Hl p (list_elem_of_here _ _)); lia).
    cbn [Directed.inDegree Directed.outDegree
         Directed.currentCommunityInDegree Directed.currentCommunityOutDegree
         Directed.targetCommunityInDegree Directed.targetCommunityOutDegree].
    repeat split; repeat case_decide; try congruence; ring.
Qed.

(** The six sums of [expensiveMove], over the two ranges of the block. *)
Lemma directed_scan_sums (s : Directed.Index) (i ci : nat) :
  Directed.starts s !!! i ≤ Directed.offsets s !!! i →
  Directed.offsets s !!! i ≤ Directed.starts s !!! (i + 1) →
  let d := Directed.scan s i ci in
  let c := Directed.belongings s !!! i in
  let cn p := Directed.belongings s !!! (Directed.neighborhood s !!! p) in
  let w p := Directed.weights s !!! p in
  let outgoing := range (Directed.starts s !!! i) (Directed.offsets s !!! i) in
  let incoming :=
    range (Directed.offsets s !!! i) (Directed.starts s !!! (i + 1)) in
  Directed.outDegree d = sumQc (w <$> outgoing)
  ∧ Directed.inDegree d = sumQc (w <$> incoming)
  ∧ Directed.currentCommunityOutDegree d
    = sumQc ((λ p, if decide (cn p = c) then w p else Q2Qc 0) <$> outgoing)
  ∧ Directed.currentCommunityInDegree d
    = sumQc ((λ p, if decide (cn p = c) then w p else Q2Qc 0) <$> incoming)
  ∧ Directed.targetCommunityOutDegree d
    = sumQc ((λ p, if decide (cn p = ci) then w p else Q2Qc 0) <$> outgoing)
  ∧ Directed.targetCommunityInDegree d
    = sumQc ((λ p, if decide (cn p = ci) then w p else Q2Qc 0) <$> incoming).
Proof.
  intros Ham Hmb. cbn zeta. unfold Directed.scan.
  rewrite (range_split _ _ _ Ham Hmb), foldl_app.
  set (m := Directed.offsets s !!! i) in *.
  set (c := Directed.belongings s !!! i).
  set (d0 := Directed.mkDegrees _ _ _ _ _ _).
  destruct (directed_scan_out s c ci m (range (Directed.starts s !!! i) m) d0)
    as (Hi1 & Hci1 & Hti1 & Ho1 & Hco1 & Hto1).
  { intros p Hp. unfold range in Hp. apply elem_of_seq in Hp. lia. }
  destruct (directed_scan_in s c ci m
              (range m (Directed.starts s !!! (i + 1)))
              (foldl (Directed.scan_edge s c ci m) d0
                     (range (Directed.starts s !!! i) m)))
    as (Ho2 & Hco2 & Hto2 & Hi2 & Hci2 & Hti2).
  { intros p Hp. unfold range in Hp. apply elem_of_seq in Hp. lia. }
  cbn zeta in *.
  rewrite Ho2, Hco2, Hto2, Hi2, Hci2, Hti2, Hi1, Hci1, Hti1, Ho1, Hco1, Hto1.
  unfold d0.
  cbn [Directed.inDegree Directed.outDegree
       Directed.currentCommunityInDegree Directed.currentCommunityOutDegree
       Directed.targetCommunityInDegree Directed.targetCommunityOutDegree].
  repeat split; ring.
Qed.

Lemma entries_of_slices {A B C} `{!Inhabited A, !Inhabited B}
    (f : C → A) (h : C → B) (xs : list A) (ys : list B) (a : nat)
    (es : list C) :
  take (length es) (drop a xs) = f <$> es →
  take (length es) (drop a ys) = h <$> es →
  (λ p, (xs !!! p, ys !!! p)) <$> seq a (length es)
  = (λ e, (f e, h e)) <$> es.
Proof.
  intros Hxs Hys. apply list_eq. intros k. rewrite !list_lookup_fmap.
  destruct (es !! k) as [e|] eqn:He.
  - pose proof (lookup_lt_Some _ _ _ He) as Hk.
    rewrite lookup_seq_lt by done. cbn. f_equal. f_equal.
    + apply list_lookup_total_correct.
      assert (H : take (length es) (drop a xs) !! k = (f <$> es) !! k)
        by (by rewrite Hxs).
      rewrite lookup_take_lt, lookup_drop, list_lookup_fmap, He in H by done.
      done.
    + apply list_lookup_total_correct.
      assert (H : take (length es) (drop a ys) !! k = (h <$> es) !! k)
        by (by rewrite Hys).
      rewrite lookup_take_lt, lookup_drop, list_lookup_fmap, He in H by done.
      done.
  - rewrite lookup_seq_ge by (by apply lookup_ge_None in He). done.
Qed.

(** The entries of the two ranges of a block in a fresh directed index. *)
Lemma directed_block_entries g o i node :
  Graph.wf g → fits g → Graph.nodes g !! i = Some node →
  let s := Directed.DirectedLouvainIndex g o in
  let ids := make_ids (Graph.nodes g) in
  Directed.starts s !!! i ≤ Directed.offsets s !!! i
  ∧ Directed.offsets s !!! i ≤ Directed.starts s !!! (i + 1)
  ∧ (λ p, (Directed.neighborhood s !!! p, Directed.weights s !!! p))
      <$> range (Directed.starts s !!! i) (Directed.offsets s !!! i)
    = (λ e, (ids_get ids (Graph.target e), Options.getWeight o e))
        <$> Graph.outEdges g node
  ∧ (λ p, (Directed.neighborhood s !!! p, Directed.weights s !!! p))
      <$> range (Directed.offsets s !!! i) (Directed.starts s !!! (i + 1))
    = (λ e, (ids_get ids (Graph.source e), Options.getWeight o e))
        <$> Graph.inEdges g node.
Proof.
  intros Hwf Hfits Hi. cbn zeta.
  destruct (directed_new_blocks g o i node Hwf Hfits Hi)
    as (Hm & Hb & Hout & Hin & Hwout & Hwin).
  set (s := Directed.DirectedLouvainIndex g o) in *.
  set (a := Directed.starts s !!! i) in *.
  set (m := Directed.offsets s !!! i) in *.
  set (b := Directed.starts s !!! (i + 1)) in *.
  split; [lia|]. split; [lia|].
  unfold slice, range in *.
  replace (m - a) with (length (Graph.outEdges g node)) in * by lia.
  replace (b - m) with (length (Graph.inEdges g node)) in * by lia.
  rewrite out_ids_targets in Hout. rewrite in_ids_sources in Hin.
  split.
  - by apply entries_of_slices.
  - by apply entries_of_slices.
Qed.

(** A sum over one of the two ranges of a block, read off the graph. *)
Lemma directed_block_view g o i node (F : nat → Qc → Qc) :
  Graph.wf g → fits g → Graph.nodes g !! i = Some node →
  let s := Directed.DirectedLouvainIndex g o in
  let ids := make_ids (Graph.nodes g) in
  sumQc ((λ p, F (Directed.neighborhood s !!! p) (Directed.weights s !!! p))
           <$> range (Directed.starts s !!! i) (Directed.offsets s !!! i))
  = sumQc ((λ e, F (ids_get ids (Graph.target e)) (Options.getWeight o e))
             <$> Graph.outEdges g node)
  ∧ sumQc ((λ p, F (Directed.neighborhood s !!! p)
                   (Directed.weights s !!! p))
             <$> range (Directed.offsets s !!! i)
                       (Directed.starts s !!! (i + 1)))
    = sumQc ((λ e, F (ids_get ids (Graph.source e)) (Options.getWeight o e))
               <$> Graph.inEdges g node).
Proof.
  intros Hwf Hfits Hi. cbn zeta.
  destruct (directed_block_entries g o i node Hwf Hfits Hi)
    as (_ & _ & Hout & Hin).
  set (s := Directed.DirectedLouvainIndex g o) in *.
  change (λ p, F (Directed.neighborhood s !!! p) (Directed.weights s !!! p))
    with ((λ q : nat * Qc, F q.1 q.2)
          ∘ (λ p, (Directed.neighborhood s !!! p, Directed.weights s !!! p))).
  rewrite !list_fmap_compose, Hout, Hin.
  by rewrite <- !list_fmap_compose.
Qed.

Lemma if_and (P Q : Prop) `{!Decision P, !Decision Q} (a : Qc) :
  (if decide (P ∧ Q) then a else Q2Qc 0)
  = (if decide P then (if decide Q then a else Q2Qc 0) else Q2Qc 0).
Proof. repeat case_decide; tauto || done. Qed.

(** What the move of node [i] into community [t] changes in the weight of
    the edges inside a community: the edges between the node and the
    community enter it or leave it. *)
Lemma edges_inside_move g o (bel : list nat) (i t c : nat) (node : string) :
  Graph.wf g → Graph.loop_free g →
  Graph.nodes g !! i = Some node → i < length bel →
  edges_inside g o (<[i := t]> bel) c
  = (edges_inside g o bel c
     + shift (bel !!! i) t c
       * (out_towards g o bel node c + in_towards g o bel node c))%Qc.
Proof.
  intros Hwf Hlf Hi Hlen. pose proof Hwf as [Hnd Hends].
  rewrite Forall_forall in Hends.
  unfold Graph.loop_free in Hlf. rewrite Forall_forall in Hlf.
  unfold edges_inside, out_towards, in_towards, Graph.outEdges, Graph.inEdges.
  cbn zeta.
  rewrite (sumQc_filter (λ e, Graph.source e = node)).
  rewrite (sumQc_filter (λ e, Graph.target e = node)).
  rewrite <- sumQc_fmap_plus, <- sumQc_fmap_scale, <- sumQc_fmap_plus.
  apply sumQc_fmap_ext. intros e He.
  destruct (Hends e He) as [Hsrc Htgt].
  pose proof (Hlf e He) as Hnl. unfold Graph.is_loop in Hnl.
  pose proof (ids_get_eq g _ i node Hnd Hsrc Hi) as Hu.
  pose proof (ids_get_eq g _ i node Hnd Htgt Hi) as Hv.
  set (u := ids_get (make_ids (Graph.nodes g)) (Graph.source e)) in *.
  set (v := ids_get (make_ids (Graph.nodes g)) (Graph.target e)) in *.
  rewrite !if_and. unfold shift.
  destruct (decide (Graph.source e = node)) as [Hs|Hs];
    destruct (decide (Graph.target e = node)) as [Ht|Ht].
  - exfalso. congruence.
  - assert (u = i) as -> by (by apply Hu).
    assert (v ≠ i) by (intros Hvi; by apply Ht, Hv).
    rewrite list_lookup_total_insert_eq by done.
    rewrite list_lookup_total_insert_ne by done.
    repeat case_decide; try congruence; ring.
  - assert (v = i) as -> by (by apply Hv).
    assert (u ≠ i) by (intros Hui; by apply Hs, Hu).
    rewrite list_lookup_total_insert_eq by done.
    rewrite list_lookup_total_insert_ne by done.
    repeat case_decide; try congruence; ring.
  - assert (u ≠ i) by (intros Hui; by apply Hs, Hu).
    assert (v ≠ i) by (intros Hvi; by apply Ht, Hv).
    rewrite !list_lookup_total_insert_ne by done.
    repeat case_decide; try congruence; ring.
Qed.

Lemma edges_inside_singletons g o c :
  Graph.wf g → Graph.loop_free g →
  edges_inside g o (seq 0 (Graph.order g)) c = Q2Qc 0.
Proof.
  intros Hwf Hlf. pose proof Hwf as [Hnd Hends].
  rewrite Forall_forall in Hends.
  unfold Graph.loop_free in Hlf. rewrite Forall_forall in Hlf.
  unfold edges_inside. cbn zeta.
  rewrite (sumQc_fmap_ext _ (λ _, Q2Qc 0)); [apply sumQc_fmap_0|].
  intros e He. destruct (Hends e He) as [Hsrc Htgt].
  pose proof (Hlf e He) as Hnl. unfold Graph.is_loop in Hnl.
  case_decide as Hc; [|done]. exfalso. destruct Hc as [Hcu Hcv].
  rewrite lookup_total_seq_lt in Hcu by (by apply ids_get_lt).
  rewrite lookup_total_seq_lt in Hcv by (by apply ids_get_lt).
  cbn in Hcu, Hcv.
  apply list_elem_of_lookup in Hsrc as [j Hj].
  apply Hnl. symmetry.
  apply (ids_get_eq g (Graph.target e) j (Graph.source e) Hnd Htgt Hj).
  rewrite (ids_get_make_ids _ j _ Hnd Hj) in Hcu. lia.
Qed.

Lemma members_weight_singletons (f : string → Qc) g c :
  c < Graph.order g →
  sumQc ((λ i, if decide (seq 0 (Graph.order g) !!! i = c)
               then f (Graph.nodes g !!! i) else Q2Qc 0)
           <$> seq 0 (Graph.order g))
  = f (Graph.nodes g !!! c).
Proof.
  intros Hc.
  rewrite (sumQc_fmap_ext _
             (λ i, if decide (i = c) then f (Graph.nodes g !!! i)
                   else Q2Qc 0)).
  - by rewrite sumQc_indicator.
  - intros i Hin%elem_of_seq. by rewrite lookup_total_seq_lt by lia.
Qed.

Lemma members_weight_move (f : string → Qc) g (bel : list nat) (i t c : nat) :
  i < Graph.order g → i < length bel →
  sumQc ((λ k, if decide (<[i := t]> bel !!! k = c)
               then f (Graph.nodes g !!! k) else Q2Qc 0)
           <$> seq 0 (Graph.order g))
  = (sumQc ((λ k, if decide (bel !!! k = c)
                  then f (Graph.nodes g !!! k) else Q2Qc 0)
              <$> seq 0 (Graph.order g))
     - (if decide (c = bel !!! i) then f (Graph.nodes g !!! i) else Q2Qc 0)
     + (if decide (c = t) then f (Graph.nodes g !!! i) else Q2Qc 0))%Qc.
Proof.
  intros Hi Hlen.
  rewrite (sumQc_point
             (λ k, if decide (bel !!! k = c)
                   then f (Graph.nodes g !!! k) else Q2Qc 0)
             (λ k, if decide (<[i:=t]> bel !!! k = c)
                   then f (Graph.nodes g !!! k) else Q2Qc 0)
             (seq 0 (Graph.order g)) i).
  - rewrite list_lookup_total_insert_eq by done.
    repeat case_decide; try congruence; ring.
  - apply NoDup_seq.
  - apply elem_of_seq. lia.
  - intros k _ Hk. by rewrite list_lookup_total_insert_ne.
Qed.

(** What the states the directed [expensiveMove] reaches keep. *)
Lemma directed_moved_invariant g o s :
  Graph.wf g → Graph.loop_free g → fits g → directed_moved g o s →
  let s0 := Directed.DirectedLouvainIndex g o in
  Directed.C s = Graph.order g
  ∧ Directed.M s = Directed.M s0
  ∧ Directed.neighborhood s = Directed.neighborhood s0
  ∧ Directed.weights s = Directed.weights s0
  ∧ Directed.starts s = Directed.starts s0
  ∧ Directed.offsets s = Directed.offsets s0
  ∧ Directed.loops s = Directed.loops s0
  ∧ length (Directed.belongings s) = Graph.order g
  ∧ length (Directed.internalWeights s) = Graph.order g
  ∧ length (Directed.totalInWeights s) = Graph.order g
  ∧ length (Directed.totalOutWeights s) = Graph.order g
  ∧ (∀ i, i < Graph.order g → Directed.belongings s !!! i < Graph.order g)
  ∧ (∀ c, Directed.internalWeights s !!! c
          = edges_inside g o (Directed.belongings s) c)
  ∧ (∀ c, c < Graph.order g →
          Directed.totalInWeights s !!! c
          = members_in_weight g o (Directed.belongings s) c)
  ∧ (∀ c, c < Graph.order g →
          Directed.totalOutWeights s !!! c
          = members_out_weight g o (Directed.belongings s) c).
Proof.
  intros Hwf Hlf Hfits Hs. cbn zeta. pose proof Hwf as [Hnd _].
  induction Hs as [|s i t Hs IH Hi Ht].
  - destruct (directed_new_weights g o Hwf) as (_ & Hout & Hin).
    assert (Hbel : Directed.belongings (Directed.DirectedLouvainIndex g o)
                   = seq 0 (Graph.order g)).
    { unfold Directed.DirectedLouvainIndex. cbn [Directed.belongings].
      rewrite directed_build_loop_built. unfold directed_built.
      cbn [Directed.b_belongings].
      by rewrite Nat.sub_diag, app_nil_r. }
    rewrite Hbel, Hout, Hin, !length_fmap, length_seq.
    repeat (split; [done|]).
    split; [cbn; by rewrite length_replicate|].
    split; [done|]. split; [done|].
    split; [intros i Hi; by rewrite lookup_total_seq_lt|].
    split; [|split].
    + intros c. rewrite edges_inside_singletons by done. cbn.
      destruct (decide (c < Graph.order g)) as [Hc|Hc].
      * apply list_lookup_total_correct. by apply lookup_replicate_2.
      * rewrite list_lookup_total_alt, lookup_ge_None_2; [done|].
        rewrite length_replicate. lia.
    + intros c Hc. unfold members_in_weight.
      rewrite (members_weight_singletons (in_weight g o)) by done.
      apply list_lookup_total_correct. rewrite list_lookup_fmap.
      by rewrite (list_lookup_lookup_total_lt (Graph.nodes g) c).
    + intros c Hc. unfold members_out_weight.
      rewrite (members_weight_singletons (out_weight g o)) by done.
      apply list_lookup_total_correct. rewrite list_lookup_fmap.
      by rewrite (list_lookup_lookup_total_lt (Graph.nodes g) c).
  - destruct IH as (HC & HM & Hnb & Hws & Hst & Hoff & Hlp & Hlb & Hliw
                    & Hlin & Hlout & Hrange & Hiw & Htin & Htout).
    rewrite HC in Hi, Ht.
    assert (Hnode : Graph.nodes g !! i = Some (Graph.nodes g !!! i))
      by (by apply list_lookup_lookup_total_lt).
    set (node := Graph.nodes g !!! i) in *.
    destruct (directed_block_entries g o i node Hwf Hfits Hnode)
      as (Ham & Hmb & _).
    assert (Hloop : Directed.loops s !!! i = Q2Qc 0).
    { rewrite Hlp. cbn. apply list_lookup_total_correct.
      by apply lookup_replicate_2. }
    pose proof (Hrange i Hi) as Hc0.
    set (c0 := Directed.belongings s !!! i) in *.
    (* the six sums of the scan, read off the graph *)
    assert (Hscan : ∀ ci,
      let d := Directed.scan s i ci in
      Directed.outDegree d = out_weight g o node
      ∧ Directed.inDegree d = in_weight g o node
      ∧ Directed.currentCommunityOutDegree d
        = out_towards g o (Directed.belongings s) node c0
      ∧ Directed.currentCommunityInDegree d
        = in_towards g o (Directed.belongings s) node c0
      ∧ Directed.targetCommunityOutDegree d
        = out_towards g o (Directed.belongings s) node ci
      ∧ Directed.targetCommunityInDegree d
        = in_towards g o (Directed.belongings s) node ci).
    { intros ci. cbn zeta.
      destruct (directed_scan_sums s i ci)
        as (Ho & Hin & Hco & Hci & Hto & Hti);
        [by rewrite Hst, Hoff|by rewrite Hst, Hoff|].
      cbn zeta in *. fold c0 in Hco, Hci.
      rewrite Ho, Hin, Hco, Hci, Hto, Hti, Hnb, Hws, Hst, Hoff.
      destruct (directed_block_view g o i node (λ _ w, w) Hwf Hfits Hnode)
        as [Hv1 Hv2].
      destruct (directed_block_view g o i node
                  (λ n w, if decide (Directed.belongings s !!! n = c0)
                          then w else Q2Qc 0) Hwf Hfits Hnode) as [Hv3 Hv4].
      destruct (directed_block_view g o i node
                  (λ n w, if decide (Directed.belongings s !!! n = ci)
                          then w else Q2Qc 0) Hwf Hfits Hnode) as [Hv5 Hv6].
      cbn zeta in *.
      repeat split; first [exact Hv1|exact Hv2|exact Hv3|exact Hv4
                          |exact Hv5|exact Hv6]. }
    destruct (Hscan t) as (Ho & Hin & Hco & Hci & Hto & Hti).
    cbn zeta in Ho, Hin, Hco, Hci, Hto, Hti.
    unfold Directed.expensiveMove. cbn zeta.
    rewrite Ho, Hin, Hco, Hci, Hto, Hti.
    cbn [Directed.C Directed.M Directed.neighborhood Directed.weights
         Directed.starts Directed.offsets Directed.loops Directed.belongings
         Directed.internalWeights Directed.totalInWeights
         Directed.totalOutWeights Directed.move].
    fold c0. rewrite Hloop.
    unfold Directed.NodesPointerArray. rewrite Hlb, (pointer_lt _ t) by done.
    unfold arr_add, arr_sub. rewrite !length_insert.
    repeat (split; [done|]).
    split; [|split; [|split]].
    + intros k Hk.
      destruct (decide (k = i)) as [->|Hne].
      * by rewrite list_lookup_total_insert_eq by lia.
      * rewrite list_lookup_total_insert_ne by done. by apply Hrange.
    + intros c.
      rewrite (edges_inside_move g o _ i t c node) by (done || lia).
      fold c0. fold (arr_sub c0 (in_towards g o (Directed.belongings s) node c0
                                 + out_towards g o (Directed.belongings s) node c0
                                 + Q2Qc 0) (Directed.internalWeights s)).
      fold (arr_add t (in_towards g o (Directed.belongings s) node t
                       + out_towards g o (Directed.belongings s) node t
                       + Q2Qc 0)
              (arr_sub c0 (in_towards g o (Directed.belongings s) node c0
                           + out_towards g o (Directed.belongings s) node c0
                           + Q2Qc 0) (Directed.internalWeights s))).
      rewrite lookup_add_sub_two by lia.
      rewrite Hiw. unfold shift.
      repeat case_decide; subst; try congruence; ring.
    + intros c Hc.
      fold (arr_sub c0 (in_weight g o node + Q2Qc 0)
                    (Directed.totalInWeights s)).
      fold (arr_add t (in_weight g o node + Q2Qc 0)
              (arr_sub c0 (in_weight g o node + Q2Qc 0)
                       (Directed.totalInWeights s))).
      rewrite lookup_add_sub by lia.
      rewrite Htin by done. unfold members_in_weight.
      rewrite (members_weight_move (in_weight g o)) by (done || lia).
      fold c0. fold node.
      repeat case_decide; try congruence; ring.
    + intros c Hc.
      fold (arr_sub c0 (out_weight g o node + Q2Qc 0)
                    (Directed.totalOutWeights s)).
      fold (arr_add t (out_weight g o node + Q2Qc 0)
              (arr_sub c0 (out_weight g o node + Q2Qc 0)
                       (Directed.totalOutWeights s))).
      rewrite lookup_add_sub by lia.
      rewrite Htout by done. unfold members_out_weight.
      rewrite (members_weight_move (out_weight g o)) by (done || lia).
      fold c0. fold node.
      repeat case_decide; try congruence; ring.
Qed.

(** X25. On a graph without self-loop whose arrays [starts] and [offsets]
    hold [upperBound] ([2 * size] is none of 2^8, 2^16 and 2^32), after any
    sequence of [expensiveMove]s on a fresh directed index,
    [internalWeights[c]] is the weight of the edges that have their two ends
    in community [c], [totalInWeights[c]] the weight that enters the nodes
    of [c] and [totalOutWeights[c]] the weight that leaves them. *)
Theorem directed_expensiveMove_keeps_the_weights (g : Graph.t)
    (o : Options.t) (s : Directed.Index) (c : nat) :
  Graph.wf g → Graph.loop_free g → fits g → directed_moved g o s →
  c < Graph.order g →
  Directed.internalWeights s !!! c
  = edges_inside g o (Directed.belongings s) c
  ∧ Directed.totalInWeights s !!! c
    = members_in_weight g o (Directed.belongings s) c
  ∧ Directed.totalOutWeights s !!! c
    = members_out_weight g o (Directed.belongings s) c.
Proof.
  intros Hwf Hlf Hfits Hs Hc.
  destruct (directed_moved_invariant g o s Hwf Hlf Hfits Hs)
    as (_ & _ & _ & _ & _ & _ & _ & _ & _ & _ & _ & _ & Hiw & Htin & Htout).
  split; [apply Hiw|]. split; [by apply Htin|by apply Htout].
Qed.

Lemma arrow_graph_wf : Graph.wf arrow_graph.
Proof. unfold Graph.wf. split; compute_done. Defined.

Lemma arrow_graph_loop_free : Graph.loop_free arrow_graph.
Proof. unfold Graph.loop_free. compute_done. Defined.

Lemma directed_expensiveMove_keeps_the_weights_witness :
  let s := Directed.expensiveMove 0 1
             (Directed.DirectedLouvainIndex arrow_graph Options.DEFAULTS) in
  Graph.wf arrow_graph ∧ Graph.loop_free arrow_graph ∧ fits arrow_graph
  ∧ directed_moved arrow_graph Options.DEFAULTS s
  ∧ 1 < Graph.order arrow_graph
  ∧ Directed.internalWeights s !!! 1
    = edges_inside arrow_graph Options.DEFAULTS (Directed.belongings s) 1
  ∧ Directed.totalInWeights s !!! 1
    = members_in_weight arrow_graph Options.DEFAULTS (Directed.belongings s) 1
  ∧ Directed.totalOutWeights s !!! 1
    = members_out_weight arrow_graph Options.DEFAULTS (Directed.belongings s)
        1.
Proof.
  cbn zeta.
  assert (Hs : directed_moved arrow_graph Options.DEFAULTS
                 (Directed.expensiveMove 0 1
                    (Directed.DirectedLouvainIndex arrow_graph
                       Options.DEFAULTS))).
  { apply directed_moved_step;
      [apply directed_moved_new|vm_compute; lia|vm_compute; lia]. }
  assert (Hc : 1 < Graph.order arrow_graph) by (vm_compute; lia).
  split; [exact arrow_graph_wf|]. split; [exact arrow_graph_loop_free|].
  split; [exact arrow_graph_fits|]. split; [exact Hs|]. split; [exact Hc|].
  exact (directed_expensiveMove_keeps_the_weights arrow_graph
           Options.DEFAULTS _ 1 arrow_graph_wf arrow_graph_loop_free
           arrow_graph_fits Hs Hc).
Defined.

(** X26. On a graph without self-loop whose arrays [starts] and [offsets]
    hold [upperBound], after any sequence of [expensiveMove]s on a fresh
    directed index, [modularity()] is the modularity of the partition
    [belongings] holds, as computed from the graph: the sum over the
    communities of the weight inside over the total weight, minus the
    product of the weight that enters the community by the weight that
    leaves it over the square of the total weight. *)
Theorem directed_modularity_is_that_of_the_partition (g : Graph.t)
    (o : Options.t) (s : Directed.Index) :
  Graph.wf g → Graph.loop_free g → fits g → directed_moved g o s →
  Directed.modularity s = directed_partition_modularity g o s.
Proof.
  intros Hwf Hlf Hfits Hs.
  destruct (directed_moved_invariant g o s Hwf Hlf Hfits Hs)
    as (HC & HM & _ & _ & _ & _ & _ & _ & _ & _ & _ & _ & Hiw & Htin & Htout).
  destruct (directed_new_weights g o Hwf) as (HM0 & _).
  rewrite directed_modularity_sum. unfold directed_partition_modularity.
  rewrite HC, HM, HM0.
  apply sumQc_fmap_ext. intros c Hc%elem_of_seq.
  by rewrite Hiw, Htin, Htout by lia.
Qed.

Lemma directed_modularity_is_that_of_the_partition_witness :
  let s := Directed.expensiveMove 0 1
             (Directed.DirectedLouvainIndex arrow_graph Options.DEFAULTS) in
  Graph.wf arrow_graph ∧ Graph.loop_free arrow_graph ∧ fits arrow_graph
  ∧ directed_moved arrow_graph Options.DEFAULTS s
  ∧ Directed.modularity s
    = directed_partition_modularity arrow_graph Options.DEFAULTS s.
Proof.
  cbn zeta.
  assert (Hs : directed_moved arrow_graph Options.DEFAULTS
                 (Directed.expensiveMove 0 1
                    (Directed.DirectedLouvainIndex arrow_graph
                       Options.DEFAULTS))).
  { apply directed_moved_step;
      [apply directed_moved_new|vm_compute; lia|vm_compute; lia]. }
  split; [exact arrow_graph_wf|]. split; [exact arrow_graph_loop_free|].
  split; [exact arrow_graph_fits|]. split; [exact Hs|].
  exact (directed_modularity_is_that_of_the_partition arrow_graph
           Options.DEFAULTS _ arrow_graph_wf arrow_graph_loop_free
           arrow_graph_fits Hs).
Defined.

(** ** Coarsening of the directed index *)

Lemma directed_renumber_node_upto (s : Directed.Index) (k : nat)
    (r : Directed.Renumbering) :
  k < length (Directed.belongings s) →
  directed_renumbered_upto s k r →
  directed_renumbered_upto s (S k) (Directed.renumber_node s r k).
Proof.
  intros Hk (Hig & Hlab & Hbel).
  pose proof (list_lookup_lookup_total_lt _ _ Hk) as Hbk.
  set (bel := Directed.belongings s) in *.
  set (ci := bel !!! k) in *.
  assert (Hlen : length (dense_label (take k bel) <$> take k bel) = k)
    by (rewrite length_fmap, length_take; lia).
  assert (Hci : Directed.r_belongings r !!! k = ci).
  { rewrite Hbel. apply list_lookup_total_correct.
    rewrite lookup_app_r by lia. rewrite Hlen, Nat.sub_diag.
    rewrite lookup_drop, Nat.add_0_r. done. }
  assert (Hstable :
    dense_label (take k bel ++ [ci]) <$> take k bel
    = dense_label (take k bel) <$> take k bel).
  { apply list_fmap_ext. intros i x Hx. apply dense_label_snoc.
    by eapply list_elem_of_lookup_2. }
  assert (Hwrite : ∀ v,
    <[k := v]> ((dense_label (take k bel) <$> take k bel) ++ drop k bel)
    = ((dense_label (take k bel) <$> take k bel) ++ [v])
        ++ drop (S k) bel).
  { intros v. rewrite insert_app_r_alt by lia. rewrite Hlen, Nat.sub_diag.
    rewrite (drop_S _ ci k) by done. cbn. by rewrite <- app_assoc. }
  pose proof (length_first_seen (take k bel)) as Hfs.
  rewrite length_take in Hfs.
  unfold directed_renumbered_upto, Directed.renumber_node. cbn zeta.
  fold bel.
  rewrite (take_S_r _ _ ci) by done. rewrite Hci, Hlab.
  rewrite first_seen_snoc.
  destruct (index_of ci (first_seen (take k bel))) as [v|] eqn:Hidx.
  - assert (Hin : ci ∈ first_seen (take k bel)).
    { destruct (decide (ci ∈ first_seen (take k bel))) as [|Hn]; [done|].
      apply index_of_None in Hn. congruence. }
    rewrite decide_True by done. cbn.
    split; [done|]. split; [done|].
    rewrite Hlab, Hidx. cbn [default].
    pose proof (lookup_lt_Some _ _ _ (index_of_Some _ _ _ Hidx)) as Hv.
    unfold Directed.NodesPointerArray, id. fold bel.
    rewrite pointer_lt by lia.
    rewrite Hbel, Hwrite. cbn.
    rewrite fmap_app, Hstable. do 2 f_equal. cbn. f_equal.
    unfold dense_label. rewrite first_seen_snoc, decide_True by done.
    by rewrite Hidx.
  - assert (Hnin : ci ∉ first_seen (take k bel))
      by (by apply index_of_None).
    rewrite decide_False by done. cbn.
    split; [|split].
    + rewrite Hig, fmap_app. done.
    + intros c. rewrite index_of_snoc.
      destruct (decide (ci = c)) as [->|Hne].
      * rewrite lookup_insert_eq, Hidx, Hig, length_fmap. done.
      * rewrite lookup_insert_ne by done. rewrite Hlab.
        by destruct (index_of c (first_seen (take k bel))).
    + rewrite lookup_insert_eq. cbn [default].
      unfold Directed.NodesPointerArray, id. fold bel.
      rewrite pointer_lt by (rewrite Hig, length_fmap; lia).
      rewrite Hbel, Hwrite. cbn.
      rewrite fmap_app, Hstable. do 2 f_equal. cbn. f_equal.
      unfold dense_label. rewrite first_seen_snoc, decide_False by done.
      rewrite index_of_snoc, Hidx, decide_True by done. cbn.
      by rewrite Hig, length_fmap.
Qed.

Lemma directed_renumber_spec (s : Directed.Index) :
  Directed.C s ≤ length (Directed.belongings s) →
  Directed.r_inducedGraph (Directed.renumber s)
  = directed_community_of s <$> directed_occupied s
  ∧ length (Directed.r_belongings (Directed.renumber s))
    = length (Directed.belongings s).
Proof.
  intros HC. unfold Directed.renumber.
  assert (H : ∀ k, k ≤ length (Directed.belongings s) →
    directed_renumbered_upto s k
      (foldl (Directed.renumber_node s)
             (Directed.mkRenumbering ∅ [] (Directed.belongings s))
             (seq 0 k))).
  { induction k as [|k IH]; intros Hk.
    - cbn. unfold directed_renumbered_upto. cbn. rewrite drop_0. done.
    - rewrite seq_S, foldl_snoc. cbn.
      apply directed_renumber_node_upto; [lia|]. apply IH. lia. }
  destruct (H (Directed.C s) HC) as (Hig & _ & Hbel).
  split; [done|].
  rewrite Hbel, length_app, length_fmap, length_take, length_drop. lia.
Qed.

Lemma directed_alter_fields {B} (proj : Directed.Community → B) out cj w ci
    (l : list Directed.Community) :
  (∀ c, proj (Directed.community_add out cj w c) = proj c) →
  proj <$> alter (Directed.community_add out cj w) ci l = proj <$> l.
Proof.
  intros Hproj. revert ci. induction l as [|c l IH]; intros [|ci]; cbn;
    [done|done| |].
  - by rewrite Hproj.
  - f_equal. apply IH.
Qed.

Lemma directed_induce_keeps s r :
  directed_induced_keeps (Directed.r_inducedGraph r) (Directed.induce s r).
Proof.
  unfold Directed.induce. apply foldl_invariant; [done|].
  intros acc i Hacc. unfold Directed.induce_node.
  apply foldl_invariant; [done|].
  intros acc' j (Hin & Hout & Hint & Hlen). unfold Directed.induce_edge.
  cbn zeta. destruct (decide _); [done|].
  unfold directed_induced_keeps. cbn [fst].
  rewrite !directed_alter_fields by done. by rewrite length_alter.
Qed.

Lemma directed_rewrite_edges_fields (s : Directed.Index)
    (es : list (nat * Qc)) (w : Directed.Rewriting) :
  directed_same_fields w (foldl (Directed.rewrite_edge s) w es).
Proof.
  revert w. induction es as [|e es IH]; intros w; [done|].
  cbn [foldl]. destruct (IH (Directed.rewrite_edge s w e))
    as (H1 & H2 & H3 & H4 & H5).
  unfold directed_same_fields. rewrite H1, H2, H3, H4, H5. done.
Qed.

Lemma directed_rewrite_fields (s : Directed.Index)
    (w0 : Directed.Rewriting) (ig : list Directed.Community) :
  length ig ≤ length (Directed.belongings s) →
  length ig ≤ length (Directed.w_loops w0) →
  length ig ≤ length (Directed.w_belongings w0) →
  length ig ≤ length (Directed.w_internalWeights w0) →
  length ig ≤ length (Directed.w_totalInWeights w0) →
  length ig ≤ length (Directed.w_totalOutWeights w0) →
  directed_rewritten_fields w0 ig
    (foldl (Directed.rewrite_community s) w0 (imap pair ig)).
Proof.
  induction ig as [|c ig IH] using rev_ind;
    intros Hty Hlp Hbel Hiw Hin Hout.
  - cbn. unfold directed_rewritten_fields. repeat split; try done.
  - rewrite length_app in Hty, Hlp, Hbel, Hiw, Hin, Hout.
    cbn in Hty, Hlp, Hbel, Hiw, Hin, Hout.
    rewrite imap_app, foldl_app. cbn [imap foldl].
    rewrite Nat.add_0_r.
    destruct IH as (Hllp & Hlbel & Hliw & Hlin & Hlout & Hat);
      [lia|lia|lia|lia|lia|lia|].
    set (w := foldl (Directed.rewrite_community s) w0 (imap pair ig)) in *.
    unfold Directed.rewrite_community.
    match goal with
    | |- directed_rewritten_fields _ _
           (foldl (Directed.rewrite_edge s)
                  (Directed.rewrite_offset s ?ci ?w2) ?es)
      => destruct (directed_rewrite_edges_fields s es
                     (Directed.rewrite_offset s ci w2))
           as (Hf1 & Hf2 & Hf3 & Hf4 & Hf5)
    end.
    unfold directed_rewritten_fields.
    rewrite Hf1, Hf2, Hf3, Hf4, Hf5.
    cbn [Directed.rewrite_offset Directed.w_loops Directed.w_belongings
         Directed.w_internalWeights Directed.w_totalInWeights
         Directed.w_totalOutWeights].
    match goal with
    | |- context [foldl (Directed.rewrite_edge s) ?w1 ?es] =>
        destruct (directed_rewrite_edges_fields s es w1)
          as (Hg1 & Hg2 & Hg3 & Hg4 & Hg5)
    end.
    rewrite Hg1, Hg2, Hg3, Hg4, Hg5.
    cbn [Directed.w_loops Directed.w_belongings
         Directed.w_internalWeights Directed.w_totalInWeights
         Directed.w_totalOutWeights].
    rewrite !length_insert.
    unfold Directed.NodesPointerArray. rewrite pointer_lt by lia.
    repeat (split; [done|]).
    intros ci data Hci.
    destruct (decide (ci = length ig)) as [->|Hne].
    + rewrite lookup_app_r, Nat.sub_diag in Hci by lia.
      injection Hci as <-.
      by rewrite !list_lookup_total_insert_eq by lia.
    + assert (Hlt : ci < length ig).
      { apply lookup_lt_Some in Hci. rewrite length_app in Hci.
        cbn in Hci. lia. }
      rewrite lookup_app_l in Hci by done.
      rewrite !list_lookup_total_insert_ne by done. by apply Hat.
Qed.

(** What the directed [zoomOut] leaves in the arrays for each new
    community. *)
Lemma directed_zoomOut_communities (s : Directed.Index) :
  Directed.C s ≤ length (Directed.belongings s) →
  Directed.C s ≤ length (Directed.loops s) →
  Directed.C s ≤ length (Directed.internalWeights s) →
  Directed.C s ≤ length (Directed.totalInWeights s) →
  Directed.C s ≤ length (Directed.totalOutWeights s) →
  Directed.C (Directed.zoomOut s) = length (directed_occupied s)
  ∧ Directed.C (Directed.zoomOut s) ≤ Directed.C s
  ∧ ∀ ci c, directed_occupied s !! ci = Some c →
      Directed.belongings (Directed.zoomOut s) !!! ci = ci
      ∧ Directed.loops (Directed.zoomOut s) !!! ci
        = Directed.internalWeights s !!! c
      ∧ Directed.internalWeights (Directed.zoomOut s) !!! ci
        = Directed.internalWeights s !!! c
      ∧ Directed.totalInWeights (Directed.zoomOut s) !!! ci
        = Directed.totalInWeights s !!! c
      ∧ Directed.totalOutWeights (Directed.zoomOut s) !!! ci
        = Directed.totalOutWeights s !!! c.
Proof.
  intros Hbel Hlp Hiw Hin Hout.
  destruct (directed_renumber_lengths s) as (Hlen & _).
  destruct (directed_renumber_spec s Hbel) as (Hig & Hlb).
  pose proof (directed_induce_keeps s (Directed.renumber s))
    as (Hkin & Hkout & Hkint & Hlig).
  unfold Directed.zoomOut. cbn zeta.
  destruct (Directed.induce s (Directed.renumber s)) as [ig E'] eqn:Hind.
  cbn [fst] in Hkin, Hkout, Hkint, Hlig.
  cbn [Directed.C Directed.belongings Directed.loops
       Directed.internalWeights Directed.totalInWeights
       Directed.totalOutWeights].
  destruct (directed_rewrite_fields s
              (Directed.rewrite_init s
                 (Directed.r_belongings (Directed.renumber s))) ig)
    as (_ & _ & _ & _ & _ & Hat); cbn; [lia|lia|lia|lia|lia|lia|].
  fold (Directed.rewrite s (Directed.r_belongings (Directed.renumber s)) ig)
    in Hat.
  assert (HC : length (Directed.r_inducedGraph (Directed.renumber s))
               = length (directed_occupied s))
    by (by rewrite Hig, length_fmap).
  split; [done|]. split; [done|].
  intros ci c Hci.
  assert (Hlt : ci < length ig).
  { apply lookup_lt_Some in Hci. lia. }
  destruct (lookup_lt_is_Some_2 ig ci Hlt) as [data Hdata].
  destruct (Hat ci data Hdata) as (Hb & Hl & Hi & Hti & Hto).
  assert (Hfield : ∀ (proj : Directed.Community → Qc),
            proj <$> ig
            = proj <$> Directed.r_inducedGraph (Directed.renumber s) →
            proj data = proj (directed_community_of s c)).
  { intros proj Heq.
    assert (H : (proj <$> ig) !! ci
                = (proj <$> Directed.r_inducedGraph (Directed.renumber s))
                    !! ci) by (by rewrite Heq).
    rewrite Hig, <- list_fmap_compose, !list_lookup_fmap, Hdata, Hci in H.
    cbn in H. by injection H. }
  rewrite Hb, Hl, Hi, Hti, Hto.
  rewrite (Hfield _ Hkint), (Hfield _ Hkin), (Hfield _ Hkout). done.
Qed.

Lemma directed_term_0 (M : Qc) :
  directed_term M (Q2Qc 0) (Q2Qc 0) (Q2Qc 0) = Q2Qc 0.
Proof. unfold directed_term, Qcdiv. cbn [Qcpower]. ring. Qed.

Lemma directed_occupied_members (s : Directed.Index) (c : nat) :
  Directed.C s ≤ length (Directed.belongings s) →
  c ∈ directed_occupied s
  ↔ ∃ i, i < Directed.C s ∧ Directed.belongings s !!! i = c.
Proof.
  intros Hbel. unfold directed_occupied. rewrite elem_of_first_seen. split.
  - intros [i Hi]%list_elem_of_lookup.
    apply lookup_take_Some in Hi as [Hi Hlt].
    exists i. split; [done|]. by apply list_lookup_total_correct.
  - intros (i & Hi & <-). apply list_elem_of_lookup. exists i.
    rewrite lookup_take_lt by done. apply list_lookup_lookup_total_lt. lia.
Qed.

(** X27. The directed [zoomOut] leaves as many communities as had a member;
    each new community holds the one node that bears its index, with the
    internal weight (also its loop weight) and the total weights of the
    community it stands for; and [modularity()] and [M] are unchanged,
    provided every community dropped, one left without a member, has
    weights 0. *)
Theorem directed_zoomOut_keeps_the_communities (s : Directed.Index) :
  Directed.C s ≤ length (Directed.belongings s) →
  Directed.C s ≤ length (Directed.loops s) →
  Directed.C s ≤ length (Directed.internalWeights s) →
  Directed.C s ≤ length (Directed.totalInWeights s) →
  Directed.C s ≤ length (Directed.totalOutWeights s) →
  let s' := Directed.zoomOut s in
  Directed.C s' = length (directed_occupied s)
  ∧ Directed.C s' ≤ Directed.C s
  ∧ Directed.M s' = Directed.M s
  ∧ (∀ ci, ci < Directed.C s' →
       ∃ c, directed_occupied s !! ci = Some c
            ∧ Directed.belongings s' !!! ci = ci
            ∧ Directed.loops s' !!! ci = Directed.internalWeights s !!! c
            ∧ Directed.internalWeights s' !!! ci
              = Directed.internalWeights s !!! c
            ∧ Directed.totalInWeights s' !!! ci
              = Directed.totalInWeights s !!! c
            ∧ Directed.totalOutWeights s' !!! ci
              = Directed.totalOutWeights s !!! c)
  ∧ ((∀ i, i < Directed.C s → Directed.belongings s !!! i < Directed.C s) →
     (∀ c, c < Directed.C s → directed_memberless s c →
        Directed.internalWeights s !!! c = Q2Qc 0
        ∧ Directed.totalInWeights s !!! c = Q2Qc 0
        ∧ Directed.totalOutWeights s !!! c = Q2Qc 0) →
     Directed.modularity s' = Directed.modularity s).
Proof.
  intros Hbel Hlp Hiw Hin Hout. cbn zeta.
  destruct (directed_zoomOut_communities s Hbel Hlp Hiw Hin Hout)
    as (HC & Hle & Hat).
  assert (HM : Directed.M (Directed.zoomOut s) = Directed.M s).
  { unfold Directed.zoomOut. cbn zeta.
    by destruct (Directed.induce s (Directed.renumber s)). }
  split; [done|]. split; [done|]. split; [done|]. split.
  - intros ci Hci. rewrite HC in Hci.
    destruct (lookup_lt_is_Some_2 _ _ Hci) as [c Hc].
    exists c. split; [done|]. by apply Hat.
  - intros Hrange Hempty.
    rewrite !directed_modularity_sum, HM.
    set (term := λ c, directed_term (Directed.M s)
                        (Directed.internalWeights s !!! c)
                        (Directed.totalInWeights s !!! c)
                        (Directed.totalOutWeights s !!! c)).
    assert (Hnew :
      (λ i, directed_term (Directed.M s)
              (Directed.internalWeights (Directed.zoomOut s) !!! i)
              (Directed.totalInWeights (Directed.zoomOut s) !!! i)
              (Directed.totalOutWeights (Directed.zoomOut s) !!! i))
        <$> seq 0 (Directed.C (Directed.zoomOut s))
      = term <$> directed_occupied s).
    { rewrite HC. apply list_eq. intros k.
      rewrite !list_lookup_fmap.
      destruct (directed_occupied s !! k) as [c|] eqn:Hk.
      - rewrite lookup_seq_lt by (by apply lookup_lt_Some in Hk). cbn.
        destruct (Hat k c Hk) as (_ & _ & -> & -> & ->). done.
      - rewrite lookup_seq_ge by (by apply lookup_ge_None in Hk). done. }
    rewrite Hnew.
    assert (Hperm :
      seq 0 (Directed.C s)
      ≡ₚ directed_occupied s
         ++ filter (λ x, x ∉ directed_occupied s) (seq 0 (Directed.C s))).
    { apply seq_split_first_seen; [apply NoDup_first_seen|].
      intros x (i & Hi & <-)%directed_occupied_members; [|done].
      by apply Hrange. }
    change ((λ i, directed_term (Directed.M s)
                    (Directed.internalWeights s !!! i)
                    (Directed.totalInWeights s !!! i)
                    (Directed.totalOutWeights s !!! i))
              <$> seq 0 (Directed.C s))
      with (term <$> seq 0 (Directed.C s)).
    rewrite (sumQc_perm _ _ (fmap_Permutation term _ _ Hperm)).
    rewrite fmap_app, sumQc_app.
    rewrite (sumQc_fmap_ext term (λ _, Q2Qc 0) (filter _ _)).
    + rewrite sumQc_fmap_0. ring.
    + intros c [Hc Hseq]%list_elem_of_filter. apply elem_of_seq in Hseq.
      destruct (Hempty c) as (HI & HTi & HTo); [lia| |].
      * intros i Hi Heq. apply Hc.
        apply directed_occupied_members; [done|]. by exists i.
      * unfold term. rewrite HI, HTi, HTo. apply directed_term_0.
Qed.

Lemma directed_zoomOut_keeps_the_communities_witness :
  let s := Directed.expensiveMove 0 1
             (Directed.DirectedLouvainIndex arrow_graph Options.DEFAULTS) in
  Directed.C s ≤ length (Directed.belongings s)
  ∧ Directed.C s ≤ length (Directed.loops s)
  ∧ Directed.C s ≤ length (Directed.internalWeights s)
  ∧ Directed.C s ≤ length (Directed.totalInWeights s)
  ∧ Directed.C s ≤ length (Directed.totalOutWeights s)
  ∧ Directed.C (Directed.zoomOut s) = length (directed_occupied s)
  ∧ Directed.C (Directed.zoomOut s) ≤ Directed.C s
  ∧ Directed.M (Directed.zoomOut s) = Directed.M s.
Proof.
  cbn zeta.
  set (s := Directed.expensiveMove 0 1
              (Directed.DirectedLouvainIndex arrow_graph Options.DEFAULTS)).
  assert (Hbel : Directed.C s ≤ length (Directed.belongings s))
    by (vm_compute; lia).
  assert (Hlp : Directed.C s ≤ length (Directed.loops s))
    by (vm_compute; lia).
  assert (Hiw : Directed.C s ≤ length (Directed.internalWeights s))
    by (vm_compute; lia).
  assert (Hin : Directed.C s ≤ length (Directed.totalInWeights s))
    by (vm_compute; lia).
  assert (Hout : Directed.C s ≤ length (Directed.totalOutWeights s))
    by (vm_compute; lia).
  repeat (split; [assumption|]).
  destruct (directed_zoomOut_keeps_the_communities s Hbel Hlp Hiw Hin Hout)
    as (HC & Hle & HM & _).
  split; [exact HC|]. split; [exact Hle|exact HM].
Defined.

(** ** The easings *)

(** From the canonical rationals to the rationals, where [lra] and [nra]
    decide. *)
Ltac to_rationals :=
  unfold Qclt, Qcle, Qcminus, Qcplus, Qcopp, Qcmult, Q2Qc in *;
  cbn [this] in *; repeat rewrite Qred_correct in *.

Lemma half_double : (Easings.half * 2 = 1)%Qc.
Proof. by apply Qc_is_canon. Qed.

Lemma half_inv : Easings.half = (/ 2)%Qc.
Proof. by apply Qc_is_canon. Qed.

Lemma Qcube_mono (a b : Q) : (a <= b → a * a * a <= b * b * b)%Q.
Proof.
  intros Hab.
  assert (0 <= a * a + a * b + b * b)%Q as Hsq by nra.
  assert (0 <= (b - a) * (a * a + a * b + b * b))%Q as Hp
    by (apply Qmult_le_0_compat; lra).
  lra.
Qed.

(** X28. Each easing that goes out is the mirror of the one that comes in:
    [quadraticOut(k) = 1 - quadraticIn(1 - k)] and
    [cubicOut(k) = 1 - cubicIn(1 - k)], for every [k]. *)
Theorem easings_out_mirror_in (k : Qc) :
  (Easings.quadraticOut k = 1 - Easings.quadraticIn (1 - k)
   ∧ Easings.cubicOut k = 1 - Easings.cubicIn (1 - k))%Qc.
Proof.
  unfold Easings.quadraticOut, Easings.quadraticIn, Easings.cubicOut,
    Easings.cubicIn. cbn zeta. split; ring.
Qed.

Lemma quadraticInOut_symmetric (k : Qc) :
  (Easings.quadraticInOut (1 - k) = 1 - Easings.quadraticInOut k)%Qc.
Proof.
  unfold Easings.quadraticInOut. cbn zeta.
  destruct (Qclt_le_dec ((1 - k) * 2) 1) as [H1|H1];
    destruct (Qclt_le_dec (k * 2) 1) as [H2|H2].
  - exfalso. to_rationals. lra.
  - rewrite half_inv. field. apply Qc_two_neq_0.
  - rewrite half_inv. field. apply Qc_two_neq_0.
  - assert (Hk : (k * 2 = 1)%Qc).
    { apply Qcle_antisym; [|done]. to_rationals. lra. }
    assert (k = Easings.half) as ->.
    { transitivity (k * 2 * Easings.half)%Qc; [|rewrite Hk; ring].
      rewrite <- Qcmult_assoc, (Qcmult_comm 2), half_double. ring. }
    by apply Qc_is_canon.
Qed.

Lemma cubicInOut_symmetric (k : Qc) :
  (Easings.cubicInOut (1 - k) = 1 - Easings.cubicInOut k)%Qc.
Proof.
  unfold Easings.cubicInOut. cbn zeta.
  destruct (Qclt_le_dec ((1 - k) * 2) 1) as [H1|H1];
    destruct (Qclt_le_dec (k * 2) 1) as [H2|H2].
  - exfalso. to_rationals. lra.
  - rewrite half_inv. field. apply Qc_two_neq_0.
  - rewrite half_inv. field. apply Qc_two_neq_0.
  - assert (Hk : (k * 2 = 1)%Qc).
    { apply Qcle_antisym; [|done]. to_rationals. lra. }
    assert (k = Easings.half) as ->.
    { transitivity (k * 2 * Easings.half)%Qc; [|rewrite Hk; ring].
      rewrite <- Qcmult_assoc, (Qcmult_comm 2), half_double. ring. }
    by apply Qc_is_canon.
Qed.

(** X29. The two easings that go in and out are symmetric about the middle
    of the course: [f(1 - k) = 1 - f(k)] for every [k], the two branches of
    each function answering each other and meeting at [k = 0.5]. *)
Theorem easings_inout_symmetric (k : Qc) :
  (Easings.quadraticInOut (1 - k) = 1 - Easings.quadraticInOut k
   ∧ Easings.cubicInOut (1 - k) = 1 - Easings.cubicInOut k)%Qc.
Proof.
  split; [apply quadraticInOut_symmetric|apply cubicInOut_symmetric].
Qed.

(** X30. Every easing the module exports starts at 0, ends at 1 and does
    not decrease in between. *)
Theorem easings_are_monotone (a b : Qc) :
  (0 ≤ a)%Qc → (a ≤ b)%Qc → (b ≤ 1)%Qc →
  Forall (λ f, f (Q2Qc 0) = Q2Qc 0 ∧ f 1%Qc = 1%Qc ∧ (f a ≤ f b)%Qc)
         Easings.exports.
Proof.
  intros H0 Hab H1. unfold Easings.exports.
  repeat apply Forall_cons_2; [..|apply Forall_nil_2];
    (split; [by apply Qc_is_canon|split; [by apply Qc_is_canon|]]).
  - done.
  - unfold Easings.quadraticIn. to_rationals. nra.
  - unfold Easings.quadraticOut. to_rationals. nra.
  - unfold Easings.quadraticInOut, Easings.half. cbn zeta.
    destruct (Qclt_le_dec (a * 2) 1) as [Ha|Ha];
      destruct (Qclt_le_dec (b * 2) 1) as [Hb|Hb]; to_rationals; nra.
  - unfold Easings.cubicIn. to_rationals. by apply Qcube_mono.
  - unfold Easings.cubicOut. cbn zeta. to_rationals.
    pose proof (Qcube_mono (a + - (1)) (b + - (1))). lra.
  - unfold Easings.cubicInOut, Easings.half. cbn zeta.
    destruct (Qclt_le_dec (a * 2) 1) as [Ha|Ha];
      destruct (Qclt_le_dec (b * 2) 1) as [Hb|Hb]; to_rationals.
    + pose proof (Qcube_mono (a * (1 + 1)) (b * (1 + 1))). lra.
    + pose proof (Qcube_mono (a * (1 + 1)) 1).
      pose proof (Qcube_mono (- (1)) (b * (1 + 1) + - (1 + 1))). lra.
    + lra.
    + pose proof (Qcube_mono (a * (1 + 1) + - (1 + 1))
                    (b * (1 + 1) + - (1 + 1))). lra.
Qed.

Lemma easings_are_monotone_witness :
  (0 ≤ Easings.half)%Qc ∧ (Easings.half ≤ 1)%Qc ∧ (1 ≤ 1)%Qc
  ∧ Forall (λ f, f (Q2Qc 0) = Q2Qc 0 ∧ f 1%Qc = 1%Qc
                 ∧ (f Easings.half ≤ f 1)%Qc) Easings.exports.
Proof.
  assert (H0 : (0 ≤ Easings.half)%Qc) by (by vm_compute).
  assert (Hab : (Easings.half ≤ 1)%Qc) by (by vm_compute).
  assert (H1 : (1 ≤ 1)%Qc) by (by vm_compute).
  repeat (split; [assumption|]).
  exact (easings_are_monotone Easings.half 1 H0 Hab H1).
Defined.
